(** * The playlist manager of libaudcore (src/libaudcore/playlist.cc)

    A shallow embedding of the playlist registry, the weak-handle scheme,
    the update bus, the scan scheduler, the playback coordinator and the
    state file of [playlist.cc], with the properties of the design
    document proved (or refuted) on that embedding.

    Conventions of the embedding.
    - A C++ [int] is a [Z].  Signed overflow is undefined in C++: where
      the source adds [int]s that the caller chooses (the guard of
      [reorder_playlists]) the model has no result ([None]) when the sum
      leaves the range of [int]; elsewhere the values stay far from it.
    - The global mutex serialises every operation, so each operation is a
      function from the global state to the global state ([ENTER] and
      [LEAVE] leave no trace in the model).  The one place where the lock
      is given up in the middle of an operation, [pthread_cond_wait] in
      [get_entry], is modelled by the states found at each wake-up.
    - A [Playlist::ID *] is the key of its record in [id_table] (records are
      never removed from the table while the program runs, and the table
      hands out one record per key).  A [PlaylistData *] is identified with
      the [Playlist::ID *] of the record whose [data] points to it.
    - Calls to external collaborators (scanner, playback, hooks, event
      queue) append an [Event] to the [trace] of the state.
    - Dereferencing a null pointer is undefined in C++.  The operations
      that follow [active_id] without a check ([get_blank_locked],
      [new_playlist], and with them [blank_playlist] and
      [temporary_playlist]) have no result ([None]) when it is null, as
      it is between [playlist_init] and the first insertion.  Elsewhere a
      pointer that the code has just tested or set is followed, and the
      model leaves the state as it is should it be null. *)

From Stdlib Require Import ZArith String Ascii List Bool Lia.
From Stdlib Require Import DecimalString DecimalZ DecimalPos DecimalN DecimalFacts.
From stdpp Require Import base gmap list strings.

Local Open Scope string_scope.
Local Open Scope Z_scope.

(** ** Data model *)

(** [enum { ResumeStop, ResumePlay, ResumePause }] *)
Definition ResumeStop : Z := 0.
Definition ResumePlay : Z := 1.
Definition ResumePause : Z := 2.

(** playback hooks *)
Definition SetPlaylist : Z := Z.shiftl 1 0.
Definition SetPosition : Z := Z.shiftl 1 1.
Definition PlaybackBegin : Z := Z.shiftl 1 2.
Definition PlaybackStop : Z := Z.shiftl 1 3.

Definition STATE_FILE : string := "playlist-state".

Definition default_title : string := "New Playlist".
Definition temp_title : string := "Now Playing".

(** Modelled from the spec: [Playlist::UpdateLevel] is declared in
    playlist.h; the levels are ordered None < Metadata < Structure. *)
Inductive UpdateLevel := NoUpdate | Metadata | Structure.

Definition level_num (l : UpdateLevel) : Z :=
  match l with NoUpdate => 0 | Metadata => 1 | Structure => 2 end.

(** [aud::max] on update levels *)
Definition level_max (a b : UpdateLevel) : UpdateLevel :=
  if level_num a <? level_num b then b else a.

Definition level_eqb (a b : UpdateLevel) : bool := level_num a =? level_num b.

(** Modelled from the spec: the flag bits of [PlaylistData::queue_update]
    are declared in playlist-data.h; [DelayedUpdate] is one bit of them. *)
Definition QueueChanged : Z := Z.shiftl 1 0.
Definition DelayedUpdate : Z := Z.shiftl 1 1.

(** Modelled from the spec: the request flags of scanner.h. *)
Definition SCAN_TUPLE : Z := Z.shiftl 1 0.
Definition SCAN_IMAGE : Z := Z.shiftl 1 1.
Definition SCAN_FILE : Z := Z.shiftl 1 2.

(** Modelled from the spec: the bound on outstanding scan requests
    (scanner.h), "a max concurrency SCAN_THREADS (constant, e.g. 2)". *)
Definition SCAN_THREADS : Z := 2.

(** [flags & bit] as a C condition *)
Definition has_flag (flags bit : Z) : bool := negb (Z.land flags bit =? 0).

(** Modelled from the spec: [PlaylistData::scan_status]. *)
Inductive ScanStatus := NotScanning | ScanActive | ScanEnding.

Definition status_eqb (a b : ScanStatus) : bool :=
  match a, b with
  | NotScanning, NotScanning | ScanActive, ScanActive | ScanEnding, ScanEnding => true
  | _, _ => false
  end.

(** Modelled from the spec: a [Tuple] (tuple.h) is a bundle of tag fields
    with a validity state; [is_set] tells whether a field is present. *)
Inductive TupleState := Initial | Valid | Failed.
Inductive TupleField := Title | Artist | Length | StartTime | EndTime.
Inductive TupleValue := TInt (n : Z) | TStr (text : string).

Record Tuple := {
  tuple_state : TupleState;
  tuple_fields : list (TupleField * TupleValue)
}.

Definition field_eqb (a b : TupleField) : bool :=
  match a, b with
  | Title, Title | Artist, Artist | Length, Length
  | StartTime, StartTime | EndTime, EndTime => true
  | _, _ => false
  end.

Fixpoint tuple_lookup (fs : list (TupleField * TupleValue)) (f : TupleField) : option TupleValue :=
  match fs with
  | [] => None
  | (g, v) :: rest => if field_eqb f g then Some v else tuple_lookup rest f
  end.

(** [Tuple ()] *)
Definition empty_Tuple : Tuple := {| tuple_state := Initial; tuple_fields := [] |}.

(** [tuple.valid ()] *)
Definition tuple_valid (t : Tuple) : bool :=
  match tuple_state t with Valid => true | _ => false end.

(** [tuple.is_set (field)] *)
Definition tuple_is_set (t : Tuple) (f : TupleField) : bool :=
  match tuple_lookup (tuple_fields t) f with Some _ => true | None => false end.

(** [tuple.get_int (field)], 0 here when the field holds no integer *)
Definition tuple_get_int (t : Tuple) (f : TupleField) : Z :=
  match tuple_lookup (tuple_fields t) f with Some (TInt n) => n | _ => 0 end.

(** Modelled from the spec: an entry carries "filename, optional decoder
    handle, optional tuple with a validity bit, optional error string,
    number (its current index)".  [e_addr] is the address of the entry
    object: scan items and the playback coordinator compare entry
    pointers. *)
Record PlaylistEntry := {
  e_addr : Z;
  e_filename : string;
  e_decoder : option Z;
  e_tuple : Tuple;
  e_error : option string;
  e_number : Z;
  e_selected : bool
}.

(** Modelled from the spec: the per-playlist update record, "the level and
    the affected entry range [at, at+number)". *)
Record Update := {
  u_level : UpdateLevel;
  u_at : Z;
  u_number : Z
}.

(** [Update ()] *)
Definition empty_Update : Update := {| u_level := NoUpdate; u_at := 0; u_number := 0 |}.

(** Modelled from the spec: the members of [PlaylistData]
    (playlist-data.h) that playlist.cc reads and writes: "entries,
    selection, queue, position, title, filename, modified flag,
    per-playlist scan status, pending-update record".  A null [String] is
    [None]. *)
Record PlaylistData := {
  title : option string;
  filename : option string;
  modified : bool;
  scan_status : ScanStatus;
  resume_time : Z;
  m_entries : list PlaylistEntry;
  m_position : Z;
  m_focus : Z;
  m_next_update : Update;
  m_last_update : Update
}.

(** [struct Playlist::ID] *)
Record ID := {
  stamp : Z;
  index : Z;
  data : option PlaylistData
}.

(** Modelled from the spec: a [ScanRequest] (scanner.h).  [req_addr] is
    the address of the request object; the scanner writes its results
    (decoder, tuple, error) into the object before it calls back. *)
Record ScanRequest := {
  req_addr : Z;
  req_filename : string;
  req_flags : Z;
  req_decoder : option Z;
  req_tuple : Tuple;
  req_error : option string
}.

(** [struct ScanItem] *)
Record ScanItem := {
  item_playlist : Z;
  item_entry : Z;
  item_request : ScanRequest;
  for_playback : bool;
  handled_by_playback : bool
}.

(** Calls that leave playlist.cc. *)
Inductive Event :=
| hook_call (name : string) (arg : option Z)
| event_queue_cancel (name : string)
| event_queue (name : string)
| scanner_request (request : ScanRequest)
| playback_play (seek_time : Z) (pause : bool)
| playback_stop
| playback_set_info (entry : Z) (tuple : Tuple)
| art_clear_current
| aud_drct_pause
| update_entry_from_scan_call (playlist entry request update_flags : Z)
| pthread_cond_broadcast.

(** What playlist.cc asks of its collaborators: the playback state
    ([aud_drct_get_paused], [aud_drct_get_time], [playback_check_serial]),
    the configuration ([aud_get_bool]) and the state file in the user
    directory ([g_fopen]). *)
Record World := {
  drct_paused : bool;
  drct_time : Z;
  playback_serial : option Z;
  metadata_on_play : bool;
  always_resume_paused : bool;
  state_file : option string;
  state_file_writable : bool
}.

(** The static variables of playlist.cc.  [queued_update] is the
    [QueuedFunc] timer: [None] when nothing is queued, [Some d] when the
    [update] callback is queued to run after [d] milliseconds.
    [next_request] numbers the [ScanRequest] objects as [new] creates
    them. *)
Record State := {
  id_table : gmap Z ID;
  next_stamp : Z;
  playlists : list Z;
  active_id : option Z;
  playing_id : option Z;
  resume_playlist : Z;
  resume_paused : bool;
  queued_update : option Z;
  update_level : UpdateLevel;
  update_delayed : bool;
  scan_enabled_nominal : bool;
  scan_enabled : bool;
  scan_playlist : Z;
  scan_row : Z;
  scan_list : list ScanItem;
  next_request : Z;
  world : World;
  trace : list Event
}.

(** The state of the static initialisers. *)
Definition initial_State (w : World) : State := {|
  id_table := ∅;
  next_stamp := 1000;
  playlists := [];
  active_id := None;
  playing_id := None;
  resume_playlist := -1;
  resume_paused := false;
  queued_update := None;
  update_level := NoUpdate;
  update_delayed := false;
  scan_enabled_nominal := false;
  scan_enabled := false;
  scan_playlist := 0;
  scan_row := 0;
  scan_list := [];
  next_request := 0;
  world := w;
  trace := []
|}.

(** ** Record updates

    [with_f v r] is the record [r] with its field [f] set to [v]. *)

Definition with_e_decoder v (e : PlaylistEntry) : PlaylistEntry :=
  {| e_addr := e_addr e; e_filename := e_filename e; e_decoder := v; e_tuple := e_tuple e; e_error := e_error e; e_number := e_number e; e_selected := e_selected e |}.

Definition with_e_tuple v (e : PlaylistEntry) : PlaylistEntry :=
  {| e_addr := e_addr e; e_filename := e_filename e; e_decoder := e_decoder e; e_tuple := v; e_error := e_error e; e_number := e_number e; e_selected := e_selected e |}.

Definition with_e_error v (e : PlaylistEntry) : PlaylistEntry :=
  {| e_addr := e_addr e; e_filename := e_filename e; e_decoder := e_decoder e; e_tuple := e_tuple e; e_error := v; e_number := e_number e; e_selected := e_selected e |}.

Definition with_e_selected v (e : PlaylistEntry) : PlaylistEntry :=
  {| e_addr := e_addr e; e_filename := e_filename e; e_decoder := e_decoder e; e_tuple := e_tuple e; e_error := e_error e; e_number := e_number e; e_selected := v |}.

Definition with_title v (d : PlaylistData) : PlaylistData :=
  {| title := v; filename := filename d; modified := modified d; scan_status := scan_status d; resume_time := resume_time d; m_entries := m_entries d; m_position := m_position d; m_focus := m_focus d; m_next_update := m_next_update d; m_last_update := m_last_update d |}.

Definition with_filename v (d : PlaylistData) : PlaylistData :=
  {| title := title d; filename := v; modified := modified d; scan_status := scan_status d; resume_time := resume_time d; m_entries := m_entries d; m_position := m_position d; m_focus := m_focus d; m_next_update := m_next_update d; m_last_update := m_last_update d |}.

Definition with_modified v (d : PlaylistData) : PlaylistData :=
  {| title := title d; filename := filename d; modified := v; scan_status := scan_status d; resume_time := resume_time d; m_entries := m_entries d; m_position := m_position d; m_focus := m_focus d; m_next_update := m_next_update d; m_last_update := m_last_update d |}.

Definition with_scan_status v (d : PlaylistData) : PlaylistData :=
  {| title := title d; filename := filename d; modified := modified d; scan_status := v; resume_time := resume_time d; m_entries := m_entries d; m_position := m_position d; m_focus := m_focus d; m_next_update := m_next_update d; m_last_update := m_last_update d |}.

Definition with_resume_time v (d : PlaylistData) : PlaylistData :=
  {| title := title d; filename := filename d; modified := modified d; scan_status := scan_status d; resume_time := v; m_entries := m_entries d; m_position := m_position d; m_focus := m_focus d; m_next_update := m_next_update d; m_last_update := m_last_update d |}.

Definition with_m_entries v (d : PlaylistData) : PlaylistData :=
  {| title := title d; filename := filename d; modified := modified d; scan_status := scan_status d; resume_time := resume_time d; m_entries := v; m_position := m_position d; m_focus := m_focus d; m_next_update := m_next_update d; m_last_update := m_last_update d |}.

Definition with_m_position v (d : PlaylistData) : PlaylistData :=
  {| title := title d; filename := filename d; modified := modified d; scan_status := scan_status d; resume_time := resume_time d; m_entries := m_entries d; m_position := v; m_focus := m_focus d; m_next_update := m_next_update d; m_last_update := m_last_update d |}.

Definition with_m_focus v (d : PlaylistData) : PlaylistData :=
  {| title := title d; filename := filename d; modified := modified d; scan_status := scan_status d; resume_time := resume_time d; m_entries := m_entries d; m_position := m_position d; m_focus := v; m_next_update := m_next_update d; m_last_update := m_last_update d |}.

Definition with_m_next_update v (d : PlaylistData) : PlaylistData :=
  {| title := title d; filename := filename d; modified := modified d; scan_status := scan_status d; resume_time := resume_time d; m_entries := m_entries d; m_position := m_position d; m_focus := m_focus d; m_next_update := v; m_last_update := m_last_update d |}.

Definition with_m_last_update v (d : PlaylistData) : PlaylistData :=
  {| title := title d; filename := filename d; modified := modified d; scan_status := scan_status d; resume_time := resume_time d; m_entries := m_entries d; m_position := m_position d; m_focus := m_focus d; m_next_update := m_next_update d; m_last_update := v |}.

Definition with_index v (r : ID) : ID :=
  {| stamp := stamp r; index := v; data := data r |}.

Definition with_data v (r : ID) : ID :=
  {| stamp := stamp r; index := index r; data := v |}.

Definition with_for_playback v (item : ScanItem) : ScanItem :=
  {| item_playlist := item_playlist item; item_entry := item_entry item; item_request := item_request item; for_playback := v; handled_by_playback := handled_by_playback item |}.

Definition with_handled_by_playback v (item : ScanItem) : ScanItem :=
  {| item_playlist := item_playlist item; item_entry := item_entry item; item_request := item_request item; for_playback := for_playback item; handled_by_playback := v |}.

Definition with_state_file v (w : World) : World :=
  {| drct_paused := drct_paused w; drct_time := drct_time w; playback_serial := playback_serial w; metadata_on_play := metadata_on_play w; always_resume_paused := always_resume_paused w; state_file := v; state_file_writable := state_file_writable w |}.

Definition with_id_table v (s : State) : State :=
  {| id_table := v; next_stamp := next_stamp s; playlists := playlists s; active_id := active_id s; playing_id := playing_id s; resume_playlist := resume_playlist s; resume_paused := resume_paused s; queued_update := queued_update s; update_level := update_level s; update_delayed := update_delayed s; scan_enabled_nominal := scan_enabled_nominal s; scan_enabled := scan_enabled s; scan_playlist := scan_playlist s; scan_row := scan_row s; scan_list := scan_list s; next_request := next_request s; world := world s; trace := trace s |}.

Definition with_next_stamp v (s : State) : State :=
  {| id_table := id_table s; next_stamp := v; playlists := playlists s; active_id := active_id s; playing_id := playing_id s; resume_playlist := resume_playlist s; resume_paused := resume_paused s; queued_update := queued_update s; update_level := update_level s; update_delayed := update_delayed s; scan_enabled_nominal := scan_enabled_nominal s; scan_enabled := scan_enabled s; scan_playlist := scan_playlist s; scan_row := scan_row s; scan_list := scan_list s; next_request := next_request s; world := world s; trace := trace s |}.

Definition with_playlists v (s : State) : State :=
  {| id_table := id_table s; next_stamp := next_stamp s; playlists := v; active_id := active_id s; playing_id := playing_id s; resume_playlist := resume_playlist s; resume_paused := resume_paused s; queued_update := queued_update s; update_level := update_level s; update_delayed := update_delayed s; scan_enabled_nominal := scan_enabled_nominal s; scan_enabled := scan_enabled s; scan_playlist := scan_playlist s; scan_row := scan_row s; scan_list := scan_list s; next_request := next_request s; world := world s; trace := trace s |}.

Definition with_active_id v (s : State) : State :=
  {| id_table := id_table s; next_stamp := next_stamp s; playlists := playlists s; active_id := v; playing_id := playing_id s; resume_playlist := resume_playlist s; resume_paused := resume_paused s; queued_update := queued_update s; update_level := update_level s; update_delayed := update_delayed s; scan_enabled_nominal := scan_enabled_nominal s; scan_enabled := scan_enabled s; scan_playlist := scan_playlist s; scan_row := scan_row s; scan_list := scan_list s; next_request := next_request s; world := world s; trace := trace s |}.

Definition with_playing_id v (s : State) : State :=
  {| id_table := id_table s; next_stamp := next_stamp s; playlists := playlists s; active_id := active_id s; playing_id := v; resume_playlist := resume_playlist s; resume_paused := resume_paused s; queued_update := queued_update s; update_level := update_level s; update_delayed := update_delayed s; scan_enabled_nominal := scan_enabled_nominal s; scan_enabled := scan_enabled s; scan_playlist := scan_playlist s; scan_row := scan_row s; scan_list := scan_list s; next_request := next_request s; world := world s; trace := trace s |}.

Definition with_resume_playlist v (s : State) : State :=
  {| id_table := id_table s; next_stamp := next_stamp s; playlists := playlists s; active_id := active_id s; playing_id := playing_id s; resume_playlist := v; resume_paused := resume_paused s; queued_update := queued_update s; update_level := update_level s; update_delayed := update_delayed s; scan_enabled_nominal := scan_enabled_nominal s; scan_enabled := scan_enabled s; scan_playlist := scan_playlist s; scan_row := scan_row s; scan_list := scan_list s; next_request := next_request s; world := world s; trace := trace s |}.

Definition with_resume_paused v (s : State) : State :=
  {| id_table := id_table s; next_stamp := next_stamp s; playlists := playlists s; active_id := active_id s; playing_id := playing_id s; resume_playlist := resume_playlist s; resume_paused := v; queued_update := queued_update s; update_level := update_level s; update_delayed := update_delayed s; scan_enabled_nominal := scan_enabled_nominal s; scan_enabled := scan_enabled s; scan_playlist := scan_playlist s; scan_row := scan_row s; scan_list := scan_list s; next_request := next_request s; world := world s; trace := trace s |}.

Definition with_queued_update v (s : State) : State :=
  {| id_table := id_table s; next_stamp := next_stamp s; playlists := playlists s; active_id := active_id s; playing_id := playing_id s; resume_playlist := resume_playlist s; resume_paused := resume_paused s; queued_update := v; update_level := update_level s; update_delayed := update_delayed s; scan_enabled_nominal := scan_enabled_nominal s; scan_enabled := scan_enabled s; scan_playlist := scan_playlist s; scan_row := scan_row s; scan_list := scan_list s; next_request := next_request s; world := world s; trace := trace s |}.

Definition with_update_level v (s : State) : State :=
  {| id_table := id_table s; next_stamp := next_stamp s; playlists := playlists s; active_id := active_id s; playing_id := playing_id s; resume_playlist := resume_playlist s; resume_paused := resume_paused s; queued_update := queued_update s; update_level := v; update_delayed := update_delayed s; scan_enabled_nominal := scan_enabled_nominal s; scan_enabled := scan_enabled s; scan_playlist := scan_playlist s; scan_row := scan_row s; scan_list := scan_list s; next_request := next_request s; world := world s; trace := trace s |}.

Definition with_update_delayed v (s : State) : State :=
  {| id_table := id_table s; next_stamp := next_stamp s; playlists := playlists s; active_id := active_id s; playing_id := playing_id s; resume_playlist := resume_playlist s; resume_paused := resume_paused s; queued_update := queued_update s; update_level := update_level s; update_delayed := v; scan_enabled_nominal := scan_enabled_nominal s; scan_enabled := scan_enabled s; scan_playlist := scan_playlist s; scan_row := scan_row s; scan_list := scan_list s; next_request := next_request s; world := world s; trace := trace s |}.

Definition with_scan_enabled_nominal v (s : State) : State :=
  {| id_table := id_table s; next_stamp := next_stamp s; playlists := playlists s; active_id := active_id s; playing_id := playing_id s; resume_playlist := resume_playlist s; resume_paused := resume_paused s; queued_update := queued_update s; update_level := update_level s; update_delayed := update_delayed s; scan_enabled_nominal := v; scan_enabled := scan_enabled s; scan_playlist := scan_playlist s; scan_row := scan_row s; scan_list := scan_list s; next_request := next_request s; world := world s; trace := trace s |}.

Definition with_scan_enabled v (s : State) : State :=
  {| id_table := id_table s; next_stamp := next_stamp s; playlists := playlists s; active_id := active_id s; playing_id := playing_id s; resume_playlist := resume_playlist s; resume_paused := resume_paused s; queued_update := queued_update s; update_level := update_level s; update_delayed := update_delayed s; scan_enabled_nominal := scan_enabled_nominal s; scan_enabled := v; scan_playlist := scan_playlist s; scan_row := scan_row s; scan_list := scan_list s; next_request := next_request s; world := world s; trace := trace s |}.

Definition with_scan_playlist v (s : State) : State :=
  {| id_table := id_table s; next_stamp := next_stamp s; playlists := playlists s; active_id := active_id s; playing_id := playing_id s; resume_playlist := resume_playlist s; resume_paused := resume_paused s; queued_update := queued_update s; update_level := update_level s; update_delayed := update_delayed s; scan_enabled_nominal := scan_enabled_nominal s; scan_enabled := scan_enabled s; scan_playlist := v; scan_row := scan_row s; scan_list := scan_list s; next_request := next_request s; world := world s; trace := trace s |}.

Definition with_scan_row v (s : State) : State :=
  {| id_table := id_table s; next_stamp := next_stamp s; playlists := playlists s; active_id := active_id s; playing_id := playing_id s; resume_playlist := resume_playlist s; resume_paused := resume_paused s; queued_update := queued_update s; update_level := update_level s; update_delayed := update_delayed s; scan_enabled_nominal := scan_enabled_nominal s; scan_enabled := scan_enabled s; scan_playlist := scan_playlist s; scan_row := v; scan_list := scan_list s; next_request := next_request s; world := world s; trace := trace s |}.

Definition with_scan_list v (s : State) : State :=
  {| id_table := id_table s; next_stamp := next_stamp s; playlists := playlists s; active_id := active_id s; playing_id := playing_id s; resume_playlist := resume_playlist s; resume_paused := resume_paused s; queued_update := queued_update s; update_level := update_level s; update_delayed := update_delayed s; scan_enabled_nominal := scan_enabled_nominal s; scan_enabled := scan_enabled s; scan_playlist := scan_playlist s; scan_row := scan_row s; scan_list := v; next_request := next_request s; world := world s; trace := trace s |}.

Definition with_next_request v (s : State) : State :=
  {| id_table := id_table s; next_stamp := next_stamp s; playlists := playlists s; active_id := active_id s; playing_id := playing_id s; resume_playlist := resume_playlist s; resume_paused := resume_paused s; queued_update := queued_update s; update_level := update_level s; update_delayed := update_delayed s; scan_enabled_nominal := scan_enabled_nominal s; scan_enabled := scan_enabled s; scan_playlist := scan_playlist s; scan_row := scan_row s; scan_list := scan_list s; next_request := v; world := world s; trace := trace s |}.

Definition with_world v (s : State) : State :=
  {| id_table := id_table s; next_stamp := next_stamp s; playlists := playlists s; active_id := active_id s; playing_id := playing_id s; resume_playlist := resume_playlist s; resume_paused := resume_paused s; queued_update := queued_update s; update_level := update_level s; update_delayed := update_delayed s; scan_enabled_nominal := scan_enabled_nominal s; scan_enabled := scan_enabled s; scan_playlist := scan_playlist s; scan_row := scan_row s; scan_list := scan_list s; next_request := next_request s; world := v; trace := trace s |}.

Definition with_trace v (s : State) : State :=
  {| id_table := id_table s; next_stamp := next_stamp s; playlists := playlists s; active_id := active_id s; playing_id := playing_id s; resume_playlist := resume_playlist s; resume_paused := resume_paused s; queued_update := queued_update s; update_level := update_level s; update_delayed := update_delayed s; scan_enabled_nominal := scan_enabled_nominal s; scan_enabled := scan_enabled s; scan_playlist := scan_playlist s; scan_row := scan_row s; scan_list := scan_list s; next_request := next_request s; world := world s; trace := v |}.

(** ** Pointers, containers and the trace *)

(** [Index::operator[]] with a C++ [int]: nothing outside the bounds *)
Definition index_get {A : Type} (l : list A) (i : Z) : option A :=
  if i <? 0 then None else l !! Z.to_nat i.

(** [Index::len ()] *)
Definition len {A : Type} (l : list A) : Z := Z.of_nat (length l).

(** Comparison of two [Playlist::ID *] *)
Definition ptr_eqb (a b : option Z) : bool :=
  match a, b with
  | Some x, Some y => x =? y
  | None, None => true
  | _, _ => false
  end.

(** [id->data], following the weak pointer *)
Definition get_data (s : State) (id : Z) : option PlaylistData :=
  match id_table s !! id with
  | Some r => data r
  | None => None
  end.

(** An assignment through a [PlaylistData *] *)
Definition update_data (id : Z) (f : PlaylistData → PlaylistData) (s : State) : State :=
  with_id_table (alter (λ r, with_data (f <$> data r) r) id (id_table s)) s.

(** An assignment through a [Playlist::ID *] *)
Definition update_id (id : Z) (f : ID → ID) (s : State) : State :=
  with_id_table (alter f id (id_table s)) s.

(** A call to an external collaborator *)
Definition emit (e : Event) (s : State) : State :=
  with_trace (trace s ++ [e]) s.

(** [List::find]: the first node that matches *)
Fixpoint list_find_first {A : Type} (P : A → bool) (l : list A) : option A :=
  match l with
  | [] => None
  | x :: rest => if P x then Some x else list_find_first P rest
  end.

(** [List::remove] of the node [List::find] returned *)
Fixpoint list_remove_first {A : Type} (P : A → bool) (l : list A) : list A :=
  match l with
  | [] => []
  | x :: rest => if P x then rest else x :: list_remove_first P rest
  end.

(** An assignment through the node [List::find] returned *)
Fixpoint list_alter_first {A : Type} (P : A → bool) (f : A → A) (l : list A) : list A :=
  match l with
  | [] => []
  | x :: rest => if P x then f x :: rest else x :: list_alter_first P f rest
  end.

(** ** The interface of PlaylistData consumed by playlist.cc *)

(** Modelled from the spec: [PlaylistData::n_entries] (playlist-data.cc). *)
Definition n_entries (d : PlaylistData) : Z := len (m_entries d).

(** Modelled from the spec: [PlaylistData::entry_at], null outside the
    entries. *)
Definition entry_at (d : PlaylistData) (i : Z) : option PlaylistEntry :=
  index_get (m_entries d) i.

(** Modelled from the spec: [PlaylistData::position], -1 when no entry is
    current. *)
Definition position (d : PlaylistData) : Z := m_position d.

(** Modelled from the spec: [PlaylistData::set_position (entry, ...)]
    makes [entry] (possibly null) the current entry. *)
Definition PlaylistData_set_position (entry : option PlaylistEntry) (d : PlaylistData) : PlaylistData :=
  with_m_position (match entry with Some e => e_number e | None => -1 end) d.

(** Modelled from the spec: [PlaylistData::focus] and [set_focus]. *)
Definition focus (d : PlaylistData) : Z := m_focus d.
Definition PlaylistData_set_focus (entry_num : Z) (d : PlaylistData) : PlaylistData :=
  with_m_focus (match entry_at d entry_num with Some _ => entry_num | None => -1 end) d.

(** The entry at an address *)
Definition entry_of_addr (d : PlaylistData) (addr : Z) : option PlaylistEntry :=
  list_find_first (λ e, e_addr e =? addr) (m_entries d).

(** An assignment through a [PlaylistEntry *] *)
Definition update_entry (addr : Z) (f : PlaylistEntry → PlaylistEntry) (d : PlaylistData) : PlaylistData :=
  with_m_entries (list_alter_first (λ e, e_addr e =? addr) f (m_entries d)) d.

(** Modelled from the spec: [PlaylistData::select_entry]. *)
Definition PlaylistData_select_entry (entry_num : Z) (selected : bool) (d : PlaylistData) : PlaylistData :=
  match entry_at d entry_num with
  | Some e => update_entry (e_addr e) (with_e_selected selected) d
  | None => d
  end.

(** Modelled from the spec: [PlaylistData::next_unscanned_entry (row)], the
    first row from [row] on whose tuple was never read, or -1. *)
Fixpoint first_unscanned (es : list PlaylistEntry) (row : Z) : Z :=
  match es with
  | [] => -1
  | e :: rest =>
      match tuple_state (e_tuple e) with
      | Initial => row
      | _ => first_unscanned rest (row + 1)
      end
  end.

Definition next_unscanned_entry (d : PlaylistData) (row : Z) : Z :=
  if row <? 0 then -1 else first_unscanned (drop (Z.to_nat row) (m_entries d)) row.

(** Modelled from the spec: [update_pending], [last_update],
    [swap_updates] ("moves its pending update record into its last update
    slot") and [cancel_updates]. *)
Definition PlaylistData_update_pending (d : PlaylistData) : bool :=
  negb (level_eqb (u_level (m_next_update d)) NoUpdate).

Definition swap_updates (d : PlaylistData) : PlaylistData :=
  with_m_next_update empty_Update (with_m_last_update (m_next_update d) d).

Definition cancel_updates (d : PlaylistData) : PlaylistData :=
  with_m_next_update empty_Update d.

(** The pending update record after one more request for
    [at, at + number) *)
Definition merge_update (u : Update) (level : UpdateLevel) (at_ number : Z) : Update :=
  if level_eqb (u_level u) NoUpdate
  then {| u_level := level; u_at := at_; u_number := number |}
  else {| u_level := level_max (u_level u) level;
          u_at := Z.min (u_at u) at_;
          u_number := Z.max (u_at u + u_number u) (at_ + number) - Z.min (u_at u) at_ |}.

(** ** The scan scheduler *)

(** [scan_list_find_entry] *)
Definition scan_list_find_entry (entry : Z) (s : State) : option ScanItem :=
  list_find_first (λ item, item_entry item =? entry) (scan_list s).

(** [scan_queue_entry] *)
Definition scan_queue_entry (playlist : Z) (entry : PlaylistEntry) (for_pb : bool) (s : State) : State :=
  let flags := 0 in
  let flags := if negb (tuple_valid (e_tuple entry)) then Z.lor flags SCAN_TUPLE else flags in
  let flags := if for_pb then Z.lor flags (Z.lor SCAN_IMAGE SCAN_FILE) else flags in
  (* scanner uses Tuple::AudioFile from existing tuple, if valid *)
  let request :=
    {| req_addr := next_request s;
       req_filename := e_filename entry;
       req_flags := flags;
       req_decoder := e_decoder entry;
       req_tuple := if has_flag flags SCAN_TUPLE then empty_Tuple else e_tuple entry;
       req_error := None |} in
  let s := with_next_request (next_request s + 1) s in
  let s := with_scan_list
             (scan_list s ++ [ {| item_playlist := playlist;
                                  item_entry := e_addr entry;
                                  item_request := request;
                                  for_playback := for_pb;
                                  handled_by_playback := false |} ]) s in
  (* playback entry will be scanned by the playback thread *)
  if negb for_pb then emit (scanner_request request) s else s.

(** [scan_reset_playback] *)
Definition scan_reset_playback (s : State) : State :=
  match list_find_first for_playback (scan_list s) with
  | None => s
  | Some item =>
      let s := with_scan_list
                 (list_alter_first for_playback (with_for_playback false) (scan_list s)) s in
      (* if playback was canceled before the entry was scanned, requeue it *)
      if negb (handled_by_playback item)
      then emit (scanner_request (item_request item)) s
      else s
  end.

(** [scan_check_complete] *)
Definition scan_check_complete (playlist : Z) (s : State) : State :=
  match get_data s playlist with
  | None => s
  | Some d =>
      if negb (status_eqb (scan_status d) ScanEnding)
         || bool_decide (is_Some (list_find_first (λ item, item_playlist item =? playlist) (scan_list s)))
      then s
      else
        let s := update_data playlist (with_scan_status NotScanning) s in
        let s := if update_delayed s
                 then with_update_delayed false (with_queued_update (Some 0) s)
                 else s in
        let s := emit (event_queue_cancel "playlist scan complete") s in
        emit (event_queue "playlist scan complete") s
  end.

(** The inner loop of [scan_queue_next_entry] over the rows of one
    playlist; [true] when an entry was queued, [false] at the [break].
    Every turn moves [scan_row] forward, so [n_entries] turns are enough
    ([fuel] counts them). *)
Fixpoint scan_queue_next_row (fuel : nat) (playlist : Z) (s : State) : State * bool :=
  match get_data s playlist with
  | None => (s, false)
  | Some d =>
      let s := with_scan_row (next_unscanned_entry d (scan_row s)) s in
      if scan_row s <? 0 then (s, false)
      else
        match entry_at d (scan_row s) with
        | None => (s, false)
        | Some entry =>
            (* blacklist stdin *)
            if negb (bool_decide (is_Some (scan_list_find_entry (e_addr entry) s)))
               && negb (String.prefix "stdin://" (e_filename entry))
            then (scan_queue_entry playlist entry false s, true)
            else
              match fuel with
              | O => (s, false)
              | S fuel' => scan_queue_next_row fuel' playlist (with_scan_row (scan_row s + 1) s)
              end
        end
  end.

(** The outer loop of [scan_queue_next_entry] over the playlists from
    [scan_playlist] on; every turn moves [scan_playlist] forward. *)
Fixpoint scan_queue_next_playlist (fuel : nat) (s : State) : State * bool :=
  if scan_playlist s <? len (playlists s) then
    match index_get (playlists s) (scan_playlist s) with
    | None => (s, false)
    | Some playlist =>
        let '(s, found) :=
          match get_data s playlist with
          | Some d =>
              if status_eqb (scan_status d) ScanActive then
                let '(s, found) := scan_queue_next_row (length (m_entries d)) playlist s in
                if found then (s, true)
                else
                  let s := update_data playlist (with_scan_status ScanEnding) s in
                  (scan_check_complete playlist s, false)
              else (s, false)
          | None => (s, false)
          end in
        if found then (s, true)
        else
          let s := with_scan_playlist (scan_playlist s + 1) s in
          let s := with_scan_row 0 s in
          match fuel with
          | O => (s, false)
          | S fuel' => scan_queue_next_playlist fuel' s
          end
    end
  else (s, false).

(** [scan_queue_next_entry] *)
Definition scan_queue_next_entry (s : State) : State * bool :=
  if negb (scan_enabled s) then (s, false)
  else scan_queue_next_playlist (length (playlists s)) s.

(** The [for] loop of [scan_schedule] over the items in flight: [None]
    when it returns from the function, else the count. *)
Fixpoint scan_count_scheduled (items : list ScanItem) (scheduled : Z) : option Z :=
  match items with
  | [] => Some scheduled
  | _ :: rest =>
      if SCAN_THREADS <=? scheduled + 1 then None
      else scan_count_scheduled rest (scheduled + 1)
  end.

(** The [while] loop of [scan_schedule]; it returns once [SCAN_THREADS]
    are scheduled, so [SCAN_THREADS] turns are enough. *)
Fixpoint scan_schedule_more (fuel : nat) (scheduled : Z) (s : State) : State :=
  let '(s, queued) := scan_queue_next_entry s in
  if queued then
    if SCAN_THREADS <=? scheduled + 1 then s
    else
      match fuel with
      | O => s
      | S fuel' => scan_schedule_more fuel' (scheduled + 1) s
      end
  else s.

(** [scan_schedule] *)
Definition scan_schedule (s : State) : State :=
  match scan_count_scheduled (scan_list s) 0 with
  | None => s
  | Some scheduled => scan_schedule_more (Z.to_nat (SCAN_THREADS - scheduled)) scheduled s
  end.

(** [scan_cancel] *)
Definition scan_cancel (entry : Z) (s : State) : State :=
  match scan_list_find_entry entry s with
  | None => s
  | Some _ => with_scan_list (list_remove_first (λ item, item_entry item =? entry) (scan_list s)) s
  end.

(** [scan_restart] *)
Definition scan_restart (s : State) : State :=
  let s := with_scan_playlist 0 s in
  let s := with_scan_row 0 s in
  scan_schedule s.

(** ** The update bus *)

(** [update], the callback of the [queued_update] timer.  The timer has
    fired, so nothing is queued any more. *)
Definition update (s : State) : State :=
  let s := with_queued_update None s in
  let s := foldl (λ s p, update_data p swap_updates s) s (playlists s) in
  let level := update_level s in
  let s := with_update_level NoUpdate s in
  let s := with_update_delayed false s in
  emit (hook_call "playlist update" (Some (level_num level))) s.

(** [queue_global_update] *)
Definition queue_global_update (level : UpdateLevel) (flags : Z) (s : State) : State :=
  let s := if level_eqb level Structure then scan_restart s else s in
  let s :=
    if has_flag flags DelayedUpdate then
      if level_eqb (update_level s) NoUpdate
      then with_update_delayed true (with_queued_update (Some 250) s)
      else s
    else
      if level_eqb (update_level s) NoUpdate || update_delayed s
      then with_update_delayed false (with_queued_update (Some 0) s)
      else s in
  with_update_level (level_max (update_level s) level) s.

(** [Playlist::update_pending_any] *)
Definition update_pending_any (s : State) : bool :=
  negb (level_eqb (update_level s) NoUpdate).

(** ** Signals from PlaylistData *)

(** [pl_signal_entry_deleted] *)
Definition pl_signal_entry_deleted (entry : Z) (s : State) : State :=
  scan_cancel entry s.

(** [pl_signal_update_queued] *)
Definition pl_signal_update_queued (id : Z) (level : UpdateLevel) (flags : Z) (s : State) : State :=
  match get_data s id with
  | None => s
  | Some playlist =>
      let s := if level_eqb level Structure
               then update_data id (with_scan_status ScanActive) s
               else s in
      let s :=
        if level_num Metadata <=? level_num level then
          let pos := position playlist in
          let s :=
            if ptr_eqb (Some id) (playing_id s) && (0 <=? pos) then
              match entry_at playlist pos with
              | Some entry => emit (playback_set_info pos (e_tuple entry)) s
              | None => s
              end
            else s in
          update_data id (with_modified true) s
        else s in
      queue_global_update level flags s
  end.

(** [pl_signal_playlist_deleted] *)
Definition pl_signal_playlist_deleted (id : Z) (s : State) : State :=
  (* break weak pointer link *)
  let s := update_id id (with_data None) s in
  update_id id (with_index (-1)) s.

(** Modelled from the spec: [PlaylistData::queue_update (level, at,
    number, flags)] (playlist-data.cc) accumulates the request in the
    pending update record and signals playlist.cc. *)
Definition queue_update (id : Z) (level : UpdateLevel) (at_ number flags : Z) (s : State) : State :=
  let s := update_data id (λ d, with_m_next_update (merge_update (m_next_update d) level at_ number) d) s in
  pl_signal_update_queued id level flags s.

(** Modelled from the spec: [PlaylistData::set_entry_tuple (entry, tuple)]
    (playlist-data.cc) gives the entry the new tuple. *)
Definition set_entry_tuple (id entry : Z) (tuple : Tuple) (s : State) : State :=
  update_data id (update_entry entry (with_e_tuple tuple)) s.

(** Modelled from the spec: [PlaylistData::update_entry_from_scan (entry,
    request, update_flags)] (playlist-data.cc) merges what the scanner read
    into the entry and queues a [Metadata] update for it with the flags it
    was given. *)
Definition update_entry_from_scan (id entry : Z) (request : ScanRequest) (update_flags : Z) (s : State) : State :=
  let s := emit (update_entry_from_scan_call id entry (req_addr request) update_flags) s in
  match get_data s id with
  | None => s
  | Some d =>
      match entry_of_addr d entry with
      | None => s
      | Some e =>
          let fill_decoder (e : PlaylistEntry) :=
            match e_decoder e with
            | None => with_e_decoder (req_decoder request) e
            | Some _ => e
            end in
          let fill_tuple (e : PlaylistEntry) :=
            if negb (tuple_valid (e_tuple e)) then
              if tuple_valid (req_tuple request)
              then with_e_tuple (req_tuple request) e
              else with_e_error (req_error request)
                     (with_e_tuple {| tuple_state := Failed; tuple_fields := tuple_fields (e_tuple e) |} e)
            else e in
          let s := update_data id (update_entry entry (λ e, fill_tuple (fill_decoder e))) s in
          queue_update id Metadata (e_number e) 1 update_flags s
      end
  end.

(** Modelled from the spec: the destructor of [PlaylistData]
    (playlist-data.cc): "entry deletion cancels any in-flight scan for that
    entry", and the deletion of the playlist "nulls id.data and sets
    id.index = -1". *)
Definition PlaylistData_destroy (id : Z) (s : State) : State :=
  match get_data s id with
  | None => s
  | Some d =>
      let s := foldl (λ s e, pl_signal_entry_deleted (e_addr e) s) s (m_entries d) in
      pl_signal_playlist_deleted id s
  end.

(** [scan_finish], the callback of the scanner; [request] is the request
    object as the scanner left it. *)
Definition scan_finish (request : ScanRequest) (s : State) : State :=
  let this_request (item : ScanItem) := req_addr (item_request item) =? req_addr request in
  match list_find_first this_request (scan_list s) with
  | None => s
  | Some item =>
      let playlist := item_playlist item in
      let entry := item_entry item in
      let s := with_scan_list (list_remove_first this_request (scan_list s)) s in
      match get_data s playlist with
      | None => s
      | Some d =>
          (* only use delayed update if a scan is still in progress *)
          let update_flags := 0 in
          let update_flags :=
            if scan_enabled s && negb (status_eqb (scan_status d) NotScanning)
            then DelayedUpdate
            else update_flags in
          let s := update_entry_from_scan playlist entry request update_flags s in
          let s := scan_check_complete playlist s in
          let s := scan_schedule s in
          emit pthread_cond_broadcast s
      end
  end.

(** ** Waiting for an entry *)

(** One turn of the [while (1)] of [get_entry]: either the function
    returns, or the thread reaches [pthread_cond_wait] ([queued] tells
    whether this turn called [scan_queue_entry]). *)
Inductive GetEntryTurn :=
| TurnReturn (entry : option PlaylistEntry)
| TurnWait (queued : bool) (s : State).

Definition get_entry_turn (id : option Z) (entry_num : Z) (need_decoder need_tuple : bool)
    (scan_started : bool) (s : State) : GetEntryTurn :=
  match id with
  | None => TurnReturn None
  | Some i =>
      match get_data s i with
      | None => TurnReturn None
      | Some d =>
          match entry_at d entry_num with
          | None => TurnReturn None
          | Some entry =>
              (* check whether entry was deleted; also blacklist stdin *)
              if String.prefix "stdin://" (e_filename entry) then TurnReturn (Some entry)
              (* check whether requested data (decoder and/or tuple) has been read *)
              else if (negb need_decoder || bool_decide (is_Some (e_decoder entry)))
                      && (negb need_tuple || tuple_valid (e_tuple entry))
              then TurnReturn (Some entry)
              else
                (* start scan if not already running ... *)
                match scan_list_find_entry (e_addr entry) s with
                | None =>
                    (* ... but only once *)
                    if scan_started then TurnReturn (Some entry)
                    else TurnWait true (scan_queue_entry i entry false s)
                | Some _ => TurnWait false s
                end
          end
      end
  end.

(** The outcome of [get_entry]: it returned [entry], or it is still
    blocked in [pthread_cond_wait] after the wake-ups it was given. *)
Inductive GetEntry :=
| Returned (entry : option PlaylistEntry) (s : State)
| Blocked (s : State).

(** [get_entry].  The mutex is unlocked during [pthread_cond_wait]:
    [wakeups] lists the states in which the thread finds the program each
    time the wait returns, whatever the other threads did meanwhile.  The
    second component counts the calls of [scan_queue_entry] made here. *)
Fixpoint get_entry_loop (wakeups : list State) (id : option Z) (entry_num : Z)
    (need_decoder need_tuple : bool) (scan_started : bool) (s : State) : GetEntry * Z :=
  match get_entry_turn id entry_num need_decoder need_tuple scan_started s with
  | TurnReturn entry => (Returned entry s, 0)
  | TurnWait queued s =>
      (* wait for scan to finish *)
      let n := if queued then 1 else 0 in
      match wakeups with
      | [] => (Blocked s, n)
      | woken :: rest =>
          let '(r, m) := get_entry_loop rest id entry_num need_decoder need_tuple true woken in
          (r, n + m)
      end
  end.

Definition get_entry (wakeups : list State) (id : option Z) (entry_num : Z)
    (need_decoder need_tuple : bool) (s : State) : GetEntry :=
  fst (get_entry_loop wakeups id entry_num need_decoder need_tuple false s).

(** ** Playback start and stop *)

(** [start_playback_locked] *)
Definition start_playback_locked (seek_time : Z) (pause : bool) (s : State) : State :=
  let s := emit art_clear_current s in
  let s := scan_reset_playback s in
  let s := emit (playback_play seek_time pause) s in
  match playing_id s with
  | None => s
  | Some playlist =>
      match get_data s playlist with
      | None => s
      | Some d =>
          match entry_at d (position d) with
          | None => s
          | Some entry =>
              (* playback always begins with a rescan of the current entry in
                 order to open the file, ensure a valid tuple, and read album art *)
              let s := scan_cancel (e_addr entry) s in
              scan_queue_entry playlist entry true s
          end
      end
  end.

(** [stop_playback_locked] *)
Definition stop_playback_locked (s : State) : State :=
  let s := emit art_clear_current s in
  let s := scan_reset_playback s in
  emit playback_stop s.

(** ** Lifecycle *)

(** [playlist_init] ([srand], the title formatter and the hook
    associations are outside the model) *)
Definition playlist_init (s : State) : State :=
  let s := with_update_level NoUpdate s in
  let s := with_update_delayed false s in
  let s := with_scan_enabled false s in
  let s := with_scan_row 0 (with_scan_playlist 0 s) in
  s.

(** [playlist_enable_scan] *)
Definition playlist_enable_scan (enable : bool) (s : State) : State :=
  let s := with_scan_enabled_nominal enable s in
  let s := with_scan_enabled (scan_enabled_nominal s && negb (metadata_on_play (world s))) s in
  scan_restart s.

(** [playlist_trigger_scan] *)
Definition playlist_trigger_scan (s : State) : State :=
  let s := with_scan_enabled (scan_enabled_nominal s && negb (metadata_on_play (world s))) s in
  scan_restart s.

(** ** The registry *)

(** Modelled from the spec: the constructor of [PlaylistData]
    (playlist-data.cc): an empty playlist with the title given. *)
Definition new_PlaylistData (title_ : string) : PlaylistData :=
  {| title := Some title_; filename := None; modified := true;
     scan_status := NotScanning; resume_time := 0;
     m_entries := []; m_position := -1; m_focus := -1;
     m_next_update := empty_Update; m_last_update := empty_Update |}.

(** [while (id_table.lookup (next_stamp)) next_stamp ++;] the table holds
    [size id_table] stamps, so that many increments are enough. *)
Fixpoint advance_next_stamp (fuel : nat) (table : gmap Z ID) (n : Z) : Z :=
  match table !! n with
  | None => n
  | Some _ =>
      match fuel with
      | O => n
      | S fuel' => advance_next_stamp fuel' table (n + 1)
      end
  end.

(** [create_playlist]: creates a new playlist with the requested stamp (if
    not already in use) *)
Definition create_playlist (stamp_ : Z) (s : State) : Z * State :=
  let '(id, s) :=
    if (0 <=? stamp_) && negb (bool_decide (is_Some (id_table s !! stamp_)))
    then (stamp_,
          with_id_table (<[stamp_ := {| stamp := stamp_; index := -1; data := None |}]> (id_table s)) s)
    else
      let s := with_next_stamp (advance_next_stamp (size (id_table s)) (id_table s) (next_stamp s)) s in
      (next_stamp s,
       with_id_table
         (<[next_stamp s := {| stamp := next_stamp s; index := -1; data := None |}]> (id_table s)) s) in
  let s := update_id id (with_data (Some (new_PlaylistData default_title))) s in
  (id, s).

(** [number_playlists] *)
Definition number_playlists (at_ length_ : Z) (s : State) : State :=
  foldl (λ s i,
           match index_get (playlists s) i with
           | Some p => update_id p (with_index i) s
           | None => s
           end) s (seqZ at_ length_).

(** [insert_playlist_locked] *)
Definition insert_playlist_locked (at_ stamp_ : Z) (s : State) : Z * State :=
  let at_ := if (at_ <? 0) || (len (playlists s) <? at_) then len (playlists s) else at_ in
  let '(id, s) := create_playlist stamp_ s in
  let s := with_playlists
             (take (Z.to_nat at_) (playlists s) ++ id :: drop (Z.to_nat at_) (playlists s)) s in
  let s := number_playlists at_ (len (playlists s) - at_) s in
  (* this will only happen at startup *)
  let s := match active_id s with
           | None => with_active_id (Some id) s
           | Some _ => s
           end in
  let s := queue_update id Structure 0 0 0 s in
  (id, s).

(** [Playlist::index], read through a pointer known to be live *)
Definition id_index (s : State) (id : Z) : Z :=
  match id_table s !! id with
  | Some r => index r
  | None => -1
  end.

(** [get_blank_locked].  The function follows [active_id] and its [data]
    without a check: with a null [active_id] (or one whose playlist is
    gone) the behaviour is undefined, and there is no result. *)
Definition get_blank_locked (s : State) : option (option Z * State) :=
  match active_id s with
  | None => None
  | Some active =>
      match get_data s active with
      | None => None
      | Some d =>
          if bool_decide (title d = Some default_title) && (n_entries d =? 0)
          then Some (Some active, s)
          else
            let '(id, s) := insert_playlist_locked (id_index s active + 1) (-1) s in
            Some (Some id, s)
      end
  end.

(** [PlaylistEx::insert_with_stamp] *)
Definition insert_with_stamp (at_ stamp_ : Z) (s : State) : option Z * State :=
  let '(id, s) := insert_playlist_locked at_ stamp_ s in
  (Some id, s).

(** [Playlist::insert_playlist] *)
Definition insert_playlist (at_ : Z) (s : State) : option Z * State :=
  let '(id, s) := insert_playlist_locked at_ (-1) s in
  (Some id, s).

(** Modelled from the spec: [Index::move_from] and [Index::shift]
    (index.h) as [reorder_playlists] uses them: a slice is taken out of
    the index, the [count] items are shifted from [from] to [to], and the
    slice is put back on the other side of them. *)
Definition index_slice {A : Type} (l : list A) (at_ count : Z) : list A :=
  take (Z.to_nat count) (drop (Z.to_nat at_) l).

(** The largest [int] *)
Definition INT_MAX : Z := 2147483647.

(** The sums [from + count] and [to + count] that the guard of
    [reorder_playlists] computes, in the order of its [||], leave the
    range of [int]: [from + count] is computed when [from] is not
    negative, [to + count] when the checks before it did not return. *)
Definition reorder_overflows (from to count : Z) (s : State) : bool :=
  (0 <=? from)
  && ((INT_MAX <? from + count)
      || ((from + count <=? len (playlists s)) && (0 <=? to) && (INT_MAX <? to + count))).

(** [Playlist::reorder_playlists]; no result when the guard overflows *)
Definition reorder_playlists (from to count : Z) (s : State) : option State :=
  if reorder_overflows from to count s then None
  else if (from <? 0) || (len (playlists s) <? from + count) || (to <? 0)
     || (len (playlists s) <? to + count) || (count <? 0)
  then Some s
  else
    let displaced :=
      if to <? from
      then index_slice (playlists s) to (from - to)
      else index_slice (playlists s) (from + count) (to - from) in
    let moved := index_slice (playlists s) from count in
    let s :=
      if to <? from then
        let s := with_playlists
                   (take (Z.to_nat to) (playlists s) ++ moved ++ displaced
                      ++ drop (Z.to_nat (from + count)) (playlists s)) s in
        number_playlists to (from + count - to) s
      else
        let s := with_playlists
                   (take (Z.to_nat from) (playlists s) ++ displaced ++ moved
                      ++ drop (Z.to_nat (to + count)) (playlists s)) s in
        number_playlists from (to + count - from) s in
    Some (queue_global_update Structure 0 s).

(** [playlists.remove (at, 1)]: the playlist at [at] is destroyed and its
    slot closed. *)
Definition playlists_remove (at_ : Z) (s : State) : State :=
  match index_get (playlists s) at_ with
  | None => s
  | Some p =>
      let s := PlaylistData_destroy p s in
      with_playlists (delete (Z.to_nat at_) (playlists s)) s
  end.

(** [Playlist::remove_playlist] *)
Definition remove_playlist (m_id : option Z) (s : State) : State :=
  match m_id with
  | None => s
  | Some id =>
      match get_data s id with
      | None => s
      | Some _ =>
          let at_ := id_index s id in
          let s := playlists_remove at_ s in
          let s := if len (playlists s) =? 0
                   then
                     let '(fresh, s) := create_playlist (-1) s in
                     with_playlists (playlists s ++ [fresh]) s
                   else s in
          let s := number_playlists at_ (len (playlists s) - at_) s in
          let was_active := ptr_eqb m_id (active_id s) in
          let s := if was_active
                   then
                     let active_num := Z.min at_ (len (playlists s) - 1) in
                     with_active_id (index_get (playlists s) active_num) s
                   else s in
          let was_playing := ptr_eqb m_id (playing_id s) in
          let s := if was_playing
                   then stop_playback_locked (with_playing_id None s)
                   else s in
          let s := queue_global_update Structure 0 s in
          let s := if was_active then emit (hook_call "playlist activate" None) s else s in
          if was_playing
          then emit (hook_call "playback stop" None)
                 (emit (hook_call "playlist set playing" None) s)
          else s
      end
  end.

(** [Playlist::activate] *)
Definition activate (m_id : option Z) (s : State) : State :=
  match m_id with
  | None => s
  | Some id =>
      match get_data s id with
      | None => s
      | Some _ =>
          if negb (ptr_eqb m_id (active_id s))
          then emit (hook_call "playlist activate" None) (with_active_id m_id s)
          else s
      end
  end.

(** [Playlist::active_playlist] and [Playlist::playing_playlist] *)
Definition active_playlist (s : State) : option Z := active_id s.
Definition playing_playlist (s : State) : option Z := playing_id s.

(** [Playlist::n_playlists] and [Playlist::by_index] *)
Definition n_playlists (s : State) : Z := len (playlists s).
Definition by_index (at_ : Z) (s : State) : option Z :=
  if (0 <=? at_) && (at_ <? len (playlists s)) then index_get (playlists s) at_ else None.

(** [Playlist::new_playlist].  [active_id->index] is read without a check:
    with a null [active_id] the behaviour is undefined, and there is no
    result. *)
Definition new_playlist (s : State) : option (option Z * State) :=
  match active_id s with
  | None => None
  | Some active =>
      let at_ := id_index s active + 1 in
      let '(id, s) := insert_playlist_locked at_ (-1) s in
      let s := with_active_id (Some id) s in
      Some (Some id, emit (hook_call "playlist activate" None) s)
  end.

(** ** The operations of PlaylistData left open

    playlist.cc forwards most of its public operations to methods of
    [PlaylistData] whose bodies are in playlist-data.cc.  What they compute
    is a parameter of the development: a [const] method is a function of
    the playlist data, any other method runs on the playlist of the ID
    given and may change the whole state (it may signal playlist.cc). *)

Inductive CompareData :=
| compare_filename (compare : string → string → Z)
| compare_tuple (compare : Tuple → Tuple → Z).

Record PlaylistAddItem := {
  add_filename : string;
  add_tuple : Tuple;
  add_decoder : option Z
}.

Class PlaylistDataMethods := {
  pd_entry_selected : Z → PlaylistData → bool;
  pd_n_selected : Z → Z → PlaylistData → Z;
  pd_select_all : bool → Z → State → State;
  pd_shift_entries : Z → Z → Z → State → State * Z;
  pd_sort : CompareData → Z → State → State;
  pd_sort_selected : CompareData → Z → State → State;
  pd_reverse_order : Z → State → State;
  pd_reverse_selected : Z → State → State;
  pd_randomize_order : Z → State → State;
  pd_randomize_selected : Z → State → State;
  pd_total_length : PlaylistData → Z;
  pd_selected_length : PlaylistData → Z;
  pd_n_queued : PlaylistData → Z;
  pd_queue_insert : Z → Z → Z → State → State;
  pd_queue_insert_selected : Z → Z → State → State;
  pd_queue_get_entry : Z → PlaylistData → Z;
  pd_queue_find_entry : Z → PlaylistData → Z;
  pd_queue_remove : Z → Z → Z → State → State;
  pd_queue_remove_selected : Z → State → State;
  pd_insert_items : Z → list PlaylistAddItem → Z → State → State;
  pd_remove_entries : Z → Z → Z → State → State * bool;
  pd_remove_selected : Z → State → State * bool;
  pd_prev_song : PlaylistData → PlaylistData * bool;
  pd_next_song : bool → Z → PlaylistData → PlaylistData * bool;
  pd_reset_tuples : bool → Z → State → State
}.

Section Playlist.

Context {methods : PlaylistDataMethods}.

(** ** The playback coordinator *)

(** [set_playing_locked] *)
Definition set_playing_locked (id : option Z) (paused : bool) (s : State) : State * Z :=
  if ptr_eqb id (playing_id s) then
    (* already playing, just need to pause/unpause *)
    let s := if negb (eqb (drct_paused (world s)) paused) then emit aud_drct_pause s else s in
    (s, 0)
  else
    let playback_hooks := SetPlaylist in
    let s := match playing_id s with
             | Some playing => update_data playing (with_resume_time (drct_time (world s))) s
             | None => s
             end in
    (* is there anything to play? *)
    let '(id, playback_hooks, s) :=
      match id with
      | Some i =>
          match get_data s i with
          | Some d =>
              if position d <? 0 then
                let '(d, moved) := pd_next_song true 0 d in
                let s := update_data i (λ _, d) s in
                if moved then (id, Z.lor playback_hooks SetPosition, s)
                else (None, playback_hooks, s)
              else (id, playback_hooks, s)
          | None => (id, playback_hooks, s)
          end
      | None => (id, playback_hooks, s)
      end in
    let s := with_playing_id id s in
    match id with
    | Some i =>
        let seek_time := match get_data s i with Some d => resume_time d | None => 0 end in
        (start_playback_locked seek_time paused s, Z.lor playback_hooks PlaybackBegin)
    | None => (stop_playback_locked s, Z.lor playback_hooks PlaybackStop)
    end.

(** [call_playback_hooks] *)
Definition call_playback_hooks (playlist : option Z) (hooks : Z) (s : State) : State :=
  let s := if has_flag hooks SetPlaylist then emit (hook_call "playlist set playing" None) s else s in
  let s := if has_flag hooks SetPosition then emit (hook_call "playlist position" playlist) s else s in
  let s := if has_flag hooks PlaybackBegin then emit (hook_call "playback begin" None) s else s in
  if has_flag hooks PlaybackStop then emit (hook_call "playback stop" None) s else s.

(** [change_playback]: updates playback state (while locked) if playlist
    position was changed *)
Definition change_playback (id : Z) (s : State) : State * Z :=
  let hooks := SetPosition in
  if ptr_eqb (Some id) (playing_id s) then
    match get_data s id with
    | Some d =>
        if 0 <=? position d
        then (start_playback_locked 0 (drct_paused (world s)) s, Z.lor hooks PlaybackBegin)
        else (stop_playback_locked (with_playing_id None s),
              Z.lor hooks (Z.lor SetPlaylist PlaybackStop))
    | None => (s, hooks)
    end
  else (s, hooks).

(** ** The public operations through a handle

    A [Playlist] value is a handle [m_id], a possibly null
    [Playlist::ID *]. *)

(** [ENTER_GET_PLAYLIST (failcode)] followed by [body] *)
Definition ENTER_GET_PLAYLIST {R : Type} (failcode : R) (m_id : option Z) (s : State)
    (body : Z → PlaylistData → State * R) : State * R :=
  match m_id with
  | None => (s, failcode)
  | Some id =>
      match get_data s id with
      | None => (s, failcode)
      | Some playlist => body id playlist
      end
  end.

(** [ENTER_GET_ENTRY (failcode)] followed by [body] *)
Definition ENTER_GET_ENTRY {R : Type} (failcode : R) (m_id : option Z) (entry_num : Z) (s : State)
    (body : Z → PlaylistData → PlaylistEntry → State * R) : State * R :=
  ENTER_GET_PLAYLIST failcode m_id s (λ id playlist,
    match entry_at playlist entry_num with
    | None => (s, failcode)
    | Some entry => body id playlist entry
    end).

(** [SIMPLE_WRAPPER] around a [const] method *)
Definition SIMPLE_WRAPPER {R : Type} (failcode : R) (func : PlaylistData → R)
    (m_id : option Z) (s : State) : State * R :=
  ENTER_GET_PLAYLIST failcode m_id s (λ _ playlist, (s, func playlist)).

(** [SIMPLE_WRAPPER] around a method that may change the state *)
Definition SIMPLE_WRAPPER_mut {R : Type} (failcode : R) (func : Z → State → State * R)
    (m_id : option Z) (s : State) : State * R :=
  ENTER_GET_PLAYLIST failcode m_id s (λ id _, func id s).

(** [SIMPLE_VOID_WRAPPER] *)
Definition SIMPLE_VOID_WRAPPER (func : Z → State → State) (m_id : option Z) (s : State) : State :=
  fst (ENTER_GET_PLAYLIST tt m_id s (λ id _, (func id s, tt))).

Definition Playlist_scan_in_progress (m_id : option Z) (s : State) : State * bool :=
  ENTER_GET_PLAYLIST false m_id s (λ _ playlist,
    (s, negb (status_eqb (scan_status playlist) NotScanning))).

(** [Playlist::scan_in_progress_any] *)
Definition scan_in_progress_any (s : State) : bool :=
  foldl (λ scanning p,
           match get_data s p with
           | Some d => if negb (status_eqb (scan_status d) NotScanning) then true else scanning
           | None => scanning
           end) false (playlists s).

Definition Playlist_n_entries := SIMPLE_WRAPPER 0 n_entries.
Definition Playlist_get_position := SIMPLE_WRAPPER (-1) position.
Definition Playlist_get_focus := SIMPLE_WRAPPER (-1) focus.
Definition Playlist_set_focus (entry_num : Z) :=
  SIMPLE_VOID_WRAPPER (λ id, update_data id (PlaylistData_set_focus entry_num)).
Definition Playlist_entry_selected (entry_num : Z) :=
  SIMPLE_WRAPPER false (pd_entry_selected entry_num).
Definition Playlist_select_entry (entry_num : Z) (selected : bool) :=
  SIMPLE_VOID_WRAPPER (λ id, update_data id (PlaylistData_select_entry entry_num selected)).
Definition Playlist_n_selected (at_ number : Z) := SIMPLE_WRAPPER 0 (pd_n_selected at_ number).
Definition Playlist_select_all (selected : bool) := SIMPLE_VOID_WRAPPER (pd_select_all selected).
Definition Playlist_shift_entries (entry_num distance : Z) :=
  SIMPLE_WRAPPER_mut 0 (pd_shift_entries entry_num distance).

Definition Playlist_sort_by_filename (compare : string → string → Z) :=
  SIMPLE_VOID_WRAPPER (pd_sort (compare_filename compare)).
Definition Playlist_sort_by_tuple (compare : Tuple → Tuple → Z) :=
  SIMPLE_VOID_WRAPPER (pd_sort (compare_tuple compare)).
Definition Playlist_sort_selected_by_filename (compare : string → string → Z) :=
  SIMPLE_VOID_WRAPPER (pd_sort_selected (compare_filename compare)).
Definition Playlist_sort_selected_by_tuple (compare : Tuple → Tuple → Z) :=
  SIMPLE_VOID_WRAPPER (pd_sort_selected (compare_tuple compare)).
Definition Playlist_reverse_order := SIMPLE_VOID_WRAPPER pd_reverse_order.
Definition Playlist_reverse_selected := SIMPLE_VOID_WRAPPER pd_reverse_selected.
Definition Playlist_randomize_order := SIMPLE_VOID_WRAPPER pd_randomize_order.
Definition Playlist_randomize_selected := SIMPLE_VOID_WRAPPER pd_randomize_selected.

Definition Playlist_total_length_ms := SIMPLE_WRAPPER 0 pd_total_length.
Definition Playlist_selected_length_ms := SIMPLE_WRAPPER 0 pd_selected_length.

Definition Playlist_n_queued := SIMPLE_WRAPPER 0 pd_n_queued.
Definition Playlist_queue_insert (at_ entry_num : Z) :=
  SIMPLE_VOID_WRAPPER (pd_queue_insert at_ entry_num).
Definition Playlist_queue_insert_selected (at_ : Z) :=
  SIMPLE_VOID_WRAPPER (pd_queue_insert_selected at_).
Definition Playlist_queue_get_entry (at_ : Z) := SIMPLE_WRAPPER (-1) (pd_queue_get_entry at_).
Definition Playlist_queue_find_entry (entry_num : Z) :=
  SIMPLE_WRAPPER (-1) (pd_queue_find_entry entry_num).
Definition Playlist_queue_remove (at_ number : Z) :=
  SIMPLE_VOID_WRAPPER (pd_queue_remove at_ number).
Definition Playlist_queue_remove_selected := SIMPLE_VOID_WRAPPER pd_queue_remove_selected.

Definition Playlist_update_pending := SIMPLE_WRAPPER false PlaylistData_update_pending.
Definition Playlist_update_detail := SIMPLE_WRAPPER empty_Update m_last_update.

Definition PlaylistEx_insert_flat_items (at_ : Z) (items : list PlaylistAddItem) :=
  SIMPLE_VOID_WRAPPER (pd_insert_items at_ items).

Definition Playlist_index (m_id : option Z) (s : State) : State * Z :=
  ENTER_GET_PLAYLIST (-1) m_id s (λ id _, (s, id_index s id)).

Definition PlaylistEx_stamp (m_id : option Z) (s : State) : State * Z :=
  ENTER_GET_PLAYLIST (-1) m_id s (λ id _,
    (s, match id_table s !! id with Some r => stamp r | None => -1 end)).

Definition Playlist_set_filename (filename_ : string) (m_id : option Z) (s : State) : State :=
  fst (ENTER_GET_PLAYLIST tt m_id s (λ id _,
    let s := update_data id (with_filename (Some filename_)) s in
    let s := update_data id (with_modified true) s in
    (queue_global_update Metadata 0 s, tt))).

Definition Playlist_get_filename (m_id : option Z) (s : State) : State * option string :=
  ENTER_GET_PLAYLIST None m_id s (λ _ playlist, (s, filename playlist)).

Definition Playlist_set_title (title_ : string) (m_id : option Z) (s : State) : State :=
  fst (ENTER_GET_PLAYLIST tt m_id s (λ id _,
    let s := update_data id (with_title (Some title_)) s in
    let s := update_data id (with_modified true) s in
    (queue_global_update Metadata 0 s, tt))).

Definition Playlist_get_title (m_id : option Z) (s : State) : State * option string :=
  ENTER_GET_PLAYLIST None m_id s (λ _ playlist, (s, title playlist)).

Definition PlaylistEx_set_modified (modified_ : bool) (m_id : option Z) (s : State) : State :=
  fst (ENTER_GET_PLAYLIST tt m_id s (λ id _, (update_data id (with_modified modified_) s, tt))).

Definition PlaylistEx_get_modified (m_id : option Z) (s : State) : State * bool :=
  ENTER_GET_PLAYLIST false m_id s (λ _ playlist, (s, modified playlist)).

(** [Playlist::start_playback] *)
Definition Playlist_start_playback (paused : bool) (m_id : option Z) (s : State) : State :=
  fst (ENTER_GET_PLAYLIST tt m_id s (λ _ _,
    let '(s, hooks) := set_playing_locked m_id paused s in
    (call_playback_hooks m_id hooks s, tt))).

(** [aud_drct_stop] *)
Definition aud_drct_stop (s : State) : State :=
  let '(s, hooks) := set_playing_locked None false s in
  call_playback_hooks None hooks s.

(** [Playlist::blank_playlist]; no result where [get_blank_locked] has
    none *)
Definition blank_playlist (s : State) : option (option Z * State) := get_blank_locked s.

(** [Playlist::temporary_playlist]; no result where [get_blank_locked] has
    none *)
Definition temporary_playlist (s : State) : option (option Z * State) :=
  let titled (p : Z) :=
    match get_data s p with
    | Some d => bool_decide (title d = Some temp_title)
    | None => false
    end in
  match list_find_first titled (playlists s) with
  | Some id => Some (Some id, s)
  | None =>
      match get_blank_locked s with
      | None => None
      | Some (id, s) =>
          match id with
          | Some i => Some (id, update_data i (with_title (Some temp_title)) s)
          | None => Some (id, s)
          end
      end
  end.

(** [Playlist::remove_entries] *)
Definition Playlist_remove_entries (at_ number : Z) (m_id : option Z) (s : State) : State :=
  fst (ENTER_GET_PLAYLIST tt m_id s (λ id _,
    let '(s, position_changed) := pd_remove_entries at_ number id s in
    let '(s, hooks) := if position_changed then change_playback id s else (s, 0) in
    (call_playback_hooks m_id hooks s, tt))).

(** [Playlist::entry_filename] *)
Definition Playlist_entry_filename (entry_num : Z) (m_id : option Z) (s : State) : State * option string :=
  ENTER_GET_ENTRY None m_id entry_num s (λ _ _ entry, (s, Some (e_filename entry))).

Inductive GetMode := Nowait | Wait.

Definition is_Wait (mode : GetMode) : bool :=
  match mode with Wait => true | Nowait => false end.

(** [Playlist::entry_decoder]; [want_error] tells whether the caller gave
    an [error] pointer, and the second result is what is stored there.
    [None] when the call is still blocked in [get_entry]. *)
Definition Playlist_entry_decoder (wakeups : list State) (entry_num : Z) (mode : GetMode)
    (want_error : bool) (m_id : option Z) (s : State)
    : option (State * (option Z * option (option string))) :=
  match get_entry wakeups m_id entry_num (is_Wait mode) false s with
  | Blocked _ => None
  | Returned entry s =>
      let decoder := match entry with Some e => e_decoder e | None => None end in
      let error := if want_error
                   then Some (match entry with Some e => e_error e | None => None end)
                   else None in
      Some (s, (decoder, error))
  end.

(** [Playlist::entry_tuple] *)
Definition Playlist_entry_tuple (wakeups : list State) (entry_num : Z) (mode : GetMode)
    (want_error : bool) (m_id : option Z) (s : State)
    : option (State * (Tuple * option (option string))) :=
  match get_entry wakeups m_id entry_num false (is_Wait mode) s with
  | Blocked _ => None
  | Returned entry s =>
      let tuple := match entry with Some e => e_tuple e | None => empty_Tuple end in
      let error := if want_error
                   then Some (match entry with Some e => e_error e | None => None end)
                   else None in
      Some (s, (tuple, error))
  end.

(** [Playlist::set_position] *)
Definition Playlist_set_position (entry_num : Z) (m_id : option Z) (s : State) : State :=
  fst (ENTER_GET_PLAYLIST tt m_id s (λ id playlist,
    let entry := entry_at playlist entry_num in
    let s := update_data id (PlaylistData_set_position entry) s in
    let '(s, hooks) := change_playback id s in
    (call_playback_hooks m_id hooks s, tt))).

(** [Playlist::remove_selected] *)
Definition Playlist_remove_selected (m_id : option Z) (s : State) : State :=
  fst (ENTER_GET_PLAYLIST tt m_id s (λ id _,
    let '(s, position_changed) := pd_remove_selected id s in
    let '(s, hooks) := if position_changed then change_playback id s else (s, 0) in
    (call_playback_hooks m_id hooks s, tt))).

(** [playlist_rescan_real] *)
Definition playlist_rescan_real (playlist : Z) (selected_only : bool) (s : State) : State :=
  let s := pd_reset_tuples selected_only playlist s in
  let s := update_data playlist (with_scan_status ScanActive) s in
  scan_restart s.

Definition Playlist_rescan_all (m_id : option Z) (s : State) : State :=
  fst (ENTER_GET_PLAYLIST tt m_id s (λ id _, (playlist_rescan_real id false s, tt))).

Definition Playlist_rescan_selected (m_id : option Z) (s : State) : State :=
  fst (ENTER_GET_PLAYLIST tt m_id s (λ id _, (playlist_rescan_real id true s, tt))).

(** [PlaylistEx::prev_song] *)
Definition PlaylistEx_prev_song (m_id : option Z) (s : State) : State * bool :=
  ENTER_GET_PLAYLIST false m_id s (λ id playlist,
    let '(d, moved) := pd_prev_song playlist in
    let s := update_data id (λ _, d) s in
    if negb moved then (s, false)
    else
      let '(s, hooks) := change_playback id s in
      (call_playback_hooks m_id hooks s, true)).

(** [PlaylistEx::next_song] *)
Definition PlaylistEx_next_song (repeat : bool) (m_id : option Z) (s : State) : State * bool :=
  ENTER_GET_PLAYLIST false m_id s (λ id playlist,
    let hint := position playlist + 1 in (* 0 if -1 *)
    let '(d, moved) := pd_next_song repeat hint playlist in
    let s := update_data id (λ _, d) s in
    if negb moved then (s, false)
    else
      let '(s, hooks) := change_playback id s in
      (call_playback_hooks m_id hooks s, true)).

End Playlist.

(** ** The playback thread *)

(** Modelled from the spec: [playback_check_serial] (playback.cc) accepts
    the serial of the song the playback thread is working on. *)
Definition playback_check_serial (serial : Z) (s : State) : bool :=
  bool_decide (playback_serial (world s) = Some serial).

(** [get_playback_entry] *)
Definition get_playback_entry (serial : Z) (s : State) : option PlaylistEntry :=
  if negb (playback_check_serial serial s) then None
  else
    match playing_id s with
    | None => None
    | Some playing =>
        match get_data s playing with
        | None => None
        | Some playlist => entry_at playlist (position playlist)
        end
    end.

(** [playback_entry_set_tuple]: called from playback thread *)
Definition playback_entry_set_tuple (serial : Z) (tuple : Tuple) (s : State) : State :=
  match get_playback_entry serial s, playing_id s with
  | Some entry, Some playing =>
      (* don't update cuesheet entries with stream metadata *)
      if negb (tuple_is_set (e_tuple entry) StartTime) then
        let s := set_entry_tuple playing (e_addr entry) tuple s in
        queue_update playing Metadata (e_number entry) 1 0 s
      else s
  | _, _ => s
  end.

(** ** The state file *)

Definition newline : ascii := "010"%char.

(** [fprintf (handle, "%d", n)] *)
Definition print_d (n : Z) : string := NilZero.string_of_int (Z.to_int n).

(** The lines [playlist_save_state] writes: a key and an integer
    ([fprintf (handle, "key %d\n", val)]) or a key and a string
    ([fprintf (handle, "key %s\n", val)]). *)
Inductive StateLine :=
| IntLine (key : string) (val : Z)
| StrLine (key : string) (val : string).

Definition print_line (l : StateLine) : string :=
  match l with
  | IntLine key val => (key ++ " " ++ print_d val ++ String newline "")%string
  | StrLine key val => (key ++ " " ++ val ++ String newline "")%string
  end.

Definition print_lines (ls : list StateLine) : string :=
  foldr (λ l out, (print_line l ++ out)%string) ""%string ls.

(** The body of the loop of [playlist_save_state] for one playlist *)
Definition playlist_save_lines (paused : bool) (time : Z) (s : State) (playlist : Z) : list StateLine :=
  match get_data s playlist with
  | None => []
  | Some d =>
      [IntLine "playlist" (id_index s playlist)]
      ++ match filename d with
         | Some name => [StrLine "filename" name]
         | None => []
         end
      ++ [IntLine "position" (position d)]
      (* resume state is stored per-playlist for historical reasons *)
      ++ (let is_playing := ptr_eqb (Some playlist) (playing_id s) in
          [IntLine "resume-state" (if is_playing && paused then ResumePause else ResumePlay);
           IntLine "resume-time" (if is_playing then time else resume_time d)])
  end.

(** Everything [playlist_save_state] writes *)
Definition save_state_lines (paused : bool) (time : Z) (s : State) : list StateLine :=
  [IntLine "active" (match active_id s with Some a => id_index s a | None => -1 end);
   IntLine "playing" (match playing_id s with Some p => id_index s p | None => -1 end)]
  ++ flat_map (playlist_save_lines paused time s) (playlists s).

(** [playlist_save_state] *)
Definition playlist_save_state (s : State) : State :=
  (* get playback state before locking playlists *)
  let paused := drct_paused (world s) in
  let time := drct_time (world s) in
  if negb (state_file_writable (world s)) then s
  else with_world (with_state_file (Some (print_lines (save_state_lines paused time s))) (world s)) s.

(** Modelled from the spec: [TextParser] (parse.h) reads a "line-oriented
    text format, keys followed by integer or string values": [next] reads
    one line and splits it at the first space into key and value,
    [get_int] and [get_str] give the value of the current line when its
    key is the one asked for. *)
Record TextParser := {
  tp_file : string;
  tp_key : string;
  tp_val : option string
}.

(** [fgets]: the next line with its newline, and what is left of the file *)
Fixpoint fgets (file : string) : string * string :=
  match file with
  | EmptyString => (EmptyString, EmptyString)
  | String c rest =>
      if Ascii.eqb c newline then (String c EmptyString, rest)
      else let '(line, rest) := fgets rest in (String c line, rest)
  end.

(** [strchr]: the text before and after the first [c] *)
Fixpoint cut_at (c : ascii) (text : string) : option (string * string) :=
  match text with
  | EmptyString => None
  | String a rest =>
      if Ascii.eqb a c then Some (EmptyString, rest)
      else
        match cut_at c rest with
        | Some (before, after) => Some (String a before, after)
        | None => None
        end
  end.

Definition TextParser_next (p : TextParser) : TextParser :=
  match tp_file p with
  | EmptyString => {| tp_file := EmptyString; tp_key := tp_key p; tp_val := None |}
  | file =>
      let '(line, rest) := fgets file in
      match cut_at " "%char line with
      | None => {| tp_file := rest; tp_key := line; tp_val := None |}
      | Some (key, val) =>
          {| tp_file := rest; tp_key := key;
             tp_val := Some (match cut_at newline val with
                             | Some (before, _) => before
                             | None => val
                             end) |}
      end
  end.

(** The constructor reads the first line. *)
Definition TextParser_new (file : string) : TextParser :=
  TextParser_next {| tp_file := file; tp_key := EmptyString; tp_val := None |}.

Definition is_space (c : ascii) : bool :=
  let n := N_of_ascii c in
  (N.eqb n 32 || (N.leb 9 n && N.leb n 13))%N.

Fixpoint skip_spaces (text : string) : string :=
  match text with
  | EmptyString => EmptyString
  | String c rest => if is_space c then skip_spaces rest else text
  end.

Definition digit_of (c : ascii) : option Z :=
  let n := Z.of_N (N_of_ascii c) in
  if (48 <=? n) && (n <=? 57) then Some (n - 48) else None.

Fixpoint scan_digits (text : string) (acc : Z) : Z :=
  match text with
  | EmptyString => acc
  | String c rest =>
      match digit_of c with
      | Some d => scan_digits rest (10 * acc + d)
      | None => acc
      end
  end.

(** [sscanf (text, "%d", & val) == 1]: white space, an optional sign, and
    at least one digit *)
Definition sscanf_d (text : string) : option Z :=
  let text := skip_spaces text in
  let '(negative, text) :=
    match text with
    | String "-"%char rest => (true, rest)
    | String "+"%char rest => (false, rest)
    | _ => (false, text)
    end in
  match text with
  | EmptyString => None
  | String c _ =>
      match digit_of c with
      | None => None
      | Some _ => Some (if negative then - scan_digits text 0 else scan_digits text 0)
      end
  end.

Definition TextParser_get_int (key : string) (p : TextParser) : option Z :=
  match tp_val p with
  | Some val => if String.eqb (tp_key p) key then sscanf_d val else None
  | None => None
  end.

Definition TextParser_get_str (key : string) (p : TextParser) : option string :=
  match tp_val p with
  | Some val => if String.eqb (tp_key p) key then Some val else None
  | None => None
  end.

(** The body of the [while] loop of [playlist_load_state] for the playlist
    [playlist_num], the parser standing on its "playlist" line *)
Definition load_playlist_state (playlist_num : Z) (playlist : Z) (parser : TextParser) (s : State)
    : State * TextParser :=
  let parser := TextParser_next parser in
  let name := TextParser_get_str "filename" parser in
  let s := update_data playlist (with_filename name) s in
  let parser := match name with Some _ => TextParser_next parser | None => parser end in
  let position_ := -1 in
  let '(position_, parser) :=
    match TextParser_get_int "position" parser with
    | Some n => (n, TextParser_next parser)
    | None => (position_, parser)
    end in
  let s :=
    match get_data s playlist with
    | Some d =>
        match entry_at d position_ with
        | Some entry => update_data playlist (PlaylistData_set_position (Some entry)) s
        | None => s
        end
    | None => s
    end in
  (* resume state is stored per-playlist for historical reasons *)
  let resume_state := ResumePlay in
  let '(resume_state, parser) :=
    match TextParser_get_int "resume-state" parser with
    | Some n => (n, TextParser_next parser)
    | None => (resume_state, parser)
    end in
  let s :=
    if playlist_num =? resume_playlist s then
      let s := if resume_state =? ResumeStop then with_resume_playlist (-1) s else s in
      if resume_state =? ResumePause then with_resume_paused true s else s
    else s in
  match TextParser_get_int "resume-time" parser with
  | Some n => (update_data playlist (with_resume_time n) s, TextParser_next parser)
  | None => (s, parser)
  end.

(** The [while] loop of [playlist_load_state]; every turn reads at least
    one line, so no more turns than the file has characters. *)
Fixpoint load_playlist_states (fuel : nat) (parser : TextParser) (s : State) : State :=
  match TextParser_get_int "playlist" parser with
  | None => s
  | Some playlist_num =>
      if (0 <=? playlist_num) && (playlist_num <? len (playlists s)) then
        match index_get (playlists s) playlist_num with
        | None => s
        | Some playlist =>
            let '(s, parser) := load_playlist_state playlist_num playlist parser s in
            match fuel with
            | O => s
            | S fuel' => load_playlist_states fuel' parser s
            end
        end
      else s
  end.

(** The body of the second loop of [playlist_load_state] *)
Definition set_initial_focus (s : State) (playlist : Z) : State :=
  match get_data s playlist with
  | None => s
  | Some d =>
      let focus_ := position d in
      let focus_ := if (focus_ <? 0) && negb (n_entries d =? 0) then 0 else focus_ in
      let s := if 0 <=? focus_
               then update_data playlist
                      (λ d, PlaylistData_select_entry focus_ true
                              (PlaylistData_set_focus focus_ d)) s
               else s in
      update_data playlist cancel_updates s
  end.

(** [playlist_load_state] *)
Definition playlist_load_state (s : State) : State :=
  match state_file (world s) with
  | None => s
  | Some file =>
      let parser := TextParser_new file in
      let '(s, parser) :=
        match TextParser_get_int "active" parser with
        | Some playlist_num =>
            let s := if (0 <=? playlist_num) && (playlist_num <? len (playlists s))
                     then with_active_id (index_get (playlists s) playlist_num) s
                     else s in
            (s, TextParser_next parser)
        | None => (s, parser)
        end in
      let '(s, parser) :=
        match TextParser_get_int "playing" parser with
        | Some n => (with_resume_playlist n s, TextParser_next parser)
        | None => (s, parser)
        end in
      let s := load_playlist_states (String.length file) parser s in
      (* set initial focus and selection *)
      (* clear updates queued during init sequence *)
      let s := foldl set_initial_focus s (playlists s) in
      let s := with_queued_update None s in
      let s := with_update_level NoUpdate s in
      with_update_delayed false s
  end.

(** [aud_resume] *)
Definition aud_resume `{PlaylistDataMethods} (s : State) : State :=
  let s := if always_resume_paused (world s) then with_resume_paused true s else s in
  Playlist_start_playback (resume_paused s) (by_index (resume_playlist s) s) s.

(** ** Every operation through a handle, as one function *)

(** The public operations of playlist.cc that act through a [Playlist]
    handle, with their arguments *)
Inductive Op :=
| op_scan_in_progress
| op_n_entries
| op_get_position
| op_get_focus
| op_set_focus (entry_num : Z)
| op_entry_selected (entry_num : Z)
| op_select_entry (entry_num : Z) (selected : bool)
| op_n_selected (at_ number : Z)
| op_select_all (selected : bool)
| op_shift_entries (entry_num distance : Z)
| op_sort_by_filename (compare : string → string → Z)
| op_sort_by_tuple (compare : Tuple → Tuple → Z)
| op_sort_selected_by_filename (compare : string → string → Z)
| op_sort_selected_by_tuple (compare : Tuple → Tuple → Z)
| op_reverse_order
| op_reverse_selected
| op_randomize_order
| op_randomize_selected
| op_total_length_ms
| op_selected_length_ms
| op_n_queued
| op_queue_insert (at_ entry_num : Z)
| op_queue_insert_selected (at_ : Z)
| op_queue_get_entry (at_ : Z)
| op_queue_find_entry (entry_num : Z)
| op_queue_remove (at_ number : Z)
| op_queue_remove_selected
| op_update_pending
| op_update_detail
| op_insert_flat_items (at_ : Z) (items : list PlaylistAddItem)
| op_index
| op_stamp
| op_remove_playlist
| op_set_filename (filename_ : string)
| op_get_filename
| op_set_title (title_ : string)
| op_get_title
| op_set_modified (modified_ : bool)
| op_get_modified
| op_activate
| op_start_playback (paused : bool)
| op_remove_entries (at_ number : Z)
| op_entry_filename (entry_num : Z)
| op_entry_decoder (entry_num : Z) (mode : GetMode) (want_error : bool) (wakeups : list State)
| op_entry_tuple (entry_num : Z) (mode : GetMode) (want_error : bool) (wakeups : list State)
| op_set_position (entry_num : Z)
| op_remove_selected
| op_rescan_all
| op_rescan_selected
| op_prev_song
| op_next_song (repeat : bool).

(** What an operation returns: nothing, an [int] or [int64_t], a [bool],
    a [String], an [Update], a [PluginHandle *] or a [Tuple] (the last two
    with what was stored through the [error] pointer, if one was given). *)
Inductive Value :=
| VVoid
| VInt (n : Z)
| VBool (b : bool)
| VString (text : option string)
| VUpdate (u : Update)
| VDecoder (decoder : option Z) (error : option (option string))
| VTuple (tuple : Tuple) (error : option (option string)).

Section Run.

Context {methods : PlaylistDataMethods}.

Definition void (s : State) : option (State * Value) := Some (s, VVoid).

Definition value {R : Type} (inject : R → Value) (r : State * R) : option (State * Value) :=
  Some (fst r, inject (snd r)).

(** The call of [op] through the handle [m_id]; [None] when the call is
    still blocked in [get_entry]. *)
Definition run_op (op : Op) (m_id : option Z) (s : State) : option (State * Value) :=
  match op with
  | op_scan_in_progress => value VBool (Playlist_scan_in_progress m_id s)
  | op_n_entries => value VInt (Playlist_n_entries m_id s)
  | op_get_position => value VInt (Playlist_get_position m_id s)
  | op_get_focus => value VInt (Playlist_get_focus m_id s)
  | op_set_focus entry_num => void (Playlist_set_focus entry_num m_id s)
  | op_entry_selected entry_num => value VBool (Playlist_entry_selected entry_num m_id s)
  | op_select_entry entry_num selected => void (Playlist_select_entry entry_num selected m_id s)
  | op_n_selected at_ number => value VInt (Playlist_n_selected at_ number m_id s)
  | op_select_all selected => void (Playlist_select_all selected m_id s)
  | op_shift_entries entry_num distance =>
      value VInt (Playlist_shift_entries entry_num distance m_id s)
  | op_sort_by_filename compare => void (Playlist_sort_by_filename compare m_id s)
  | op_sort_by_tuple compare => void (Playlist_sort_by_tuple compare m_id s)
  | op_sort_selected_by_filename compare =>
      void (Playlist_sort_selected_by_filename compare m_id s)
  | op_sort_selected_by_tuple compare => void (Playlist_sort_selected_by_tuple compare m_id s)
  | op_reverse_order => void (Playlist_reverse_order m_id s)
  | op_reverse_selected => void (Playlist_reverse_selected m_id s)
  | op_randomize_order => void (Playlist_randomize_order m_id s)
  | op_randomize_selected => void (Playlist_randomize_selected m_id s)
  | op_total_length_ms => value VInt (Playlist_total_length_ms m_id s)
  | op_selected_length_ms => value VInt (Playlist_selected_length_ms m_id s)
  | op_n_queued => value VInt (Playlist_n_queued m_id s)
  | op_queue_insert at_ entry_num => void (Playlist_queue_insert at_ entry_num m_id s)
  | op_queue_insert_selected at_ => void (Playlist_queue_insert_selected at_ m_id s)
  | op_queue_get_entry at_ => value VInt (Playlist_queue_get_entry at_ m_id s)
  | op_queue_find_entry entry_num => value VInt (Playlist_queue_find_entry entry_num m_id s)
  | op_queue_remove at_ number => void (Playlist_queue_remove at_ number m_id s)
  | op_queue_remove_selected => void (Playlist_queue_remove_selected m_id s)
  | op_update_pending => value VBool (Playlist_update_pending m_id s)
  | op_update_detail => value VUpdate (Playlist_update_detail m_id s)
  | op_insert_flat_items at_ items => void (PlaylistEx_insert_flat_items at_ items m_id s)
  | op_index => value VInt (Playlist_index m_id s)
  | op_stamp => value VInt (PlaylistEx_stamp m_id s)
  | op_remove_playlist => void (remove_playlist m_id s)
  | op_set_filename filename_ => void (Playlist_set_filename filename_ m_id s)
  | op_get_filename => value VString (Playlist_get_filename m_id s)
  | op_set_title title_ => void (Playlist_set_title title_ m_id s)
  | op_get_title => value VString (Playlist_get_title m_id s)
  | op_set_modified modified_ => void (PlaylistEx_set_modified modified_ m_id s)
  | op_get_modified => value VBool (PlaylistEx_get_modified m_id s)
  | op_activate => void (activate m_id s)
  | op_start_playback paused => void (Playlist_start_playback paused m_id s)
  | op_remove_entries at_ number => void (Playlist_remove_entries at_ number m_id s)
  | op_entry_filename entry_num => value VString (Playlist_entry_filename entry_num m_id s)
  | op_entry_decoder entry_num mode want_error wakeups =>
      match Playlist_entry_decoder wakeups entry_num mode want_error m_id s with
      | Some (s, (decoder, error)) => Some (s, VDecoder decoder error)
      | None => None
      end
  | op_entry_tuple entry_num mode want_error wakeups =>
      match Playlist_entry_tuple wakeups entry_num mode want_error m_id s with
      | Some (s, (tuple, error)) => Some (s, VTuple tuple error)
      | None => None
      end
  | op_set_position entry_num => void (Playlist_set_position entry_num m_id s)
  | op_remove_selected => void (Playlist_remove_selected m_id s)
  | op_rescan_all => void (Playlist_rescan_all m_id s)
  | op_rescan_selected => void (Playlist_rescan_selected m_id s)
  | op_prev_song => value VBool (PlaylistEx_prev_song m_id s)
  | op_next_song repeat => value VBool (PlaylistEx_next_song repeat m_id s)
  end.

End Run.

(** The result types of the operations, by what the value stands for *)
Inductive Kind := KVoid | KCount | KIndex | KBool | KString | KUpdate | KPointer | KTuple.

Definition result_kind (op : Op) : Kind :=
  match op with
  | op_scan_in_progress | op_entry_selected _ | op_update_pending | op_get_modified
  | op_prev_song | op_next_song _ => KBool
  | op_n_entries | op_n_selected _ _ | op_shift_entries _ _ | op_total_length_ms
  | op_selected_length_ms | op_n_queued => KCount
  | op_get_position | op_get_focus | op_queue_get_entry _ | op_queue_find_entry _
  | op_index | op_stamp => KIndex
  | op_get_filename | op_get_title | op_entry_filename _ => KString
  | op_update_detail => KUpdate
  | op_entry_decoder _ _ _ _ => KPointer
  | op_entry_tuple _ _ _ _ => KTuple
  | _ => KVoid
  end.

(** Whether the caller passed an [error] pointer *)
Definition wants_error (op : Op) : bool :=
  match op with
  | op_entry_decoder _ _ want_error _ | op_entry_tuple _ _ want_error _ => want_error
  | _ => false
  end.

(** The neutral value of a result type: 0 for counts, -1 for an index,
    position or stamp, [false], the empty [String], [Update] and [Tuple],
    the null pointer; an [error] pointer receives the empty [String]. *)
Definition neutral (k : Kind) (want_error : bool) : Value :=
  let error := if want_error then Some None else None in
  match k with
  | KVoid => VVoid
  | KCount => VInt 0
  | KIndex => VInt (-1)
  | KBool => VBool false
  | KString => VString None
  | KUpdate => VUpdate empty_Update
  | KPointer => VDecoder None error
  | KTuple => VTuple empty_Tuple error
  end.

(** A handle is dead when it is null or when the [data] of its ID record
    is null. *)
Definition dead (m_id : option Z) (s : State) : Prop :=
  match m_id with
  | None => True
  | Some id => get_data s id = None
  end.

(** ** Sequences of registry operations *)

(** The operations that create, insert, reorder and remove playlists, and
    those that move the active and the playing playlist *)
Inductive RegistryOp :=
| reg_insert_playlist (at_ : Z)
| reg_insert_with_stamp (at_ stamp_ : Z)
| reg_new_playlist
| reg_blank_playlist
| reg_temporary_playlist
| reg_reorder_playlists (from to count : Z)
| reg_remove_playlist (m_id : option Z)
| reg_activate (m_id : option Z)
| reg_start_playback (paused : bool) (m_id : option Z)
| reg_stop.

(** One operation; [None] where the source has undefined behaviour *)
Definition run_registry_op `{PlaylistDataMethods} (op : RegistryOp) (s : State) : option State :=
  match op with
  | reg_insert_playlist at_ => Some (snd (insert_playlist at_ s))
  | reg_insert_with_stamp at_ stamp_ => Some (snd (insert_with_stamp at_ stamp_ s))
  | reg_new_playlist => snd <$> new_playlist s
  | reg_blank_playlist => snd <$> blank_playlist s
  | reg_temporary_playlist => snd <$> temporary_playlist s
  | reg_reorder_playlists from to count => reorder_playlists from to count s
  | reg_remove_playlist m_id => Some (remove_playlist m_id s)
  | reg_activate m_id => Some (activate m_id s)
  | reg_start_playback paused m_id => Some (Playlist_start_playback paused m_id s)
  | reg_stop => Some (aud_drct_stop s)
  end.

(** The operations one after the other, as long as they have a result *)
Fixpoint run_registry_ops `{PlaylistDataMethods} (ops : list RegistryOp) (s : State)
    : option State :=
  match ops with
  | [] => Some s
  | op :: rest =>
      match run_registry_op op s with
      | Some s' => run_registry_ops rest s'
      | None => None
      end
  end.

(** The ID record a pointer leads to has the index [i]. *)
Definition has_index (s : State) (id : Z) (i : Z) : Prop :=
  ∃ r, id_table s !! id = Some r ∧ index r = i.

(** The invariant of the Registry: every playlist carries its own index,
    no two ID records carry the same stamp, [active_id] is not null and
    points into the Registry, [playing_id] points into the Registry unless
    it is null, and the Registry is not empty. *)
Record registry_ok (s : State) : Prop := {
  ok_index : ∀ (i : nat) (p : Z), playlists s !! i = Some p → has_index s p (Z.of_nat i);
  ok_stamps : ∀ (k1 k2 : Z) (r1 r2 : ID),
      id_table s !! k1 = Some r1 → id_table s !! k2 = Some r2 →
      stamp r1 = stamp r2 → k1 = k2;
  ok_active : ∃ a, active_id s = Some a ∧ a ∈ playlists s;
  ok_playing : ∀ p, playing_id s = Some p → p ∈ playlists s;
  ok_length : 1 ≤ len (playlists s)
}.

(** What holds at every moment, the time between [playlist_init] and the
    first insertion included: the keys of the ID table are the stamps, the
    live ID records are those of the Registry, the Registry has no
    duplicates, and [active_id] is null only while the Registry is empty. *)
Record registry_inv (s : State) : Prop := {
  inv_stamp : ∀ (k : Z) (r : ID), id_table s !! k = Some r → stamp r = k;
  inv_live : ∀ (k : Z), is_Some (get_data s k) ↔ k ∈ playlists s;
  inv_index : ∀ (i : nat) (p : Z), playlists s !! i = Some p → has_index s p (Z.of_nat i);
  inv_nodup : NoDup (playlists s);
  inv_active : match active_id s with
               | Some a => a ∈ playlists s
               | None => playlists s = []
               end;
  inv_playing : ∀ p, playing_id s = Some p → p ∈ playlists s
}.

(** The invariant without its clause on [active_id] *)
Definition registry_core (s : State) : Prop :=
  (∀ (k : Z) (r : ID), id_table s !! k = Some r → stamp r = k)
  ∧ (∀ (k : Z), is_Some (get_data s k) ↔ k ∈ playlists s)
  ∧ (∀ (i : nat) (p : Z), playlists s !! i = Some p → has_index s p (Z.of_nat i))
  ∧ NoDup (playlists s)
  ∧ (∀ p, playing_id s = Some p → p ∈ playlists s).

(** A registry operation that inserts a playlist whatever the state *)
Definition is_insert (op : RegistryOp) : bool :=
  match op with
  | reg_insert_playlist _ | reg_insert_with_stamp _ _ => true
  | _ => false
  end.

(** ** Concrete states *)

(** A [PlaylistData] without selection, queue or shuffle: the methods
    left open, filled in so that operations can be evaluated on concrete
    states. *)
Definition plain_methods : PlaylistDataMethods := {|
  pd_entry_selected entry_num d :=
    match entry_at d entry_num with Some e => e_selected e | None => false end;
  pd_n_selected _ _ _ := 0;
  pd_select_all _ _ s := s;
  pd_shift_entries _ _ _ s := (s, 0);
  pd_sort _ _ s := s;
  pd_sort_selected _ _ s := s;
  pd_reverse_order _ s := s;
  pd_reverse_selected _ s := s;
  pd_randomize_order _ s := s;
  pd_randomize_selected _ s := s;
  pd_total_length _ := 0;
  pd_selected_length _ := 0;
  pd_n_queued _ := 0;
  pd_queue_insert _ _ _ s := s;
  pd_queue_insert_selected _ _ s := s;
  pd_queue_get_entry _ _ := -1;
  pd_queue_find_entry _ _ := -1;
  pd_queue_remove _ _ _ s := s;
  pd_queue_remove_selected _ s := s;
  pd_insert_items _ _ _ s := s;
  pd_remove_entries _ _ _ s := (s, false);
  pd_remove_selected _ s := (s, false);
  pd_prev_song d :=
    match entry_at d (position d - 1) with
    | Some e => (PlaylistData_set_position (Some e) d, true)
    | None => (d, false)
    end;
  pd_next_song repeat hint d :=
    match entry_at d hint with
    | Some e => (PlaylistData_set_position (Some e) d, true)
    | None =>
        match entry_at d 0 with
        | Some e => if repeat then (PlaylistData_set_position (Some e) d, true) else (d, false)
        | None => (d, false)
        end
    end;
  pd_reset_tuples _ _ s := s
|}.

(** Playback paused 45 seconds into a song, an empty user directory *)
Definition example_World : World := {|
  drct_paused := true;
  drct_time := 45000;
  playback_serial := Some 7;
  metadata_on_play := false;
  always_resume_paused := false;
  state_file := None;
  state_file_writable := true
|}.

(** The program after [playlist_init] *)
Definition init_State : State := playlist_init (initial_State example_World).

(** One playlist was inserted after [playlist_init]. *)
Definition one_playlist_State : State := snd (insert_playlist 0 init_State).

(** That playlist was removed through its handle: the handle [Some 1000]
    is dead, a fresh playlist 1001 took the place. *)
Definition removed_State : State := remove_playlist (Some 1000) one_playlist_State.

(** One turn of the loop of [number_playlists] *)
Definition number_step (s : State) (i : Z) : State :=
  match index_get (playlists s) i with
  | Some p => update_id p (with_index i) s
  | None => s
  end.

(** The Registry and the ID table after [remove_playlist], before the
    active and the playing playlist are looked at *)
Definition removed_registry (id : Z) (s : State) : State :=
  let at_ := id_index s id in
  let s := playlists_remove at_ s in
  let s := if len (playlists s) =? 0
           then
             let '(fresh, s) := create_playlist (-1) s in
             with_playlists (playlists s ++ [fresh]) s
           else s in
  number_playlists at_ (len (playlists s) - at_) s.

(** What the Registry invariant reads of an ID record and of the state *)
Definition id_view (r : ID) : Z * Z * bool :=
  (stamp r, index r, bool_decide (is_Some (data r))).

Definition reg_view (s : State) : list Z * option Z * option Z * gmap Z (Z * Z * bool) :=
  (playlists s, active_id s, playing_id s, id_view <$> id_table s).

(** Two songs in the playlist 1000, not yet scanned *)
Definition song (addr : Z) (name : string) (number : Z) : PlaylistEntry :=
  {| e_addr := addr; e_filename := name; e_decoder := None; e_tuple := empty_Tuple;
     e_error := None; e_number := number; e_selected := false |}.

Definition two_songs_State : State :=
  update_data 1000 (with_m_entries [song 1 "file:///A.mp3" 0; song 2 "file:///B.mp3" 1])
    one_playlist_State.

(** Playback was started on the playlist 1000, which is also the active
    one. *)
Definition playing_State : State :=
  Playlist_start_playback (methods := plain_methods) false (Some 1000) two_songs_State.

(** The request of the for-playback scan item of [playing_State], as the
    scanner leaves it when it could read the tags *)
Definition finished_request : ScanRequest := {|
  req_addr := 0;
  req_filename := "file:///A.mp3";
  req_flags := Z.lor SCAN_TUPLE (Z.lor SCAN_IMAGE SCAN_FILE);
  req_decoder := Some 1;
  req_tuple := {| tuple_state := Valid; tuple_fields := [(Title, TStr "A")] |};
  req_error := None
|}.

(** The current entry of [playing_State] was deleted, which cancelled its
    scan: [finished_request] has no scan item any more. *)
Definition cancelled_State : State := pl_signal_entry_deleted 1 playing_State.

(** The scan item of the current entry of [playing_State], and the data
    of its playlist *)
Definition playing_item : ScanItem := {|
  item_playlist := 1000;
  item_entry := 1;
  item_request :=
    {| req_addr := 0; req_filename := "file:///A.mp3";
       req_flags := Z.lor SCAN_TUPLE (Z.lor SCAN_IMAGE SCAN_FILE);
       req_decoder := None; req_tuple := empty_Tuple; req_error := None |};
  for_playback := true;
  handled_by_playback := false
|}.

Definition playing_data : PlaylistData :=
  default (new_PlaylistData default_title) (get_data playing_State 1000).

(** C5 as the specification states it: the flags that [scan_finish] hands
    to [update_entry_from_scan] are [DelayedUpdate] exactly when the
    [scan_status] of the playlist is not [NotScanning], and 0 otherwise. *)
Definition flags_follow_scan_status : Prop :=
  ∀ (request : ScanRequest) (s : State) (item : ScanItem) (d : PlaylistData)
    (update_flags : Z) (rest : list Event),
    list_find_first (λ item, req_addr (item_request item) =? req_addr request) (scan_list s)
      = Some item →
    get_data s (item_playlist item) = Some d →
    trace (scan_finish request s)
      = (trace s
         ++ update_entry_from_scan_call (item_playlist item) (item_entry item)
              (req_addr request) update_flags :: rest)%list →
    (update_flags = DelayedUpdate ↔ scan_status d ≠ NotScanning)
    ∧ (update_flags = 0 ↔ scan_status d = NotScanning).

(** What the scheduler may do to the update bus: nothing, or turn a
    pending delayed update into an immediate one (the flush of
    [scan_check_complete]). *)
Definition flushed_or_same (s s1 : State) : Prop :=
  update_level s1 = update_level s
  ∧ ((update_delayed s1 = update_delayed s ∧ queued_update s1 = queued_update s)
     ∨ (update_delayed s = true ∧ update_delayed s1 = false ∧ queued_update s1 = Some 0)).

(** C4 as the specification states it, read against the state in which
    [queue_global_update] is called. *)
Definition queue_global_update_as_stated : Prop :=
  ∀ (level : UpdateLevel) (flags : Z) (s : State),
    let s' := queue_global_update level flags s in
    update_level s' = level_max (update_level s) level
    ∧ (has_flag flags DelayedUpdate = true →
       if level_eqb (update_level s) NoUpdate
       then queued_update s' = Some 250 ∧ update_delayed s' = true
       else queued_update s' = queued_update s ∧ update_delayed s' = update_delayed s)
    ∧ (has_flag flags DelayedUpdate = false →
       if level_eqb (update_level s) NoUpdate || update_delayed s
       then queued_update s' = Some 0 ∧ update_delayed s' = false
       else queued_update s' = queued_update s ∧ update_delayed s' = update_delayed s).

(** Scanning is enabled, the playlist 1000 (empty) is marked [ScanActive]
    and no scan is in flight; a delayed [Metadata] update is pending. *)
Definition delayed_pending_State : State :=
  with_queued_update (Some 250)
    (with_update_delayed true
       (with_update_level Metadata
          (with_scan_enabled true (with_scan_enabled_nominal true one_playlist_State)))).

(** The tuple of the first track of a cue sheet: its start time is set,
    to 0 *)
Definition first_track_Tuple : Tuple :=
  {| tuple_state := Valid;
     tuple_fields := [(StartTime, TInt 0); (Title, TStr "Track 1")] |}.

(** Metadata read from the stream while playing *)
Definition stream_Tuple : Tuple :=
  {| tuple_state := Valid; tuple_fields := [(Title, TStr "Stream title")] |}.

(** The current entry of [playing_State] is the first track of a cue
    sheet. *)
Definition cuesheet_State : State :=
  update_data 1000 (update_entry 1 (with_e_tuple first_track_Tuple)) playing_State.

(** C7 as the specification states it: an entry whose start time is not a
    non-zero value is not a cuesheet entry, and receives the tuple (whether
    "the tuple" of the sentence is the one of the entry or the one passed
    in, here neither carries a non-zero start time). *)
Definition set_tuple_unless_nonzero_start_time : Prop :=
  ∀ (serial : Z) (tuple : Tuple) (s : State) (playing : Z) (d : PlaylistData)
    (entry : PlaylistEntry),
    playback_check_serial serial s = true →
    playing_id s = Some playing →
    get_data s playing = Some d →
    entry_at d (position d) = Some entry →
    tuple_get_int (e_tuple entry) StartTime = 0 →
    tuple_get_int tuple StartTime = 0 →
    ∃ d' entry',
      get_data (playback_entry_set_tuple serial tuple s) playing = Some d'
      ∧ entry_at d' (position d) = Some entry'
      ∧ e_tuple entry' = tuple.

(** What a woken [get_entry] looks for: the playlist or the entry is gone,
    the entry is a stdin entry, the data asked for has been read, or no
    scan of the entry is in flight any more. *)
Definition get_entry_settled (id : option Z) (entry_num : Z) (need_decoder need_tuple : bool)
    (s : State) : bool :=
  match id with
  | None => true
  | Some i =>
      match get_data s i with
      | None => true
      | Some d =>
          match entry_at d entry_num with
          | None => true
          | Some entry =>
              String.prefix "stdin://" (e_filename entry)
              || ((negb need_decoder || bool_decide (is_Some (e_decoder entry)))
                  && (negb need_tuple || tuple_valid (e_tuple entry)))
              || negb (bool_decide (is_Some (scan_list_find_entry (e_addr entry) s)))
          end
      end
  end.

(** The entry a handle and an entry number lead to *)
Definition current_entry (id : option Z) (entry_num : Z) (s : State) : option PlaylistEntry :=
  match id with
  | None => None
  | Some i =>
      match get_data s i with
      | None => None
      | Some d => entry_at d entry_num
      end
  end.

(** A thread asked for the tuple of the first song of [two_songs_State]
    and waits; then the scanner finished the request. *)
Definition waiting_State : State :=
  scan_queue_entry 1000 (song 1 "file:///A.mp3" 0) false two_songs_State.

Definition woken_State : State := scan_finish finished_request waiting_State.

(** The values of the "resume-state" lines among the lines written *)
Definition resume_state_of (l : StateLine) : option Z :=
  match l with
  | IntLine key val => if String.eqb key "resume-state" then Some val else None
  | StrLine _ _ => None
  end.

Definition resume_states (ls : list StateLine) : list Z := omap resume_state_of ls.


(** ** More concrete states *)

(** Two playlists were inserted after the playing one, the first at the
    end, the second before it: the Registry holds 1000, 1002 and 1001 in
    this order. *)
Definition three_playlists_State : State :=
  (insert_playlist 1 (insert_playlist 5 playing_State).2).2.

(** [at] as [insert_playlist_locked] corrects it: the end of the Registry
    when it is out of range *)
Definition insert_position (at_ : Z) (s : State) : Z :=
  if (at_ <? 0) || (len (playlists s) <? at_) then len (playlists s) else at_.

(** The data of the playlists, their scan status left out: what the scan
    scheduler never touches *)
Definition data_view (s : State) : gmap Z (option PlaylistData) :=
  (λ r, with_scan_status NotScanning <$> data r) <$> id_table s.

(** Every playlist of [s] is a playlist of [s'] with the same title, file
    name, resume time, entries, position and focus. *)
Definition same_content (s s' : State) : Prop :=
  ∀ k d, get_data s k = Some d →
    ∃ d', get_data s' k = Some d'
          ∧ title d' = title d ∧ filename d' = filename d
          ∧ resume_time d' = resume_time d ∧ m_entries d' = m_entries d
          ∧ m_position d' = m_position d ∧ m_focus d' = m_focus d.

(** What makes the scheduler send an entry of a playlist to the scanner:
    the entry was never scanned, it is not a "stdin://" entry, and no scan
    of it is in flight. *)
Definition scan_candidate (s : State) (playlist : Z) (entry : PlaylistEntry) : Prop :=
  (∃ d, get_data s playlist = Some d ∧ entry ∈ m_entries d)
  ∧ tuple_state (e_tuple entry) = Initial
  ∧ String.prefix "stdin://" (e_filename entry) = false
  ∧ scan_list_find_entry (e_addr entry) s = None.

(** The events with which [scan_check_complete] tells that the scan of a
    playlist is complete *)
Definition scan_complete_event (e : Event) : Prop :=
  e = event_queue_cancel "playlist scan complete" ∨ e = event_queue "playlist scan complete".

(** What the scheduler does while it looks for an entry to scan: it moves
    its cursor and ends the scan of the playlists that have no entry left
    to scan, which may flush the delayed update and tells that the scan is
    complete.  The scan list, the numbering of the requests, the Registry
    and the data of the playlists but for their scan status stay as they
    are. *)
Definition scan_walked (s s' : State) : Prop :=
  scan_list s' = scan_list s
  ∧ next_request s' = next_request s
  ∧ scan_enabled s' = scan_enabled s
  ∧ data_view s' = data_view s
  ∧ reg_view s' = reg_view s
  ∧ ∃ evs, trace s' = (trace s ++ evs)%list ∧ Forall scan_complete_event evs.

(** Scanning was enabled for the playlist 1000 and its two songs, not yet
    scanned; the scheduler has not run yet. *)
Definition unscanned_State : State :=
  with_scan_enabled true (update_data 1000 (with_scan_status ScanActive) two_songs_State).

(** No playlist before the cursor of the scheduler waits for its entries
    to be scanned. *)
Definition settled_below (s : State) : Prop :=
  ∀ (i : nat) (p : Z) (d : PlaylistData),
    playlists s !! i = Some p → Z.of_nat i < scan_playlist s →
    get_data s p = Some d → scan_status d ≠ ScanActive.

(** From [s] to [s'] the Registry is the same and no playlist began to
    wait for a scan. *)
Definition calmer (s s' : State) : Prop :=
  playlists s' = playlists s
  ∧ ∀ p d', get_data s' p = Some d' → scan_status d' = ScanActive →
      ∃ d, get_data s p = Some d ∧ scan_status d = ScanActive.

(** The number of scan items marked for playback *)
Definition n_for_playback (s : State) : nat :=
  length (List.filter for_playback (scan_list s)).

(** What [scan_reset_playback] sends to the scanner again: the request of
    the item marked for playback, when the playback thread did not take
    it *)
Definition requeued (s : State) : list Event :=
  match list_find_first for_playback (scan_list s) with
  | Some item =>
      if handled_by_playback item then [] else [scanner_request (item_request item)]
  | None => []
  end.

(** ** The state file read back *)

(** The text has the character [c]. *)
Fixpoint has_char (c : ascii) (text : string) : bool :=
  match text with
  | EmptyString => false
  | String a rest => Ascii.eqb a c || has_char c rest
  end.

(** The number a string of decimal digits stands for, read from the left
    with the digits read so far in [acc] *)
Fixpoint uint_value (d : Decimal.uint) (acc : Z) : Z :=
  match d with
  | Decimal.Nil => acc
  | Decimal.D0 d => uint_value d (10 * acc)
  | Decimal.D1 d => uint_value d (10 * acc + 1)
  | Decimal.D2 d => uint_value d (10 * acc + 2)
  | Decimal.D3 d => uint_value d (10 * acc + 3)
  | Decimal.D4 d => uint_value d (10 * acc + 4)
  | Decimal.D5 d => uint_value d (10 * acc + 5)
  | Decimal.D6 d => uint_value d (10 * acc + 6)
  | Decimal.D7 d => uint_value d (10 * acc + 7)
  | Decimal.D8 d => uint_value d (10 * acc + 8)
  | Decimal.D9 d => uint_value d (10 * acc + 9)
  end.

(** The key of a line *)
Definition line_key (l : StateLine) : string :=
  match l with IntLine key _ | StrLine key _ => key end.

(** The value of a line as the file has it *)
Definition line_text (l : StateLine) : string :=
  match l with IntLine _ val => print_d val | StrLine _ val => val end.

(** A line the parser reads back as it was written: no space in the key,
    no newline anywhere *)
Definition line_ok (l : StateLine) : Prop :=
  has_char " "%char (line_key l) = false
  ∧ has_char newline (line_key l) = false
  ∧ has_char newline (line_text l) = false.

(** The parser stands on the first of the lines [ls], the others are what
    is left of the file; it is at the end of the file when there is no
    line. *)
Definition parser_on (ls : list StateLine) (p : TextParser) : Prop :=
  match ls with
  | [] => tp_val p = None ∧ tp_file p = EmptyString
  | l :: rest =>
      tp_key p = line_key l ∧ tp_val p = Some (line_text l) ∧ tp_file p = print_lines rest
  end.


(** The current entry of a playlist carries the number of its row. *)
Definition position_numbered (d : PlaylistData) : Prop :=
  ∀ e, entry_at d (position d) = Some e → e_number e = position d.

(** No file name of a playlist has a newline in it. *)
Definition filenames_one_line (s : State) : Prop :=
  ∀ p d name, get_data s p = Some d → filename d = Some name → has_char newline name = false.

(** What a playlist [d'] holds when the state file written for the
    playlist [d] was read into the playlist [dl]: the file name of [d];
    as resume time the time of the playback when [d] was playing, the
    resume time of [d] when it was not; the position of [d] when [d] had a
    current entry, and the position [dl] had when [d] had none. *)
Definition restored (is_playing : bool) (time : Z) (d dl d' : PlaylistData) : Prop :=
  filename d' = filename d
  ∧ resume_time d' = (if is_playing then time else resume_time d)
  ∧ position d'
    = match entry_at d (position d) with Some _ => position d | None => position dl end.

(** The playing playlist is one of [ps]. *)
Definition playing_among (s : State) (ps : list Z) : bool :=
  existsb (λ p, ptr_eqb (Some p) (playing_id s)) ps.

(** The index the state file gives for the playing playlist *)
Definition playing_index (s : State) : Z :=
  match playing_id s with Some p => id_index s p | None => -1 end.

(** The second loop of [playlist_load_state] and the end of the function
    leave [s'] with what the state file is about as it is in [s]. *)
Definition keeps_saved (s s' : State) : Prop :=
  playlists s' = playlists s
  ∧ active_id s' = active_id s
  ∧ resume_playlist s' = resume_playlist s
  ∧ resume_paused s' = resume_paused s
  ∧ ∀ p d, get_data s p = Some d →
      ∃ d', get_data s' p = Some d'
            ∧ position d' = position d ∧ filename d' = filename d
            ∧ resume_time d' = resume_time d.

(** The program [s] reads the state file that [s0] wrote: it has the
    playlists of [s0] in its Registry, with the entries they had. *)
Definition reads_file_of (s0 s : State) : Prop :=
  state_file (world s) = state_file (world (playlist_save_state s0))
  ∧ playlists s = playlists s0
  ∧ ∀ p d, get_data s0 p = Some d →
      ∃ dl, get_data s p = Some dl ∧ m_entries dl = m_entries d.

(** A second playlist after the playing one of [playing_State]: it was
    loaded from a file, is not playing, and is to resume three seconds
    into its song. *)
Definition two_playlists_State : State :=
  update_data 1001
    (λ d, with_resume_time 3000 (with_filename (Some "/home/user/My List.audpl") d))
    (insert_playlist 1 playing_State).2.

(** The program started again after [two_playlists_State] wrote its state
    file: the playlists are back with their entries, nothing is playing,
    no playlist has a position, a resume time or a file name yet. *)
Definition restarted_State : State :=
  with_world (world (playlist_save_state two_playlists_State))
    (with_playing_id None
       (with_scan_list []
          (update_data 1000 (λ d, with_m_position (-1) d)
             (update_data 1001 (λ d, with_resume_time 0 (with_filename None d))
                two_playlists_State)))).

(** Reading the state file touches neither the Registry, nor the playing
    playlist, nor the world, nor the scan list, and calls nothing. *)
Definition session_kept (s s' : State) : Prop :=
  playlists s' = playlists s
  ∧ playing_id s' = playing_id s
  ∧ world s' = world s
  ∧ scan_list s' = scan_list s
  ∧ trace s' = trace s.

(** What [prev_song] and [next_song] through the handle of [p] return in
    [r], when the [PlaylistData] method left the playlist as [d'] and told
    whether it [moved] the position: without a move the call returns
    false and nothing else happens; with one it returns true, the hook
    "playlist position" is called, and the playback follows when [p] is
    the playing playlist (restarted at the new song, or stopped when the
    playlist has no position any more). *)
Definition position_moved (p : Z) (d' : PlaylistData) (moved : bool) (s : State)
    (r : State * bool) : Prop :=
  r.2 = moved
  ∧ get_data r.1 p = Some d'
  ∧ (moved = false → r.1 = update_data p (λ _, d') s)
  ∧ (moved = true → playing_id s ≠ Some p →
     r.1 = emit (hook_call "playlist position" (Some p)) (update_data p (λ _, d') s))
  ∧ (moved = true → playing_id s = Some p → 0 ≤ position d' →
     playing_id r.1 = Some p
     ∧ ∃ evs, trace r.1
              = (trace s ++ art_clear_current :: evs
                 ++ [playback_play 0 (drct_paused (world s));
                     hook_call "playlist position" (Some p);
                     hook_call "playback begin" None])%list
              ∧ Forall (λ e, ∃ request, e = scanner_request request) evs)
  ∧ (moved = true → playing_id s = Some p → position d' < 0 →
     playing_id r.1 = None
     ∧ ∃ evs, trace r.1
              = (trace s ++ art_clear_current :: evs
                 ++ [playback_stop; hook_call "playlist set playing" None;
                     hook_call "playlist position" (Some p);
                     hook_call "playback stop" None])%list
              ∧ Forall (λ e, ∃ request, e = scanner_request request) evs).

(** Every playlist whose scan is ending still has a scan in flight: the
    end of its scan is told as soon as the last one is finished. *)
Definition ending_covered (s : State) : Prop :=
  ∀ p d, get_data s p = Some d → scan_status d = ScanEnding →
    ∃ item, item ∈ scan_list s ∧ item_playlist item = p.

(** From [s] to [s'] the scan list only grew, and the playlists whose scan
    is ending in [s'] without a scan in flight were so in [s]. *)
Definition covers (s s' : State) : Prop :=
  (∃ new, scan_list s' = (scan_list s ++ new)%list)
  ∧ ∀ p d', get_data s' p = Some d' → scan_status d' = ScanEnding →
      (∃ d, get_data s p = Some d ∧ scan_status d = ScanEnding)
      ∨ ∃ item, item ∈ scan_list s' ∧ item_playlist item = p.

(** Scanning is enabled and the playlist 1000 waits for a scan, but its
    one song has been scanned already. *)
Definition scanned_State : State :=
  with_scan_enabled true
    (update_data 1000
       (λ d, with_scan_status ScanActive
               (with_m_entries [with_e_tuple stream_Tuple (song 1 "file:///A.mp3" 0)] d))
       two_songs_State).

(** ** Sequences of registry operations that have a result *)

(** The first operation of the sequence inserts a playlist. *)
Definition starts_with_insert (ops : list RegistryOp) : bool :=
  match ops with
  | op :: _ => is_insert op
  | [] => false
  end.

(** The sums that the guard of [reorder_playlists] may compute for this
    operation stay within the range of [int]. *)
Definition op_fits (op : RegistryOp) : bool :=
  match op with
  | reg_reorder_playlists from to count =>
      (from + count <=? INT_MAX) && (to + count <=? INT_MAX)
  | _ => true
  end.

(** ** How far the scheduler has walked *)

(** The entry needs nothing from the scheduler: its tuple was read (or
    could not be read), or it is a "stdin://" entry, or a scan of it is in
    flight. *)
Definition scan_settled (s : State) (entry : PlaylistEntry) : Prop :=
  tuple_state (e_tuple entry) = Initial →
  String.prefix "stdin://" (e_filename entry) = false →
  is_Some (scan_list_find_entry (e_addr entry) s).

(** Where the scheduler stands in [s] since it started to walk in [s0]:
    the Registry and the data of the playlists but for their scan status
    are those of [s0], the scan list only grew, every playlist before the
    cursor that waited for a scan in [s0] has all its entries settled, so
    have the rows before [scan_row] of the playlist under the cursor, and
    the playlists that the cursor has not reached have the scan status
    they had. *)
Record walk_inv (s0 s : State) : Prop := {
  walk_playlists : playlists s = playlists s0;
  walk_data : data_view s = data_view s0;
  walk_list : ∃ new, scan_list s = (scan_list s0 ++ new)%list;
  walk_cursor : 0 ≤ scan_playlist s ∧ 0 ≤ scan_row s;
  walk_below : ∀ (i : nat) (p : Z) (d : PlaylistData),
      playlists s0 !! i = Some p → Z.of_nat i < scan_playlist s →
      get_data s0 p = Some d → scan_status d = ScanActive →
      ∀ entry, entry ∈ m_entries d → scan_settled s entry;
  walk_rows : ∀ (p : Z) (d : PlaylistData),
      index_get (playlists s0) (scan_playlist s) = Some p → get_data s0 p = Some d →
      ∀ i e, 0 ≤ i < scan_row s → entry_at d i = Some e → scan_settled s e;
  walk_status : ∀ p : Z,
      (∀ i : nat, playlists s0 !! i = Some p → scan_playlist s ≤ Z.of_nat i) →
      scan_status <$> get_data s p = scan_status <$> get_data s0 p
}.
(** * Properties *)

Local Open Scope list_scope.

(** ** C1: operations through a dead handle *)

Lemma ENTER_GET_PLAYLIST_dead `{PlaylistDataMethods} {R : Type} (failcode : R) m_id s body :
  dead m_id s → ENTER_GET_PLAYLIST failcode m_id s body = (s, failcode).
Proof.
  unfold dead, ENTER_GET_PLAYLIST. destruct m_id as [id|]; [|done].
  by intros ->.
Qed.

Lemma get_entry_dead wakeups m_id entry_num need_decoder need_tuple s :
  dead m_id s →
  get_entry wakeups m_id entry_num need_decoder need_tuple s = Returned None s.
Proof.
  unfold dead, get_entry. intros Hdead.
  destruct wakeups; simpl; unfold get_entry_turn;
    (destruct m_id as [id|]; [rewrite Hdead|]); reflexivity.
Qed.

(** C1.  Every public operation invoked through a handle whose ID record
    has [data == nullptr] (or through a null handle) returns at once: the
    state, trace of external calls included, is the one it was called in,
    and the result is the neutral value of the result type of the
    operation. *)
Theorem dead_handle_neutral `{PlaylistDataMethods} (op : Op) (m_id : option Z) (s : State) :
  dead m_id s →
  run_op op m_id s = Some (s, neutral (result_kind op) (wants_error op)).
Proof.
  intros Hdead.
  destruct op; simpl;
    unfold void, value,
      Playlist_scan_in_progress, Playlist_n_entries, Playlist_get_position,
      Playlist_get_focus, Playlist_set_focus, Playlist_entry_selected,
      Playlist_select_entry, Playlist_n_selected, Playlist_select_all,
      Playlist_shift_entries, Playlist_sort_by_filename, Playlist_sort_by_tuple,
      Playlist_sort_selected_by_filename, Playlist_sort_selected_by_tuple,
      Playlist_reverse_order, Playlist_reverse_selected, Playlist_randomize_order,
      Playlist_randomize_selected, Playlist_total_length_ms,
      Playlist_selected_length_ms, Playlist_n_queued, Playlist_queue_insert,
      Playlist_queue_insert_selected, Playlist_queue_get_entry,
      Playlist_queue_find_entry, Playlist_queue_remove,
      Playlist_queue_remove_selected, Playlist_update_pending,
      Playlist_update_detail, PlaylistEx_insert_flat_items, Playlist_index,
      PlaylistEx_stamp, Playlist_set_filename, Playlist_get_filename,
      Playlist_set_title, Playlist_get_title, PlaylistEx_set_modified,
      PlaylistEx_get_modified, Playlist_start_playback, Playlist_remove_entries,
      Playlist_entry_filename, Playlist_set_position, Playlist_remove_selected,
      Playlist_rescan_all, Playlist_rescan_selected, PlaylistEx_prev_song,
      PlaylistEx_next_song, Playlist_entry_decoder, Playlist_entry_tuple,
      SIMPLE_WRAPPER, SIMPLE_WRAPPER_mut, SIMPLE_VOID_WRAPPER, ENTER_GET_ENTRY;
    rewrite ?ENTER_GET_PLAYLIST_dead, ?get_entry_dead by done;
    try reflexivity.
  - (* remove_playlist *)
    unfold remove_playlist, dead in *. destruct m_id as [id|]; [by rewrite Hdead|done].
  - (* activate *)
    unfold activate, dead in *. destruct m_id as [id|]; [by rewrite Hdead|done].
Qed.

(** The handle of a removed playlist answers [index () == -1]. *)
Lemma dead_handle_neutral_witness :
  run_op (methods := plain_methods) op_index (Some 1000) removed_State
  = Some (removed_State, VInt (-1)).
Proof.
  apply (dead_handle_neutral (H := plain_methods) op_index (Some 1000) removed_State).
  vm_compute. reflexivity.
Defined.

(** ** C2: the Registry invariant *)

(** *** Frame: what leaves the Registry alone *)

Lemma reg_view_with_next_stamp v s : reg_view (with_next_stamp v s) = reg_view s.
Proof. reflexivity. Qed.
Lemma reg_view_with_resume_playlist v s : reg_view (with_resume_playlist v s) = reg_view s.
Proof. reflexivity. Qed.
Lemma reg_view_with_resume_paused v s : reg_view (with_resume_paused v s) = reg_view s.
Proof. reflexivity. Qed.
Lemma reg_view_with_queued_update v s : reg_view (with_queued_update v s) = reg_view s.
Proof. reflexivity. Qed.
Lemma reg_view_with_update_level v s : reg_view (with_update_level v s) = reg_view s.
Proof. reflexivity. Qed.
Lemma reg_view_with_update_delayed v s : reg_view (with_update_delayed v s) = reg_view s.
Proof. reflexivity. Qed.
Lemma reg_view_with_scan_enabled_nominal v s : reg_view (with_scan_enabled_nominal v s) = reg_view s.
Proof. reflexivity. Qed.
Lemma reg_view_with_scan_enabled v s : reg_view (with_scan_enabled v s) = reg_view s.
Proof. reflexivity. Qed.
Lemma reg_view_with_scan_playlist v s : reg_view (with_scan_playlist v s) = reg_view s.
Proof. reflexivity. Qed.
Lemma reg_view_with_scan_row v s : reg_view (with_scan_row v s) = reg_view s.
Proof. reflexivity. Qed.
Lemma reg_view_with_scan_list v s : reg_view (with_scan_list v s) = reg_view s.
Proof. reflexivity. Qed.
Lemma reg_view_with_next_request v s : reg_view (with_next_request v s) = reg_view s.
Proof. reflexivity. Qed.
Lemma reg_view_with_world v s : reg_view (with_world v s) = reg_view s.
Proof. reflexivity. Qed.
Lemma reg_view_with_trace v s : reg_view (with_trace v s) = reg_view s.
Proof. reflexivity. Qed.

Lemma reg_view_emit e s : reg_view (emit e s) = reg_view s.
Proof. reflexivity. Qed.

Lemma reg_view_update_data id f s : reg_view (update_data id f s) = reg_view s.
Proof.
  unfold reg_view, update_data; simpl. f_equal.
  apply map_eq; intros k. rewrite !lookup_fmap, lookup_alter.
  case_decide; [subst|done].
  destruct (id_table s !! k) as [r|]; [|done]. simpl.
  unfold id_view; simpl. do 2 f_equal.
  destruct (data r); reflexivity.
Qed.

Create Rewrite HintDb frame.
#[local] Hint Rewrite reg_view_with_next_stamp reg_view_with_resume_playlist reg_view_with_resume_paused reg_view_with_queued_update reg_view_with_update_level reg_view_with_update_delayed reg_view_with_scan_enabled_nominal reg_view_with_scan_enabled reg_view_with_scan_playlist reg_view_with_scan_row reg_view_with_scan_list reg_view_with_next_request reg_view_with_world reg_view_with_trace
  reg_view_emit reg_view_update_data : frame.

(** The case analysis that follows the branches of a function and closes
    each branch by rewriting with the frame lemmas *)
Ltac frame_step :=
  match goal with
  | |- context [match ?x with _ => _ end] =>
      lazymatch x with
      | context [match _ with _ => _ end] => fail
      | _ => destruct x eqn:?
      end
  end.

Ltac frame := repeat frame_step; simpl; autorewrite with frame; try done.

Lemma reg_view_scan_queue_entry playlist entry for_pb s :
  reg_view (scan_queue_entry playlist entry for_pb s) = reg_view s.
Proof. unfold scan_queue_entry. frame. Qed.
#[local] Hint Rewrite reg_view_scan_queue_entry : frame.

Lemma reg_view_scan_reset_playback s : reg_view (scan_reset_playback s) = reg_view s.
Proof. unfold scan_reset_playback. frame. Qed.
#[local] Hint Rewrite reg_view_scan_reset_playback : frame.

Lemma reg_view_scan_check_complete playlist s :
  reg_view (scan_check_complete playlist s) = reg_view s.
Proof. unfold scan_check_complete. frame. Qed.
#[local] Hint Rewrite reg_view_scan_check_complete : frame.

Lemma reg_view_scan_queue_next_row fuel playlist s :
  reg_view (scan_queue_next_row fuel playlist s).1 = reg_view s.
Proof.
  revert s. induction fuel as [|fuel IH]; intros s; simpl; frame.
  rewrite IH. frame.
Qed.

Lemma reg_view_scan_queue_next_playlist fuel s :
  reg_view (scan_queue_next_playlist fuel s).1 = reg_view s.
Proof.
  revert s. induction fuel as [|fuel IH]; intros s; simpl.
  all: repeat match goal with
       | |- context [scan_queue_next_row ?f ?p ?s] =>
           let E := fresh "E" in
           pose proof (reg_view_scan_queue_next_row f p s) as E;
           destruct (scan_queue_next_row f p s); simpl in E
       | _ => frame_step
       end; simpl; rewrite ?IH; autorewrite with frame; try congruence.
Qed.

Lemma reg_view_scan_queue_next_entry s : reg_view (scan_queue_next_entry s).1 = reg_view s.
Proof.
  unfold scan_queue_next_entry. destruct (scan_enabled s); simpl; [|done].
  apply reg_view_scan_queue_next_playlist.
Qed.

Lemma reg_view_scan_schedule_more fuel scheduled s :
  reg_view (scan_schedule_more fuel scheduled s) = reg_view s.
Proof.
  revert scheduled s. induction fuel as [|fuel IH]; intros scheduled s; simpl;
    pose proof (reg_view_scan_queue_next_entry s) as E;
    destruct (scan_queue_next_entry s) as [s' queued]; simpl in E;
    repeat frame_step; rewrite ?IH; done.
Qed.

Lemma reg_view_scan_schedule s : reg_view (scan_schedule s) = reg_view s.
Proof.
  unfold scan_schedule. destruct (scan_count_scheduled _ _); [|done].
  apply reg_view_scan_schedule_more.
Qed.
#[local] Hint Rewrite reg_view_scan_schedule : frame.

Lemma reg_view_scan_cancel entry s : reg_view (scan_cancel entry s) = reg_view s.
Proof. unfold scan_cancel. frame. Qed.
#[local] Hint Rewrite reg_view_scan_cancel : frame.

Lemma reg_view_scan_restart s : reg_view (scan_restart s) = reg_view s.
Proof. unfold scan_restart. frame. Qed.
#[local] Hint Rewrite reg_view_scan_restart : frame.

Lemma reg_view_queue_global_update level flags s :
  reg_view (queue_global_update level flags s) = reg_view s.
Proof. unfold queue_global_update. frame. Qed.
#[local] Hint Rewrite reg_view_queue_global_update : frame.

Lemma reg_view_pl_signal_update_queued id level flags s :
  reg_view (pl_signal_update_queued id level flags s) = reg_view s.
Proof. unfold pl_signal_update_queued. frame. Qed.
#[local] Hint Rewrite reg_view_pl_signal_update_queued : frame.

Lemma reg_view_queue_update id level at_ number flags s :
  reg_view (queue_update id level at_ number flags s) = reg_view s.
Proof. unfold queue_update. frame. Qed.
#[local] Hint Rewrite reg_view_queue_update : frame.

(** *** The invariant reads the Registry view only *)

Lemma reg_view_lookup s s' k r' :
  reg_view s' = reg_view s → id_table s' !! k = Some r' →
  ∃ r, id_table s !! k = Some r ∧ stamp r = stamp r' ∧ index r = index r'
       ∧ (is_Some (data r) ↔ is_Some (data r')).
Proof.
  unfold reg_view. intros Hview Hk. injection Hview as _ _ _ Htable.
  apply (f_equal (λ m, m !! k)) in Htable. rewrite !lookup_fmap, Hk in Htable.
  destruct (id_table s !! k) as [r|]; [|done]. simpl in Htable.
  exists r. unfold id_view in Htable. injection Htable as Hs Hi Hd.
  repeat split; try done.
  - intros Hsome. destruct (data r'); [by eexists|]. destruct Hsome as [? Hsome].
    rewrite Hsome in Hd. done.
  - intros Hsome. destruct (data r); [by eexists|]. destruct Hsome as [? Hsome].
    rewrite Hsome in Hd. done.
Qed.

Lemma reg_view_get_data s s' k :
  reg_view s' = reg_view s → is_Some (get_data s' k) ↔ is_Some (get_data s k).
Proof.
  intros Hview. unfold get_data. split.
  - destruct (id_table s' !! k) as [r'|] eqn:Hk; [|by intros [? ?]].
    destruct (reg_view_lookup s s' k r' Hview Hk) as (r & -> & _ & _ & Hd). apply Hd.
  - destruct (id_table s !! k) as [r|] eqn:Hk; [|by intros [? ?]].
    destruct (reg_view_lookup s' s k r (eq_sym Hview) Hk) as (r' & -> & _ & _ & Hd). apply Hd.
Qed.

Lemma reg_view_has_index s s' p i :
  reg_view s' = reg_view s → has_index s p i → has_index s' p i.
Proof.
  intros Hview (r & Hr & Hi).
  destruct (reg_view_lookup s' s p r (eq_sym Hview) Hr) as (r' & Hr' & _ & Hi' & _).
  exists r'. split; [done|congruence].
Qed.

Lemma reg_view_fields s s' :
  reg_view s' = reg_view s →
  playlists s' = playlists s ∧ active_id s' = active_id s ∧ playing_id s' = playing_id s.
Proof. unfold reg_view. intros H. by injection H as -> -> -> _. Qed.

Lemma registry_inv_reg_view s s' :
  reg_view s' = reg_view s → registry_inv s → registry_inv s'.
Proof.
  intros Hview [Hstamp Hlive Hindex Hnodup Hactive Hplaying].
  destruct (reg_view_fields _ _ Hview) as (Hp & Ha & Hpl).
  split.
  - intros k r' Hk.
    destruct (reg_view_lookup s s' k r' Hview Hk) as (r & Hr & Hs & _).
    rewrite <- Hs. by apply Hstamp.
  - intros k. rewrite Hp, <- Hlive. by apply reg_view_get_data.
  - intros i p Hi. rewrite Hp in Hi. eapply reg_view_has_index; eauto.
  - by rewrite Hp.
  - by rewrite Ha, Hp.
  - intros p. rewrite Hpl, Hp. apply Hplaying.
Qed.

(** *** Fresh stamps *)

Lemma advance_next_stamp_free_aux (table : gmap Z ID) (fuel : nat) (n : Z) (X : gset Z) :
  (∀ k, n ≤ k → is_Some (table !! k) → k ∈ X) →
  (size X ≤ fuel)%nat →
  table !! advance_next_stamp fuel table n = None.
Proof.
  revert n X. induction fuel as [|fuel IH]; intros n X HX Hsize; simpl.
  - destruct (table !! n) eqn:Hn; [|done].
    assert (n ∈ X) as Hin by (apply HX; [lia|by rewrite Hn]).
    assert (X ≡ ∅) as HX0 by (apply size_empty_iff; lia). set_solver.
  - destruct (table !! n) eqn:Hn; [|done].
    assert (n ∈ X) as Hin by (apply HX; [lia|by rewrite Hn]).
    apply (IH (n + 1) (X ∖ {[n]})).
    + intros k Hk Hsome. apply elem_of_difference. split; [apply HX; [lia|done]|].
      rewrite elem_of_singleton. lia.
    + assert (size X = size ({[n]} : gset Z) + size (X ∖ {[n]}))%nat as Hsz.
      { rewrite <- size_union.
        - f_equal. apply set_eq. intros x.
          rewrite elem_of_union, elem_of_difference, elem_of_singleton.
          destruct (decide (x = n)); [subst; tauto|tauto].
        - intros x Hx1 Hx2. apply elem_of_difference in Hx2 as [_ Hx2]. done. }
      rewrite size_singleton in Hsz. lia.
Qed.

Lemma advance_next_stamp_free (table : gmap Z ID) (n : Z) :
  table !! advance_next_stamp (size table) table n = None.
Proof.
  apply (advance_next_stamp_free_aux table (size table) n (dom table)).
  - intros k _ Hk. by apply elem_of_dom.
  - by rewrite size_dom.
Qed.

(** [create_playlist] adds one live ID record under a key that was free. *)
Lemma create_playlist_spec stamp_ s :
  let id := (create_playlist stamp_ s).1 in
  let s' := (create_playlist stamp_ s).2 in
  id_table s !! id = None
  ∧ id_table s' =
      <[id := {| stamp := id; index := -1; data := Some (new_PlaylistData default_title) |}]>
        (id_table s)
  ∧ playlists s' = playlists s ∧ active_id s' = active_id s ∧ playing_id s' = playing_id s
  ∧ trace s' = trace s.
Proof.
  unfold create_playlist.
  destruct ((0 <=? stamp_) && negb (bool_decide (is_Some (id_table s !! stamp_)))) eqn:Hreq;
    simpl.
  - apply andb_true_iff in Hreq as [_ Hfree]. apply negb_true_iff, bool_decide_eq_false in Hfree.
    split; [by apply eq_None_not_Some|].
    split; [|done].
    unfold update_id; simpl. by rewrite alter_insert_eq.
  - split; [apply advance_next_stamp_free|].
    split; [|done].
    unfold update_id; simpl. by rewrite alter_insert_eq.
Qed.

(** *** Renumbering *)

Lemma index_get_Some {A : Type} (l : list A) (i : Z) (x : A) :
  index_get l i = Some x ↔ 0 ≤ i ∧ l !! Z.to_nat i = Some x.
Proof.
  unfold index_get. destruct (i <? 0) eqn:Hi.
  - apply Z.ltb_lt in Hi. split; [done|]. intros [? _]. lia.
  - apply Z.ltb_ge in Hi. tauto.
Qed.

Lemma index_get_of_nat {A : Type} (l : list A) (i : nat) :
  index_get l (Z.of_nat i) = l !! i.
Proof.
  unfold index_get. destruct (Z.of_nat i <? 0) eqn:Hi; [apply Z.ltb_lt in Hi; lia|].
  by rewrite Nat2Z.id.
Qed.

Lemma index_get_inj (l : list Z) (i j : Z) (x : Z) :
  NoDup l → index_get l i = Some x → index_get l j = Some x → i = j.
Proof.
  intros Hnodup [Hi Hx]%index_get_Some [Hj Hy]%index_get_Some.
  pose proof (NoDup_lookup l _ _ x Hnodup Hx Hy). lia.
Qed.

Lemma number_step_frame s i :
  number_step s i = with_id_table (id_table (number_step s i)) s.
Proof. unfold number_step. destruct (index_get _ _); by destruct s. Qed.

Lemma number_step_lookup s i k :
  id_table (number_step s i) !! k =
    if bool_decide (index_get (playlists s) i = Some k)
    then with_index i <$> id_table s !! k
    else id_table s !! k.
Proof.
  unfold number_step. destruct (index_get (playlists s) i) as [p|] eqn:Hp.
  - unfold update_id; simpl. rewrite lookup_alter.
    case_decide; case_bool_decide; simplify_eq; done.
  - by rewrite bool_decide_eq_false_2.
Qed.

(** What the loop of [number_playlists] over the indices [is] does *)
Lemma number_steps_spec (idxs : list Z) (s : State) :
  let s' := foldl number_step s idxs in
  s' = with_id_table (id_table s') s
  ∧ (∀ k, (λ r, (stamp r, data r)) <$> id_table s' !! k
          = (λ r, (stamp r, data r)) <$> id_table s !! k)
  ∧ (NoDup (playlists s) →
     ∀ i p, i ∈ idxs → index_get (playlists s) i = Some p →
            is_Some (id_table s !! p) → has_index s' p i)
  ∧ (∀ p, (∀ i, i ∈ idxs → index_get (playlists s) i ≠ Some p) →
          id_table s' !! p = id_table s !! p).
Proof.
  induction idxs as [|j idxs IH] using rev_ind; simpl.
  - split; [by destruct s|]. split; [done|]. split; [|done].
    intros _ i p Hi. by apply elem_of_nil in Hi.
  - rewrite foldl_app; simpl.
    destruct IH as (Hframe & Hcore & Hset & Hkeep).
    set (s1 := foldl number_step s idxs) in *.
    assert (playlists s1 = playlists s) as Hpl by (by rewrite Hframe).
    split; [|split; [|split]].
    + rewrite (number_step_frame s1 j). rewrite Hframe. reflexivity.
    + intros k. rewrite number_step_lookup, <- Hcore.
      case_bool_decide; [|done]. by destruct (id_table s1 !! k).
    + intros Hnodup i p Hi Hp Hsome. rewrite elem_of_app, list_elem_of_singleton in Hi.
      unfold has_index. rewrite number_step_lookup, Hpl.
      case_bool_decide as Hj.
      * assert (i = j) as -> by (eapply index_get_inj; eauto).
        assert (is_Some (id_table s1 !! p)) as [r Hr].
        { specialize (Hcore p). destruct Hsome as [r0 Hr0]. rewrite Hr0 in Hcore.
          destruct (id_table s1 !! p); [by eexists|done]. }
        rewrite Hr. simpl. eexists. split; [done|]. done.
      * destruct Hi as [Hi| ->]; [|done]. by apply Hset.
    + intros p Hp. rewrite number_step_lookup, Hpl.
      rewrite bool_decide_eq_false_2.
      * apply Hkeep. intros i Hi. apply Hp. rewrite elem_of_app. by left.
      * apply Hp. rewrite elem_of_app, list_elem_of_singleton. by right.
Qed.

Lemma number_playlists_steps at_ length_ s :
  number_playlists at_ length_ s = foldl number_step s (seqZ at_ length_).
Proof. reflexivity. Qed.

Lemma number_playlists_frame at_ length_ s :
  number_playlists at_ length_ s
  = with_id_table (id_table (number_playlists at_ length_ s)) s.
Proof. rewrite number_playlists_steps. apply number_steps_spec. Qed.

Lemma number_playlists_get_data at_ length_ s k :
  get_data (number_playlists at_ length_ s) k = get_data s k.
Proof.
  rewrite number_playlists_steps.
  destruct (number_steps_spec (seqZ at_ length_) s) as (_ & Hcore & _).
  specialize (Hcore k). unfold get_data.
  destruct (id_table (foldl _ _ _) !! k), (id_table s !! k); simpl in *; congruence.
Qed.

Lemma number_playlists_stamp at_ length_ s k r :
  id_table (number_playlists at_ length_ s) !! k = Some r →
  ∃ r0, id_table s !! k = Some r0 ∧ stamp r0 = stamp r.
Proof.
  rewrite number_playlists_steps.
  destruct (number_steps_spec (seqZ at_ length_) s) as (_ & Hcore & _).
  specialize (Hcore k). intros Hr. rewrite Hr in Hcore.
  destruct (id_table s !! k) as [r0|]; [|done]. exists r0. simpl in Hcore. split; congruence.
Qed.

(** After [number_playlists (at, length)] on a Registry without duplicates
    whose playlists outside [at, at + length) carry their index, every
    playlist carries its index. *)
Lemma number_playlists_index at_ length_ s :
  NoDup (playlists s) →
  (∀ p, p ∈ playlists s → is_Some (id_table s !! p)) →
  (∀ (i : nat) p, playlists s !! i = Some p →
     ¬ (at_ ≤ Z.of_nat i < at_ + length_) → has_index s p (Z.of_nat i)) →
  ∀ (i : nat) p, playlists (number_playlists at_ length_ s) !! i = Some p →
    has_index (number_playlists at_ length_ s) p (Z.of_nat i).
Proof.
  intros Hnodup Htable Hout i p.
  rewrite number_playlists_steps.
  destruct (number_steps_spec (seqZ at_ length_) s) as (Hframe & _ & Hset & Hkeep).
  set (s' := foldl number_step s (seqZ at_ length_)) in *.
  assert (playlists s' = playlists s) as -> by (by rewrite Hframe).
  intros Hi.
  destruct (decide (at_ ≤ Z.of_nat i < at_ + length_)) as [Hin|Hnotin].
  - apply Hset; [done| |by rewrite index_get_of_nat|].
    + apply elem_of_seqZ. lia.
    + apply Htable. by eapply list_elem_of_lookup_2.
  - destruct (Hout i p Hi Hnotin) as (r & Hr & Hidx).
    exists r. split; [|done]. rewrite Hkeep; [done|].
    intros j Hj Hjp. apply elem_of_seqZ in Hj.
    rewrite <- index_get_of_nat in Hi.
    pose proof (index_get_inj _ _ _ _ Hnodup Hi Hjp). lia.
Qed.

(** *** Insertion *)

Lemma registry_inv_intro s :
  registry_core s →
  match active_id s with Some a => a ∈ playlists s | None => playlists s = [] end →
  registry_inv s.
Proof. intros (H1 & H2 & H3 & H4 & H5) H6. split; done. Qed.

Lemma registry_inv_core s : registry_inv s → registry_core s.
Proof. intros [H1 H2 H3 H4 H5 H6]. repeat split; try done; apply H2. Qed.

Lemma elem_of_insert_middle {A : Type} (l : list A) (n : nat) (x y : A) :
  x ∈ take n l ++ y :: drop n l ↔ x = y ∨ x ∈ l.
Proof.
  rewrite <- (take_drop n l) at 3.
  rewrite !elem_of_app, elem_of_cons. tauto.
Qed.

Lemma NoDup_insert_middle {A : Type} (l : list A) (n : nat) (y : A) :
  NoDup l → y ∉ l → NoDup (take n l ++ y :: drop n l).
Proof.
  intros Hnodup Hy.
  assert (take n l ++ y :: drop n l ≡ₚ y :: l) as ->.
  { rewrite <- Permutation_middle. by rewrite take_drop. }
  by constructor.
Qed.

Lemma get_data_insert_table s s' id r k :
  id_table s' = <[id := r]> (id_table s) →
  get_data s' k = if decide (id = k) then data r else get_data s k.
Proof.
  intros Htable. unfold get_data. rewrite Htable, lookup_insert.
  by case_decide.
Qed.

Lemma registry_inv_in_table s p :
  registry_inv s → p ∈ playlists s → is_Some (id_table s !! p).
Proof.
  intros Hinv Hp. apply (inv_live s Hinv) in Hp as [d Hd].
  unfold get_data in Hd. destruct (id_table s !! p); [by eexists|done].
Qed.

(** [insert_playlist_locked] keeps the invariant, and the playlist it
    returns is in the Registry afterwards. *)
Lemma insert_playlist_locked_inv at_ stamp_ s :
  registry_inv s →
  registry_inv (insert_playlist_locked at_ stamp_ s).2
  ∧ (insert_playlist_locked at_ stamp_ s).1 ∈ playlists (insert_playlist_locked at_ stamp_ s).2.
Proof.
  intros Hinv. unfold insert_playlist_locked.
  set (a := if (at_ <? 0) || (len (playlists s) <? at_) then len (playlists s) else at_).
  assert (0 ≤ a ≤ len (playlists s)) as Ha.
  { unfold a, len.
    destruct (at_ <? 0) eqn:H1; simpl; [lia|].
    destruct (Z.of_nat (length (playlists s)) <? at_) eqn:H2; lia. }
  pose proof (create_playlist_spec stamp_ s) as Hcreate.
  destruct (create_playlist stamp_ s) as [id s1]. simpl in Hcreate.
  destruct Hcreate as (Hfree & Htable & Hpl & Hact & Hplay & _).
  set (l' := take (Z.to_nat a) (playlists s1) ++ id :: drop (Z.to_nat a) (playlists s1)).
  set (s2 := with_playlists l' s1).
  set (n := len (playlists s2) - a).
  set (s3 := number_playlists a n s2).
  assert (id ∉ playlists s) as Hnotin.
  { intros Hin. apply (registry_inv_in_table s id Hinv) in Hin as [? Hin]. congruence. }
  assert (NoDup l') as Hnodup.
  { unfold l'. rewrite Hpl. apply NoDup_insert_middle; [apply Hinv|done]. }
  assert (playlists s3 = l') as Hpl3 by (unfold s3; by rewrite number_playlists_frame).
  assert (active_id s3 = active_id s) as Hact3
    by (unfold s3; by rewrite number_playlists_frame).
  assert (playing_id s3 = playing_id s) as Hplay3
    by (unfold s3; by rewrite number_playlists_frame).
  assert (∀ k, get_data s3 k
               = if decide (id = k) then Some (new_PlaylistData default_title)
                 else get_data s k) as Hdata3.
  { intros k. unfold s3. rewrite number_playlists_get_data.
    by rewrite (get_data_insert_table s s2 id _ k Htable). }
  assert (∀ k, k ∈ l' ↔ k = id ∨ k ∈ playlists s) as Hin'.
  { intros k. unfold l'. rewrite Hpl. apply elem_of_insert_middle. }
  assert (registry_core s3) as Hcore3.
  { repeat split.
    - intros k r Hr. unfold s3 in Hr.
      apply number_playlists_stamp in Hr as (r0 & Hr0 & <-).
      simpl in Hr0. rewrite Htable, lookup_insert in Hr0.
      case_decide; simplify_eq; [done|]. by apply (inv_stamp s Hinv).
    - rewrite Hdata3, Hpl3, Hin'. case_decide.
      + subst. by left.
      + rewrite (inv_live s Hinv). by right.
    - rewrite Hdata3, Hpl3, Hin'. case_decide.
      + subst. by eexists.
      + rewrite (inv_live s Hinv). intros [?|?]; [congruence|done].
    - unfold s3. apply number_playlists_index.
      + exact Hnodup.
      + intros p Hp. simpl in Hp. apply Hin' in Hp. simpl. rewrite Htable, lookup_insert.
        case_decide; [by eexists|]. destruct Hp as [?|Hp]; [congruence|].
        by apply registry_inv_in_table.
      + intros i p Hi Hrange. simpl in Hi.
        assert (Z.of_nat i < a) as Hlt.
        { unfold n in Hrange. apply lookup_lt_Some in Hi. unfold len in Hrange. simpl in Hrange.
          lia. }
        unfold l' in Hi. rewrite lookup_app_l in Hi.
        2:{ rewrite length_take. rewrite Hpl. unfold len in Ha. lia. }
        rewrite lookup_take_lt in Hi by lia. rewrite Hpl in Hi.
        destruct (inv_index s Hinv i p Hi) as (r & Hr & Hidx).
        exists r. split; [|done]. simpl. rewrite Htable, lookup_insert_ne; [done|].
        intros ->. congruence.
    - by rewrite Hpl3.
    - intros p. rewrite Hplay3, Hpl3. intros Hp. apply Hin'. right.
      by apply (inv_playing s Hinv). }
  assert (id ∈ playlists s3) as Hid3 by (rewrite Hpl3; apply Hin'; by left).
  fold l'. fold s2. fold n. fold s3.
  set (s4 := match active_id s3 with Some _ => s3 | None => with_active_id (Some id) s3 end).
  assert (registry_inv s4 ∧ id ∈ playlists s4) as [Hinv4 Hid4].
  { unfold s4. destruct (active_id s3) as [a0|] eqn:Hactive.
    - split; [|done]. apply registry_inv_intro; [done|]. rewrite Hactive.
      pose proof (inv_active s Hinv) as Hactive'.
      rewrite <- Hact3 in Hactive'. rewrite Hpl3. apply Hin'. by right.
    - split; [|done]. apply registry_inv_intro; [exact Hcore3|]. simpl. done. }
  simpl. split.
  - eapply registry_inv_reg_view; [|exact Hinv4]. by autorewrite with frame.
  - destruct (reg_view_fields s4 (queue_update id Structure 0 0 0 s4)) as (-> & _).
    + by autorewrite with frame.
    + done.
Qed.

(** *** Reordering *)

(** Exchanging two adjacent blocks of a list permutes it and leaves the
    positions outside the two blocks alone. *)
Lemma swap_blocks {A : Type} (l : list A) (a b c : nat) :
  (a + b + c ≤ length l)%nat →
  let l' := take a l ++ take c (drop (a + b) l) ++ take b (drop a l) ++ drop (a + b + c) l in
  l' ≡ₚ l ∧ ∀ i : nat, (i < a ∨ a + b + c ≤ i)%nat → l' !! i = l !! i.
Proof.
  intros Hlen l'.
  assert (l = take a l ++ take b (drop a l) ++ take c (drop (a + b) l) ++ drop (a + b + c) l)
    as Hsplit.
  { rewrite <- (take_drop a l) at 1. f_equal.
    rewrite <- (take_drop b (drop a l)) at 1. f_equal.
    rewrite drop_drop.
    rewrite <- (take_drop c (drop (a + b) l)) at 1. f_equal.
    by rewrite drop_drop. }
  assert (length (take a l) = a) as Ha by (rewrite length_take; lia).
  assert (length (take b (drop a l)) = b) as Hb by (rewrite length_take, length_drop; lia).
  assert (length (take c (drop (a + b) l)) = c) as Hc
    by (rewrite length_take, length_drop; lia).
  split.
  - transitivity
      (take a l ++ take b (drop a l) ++ take c (drop (a + b) l) ++ drop (a + b + c) l);
      [|by rewrite <- Hsplit].
    unfold l'. apply Permutation_app_head.
    rewrite !app_assoc. apply Permutation_app_tail. apply Permutation_app_comm.
  - intros i Hi. etrans; [|exact (eq_sym (f_equal (λ x, x !! i) Hsplit))].
    unfold l'. destruct Hi as [Hi|Hi].
    + rewrite !lookup_app_l by lia. done.
    + rewrite (app_assoc (take c _)), (app_assoc (take a l)).
      rewrite (app_assoc (take b _)), (app_assoc (take a l) (_ ++ _)).
      rewrite !lookup_app_r by (rewrite !length_app; lia).
      f_equal. rewrite !length_app. lia.
Qed.

(** Renumbering the range that a permutation of the Registry touched
    restores the invariant. *)
Lemma renumber_permutation_inv s l' a n :
  registry_inv s →
  l' ≡ₚ playlists s →
  (∀ i : nat, ¬ (a ≤ Z.of_nat i < a + n) → l' !! i = playlists s !! i) →
  registry_inv (number_playlists a n (with_playlists l' s)).
Proof.
  intros Hinv Hperm Hout.
  set (s0 := with_playlists l' s). set (s' := number_playlists a n s0).
  assert (playlists s' = l') as Hpl by (unfold s'; by rewrite number_playlists_frame).
  assert (active_id s' = active_id s) as Hact by (unfold s'; by rewrite number_playlists_frame).
  assert (playing_id s' = playing_id s) as Hplay
    by (unfold s'; by rewrite number_playlists_frame).
  assert (NoDup l') as Hnodup by (rewrite Hperm; apply Hinv).
  apply registry_inv_intro; [repeat split|].
  - intros k r Hr. unfold s' in Hr. apply number_playlists_stamp in Hr as (r0 & Hr0 & <-).
    by apply (inv_stamp s Hinv).
  - rewrite Hpl, Hperm. unfold s'. rewrite number_playlists_get_data. apply (inv_live s Hinv).
  - rewrite Hpl, Hperm. unfold s'. rewrite number_playlists_get_data. apply (inv_live s Hinv).
  - unfold s'. apply number_playlists_index.
    + exact Hnodup.
    + intros p Hp. simpl in Hp. rewrite Hperm in Hp. by apply (registry_inv_in_table s).
    + intros i p Hi Hrange. simpl in Hi. rewrite (Hout i Hrange) in Hi.
      apply (inv_index s Hinv i p Hi).
  - by rewrite Hpl.
  - intros p. rewrite Hplay, Hpl, Hperm. apply (inv_playing s Hinv).
  - rewrite Hact, Hpl. pose proof (inv_active s Hinv) as Hactive.
    destruct (active_id s).
    + by rewrite Hperm.
    + rewrite Hactive in Hperm. by apply Permutation_nil_r in Hperm.
Qed.

Lemma playlists_of_view s s' : reg_view s' = reg_view s → playlists s' = playlists s.
Proof. intros H. by destruct (reg_view_fields _ _ H) as (-> & _). Qed.

Lemma reorder_playlists_perm from to count s s' :
  reorder_playlists from to count s = Some s' → playlists s' ≡ₚ playlists s.
Proof.
  unfold reorder_playlists. destruct (reorder_overflows from to count s); [done|].
  destruct ((from <? 0) || (len (playlists s) <? from + count) || (to <? 0)
            || (len (playlists s) <? to + count) || (count <? 0)) eqn:Hguard;
    intros [= <-]; [done|].
  repeat (apply orb_false_iff in Hguard as [Hguard ?]).
  assert (0 ≤ from ∧ from + count ≤ len (playlists s) ∧ 0 ≤ to
          ∧ to + count ≤ len (playlists s) ∧ 0 ≤ count) as (G1 & G2 & G3 & G4 & G5) by lia.
  unfold len in *.
  erewrite playlists_of_view; [|apply reg_view_queue_global_update].
  unfold index_slice.
  destruct (to <? from) eqn:Hdir; rewrite number_playlists_frame; simpl.
  - apply Z.ltb_lt in Hdir.
    destruct (swap_blocks (playlists s) (Z.to_nat to) (Z.to_nat (from - to)) (Z.to_nat count))
      as [Hperm _]; [lia|].
    replace (Z.to_nat to + Z.to_nat (from - to))%nat with (Z.to_nat from) in * by lia.
    replace (Z.to_nat from + Z.to_nat count)%nat with (Z.to_nat (from + count)) in * by lia.
    exact Hperm.
  - apply Z.ltb_ge in Hdir.
    destruct (swap_blocks (playlists s) (Z.to_nat from) (Z.to_nat count) (Z.to_nat (to - from)))
      as [Hperm _]; [lia|].
    replace (Z.to_nat from + Z.to_nat count)%nat with (Z.to_nat (from + count)) in * by lia.
    replace (Z.to_nat (from + count) + Z.to_nat (to - from))%nat
      with (Z.to_nat (to + count)) in * by lia.
    exact Hperm.
Qed.

Lemma reorder_playlists_inv from to count s s' :
  reorder_playlists from to count s = Some s' → registry_inv s → registry_inv s'.
Proof.
  unfold reorder_playlists. destruct (reorder_overflows from to count s); [done|].
  destruct ((from <? 0) || (len (playlists s) <? from + count) || (to <? 0)
            || (len (playlists s) <? to + count) || (count <? 0)) eqn:Hguard;
    intros [= <-] Hinv; [done|].
  repeat (apply orb_false_iff in Hguard as [Hguard ?]).
  assert (0 ≤ from ∧ from + count ≤ len (playlists s) ∧ 0 ≤ to
          ∧ to + count ≤ len (playlists s) ∧ 0 ≤ count) as (G1 & G2 & G3 & G4 & G5) by lia.
  unfold len in *.
  eapply registry_inv_reg_view; [by autorewrite with frame|].
  unfold index_slice.
  destruct (to <? from) eqn:Hdir.
  - apply Z.ltb_lt in Hdir.
    destruct (swap_blocks (playlists s) (Z.to_nat to) (Z.to_nat (from - to)) (Z.to_nat count))
      as [Hperm Hout]; [lia|].
    replace (Z.to_nat to + Z.to_nat (from - to))%nat with (Z.to_nat from) in * by lia.
    replace (Z.to_nat from + Z.to_nat count)%nat with (Z.to_nat (from + count)) in * by lia.
    apply renumber_permutation_inv; [done|exact Hperm|].
    intros i Hi. apply Hout. lia.
  - apply Z.ltb_ge in Hdir.
    destruct (swap_blocks (playlists s) (Z.to_nat from) (Z.to_nat count) (Z.to_nat (to - from)))
      as [Hperm Hout]; [lia|].
    replace (Z.to_nat from + Z.to_nat count)%nat with (Z.to_nat (from + count)) in * by lia.
    replace (Z.to_nat (from + count) + Z.to_nat (to - from))%nat
      with (Z.to_nat (to + count)) in * by lia.
    apply renumber_permutation_inv; [done|exact Hperm|].
    intros i Hi. apply Hout. lia.
Qed.

(** *** Removal *)

Lemma ptr_eqb_eq (a b : option Z) : ptr_eqb a b = true ↔ a = b.
Proof.
  destruct a as [x|], b as [y|]; simpl; try (split; congruence).
  rewrite Z.eqb_eq. split; congruence.
Qed.

Lemma ptr_eqb_neq (a b : option Z) : ptr_eqb a b = false ↔ a ≠ b.
Proof.
  rewrite <- ptr_eqb_eq. destruct (ptr_eqb a b); split; congruence.
Qed.

Lemma scan_cancel_frame entry s :
  scan_cancel entry s = with_scan_list (scan_list (scan_cancel entry s)) s.
Proof. unfold scan_cancel. destruct (scan_list_find_entry _ _); by destruct s. Qed.

Lemma destroy_entries_frame (es : list PlaylistEntry) (s : State) :
  let s' := foldl (λ s e, pl_signal_entry_deleted (e_addr e) s) s es in
  s' = with_scan_list (scan_list s') s.
Proof.
  revert s. induction es as [|e es IH]; intros s; simpl; [by destruct s|].
  etrans; [apply IH|].
  generalize (scan_list (foldl (λ s e, pl_signal_entry_deleted (e_addr e) s)
                           (pl_signal_entry_deleted (e_addr e) s) es)).
  intros items. unfold pl_signal_entry_deleted. rewrite scan_cancel_frame. reflexivity.
Qed.

(** Destroying a live playlist turns its ID record into a dead one and
    touches, apart from that, the scan list only. *)
Lemma PlaylistData_destroy_spec id s :
  is_Some (get_data s id) →
  let s' := PlaylistData_destroy id s in
  id_table s' = alter (λ r, with_index (-1) (with_data None r)) id (id_table s)
  ∧ playlists s' = playlists s ∧ active_id s' = active_id s ∧ playing_id s' = playing_id s
  ∧ trace s' = trace s ∧ world s' = world s.
Proof.
  intros [d Hd]. unfold PlaylistData_destroy. rewrite Hd.
  unfold pl_signal_playlist_deleted, update_id. simpl.
  rewrite destroy_entries_frame. simpl.
  split; [|done]. by rewrite alter_alter_eq.
Qed.

Lemma elem_of_delete_NoDup (l : list Z) (i : nat) (x k : Z) :
  NoDup l → l !! i = Some x → k ∈ delete i l ↔ k ∈ l ∧ k ≠ x.
Proof.
  intros Hnodup Hi.
  rewrite <- (take_drop_middle l i x Hi) in Hnodup.
  rewrite <- (take_drop_middle l i x Hi) at 2.
  rewrite delete_take_drop.
  apply NoDup_app in Hnodup as (_ & Hdisj & Hnodup).
  apply NoDup_cons in Hnodup as [Hx _].
  rewrite !elem_of_app, elem_of_cons. split.
  - intros [Hk|Hk]; (split; [tauto|]); intros ->.
    + apply (Hdisj x Hk). by left.
    + done.
  - intros [[Hk|[Hk|Hk]] Hne]; tauto.
Qed.

Lemma get_data_alter_dead s s' id k :
  id_table s' = alter (λ r, with_index (-1) (with_data None r)) id (id_table s) →
  get_data s' k = if decide (id = k) then None else get_data s k.
Proof.
  intros Htable. unfold get_data. rewrite Htable, lookup_alter.
  case_decide; [|done]. subst. by destruct (id_table s !! k).
Qed.

Lemma removed_registry_spec id s :
  registry_inv s → is_Some (get_data s id) →
  let s' := removed_registry id s in
  (∀ (k : Z) (r : ID), id_table s' !! k = Some r → stamp r = k)
  ∧ (∀ (k : Z), is_Some (get_data s' k) ↔ k ∈ playlists s')
  ∧ (∀ (i : nat) (p : Z), playlists s' !! i = Some p → has_index s' p (Z.of_nat i))
  ∧ NoDup (playlists s')
  ∧ playlists s' ≠ []
  ∧ 0 ≤ id_index s id
  ∧ active_id s' = active_id s ∧ playing_id s' = playing_id s
  ∧ (∀ p, p ∈ playlists s → p ≠ id → p ∈ playlists s')
  ∧ id ∉ playlists s'.
Proof.
  intros Hinv Hlive.
  assert (id ∈ playlists s) as Hin by (by apply (inv_live s Hinv)).
  apply list_elem_of_lookup in Hin as [i0 Hi0].
  assert (id_index s id = Z.of_nat i0) as Hat.
  { destruct (inv_index s Hinv i0 id Hi0) as (r & Hr & Hidx). unfold id_index. by rewrite Hr. }
  unfold removed_registry. rewrite Hat.
  unfold playlists_remove. rewrite index_get_of_nat, Hi0, Nat2Z.id.
  destruct (PlaylistData_destroy_spec id s Hlive) as (Htable & Hpl & Hact & Hplay & _).
  set (s0 := PlaylistData_destroy id s) in *.
  set (s1 := with_playlists (delete i0 (playlists s0)) s0).
  pose proof (inv_nodup s Hinv) as Hnodup.
  assert (∀ k, k ∈ delete i0 (playlists s) ↔ k ∈ playlists s ∧ k ≠ id) as Hdel.
  { intros k. by apply elem_of_delete_NoDup. }
  assert (∀ k, get_data s1 k = if decide (id = k) then None else get_data s k) as Hdata1.
  { intros k. by apply get_data_alter_dead. }
  assert (∀ (k : Z) (r : ID), id_table s1 !! k = Some r → stamp r = k) as Hstamp1.
  { intros k r. simpl. rewrite Htable, lookup_alter. case_decide.
    - subst. destruct (id_table s !! k) as [r0|] eqn:Hr0; [|done]. simpl.
      intros [= <-]. simpl. by apply (inv_stamp s Hinv).
    - apply (inv_stamp s Hinv). }
  assert (∀ (i : nat) (p : Z), delete i0 (playlists s) !! i = Some p →
            Z.of_nat i < Z.of_nat i0 → has_index s1 p (Z.of_nat i)) as Hindex1.
  { intros i p Hi Hlt. rewrite list_lookup_delete_lt in Hi by lia.
    destruct (inv_index s Hinv i p Hi) as (r & Hr & Hidx).
    exists r. split; [|done]. simpl. rewrite Htable, lookup_alter_ne; [done|].
    intros ->. pose proof (NoDup_lookup _ _ _ _ Hnodup Hi Hi0). lia. }
  set (s2 := if len (playlists s1) =? 0
             then let '(fresh, s) := create_playlist (-1) s1 in
                  with_playlists (playlists s ++ [fresh]) s
             else s1).
  assert ((∀ (k : Z) (r : ID), id_table s2 !! k = Some r → stamp r = k)
          ∧ (∀ k, is_Some (get_data s2 k) ↔ k ∈ playlists s2)
          ∧ NoDup (playlists s2)
          ∧ (∀ (i : nat) (p : Z), playlists s2 !! i = Some p →
               Z.of_nat i < Z.of_nat i0 → has_index s2 p (Z.of_nat i))
          ∧ playlists s2 ≠ []
          ∧ active_id s2 = active_id s ∧ playing_id s2 = playing_id s
          ∧ (∀ p, p ∈ playlists s → p ≠ id → p ∈ playlists s2)
          ∧ (id ∉ playlists s2)
          ∧ (Z.of_nat i0 ≤ len (playlists s2)))
    as (Hstamp2 & Hlive2 & Hnodup2 & Hindex2 & Hne2 & Hact2 & Hplay2 & Hkeep2 & Hgone2 & Hlen2).
  { unfold s2. destruct (len (playlists s1) =? 0) eqn:Hempty.
    - apply Z.eqb_eq in Hempty. unfold len in Hempty.
      assert (delete i0 (playlists s) = []) as Hnil.
      { simpl in Hempty. rewrite Hpl in Hempty. apply nil_length_inv. lia. }
      pose proof (create_playlist_spec (-1) s1) as Hcreate.
      destruct (create_playlist (-1) s1) as [fresh s1']. simpl in Hcreate.
      destruct Hcreate as (Hfree & Htable' & Hpl' & Hact' & Hplay' & _).
      simpl in Hpl'. rewrite Hpl, Hnil in Hpl'. simpl. rewrite Hpl'. simpl.
      assert (i0 = 0%nat) as Hi00.
      { assert (length (delete i0 (playlists s)) = (length (playlists s) - 1)%nat) as Hl
          by (apply length_delete; by eexists).
        apply lookup_lt_Some in Hi0. rewrite Hnil in Hl. simpl in Hl. lia. }
      assert (fresh ≠ id) as Hfresh.
      { intros ->. simpl in Hfree. rewrite Htable, lookup_alter_eq in Hfree.
        destruct Hlive as [d Hd]. unfold get_data in Hd.
        destruct (id_table s !! id); done. }
      repeat split.
      + intros k r. simpl. rewrite Htable', lookup_insert. case_decide.
        * intros [= <-]. done.
        * apply Hstamp1.
      + intros [d Hd]. unfold get_data in Hd. simpl in Hd.
        rewrite Htable', lookup_insert in Hd. case_decide; [subst; by left|].
        change (get_data s1 k = Some d) in Hd. rewrite Hdata1 in Hd.
        case_decide; [done|].
        assert (k ∈ delete i0 (playlists s)) as Hk.
        { apply Hdel. split; [|done]. apply (inv_live s Hinv). by eexists. }
        rewrite Hnil in Hk. by apply elem_of_nil in Hk.
      + intros ->%list_elem_of_singleton. unfold get_data. simpl.
        rewrite Htable', lookup_insert_eq. by eexists.
      + apply NoDup_singleton.
      + intros i p _ Hlt. lia.
      + done.
      + by rewrite Hact'.
      + by rewrite Hplay'.
      + intros p Hp Hpid. assert (p ∈ delete i0 (playlists s)) as Hk by (by apply Hdel).
        rewrite Hnil in Hk. by apply elem_of_nil in Hk.
      + intros ->%list_elem_of_singleton. done.
      + unfold len. simpl. lia.
    - apply Z.eqb_neq in Hempty.
      assert (playlists s1 = delete i0 (playlists s)) as Hpl1 by (simpl; by rewrite Hpl).
      split; [exact Hstamp1|].
      split.
      { intros k. rewrite Hdata1, Hpl1, Hdel. case_decide.
        - split; [by intros [? ?]|]. intros [_ ?]. congruence.
        - rewrite (inv_live s Hinv). split; [intros ?; split; [done|congruence]|tauto]. }
      split.
      { rewrite Hpl1. eapply sublist_NoDup; [exact Hnodup|apply sublist_delete]. }
      split.
      { intros i p. rewrite Hpl1. apply Hindex1. }
      split.
      { rewrite Hpl1. intros Hnil. rewrite Hpl1, Hnil in Hempty. done. }
      split; [exact Hact|]. split; [exact Hplay|].
      split.
      { intros p Hp Hpid. rewrite Hpl1. by apply Hdel. }
      split.
      { rewrite Hpl1. intros [_ ?]%Hdel. done. }
      rewrite Hpl1. unfold len.
      assert (length (delete i0 (playlists s)) = (length (playlists s) - 1)%nat) as Hl
        by (apply length_delete; by eexists).
      apply lookup_lt_Some in Hi0. lia. }
  fold s1. fold s2.
  set (n := len (playlists s2) - Z.of_nat i0).
  set (s3 := number_playlists (Z.of_nat i0) n s2).
  assert (playlists s3 = playlists s2) as Hpl3
    by (unfold s3; by rewrite number_playlists_frame).
  repeat split.
  - intros k r Hr. unfold s3 in Hr. apply number_playlists_stamp in Hr as (r0 & Hr0 & <-).
    by apply Hstamp2.
  - rewrite Hpl3. unfold s3. rewrite number_playlists_get_data. apply Hlive2.
  - rewrite Hpl3. unfold s3. rewrite number_playlists_get_data. apply Hlive2.
  - unfold s3. apply number_playlists_index.
    + done.
    + intros p [d Hd]%Hlive2. unfold get_data in Hd.
      destruct (id_table s2 !! p); [by eexists|done].
    + intros i p Hi Hrange. apply Hindex2; [done|].
      apply lookup_lt_Some in Hi. unfold n, len in Hrange. lia.
  - by rewrite Hpl3.
  - by rewrite Hpl3.
  - lia.
  - unfold s3. by rewrite number_playlists_frame.
  - unfold s3. by rewrite number_playlists_frame.
  - rewrite Hpl3. apply Hkeep2.
  - by rewrite Hpl3.
Qed.

(** [remove_playlist] through a live handle, step by step *)
Lemma remove_playlist_live id s :
  is_Some (get_data s id) →
  remove_playlist (Some id) s =
    let at_ := id_index s id in
    let s3 := removed_registry id s in
    let was_active := ptr_eqb (Some id) (active_id s3) in
    let s4 := if was_active
              then with_active_id
                     (index_get (playlists s3) (Z.min at_ (len (playlists s3) - 1))) s3
              else s3 in
    let was_playing := ptr_eqb (Some id) (playing_id s4) in
    let s5 := if was_playing then stop_playback_locked (with_playing_id None s4) else s4 in
    let s6 := queue_global_update Structure 0 s5 in
    let s7 := if was_active then emit (hook_call "playlist activate" None) s6 else s6 in
    if was_playing
    then emit (hook_call "playback stop" None) (emit (hook_call "playlist set playing" None) s7)
    else s7.
Proof. intros [d Hd]. unfold remove_playlist. rewrite Hd. reflexivity. Qed.

Lemma reg_view_stop_playback_locked s : reg_view (stop_playback_locked s) = reg_view s.
Proof. unfold stop_playback_locked. frame. Qed.
#[local] Hint Rewrite reg_view_stop_playback_locked : frame.

Lemma reg_view_start_playback_locked seek_time pause s :
  reg_view (start_playback_locked seek_time pause s) = reg_view s.
Proof. unfold start_playback_locked. frame. Qed.
#[local] Hint Rewrite reg_view_start_playback_locked : frame.

Lemma registry_inv_pointers s active playing :
  (∀ (k : Z) (r : ID), id_table s !! k = Some r → stamp r = k) →
  (∀ (k : Z), is_Some (get_data s k) ↔ k ∈ playlists s) →
  (∀ (i : nat) (p : Z), playlists s !! i = Some p → has_index s p (Z.of_nat i)) →
  NoDup (playlists s) →
  match active with Some a => a ∈ playlists s | None => playlists s = [] end →
  (∀ p, playing = Some p → p ∈ playlists s) →
  registry_inv (with_playing_id playing (with_active_id active s)).
Proof. intros. split; done. Qed.

Lemma index_get_elem_of (l : list Z) (i : Z) :
  0 ≤ i < len l → ∃ x, index_get l i = Some x ∧ x ∈ l.
Proof.
  intros Hi. unfold len in Hi.
  destruct (lookup_lt_is_Some_2 l (Z.to_nat i)) as [x Hx]; [lia|].
  exists x. split; [apply index_get_Some; split; [lia|done]|].
  by eapply list_elem_of_lookup_2.
Qed.

(** What [remove_playlist] through a live handle leaves of the Registry:
    the renumbered Registry, the active playlist moved if it was the one
    removed, the playing playlist cleared if it was the one removed. *)
Lemma remove_playlist_view id s :
  is_Some (get_data s id) →
  let s3 := removed_registry id s in
  reg_view (remove_playlist (Some id) s) =
  reg_view
    (with_playing_id
       (if ptr_eqb (Some id) (playing_id s3) then None else playing_id s3)
       (with_active_id
          (if ptr_eqb (Some id) (active_id s3)
           then index_get (playlists s3) (Z.min (id_index s id) (len (playlists s3) - 1))
           else active_id s3) s3)).
Proof.
  intros Hlive. rewrite (remove_playlist_live id s Hlive). cbv zeta.
  set (s3 := removed_registry id s).
  destruct (ptr_eqb (Some id) (active_id s3)) eqn:Hwas_active;
    simpl playing_id;
    destruct (ptr_eqb (Some id) (playing_id s3)) eqn:Hwas_playing;
    autorewrite with frame; reflexivity.
Qed.

Lemma remove_playlist_inv m_id s :
  registry_inv s → registry_inv (remove_playlist m_id s).
Proof.
  intros Hinv. destruct m_id as [id|]; [|done].
  destruct (get_data s id) as [d|] eqn:Hd; [|by unfold remove_playlist; rewrite Hd].
  assert (is_Some (get_data s id)) as Hlive by (by eexists).
  eapply registry_inv_reg_view; [by apply remove_playlist_view|].
  destruct (removed_registry_spec id s Hinv Hlive)
    as (Hstamp & Hlive3 & Hindex & Hnodup & Hne & Hat & Hact & Hplay & Hkeep & Hgone).
  set (s3 := removed_registry id s) in *.
  apply registry_inv_pointers; try done.
  - destruct (ptr_eqb (Some id) (active_id s3)) eqn:Hwas.
    + destruct (index_get_elem_of (playlists s3)
                  (Z.min (id_index s id) (len (playlists s3) - 1))) as (x & -> & Hx);
        [|done].
      unfold len. destruct (playlists s3); [done|]. simpl length. lia.
    + apply ptr_eqb_neq in Hwas. rewrite Hact in *.
      pose proof (inv_active s Hinv) as Hactive.
      destruct (active_id s) as [a|].
      * apply Hkeep; [done|]. congruence.
      * apply (inv_live s Hinv) in Hlive. rewrite Hactive in Hlive.
        by apply elem_of_nil in Hlive.
  - destruct (ptr_eqb (Some id) (playing_id s3)) eqn:Hwas; [done|].
    apply ptr_eqb_neq in Hwas. rewrite Hplay in *. intros p Hp.
    apply Hkeep; [by apply (inv_playing s Hinv)|]. congruence.
Qed.

(** *** The active and the playing playlist *)

Lemma registry_inv_with_active_id s a :
  registry_inv s → a ∈ playlists s → registry_inv (with_active_id (Some a) s).
Proof. intros [H1 H2 H3 H4 H5 H6] Ha. split; done. Qed.

Lemma registry_inv_with_playing_id s playing :
  registry_inv s → (∀ p, playing = Some p → p ∈ playlists s) →
  registry_inv (with_playing_id playing s).
Proof. intros [H1 H2 H3 H4 H5 H6] Hp. split; done. Qed.

Lemma activate_inv m_id s : registry_inv s → registry_inv (activate m_id s).
Proof.
  intros Hinv. unfold activate. destruct m_id as [id|]; [|done].
  destruct (get_data s id) as [d|] eqn:Hd; [|done].
  destruct (negb _); [|done].
  eapply registry_inv_reg_view; [by autorewrite with frame|].
  apply registry_inv_with_active_id; [done|].
  apply (inv_live s Hinv). by eexists.
Qed.

Lemma insert_playlist_inv at_ s : registry_inv s → registry_inv (insert_playlist at_ s).2.
Proof.
  intros Hinv. unfold insert_playlist.
  destruct (insert_playlist_locked_inv at_ (-1) s Hinv) as [Hinv' _].
  destruct (insert_playlist_locked _ _ s); simpl in *; done.
Qed.

Lemma insert_with_stamp_inv at_ stamp_ s :
  registry_inv s → registry_inv (insert_with_stamp at_ stamp_ s).2.
Proof.
  intros Hinv. unfold insert_with_stamp.
  destruct (insert_playlist_locked_inv at_ stamp_ s Hinv) as [Hinv' _].
  destruct (insert_playlist_locked _ _ s); simpl in *; done.
Qed.

Lemma new_playlist_inv s r : new_playlist s = Some r → registry_inv s → registry_inv r.2.
Proof.
  unfold new_playlist. destruct (active_id s) as [active|]; [|done]. intros Hr Hinv.
  destruct (insert_playlist_locked_inv (id_index s active + 1) (-1) s Hinv) as [Hinv' Hid].
  destruct (insert_playlist_locked _ _ s) as [id s']. injection Hr as <-. simpl in *.
  eapply registry_inv_reg_view; [by autorewrite with frame|].
  by apply registry_inv_with_active_id.
Qed.

Lemma get_blank_locked_inv s r :
  get_blank_locked s = Some r → registry_inv s → registry_inv r.2.
Proof.
  unfold get_blank_locked. destruct (active_id s) as [active|]; [|done].
  destruct (get_data s active); [|done]. intros Hr Hinv.
  destruct (_ && _); [by injection Hr as <-|].
  destruct (insert_playlist_locked_inv (id_index s active + 1) (-1) s Hinv) as [Hinv' _].
  destruct (insert_playlist_locked _ _ s); injection Hr as <-; simpl in *; done.
Qed.

Lemma temporary_playlist_inv s r :
  temporary_playlist s = Some r → registry_inv s → registry_inv r.2.
Proof.
  unfold temporary_playlist.
  destruct (list_find_first _ _); [by intros [= <-]|].
  destruct (get_blank_locked s) as [[id s']|] eqn:Hblank; [|done]. intros Hr Hinv.
  pose proof (get_blank_locked_inv s _ Hblank Hinv) as Hinv'. cbn [snd] in Hinv'.
  destruct id as [i|]; injection Hr as <-; cbn [snd]; [|done].
  eapply registry_inv_reg_view; [by autorewrite with frame|done].
Qed.

(** With a playlist in the Registry, [active_id] is not null and its
    playlist lives: the operations that follow it have a result. *)
Lemma registry_inv_active_live s :
  registry_inv s → playlists s ≠ [] →
  ∃ active d, active_id s = Some active ∧ get_data s active = Some d.
Proof.
  intros Hinv Hne. pose proof (inv_active s Hinv) as Hactive.
  destruct (active_id s) as [a|]; [|done].
  destruct (proj2 (inv_live s Hinv a) Hactive) as [d Hd]. by exists a, d.
Qed.

Lemma get_blank_locked_defined s :
  registry_inv s → playlists s ≠ [] → is_Some (get_blank_locked s).
Proof.
  intros Hinv Hne. destruct (registry_inv_active_live s Hinv Hne) as (a & d & Ha & Hd).
  unfold get_blank_locked. rewrite Ha, Hd.
  destruct (_ && _); [by eexists|]. destruct (insert_playlist_locked _ _ s). by eexists.
Qed.

Lemma new_playlist_defined s :
  registry_inv s → playlists s ≠ [] → is_Some (new_playlist s).
Proof.
  intros Hinv Hne. destruct (registry_inv_active_live s Hinv Hne) as (a & d & Ha & Hd).
  unfold new_playlist. rewrite Ha. destruct (insert_playlist_locked _ _ s). by eexists.
Qed.

Lemma temporary_playlist_defined s :
  registry_inv s → playlists s ≠ [] → is_Some (temporary_playlist s).
Proof.
  intros Hinv Hne. unfold temporary_playlist.
  destruct (list_find_first _ _); [by eexists|].
  destruct (get_blank_locked_defined s Hinv Hne) as [[id s'] ->].
  destruct id; by eexists.
Qed.

Section Playing.

Context {methods : PlaylistDataMethods}.

Lemma set_playing_locked_inv id paused s :
  registry_inv s →
  (∀ i, id = Some i → is_Some (get_data s i)) →
  registry_inv (set_playing_locked id paused s).1.
Proof.
  intros Hinv Hlive. unfold set_playing_locked.
  destruct (ptr_eqb id (playing_id s)).
  { simpl. eapply registry_inv_reg_view; [|exact Hinv]. frame. }
  set (s1 := match playing_id s with
             | Some playing => update_data playing (with_resume_time (drct_time (world s))) s
             | None => s
             end).
  assert (reg_view s1 = reg_view s) as Hview1 by (unfold s1; frame).
  assert (registry_inv s1) as Hinv1 by (by eapply registry_inv_reg_view).
  assert (∀ i, id = Some i → i ∈ playlists s1) as Hin.
  { intros i Hi. apply (inv_live s1 Hinv1). rewrite (reg_view_get_data s s1 i Hview1).
    by apply Hlive. }
  destruct id as [i|]; simpl.
  - specialize (Hin i eq_refl).
    destruct (get_data s1 i) as [d|] eqn:Hd.
    + destruct (position d <? 0).
      * destruct (pd_next_song true 0 d) as [d' moved]. destruct moved; simpl.
        -- eapply registry_inv_reg_view; [by autorewrite with frame|].
           apply registry_inv_with_playing_id.
           ++ eapply registry_inv_reg_view; [|exact Hinv1]. by autorewrite with frame.
           ++ intros p [= <-]. done.
        -- eapply registry_inv_reg_view; [by autorewrite with frame|].
           apply registry_inv_with_playing_id; [|done].
           eapply registry_inv_reg_view; [|exact Hinv1]. by autorewrite with frame.
      * simpl. eapply registry_inv_reg_view; [by autorewrite with frame|].
        apply registry_inv_with_playing_id; [done|]. intros p [= <-]. done.
    + simpl. eapply registry_inv_reg_view; [by autorewrite with frame|].
      apply registry_inv_with_playing_id; [done|]. intros p [= <-]. done.
  - eapply registry_inv_reg_view; [by autorewrite with frame|].
    by apply registry_inv_with_playing_id.
Qed.

Lemma reg_view_call_playback_hooks playlist hooks s :
  reg_view (call_playback_hooks playlist hooks s) = reg_view s.
Proof. unfold call_playback_hooks. frame. Qed.

Lemma Playlist_start_playback_inv paused m_id s :
  registry_inv s → registry_inv (Playlist_start_playback paused m_id s).
Proof.
  intros Hinv. unfold Playlist_start_playback, ENTER_GET_PLAYLIST.
  destruct m_id as [id|]; [|done].
  destruct (get_data s id) as [d|] eqn:Hd; [|done].
  pose proof (set_playing_locked_inv (Some id) paused s Hinv) as Hinv'.
  destruct (set_playing_locked (Some id) paused s) as [s' hooks]. simpl in *.
  eapply registry_inv_reg_view; [apply reg_view_call_playback_hooks|].
  apply Hinv'. intros i [= <-]. by eexists.
Qed.

Lemma set_playing_locked_playlists id paused s :
  playlists (set_playing_locked id paused s).1 = playlists s.
Proof.
  unfold set_playing_locked.
  repeat match goal with
         | |- context [match ?x with _ => _ end] =>
             lazymatch x with
             | context [match _ with _ => _ end] => fail
             | _ => destruct x eqn:?
             end
         end; simpl fst;
    repeat first
      [ erewrite playlists_of_view; [|by autorewrite with frame]
      | progress change (playlists (with_playing_id ?p ?x)) with (playlists x) ];
    reflexivity.
Qed.

Lemma Playlist_start_playback_playlists paused m_id s :
  playlists (Playlist_start_playback paused m_id s) = playlists s.
Proof.
  unfold Playlist_start_playback, ENTER_GET_PLAYLIST.
  destruct m_id as [id|]; [|done]. destruct (get_data s id); [|done].
  pose proof (set_playing_locked_playlists (Some id) paused s) as Hpl.
  destruct (set_playing_locked (Some id) paused s) as [s' hooks]. simpl in *.
  by rewrite (playlists_of_view _ _ (reg_view_call_playback_hooks (Some id) hooks s')).
Qed.

Lemma aud_drct_stop_inv s : registry_inv s → registry_inv (aud_drct_stop s).
Proof.
  intros Hinv. unfold aud_drct_stop.
  pose proof (set_playing_locked_inv None false s Hinv) as Hinv'.
  destruct (set_playing_locked None false s) as [s' hooks]. simpl in *.
  eapply registry_inv_reg_view; [apply reg_view_call_playback_hooks|].
  by apply Hinv'.
Qed.

Lemma run_registry_op_inv op s s' :
  run_registry_op op s = Some s' → registry_inv s → registry_inv s'.
Proof.
  destruct op; cbn [run_registry_op]; intros Hrun Hinv.
  - injection Hrun as <-. by apply insert_playlist_inv.
  - injection Hrun as <-. by apply insert_with_stamp_inv.
  - destruct (new_playlist s) as [r|] eqn:Hr; [|done]. injection Hrun as <-.
    by apply (new_playlist_inv s).
  - destruct (blank_playlist s) as [r|] eqn:Hr; [|done]. injection Hrun as <-.
    by apply (get_blank_locked_inv s).
  - destruct (temporary_playlist s) as [r|] eqn:Hr; [|done]. injection Hrun as <-.
    by apply (temporary_playlist_inv s).
  - by apply (reorder_playlists_inv from to count s).
  - injection Hrun as <-. by apply remove_playlist_inv.
  - injection Hrun as <-. by apply activate_inv.
  - injection Hrun as <-. by apply Playlist_start_playback_inv.
  - injection Hrun as <-. by apply aud_drct_stop_inv.
Qed.

Lemma run_registry_ops_inv ops s s' :
  run_registry_ops ops s = Some s' → registry_inv s → registry_inv s'.
Proof.
  revert s. induction ops as [|op ops IH]; intros s; cbn [run_registry_ops].
  - by intros [= <-].
  - destruct (run_registry_op op s) as [s1|] eqn:Hop; [|done]. intros Hrun Hinv.
    apply (IH s1 Hrun). by apply (run_registry_op_inv op s).
Qed.

(** Once the Registry is not empty it stays so. *)
Lemma run_registry_op_nonempty op s s' :
  registry_inv s → playlists s ≠ [] ∨ is_insert op = true →
  run_registry_op op s = Some s' → playlists s' ≠ [].
Proof.
  intros Hinv Hne.
  assert (∀ at_ stamp_, playlists (insert_playlist_locked at_ stamp_ s).2 ≠ []) as Hins.
  { intros at_ stamp_ Hnil'.
    destruct (insert_playlist_locked_inv at_ stamp_ s Hinv) as [_ Hid].
    rewrite Hnil' in Hid. by apply elem_of_nil in Hid. }
  assert (∀ r, get_blank_locked s = Some r → playlists s ≠ [] → playlists r.2 ≠ [])
    as Hblank.
  { intros r. unfold get_blank_locked.
    destruct (active_id s) as [a|]; [|done].
    destruct (get_data s a); [|done]. destruct (_ && _); [by intros [= <-]|].
    specialize (Hins (id_index s a + 1) (-1)).
    destruct (insert_playlist_locked _ _ s); intros [= <-]; simpl in *; done. }
  destruct op; cbn [run_registry_op is_insert] in *.
  - intros Hrun. assert (s' = (insert_playlist at_ s).2) as -> by congruence.
    unfold insert_playlist. specialize (Hins at_ (-1)).
    destruct (insert_playlist_locked at_ (-1) s); simpl in *; done.
  - intros Hrun. assert (s' = (insert_with_stamp at_ stamp_ s).2) as -> by congruence.
    unfold insert_with_stamp. specialize (Hins at_ stamp_).
    destruct (insert_playlist_locked at_ stamp_ s); simpl in *; done.
  - destruct Hne as [Hne|?]; [|done]. unfold new_playlist.
    destruct (active_id s) as [a|]; [|done].
    specialize (Hins (id_index s a + 1) (-1)).
    destruct (insert_playlist_locked _ _ s); intros [= <-]; simpl in *; done.
  - destruct Hne as [Hne|?]; [|done]. unfold blank_playlist.
    destruct (get_blank_locked s) as [r|] eqn:Hr; [|done]. intros [= <-].
    by apply Hblank.
  - destruct Hne as [Hne|?]; [|done]. unfold temporary_playlist.
    destruct (list_find_first _ _); [by intros [= <-]|].
    destruct (get_blank_locked s) as [[id s1]|] eqn:Hr; [|done].
    specialize (Hblank _ eq_refl Hne). cbn [snd] in Hblank.
    destruct id; intros [= <-]; done.
  - destruct Hne as [Hne|?]; [|done]. intros Hrun Hnil.
    pose proof (reorder_playlists_perm from to count s s' Hrun) as Hperm.
    rewrite Hnil in Hperm. symmetry in Hperm. by apply Permutation_nil_r in Hperm.
  - destruct Hne as [Hne|?]; [|done]. intros [= <-].
    destruct m_id as [id|]; [|done].
    destruct (get_data s id) as [d|] eqn:Hd; [|by unfold remove_playlist; rewrite Hd].
    assert (is_Some (get_data s id)) as Hlive by (by eexists).
    rewrite (playlists_of_view _ _ (remove_playlist_view id s Hlive)).
    by destruct (removed_registry_spec id s Hinv Hlive) as (_ & _ & _ & _ & Hne3 & _).
  - destruct Hne as [Hne|?]; [|done]. intros [= <-]. unfold activate.
    destruct m_id as [id|]; [|done].
    destruct (get_data s id); [|done]. by destruct (negb _).
  - destruct Hne as [Hne|?]; [|done]. intros [= <-].
    by rewrite Playlist_start_playback_playlists.
  - destruct Hne as [Hne|?]; [|done]. intros [= <-]. unfold aud_drct_stop.
    pose proof (set_playing_locked_playlists None false s) as Hpl.
    destruct (set_playing_locked None false s) as [s1 hooks]. simpl in *.
    by rewrite (playlists_of_view _ _ (reg_view_call_playback_hooks None hooks s1)), Hpl.
Qed.

(** With a playlist in the Registry an operation has a result, unless the
    guard of [reorder_playlists] overflows. *)
Lemma run_registry_op_defined op s :
  registry_inv s → playlists s ≠ [] ∨ is_insert op = true → op_fits op = true →
  is_Some (run_registry_op op s).
Proof.
  intros Hinv Hne Hfits. destruct op; cbn [run_registry_op is_insert op_fits] in *;
    try (by eexists).
  - destruct Hne as [Hne|?]; [|done].
    destruct (new_playlist_defined s Hinv Hne) as [r ->]. by eexists.
  - destruct Hne as [Hne|?]; [|done].
    destruct (get_blank_locked_defined s Hinv Hne) as [r Hr]. unfold blank_playlist.
    rewrite Hr. by eexists.
  - destruct Hne as [Hne|?]; [|done].
    destruct (temporary_playlist_defined s Hinv Hne) as [r ->]. by eexists.
  - apply andb_true_iff in Hfits as [Hfrom%Z.leb_le Hto%Z.leb_le].
    unfold reorder_playlists.
    assert (reorder_overflows from to count s = false) as ->.
    { unfold reorder_overflows.
      assert ((INT_MAX <? from + count) = false) as -> by (apply Z.ltb_ge; lia).
      assert ((INT_MAX <? to + count) = false) as -> by (apply Z.ltb_ge; lia).
      by rewrite !andb_false_r, ?orb_false_r, ?andb_false_r. }
    destruct (_ || _); by eexists.
Qed.

End Playing.

(** *** The invariant after every sequence of operations *)

Lemma registry_inv_initial w : registry_inv (playlist_init (initial_State w)).
Proof.
  split; simpl; try done.
  - intros k. unfold get_data. simpl. rewrite lookup_empty. split.
    + by intros [? ?].
    + by intros ?%elem_of_nil.
  - apply NoDup_nil_2.
Qed.

Lemma registry_inv_ok s : registry_inv s → playlists s ≠ [] → registry_ok s.
Proof.
  intros Hinv Hne. split.
  - apply Hinv.
  - intros k1 k2 r1 r2 H1 H2 Heq.
    rewrite <- (inv_stamp s Hinv k1 r1 H1), <- (inv_stamp s Hinv k2 r2 H2). done.
  - pose proof (inv_active s Hinv) as Hactive.
    destruct (active_id s) as [a|]; [by exists a|done].
  - apply Hinv.
  - unfold len. destruct (playlists s); [done|]. simpl length. lia.
Qed.

Lemma run_registry_ops_nonempty `{PlaylistDataMethods} ops s s' :
  registry_inv s → playlists s ≠ [] ∨ existsb is_insert ops = true →
  run_registry_ops ops s = Some s' → playlists s' ≠ [].
Proof.
  revert s. induction ops as [|op ops IH]; intros s Hinv Hne; cbn [run_registry_ops].
  - intros [= <-]. destruct Hne; done.
  - destruct (run_registry_op op s) as [s1|] eqn:Hop; [|done].
    apply IH; [by apply (run_registry_op_inv op s)|].
    cbn [existsb] in Hne. destruct (is_insert op) eqn:Hins.
    + left. apply (run_registry_op_nonempty op s); [done|by right|done].
    + destruct Hne as [Hne|Hne]; [|by right].
      left. apply (run_registry_op_nonempty op s); [done|by left|done].
Qed.

(** From any state in which the Registry invariant holds, it holds after
    every sequence of operations. *)
Lemma registry_ok_preserved `{PlaylistDataMethods} (ops : list RegistryOp) (s s' : State) :
  registry_inv s → playlists s ≠ [] → run_registry_ops ops s = Some s' → registry_ok s'.
Proof.
  intros Hinv Hne Hrun. apply registry_inv_ok.
  - by apply (run_registry_ops_inv ops s).
  - apply (run_registry_ops_nonempty ops s); [done|by left|done].
Qed.

(** With a playlist in the Registry every sequence of operations has a
    result, unless the guard of [reorder_playlists] overflows. *)
Lemma run_registry_ops_defined `{PlaylistDataMethods} (ops : list RegistryOp) (s : State) :
  registry_inv s → playlists s ≠ [] → forallb op_fits ops = true →
  is_Some (run_registry_ops ops s).
Proof.
  revert s. induction ops as [|op ops IH]; intros s Hinv Hne Hfits;
    cbn [run_registry_ops]; [by eexists|].
  cbn [forallb] in Hfits. apply andb_true_iff in Hfits as [Hop Hfits].
  destruct (run_registry_op_defined op s Hinv (or_introl Hne) Hop) as [s1 Hs1].
  rewrite Hs1. apply IH; [by apply (run_registry_op_inv op s)| |done].
  apply (run_registry_op_nonempty op s); [done|by left|done].
Qed.

(** C2, as the code has it.  [playlist_init] leaves the Registry empty and
    [active_id] null; the first playlist is inserted by the caller ("this
    will only happen at startup"), and until then [new_playlist],
    [blank_playlist] and [temporary_playlist] follow the null [active_id],
    which is undefined.  Take a sequence of create, insert, reorder,
    remove, activate and playback operations that follows [playlist_init]
    and inserts a playlist at least once.  Whenever it runs without
    undefined behaviour, then afterwards every playlist of the Registry
    carries its index, the stamps of the ID records are unique,
    [active_id] and (unless null) [playing_id] point into the Registry,
    and the Registry is not empty.  And it does run without undefined
    behaviour when its first operation is an insertion and no guard of
    [reorder_playlists] overflows. *)
Theorem registry_invariant `{PlaylistDataMethods} (w : World) (ops : list RegistryOp) :
  existsb is_insert ops = true →
  (∀ s, run_registry_ops ops (playlist_init (initial_State w)) = Some s → registry_ok s)
  ∧ (starts_with_insert ops = true → forallb op_fits ops = true →
     is_Some (run_registry_ops ops (playlist_init (initial_State w)))).
Proof.
  intros Hinsert. split.
  - intros s Hrun. apply registry_inv_ok.
    + eapply run_registry_ops_inv; [exact Hrun|apply registry_inv_initial].
    + eapply run_registry_ops_nonempty; [apply registry_inv_initial|by right|exact Hrun].
  - destruct ops as [|op ops]; [done|]. cbn [starts_with_insert forallb run_registry_ops].
    intros Hfirst [Hop Hfits]%andb_true_iff.
    destruct (run_registry_op_defined op (playlist_init (initial_State w))
                (registry_inv_initial w) (or_intror Hfirst) Hop) as [s1 Hs1].
    rewrite Hs1. apply run_registry_ops_defined; [|  |done].
    + eapply run_registry_op_inv; [exact Hs1|apply registry_inv_initial].
    + eapply run_registry_op_nonempty; [apply registry_inv_initial|by right|exact Hs1].
Qed.

(** Seven operations after [playlist_init], the first an insertion: they
    run to a state in which the invariant holds. *)
Lemma registry_invariant_witness :
  ∃ s,
    run_registry_ops (H := plain_methods)
      [reg_insert_playlist 0; reg_insert_with_stamp 0 1000; reg_new_playlist;
       reg_reorder_playlists 0 1 2; reg_activate (Some 1001);
       reg_start_playback false (Some 1000); reg_remove_playlist (Some 1001)]
      (playlist_init (initial_State example_World)) = Some s
    ∧ registry_ok s.
Proof.
  destruct (registry_invariant (H := plain_methods) example_World
              [reg_insert_playlist 0; reg_insert_with_stamp 0 1000; reg_new_playlist;
               reg_reorder_playlists 0 1 2; reg_activate (Some 1001);
               reg_start_playback false (Some 1000); reg_remove_playlist (Some 1001)]
              eq_refl) as [Hok Hdefined].
  destruct (Hdefined eq_refl eq_refl) as [s Hs]. exists s. split; [exact Hs|].
  by apply Hok.
Defined.

(** C2 as stated fails: a sequence of reorder and remove operations right
    after [playlist_init] (there is no playlist yet, so the only handle is
    the null one) runs without undefined behaviour and leaves the Registry
    empty and [active_id] null. *)
Lemma registry_empty_after_init :
  ∃ s,
    run_registry_ops (H := plain_methods)
      [reg_reorder_playlists 0 0 0; reg_remove_playlist None]
      (playlist_init (initial_State example_World)) = Some s
    ∧ playlists s = [] ∧ active_id s = None ∧ ¬ registry_ok s.
Proof.
  eexists. split; [vm_compute; reflexivity|]. split; [reflexivity|]. split; [reflexivity|].
  intros [_ _ _ _ Hlen]. vm_compute in Hlen. by apply Hlen.
Qed.

(** ** C3: removing the active and the playing playlist *)

(** *** The trace only grows *)

Lemma grows_with_id_table v s : trace s `prefix_of` trace (with_id_table v s).
Proof. reflexivity. Qed.
Lemma grows_with_next_stamp v s : trace s `prefix_of` trace (with_next_stamp v s).
Proof. reflexivity. Qed.
Lemma grows_with_playlists v s : trace s `prefix_of` trace (with_playlists v s).
Proof. reflexivity. Qed.
Lemma grows_with_active_id v s : trace s `prefix_of` trace (with_active_id v s).
Proof. reflexivity. Qed.
Lemma grows_with_playing_id v s : trace s `prefix_of` trace (with_playing_id v s).
Proof. reflexivity. Qed.
Lemma grows_with_resume_playlist v s : trace s `prefix_of` trace (with_resume_playlist v s).
Proof. reflexivity. Qed.
Lemma grows_with_resume_paused v s : trace s `prefix_of` trace (with_resume_paused v s).
Proof. reflexivity. Qed.
Lemma grows_with_queued_update v s : trace s `prefix_of` trace (with_queued_update v s).
Proof. reflexivity. Qed.
Lemma grows_with_update_level v s : trace s `prefix_of` trace (with_update_level v s).
Proof. reflexivity. Qed.
Lemma grows_with_update_delayed v s : trace s `prefix_of` trace (with_update_delayed v s).
Proof. reflexivity. Qed.
Lemma grows_with_scan_enabled_nominal v s : trace s `prefix_of` trace (with_scan_enabled_nominal v s).
Proof. reflexivity. Qed.
Lemma grows_with_scan_enabled v s : trace s `prefix_of` trace (with_scan_enabled v s).
Proof. reflexivity. Qed.
Lemma grows_with_scan_playlist v s : trace s `prefix_of` trace (with_scan_playlist v s).
Proof. reflexivity. Qed.
Lemma grows_with_scan_row v s : trace s `prefix_of` trace (with_scan_row v s).
Proof. reflexivity. Qed.
Lemma grows_with_scan_list v s : trace s `prefix_of` trace (with_scan_list v s).
Proof. reflexivity. Qed.
Lemma grows_with_next_request v s : trace s `prefix_of` trace (with_next_request v s).
Proof. reflexivity. Qed.
Lemma grows_with_world v s : trace s `prefix_of` trace (with_world v s).
Proof. reflexivity. Qed.

Lemma grows_emit e s : trace s `prefix_of` trace (emit e s).
Proof. by apply prefix_app_r. Qed.

Lemma grows_update_data id f s : trace s `prefix_of` trace (update_data id f s).
Proof. reflexivity. Qed.

Lemma grows_update_id id f s : trace s `prefix_of` trace (update_id id f s).
Proof. reflexivity. Qed.

Create HintDb grows.
#[local] Hint Resolve grows_with_id_table grows_with_next_stamp grows_with_playlists grows_with_active_id grows_with_playing_id grows_with_resume_playlist grows_with_resume_paused grows_with_queued_update grows_with_update_level grows_with_update_delayed grows_with_scan_enabled_nominal grows_with_scan_enabled grows_with_scan_playlist grows_with_scan_row grows_with_scan_list grows_with_next_request grows_with_world
  grows_emit grows_update_data grows_update_id : grows.

(** Peel the state transformers off one by one. *)
Ltac grows_step :=
  lazymatch goal with
  | |- trace ?s `prefix_of` trace ?s => reflexivity
  | |- trace ?s `prefix_of` trace (?f ?x) =>
      transitivity (trace x); [|solve [auto with grows]]
  end.

Ltac grows := repeat frame_step; repeat grows_step.

Lemma grows_scan_queue_entry playlist entry for_pb s :
  trace s `prefix_of` trace (scan_queue_entry playlist entry for_pb s).
Proof. unfold scan_queue_entry. grows. Qed.
#[local] Hint Resolve grows_scan_queue_entry : grows.

Lemma grows_scan_reset_playback s : trace s `prefix_of` trace (scan_reset_playback s).
Proof. unfold scan_reset_playback. grows. Qed.
#[local] Hint Resolve grows_scan_reset_playback : grows.

Lemma grows_scan_check_complete playlist s :
  trace s `prefix_of` trace (scan_check_complete playlist s).
Proof. unfold scan_check_complete. grows. Qed.
#[local] Hint Resolve grows_scan_check_complete : grows.

Lemma grows_scan_queue_next_row fuel playlist s :
  trace s `prefix_of` trace (scan_queue_next_row fuel playlist s).1.
Proof.
  revert s. induction fuel as [|fuel IH]; intros s; simpl.
  - repeat frame_step; cbn [fst]; try reflexivity; by grows.
  - repeat frame_step; cbn [fst]; try reflexivity; try (by grows).
    etrans; [|apply IH]. reflexivity.
Qed.

Lemma grows_scan_queue_next_playlist fuel s :
  trace s `prefix_of` trace (scan_queue_next_playlist fuel s).1.
Proof.
  revert s. induction fuel as [|fuel IH]; intros s; simpl.
  all: repeat match goal with
       | |- context [scan_queue_next_row ?f ?p ?s] =>
           let E := fresh "E" in
           pose proof (grows_scan_queue_next_row f p s) as E;
           destruct (scan_queue_next_row f p s); simpl in E
       | _ => frame_step
       end; simpl; try reflexivity; try done.
  all: try (etrans; [eassumption|]; by grows).
  all: etrans; [|apply IH]; simpl; try done.
  all: etrans; [eassumption|]; by grows.
Qed.

Lemma grows_scan_queue_next_entry s :
  trace s `prefix_of` trace (scan_queue_next_entry s).1.
Proof.
  unfold scan_queue_next_entry. destruct (scan_enabled s); simpl; [|done].
  apply grows_scan_queue_next_playlist.
Qed.

Lemma grows_scan_schedule_more fuel scheduled s :
  trace s `prefix_of` trace (scan_schedule_more fuel scheduled s).
Proof.
  revert scheduled s. induction fuel as [|fuel IH]; intros scheduled s; simpl;
    pose proof (grows_scan_queue_next_entry s) as E;
    destruct (scan_queue_next_entry s) as [s' queued]; simpl in E;
    repeat frame_step; try done.
  etrans; [exact E|apply IH].
Qed.

Lemma grows_scan_schedule s : trace s `prefix_of` trace (scan_schedule s).
Proof.
  unfold scan_schedule. destruct (scan_count_scheduled _ _); [|done].
  apply grows_scan_schedule_more.
Qed.
#[local] Hint Resolve grows_scan_schedule : grows.

Lemma grows_scan_restart s : trace s `prefix_of` trace (scan_restart s).
Proof. unfold scan_restart. grows. Qed.
#[local] Hint Resolve grows_scan_restart : grows.

Lemma grows_queue_global_update level flags s :
  trace s `prefix_of` trace (queue_global_update level flags s).
Proof. unfold queue_global_update. grows. Qed.
#[local] Hint Resolve grows_queue_global_update : grows.

(** *** [remove_playlist] *)

#[local] Arguments create_playlist : simpl never.

Lemma PlaylistData_destroy_trace id s : trace (PlaylistData_destroy id s) = trace s.
Proof.
  unfold PlaylistData_destroy. destruct (get_data s id); [|done].
  unfold pl_signal_playlist_deleted, update_id. simpl.
  by rewrite destroy_entries_frame.
Qed.

Lemma removed_registry_trace id s : trace (removed_registry id s) = trace s.
Proof.
  unfold removed_registry. rewrite number_playlists_frame.
  cbn [trace with_id_table].
  assert (trace (playlists_remove (id_index s id) s) = trace s) as Hremove.
  { unfold playlists_remove. destruct (index_get _ _); [|done].
    cbn [trace with_playlists]. apply PlaylistData_destroy_trace. }
  destruct (_ =? 0); [|done].
  pose proof (create_playlist_spec (-1) (playlists_remove (id_index s id) s)) as Hcreate.
  destruct (create_playlist _ _) as [fresh s1].
  cbn [fst snd trace with_playlists] in *.
  destruct Hcreate as (_ & _ & _ & _ & _ & Htr). by rewrite Htr.
Qed.

(** The Registry after a removal: the removed slot is closed, and a fresh
    playlist, with a stamp that was not in use, is put in if nothing is
    left. *)
Lemma removed_registry_playlists id s :
  registry_inv s → is_Some (get_data s id) →
  let rest := delete (Z.to_nat (id_index s id)) (playlists s) in
  (rest ≠ [] ∧ playlists (removed_registry id s) = rest)
  ∨ (rest = [] ∧ ∃ fresh, playlists (removed_registry id s) = [fresh]
                          ∧ id_table s !! fresh = None).
Proof.
  intros Hinv Hlive.
  assert (id ∈ playlists s) as Hin by (by apply (inv_live s Hinv)).
  apply list_elem_of_lookup in Hin as [i0 Hi0].
  assert (id_index s id = Z.of_nat i0) as Hat.
  { destruct (inv_index s Hinv i0 id Hi0) as (r & Hr & Hidx). unfold id_index. by rewrite Hr. }
  unfold removed_registry. rewrite number_playlists_frame.
  cbn [playlists with_id_table].
  rewrite Hat. unfold playlists_remove. rewrite index_get_of_nat, Hi0, Nat2Z.id.
  destruct (PlaylistData_destroy_spec id s Hlive) as (Htable & Hpl & _).
  cbn [playlists with_playlists]. rewrite Hpl.
  destruct (len (delete i0 (playlists s)) =? 0) eqn:Hempty.
  - right. apply Z.eqb_eq in Hempty.
    assert (delete i0 (playlists s) = []) as Hnil by (apply nil_length_inv; unfold len in *; lia).
    split; [done|].
    pose proof (create_playlist_spec (-1)
                  (with_playlists (delete i0 (playlists s)) (PlaylistData_destroy id s)))
      as Hcreate.
    destruct (create_playlist _ _) as [fresh s1].
    cbn [fst snd playlists with_playlists id_table] in *.
    destruct Hcreate as (Hfree & _ & Hpl1 & _).
    exists fresh. rewrite Hpl1, Hnil. split; [done|].
    rewrite Htable in Hfree. rewrite lookup_alter in Hfree. case_decide; [subst|done].
    by destruct (id_table s !! fresh).
  - left. apply Z.eqb_neq in Hempty. split; [|done].
    intros Hnil. rewrite Hnil in Hempty. done.
Qed.

Lemma stop_playback_locked_trace s :
  ∃ evs, trace (stop_playback_locked s) = trace s ++ evs ++ [playback_stop].
Proof.
  unfold stop_playback_locked.
  destruct (grows_scan_reset_playback (emit art_clear_current s)) as [k Hk].
  exists (art_clear_current :: k). unfold emit at 1. simpl. rewrite Hk. simpl.
  by rewrite <- !app_assoc.
Qed.

(** C3.  [remove_playlist] through a live handle closes the slot of the
    playlist (putting a fresh playlist with an unused stamp in if the
    Registry became empty).  If the playlist was the active one,
    [active_id] is afterwards the playlist at the removed index of the new
    Registry, or the last one if the removed index is past the end.  If it
    was the playing one, [playing_id] is null afterwards and
    [playback_stop] was called. *)
Theorem remove_playlist_active_playing (id : Z) (s : State) :
  registry_inv s → is_Some (get_data s id) →
  let s' := remove_playlist (Some id) s in
  let rest := delete (Z.to_nat (id_index s id)) (playlists s) in
  ((rest ≠ [] ∧ playlists s' = rest)
   ∨ (rest = [] ∧ ∃ fresh, playlists s' = [fresh] ∧ id_table s !! fresh = None))
  ∧ (active_id s = Some id →
     active_id s' = index_get (playlists s') (Z.min (id_index s id) (len (playlists s') - 1))
     ∧ ∃ a, active_id s' = Some a ∧ a ∈ playlists s')
  ∧ (playing_id s = Some id →
     playing_id s' = None
     ∧ ∃ before after, trace s' = trace s ++ before ++ playback_stop :: after).
Proof.
  intros Hinv Hlive s' rest.
  pose proof (remove_playlist_view id s Hlive) as Hview. fold s' in Hview. cbv zeta in Hview.
  destruct (removed_registry_spec id s Hinv Hlive)
    as (_ & _ & _ & _ & Hne & Hat & Hact & Hplay & _).
  set (s3 := removed_registry id s) in *.
  destruct (reg_view_fields _ _ Hview) as (Hpl' & Hact' & Hplay').
  cbn [playlists active_id playing_id with_playing_id with_active_id] in Hpl', Hact', Hplay'.
  split; [|split].
  - rewrite Hpl'. by apply removed_registry_playlists.
  - intros Hactive. rewrite Hact, Hactive in Hact'.
    assert (ptr_eqb (Some id) (Some id) = true) as Heq by (by apply ptr_eqb_eq).
    rewrite Heq in Hact'. rewrite Hact', Hpl'. split; [done|].
    apply index_get_elem_of. unfold len. destruct (playlists s3); [done|]. simpl length. lia.
  - intros Hplaying. rewrite Hplay, Hplaying in Hplay'.
    assert (ptr_eqb (Some id) (Some id) = true) as Heq by (by apply ptr_eqb_eq).
    rewrite Heq in Hplay'. split; [done|].
    unfold s'. rewrite (remove_playlist_live id s Hlive). cbv zeta. fold s3.
    set (s4 := if ptr_eqb (Some id) (active_id s3)
               then with_active_id
                      (index_get (playlists s3)
                         (Z.min (id_index s id) (len (playlists s3) - 1))) s3
               else s3).
    assert (playing_id s4 = playing_id s3) as Hplay4
      by (unfold s4; destruct (ptr_eqb (Some id) (active_id s3)); reflexivity).
    assert (trace s4 = trace s) as Htrace4.
    { unfold s4. destruct (ptr_eqb (Some id) (active_id s3)); cbn [trace with_active_id];
        apply removed_registry_trace. }
    rewrite Hplay4, Hplay, Hplaying, Heq.
    destruct (stop_playback_locked_trace (with_playing_id None s4)) as [evs Hstop].
    cbn [trace with_playing_id] in Hstop. rewrite Htrace4 in Hstop.
    set (s5 := stop_playback_locked (with_playing_id None s4)) in *.
    assert (trace s5 `prefix_of`
              trace (emit (hook_call "playback stop" None)
                       (emit (hook_call "playlist set playing" None)
                          (if ptr_eqb (Some id) (active_id s3)
                           then emit (hook_call "playlist activate" None)
                                  (queue_global_update Structure 0 s5)
                           else queue_global_update Structure 0 s5)))) as [k Hk].
    { destruct (ptr_eqb (Some id) (active_id s3)); repeat grows_step. }
    exists evs, k. rewrite Hk, Hstop. by rewrite <- !app_assoc.
Qed.

Lemma registry_inv_one_playlist_State : registry_inv one_playlist_State.
Proof.
  unfold one_playlist_State, init_State.
  apply insert_playlist_inv, registry_inv_initial.
Qed.

Lemma registry_inv_two_songs_State : registry_inv two_songs_State.
Proof.
  unfold two_songs_State.
  eapply registry_inv_reg_view; [apply reg_view_update_data|].
  apply registry_inv_one_playlist_State.
Qed.

Lemma registry_inv_playing_State : registry_inv playing_State.
Proof.
  unfold playing_State. apply Playlist_start_playback_inv, registry_inv_two_songs_State.
Qed.

(** The playlist 1000 is active and playing; after its removal the fresh
    playlist 1001 is active and nothing is playing. *)
Lemma remove_playlist_active_playing_witness :
  active_id (remove_playlist (Some 1000) playing_State) = Some 1001
  ∧ playing_id (remove_playlist (Some 1000) playing_State) = None.
Proof.
  assert (is_Some (get_data playing_State 1000)) as Hlive by (vm_compute; eauto).
  assert (active_id playing_State = Some 1000) as Hactive by (vm_compute; reflexivity).
  assert (playing_id playing_State = Some 1000) as Hplaying by (vm_compute; reflexivity).
  destruct (remove_playlist_active_playing 1000 playing_State
              registry_inv_playing_State Hlive) as (_ & Ha & Hp).
  split.
  - destruct (Ha Hactive) as [-> _]. vm_compute. reflexivity.
  - apply Hp. exact Hplaying.
Defined.

(** ** C6: the completion of a cancelled scan *)

Lemma list_find_first_None {A : Type} (P : A → bool) (l : list A) :
  list_find_first P l = None ↔ Forall (λ x, P x = false) l.
Proof.
  induction l as [|x l IH]; simpl.
  - split; [by constructor|done].
  - destruct (P x) eqn:Hx.
    + split; [done|]. intros HF. apply Forall_cons in HF as [? _]. congruence.
    + rewrite IH. split; [by constructor|]. by intros [_ ?]%Forall_cons.
Qed.

(** C6.  When no item of the scan list carries the request (the scan was
    cancelled), [scan_finish] returns at once: playlists, scan list, update
    state and trace are what they were. *)
Theorem scan_finish_cancelled (request : ScanRequest) (s : State) :
  Forall (λ item, req_addr (item_request item) ≠ req_addr request) (scan_list s) →
  scan_finish request s = s.
Proof.
  intros Hnone. unfold scan_finish.
  assert (list_find_first
            (λ item, req_addr (item_request item) =? req_addr request) (scan_list s) = None)
    as ->; [|done].
  apply list_find_first_None. eapply Forall_impl; [exact Hnone|].
  intros item Hne. by apply Z.eqb_neq.
Qed.

(** After the deletion of the entry, the completion of its scan changes
    nothing. *)
Lemma scan_finish_cancelled_witness :
  scan_finish finished_request cancelled_State = cancelled_State.
Proof.
  apply (scan_finish_cancelled finished_request cancelled_State).
  vm_compute. constructor.
Defined.

(** [scan_cancel] removes the item of the entry: if the items of the scan
    list belong to different entries, none of the entry is left. *)
Lemma scan_cancel_removes entry s :
  NoDup (item_entry <$> scan_list s) →
  Forall (λ item, item_entry item ≠ entry) (scan_list (scan_cancel entry s)).
Proof.
  intros Hnodup. unfold scan_cancel, scan_list_find_entry.
  destruct (list_find_first _ _) eqn:Hfind; simpl.
  - clear Hfind. induction (scan_list s) as [|item items IH]; simpl; [by constructor|].
    apply NoDup_cons in Hnodup as [Hitem Hnodup].
    destruct (item_entry item =? entry) eqn:Heq.
    + apply Z.eqb_eq in Heq. subst. apply Forall_forall. intros x Hx Hentry.
      apply Hitem. apply list_elem_of_fmap. by exists x.
    + apply Z.eqb_neq in Heq. constructor; [done|by apply IH].
  - apply list_find_first_None in Hfind. eapply Forall_impl; [exact Hfind|].
    intros item Hne. by apply Z.eqb_neq.
Qed.

(** ** C5: the update flags of a finished scan *)

Lemma grows_pl_signal_update_queued id level flags s :
  trace s `prefix_of` trace (pl_signal_update_queued id level flags s).
Proof. unfold pl_signal_update_queued. grows. Qed.
#[local] Hint Resolve grows_pl_signal_update_queued : grows.

Lemma grows_queue_update id level at_ number flags s :
  trace s `prefix_of` trace (queue_update id level at_ number flags s).
Proof. unfold queue_update. grows. Qed.
#[local] Hint Resolve grows_queue_update : grows.

(** The first thing [update_entry_from_scan] leaves in the trace is the
    call itself, with its arguments. *)
Lemma update_entry_from_scan_trace id entry request update_flags s :
  ∃ rest, trace (update_entry_from_scan id entry request update_flags s)
          = trace s
            ++ update_entry_from_scan_call id entry (req_addr request) update_flags :: rest.
Proof.
  unfold update_entry_from_scan.
  set (s1 := emit _ s).
  assert (trace s1 `prefix_of`
            trace (match get_data s1 id with
                   | Some d =>
                       match entry_of_addr d entry with
                       | Some e =>
                           queue_update id Metadata (e_number e) 1 update_flags
                             (update_data id
                                (update_entry entry
                                   (λ e0,
                                      (λ e1, if negb (tuple_valid (e_tuple e1))
                                             then if tuple_valid (req_tuple request)
                                                  then with_e_tuple (req_tuple request) e1
                                                  else with_e_error (req_error request)
                                                         (with_e_tuple
                                                            {| tuple_state := Failed;
                                                               tuple_fields :=
                                                                 tuple_fields (e_tuple e1) |}
                                                            e1)
                                             else e1)
                                        ((λ e1, match e_decoder e1 with
                                                | Some _ => e1
                                                | None => with_e_decoder (req_decoder request) e1
                                                end) e0))) s1)
                       | None => s1
                       end
                   | None => s1
                   end)) as [rest Hrest].
  { destruct (get_data s1 id); [|done]. destruct (entry_of_addr _ _); [|done].
    repeat grows_step. }
  exists rest. cbv zeta. rewrite Hrest. unfold s1, emit. simpl. by rewrite <- app_assoc.
Qed.

(** C5, as the code has it.  [scan_finish] calls [update_entry_from_scan]
    for the item of the request with the flags [DelayedUpdate] if
    background scanning is enabled and the playlist of the item is still
    being scanned (its [scan_status] is not [NotScanning]), and with the
    flags 0 otherwise. *)
Theorem scan_finish_update_flags (request : ScanRequest) (s : State)
    (item : ScanItem) (d : PlaylistData) :
  list_find_first (λ item, req_addr (item_request item) =? req_addr request) (scan_list s)
    = Some item →
  get_data s (item_playlist item) = Some d →
  ∃ update_flags rest,
    trace (scan_finish request s)
    = trace s
      ++ update_entry_from_scan_call (item_playlist item) (item_entry item)
           (req_addr request) update_flags :: rest
    ∧ (update_flags = DelayedUpdate ↔ scan_enabled s = true ∧ scan_status d ≠ NotScanning)
    ∧ (update_flags = 0 ↔ ¬ (scan_enabled s = true ∧ scan_status d ≠ NotScanning)).
Proof.
  intros Hitem Hdata. unfold scan_finish. rewrite Hitem.
  assert (get_data
            (with_scan_list
               (list_remove_first
                  (λ item, req_addr (item_request item) =? req_addr request) (scan_list s)) s)
            (item_playlist item) = Some d) as -> by exact Hdata.
  cbn [scan_enabled with_scan_list].
  set (update_flags := if scan_enabled s && negb (status_eqb (scan_status d) NotScanning)
                       then DelayedUpdate else 0).
  set (s1 := with_scan_list _ s).
  destruct (update_entry_from_scan_trace (item_playlist item) (item_entry item)
              request update_flags s1) as [rest Hrest].
  set (s2 := update_entry_from_scan _ _ _ _ s1) in *.
  assert (trace s2 `prefix_of`
            trace (emit pthread_cond_broadcast
                     (scan_schedule (scan_check_complete (item_playlist item) s2))))
    as [rest' Hrest'] by repeat grows_step.
  exists update_flags, (rest ++ rest'). split.
  - rewrite Hrest', Hrest. unfold s1. cbn [trace with_scan_list].
    by rewrite <- !app_assoc.
  - unfold update_flags.
    change DelayedUpdate with 2.
    destruct (scan_enabled s), (scan_status d); simpl;
      repeat split; intros; try done; try lia; intuition congruence.
Qed.

Lemma scan_finish_update_flags_witness :
  ∃ update_flags rest,
    trace (scan_finish finished_request playing_State)
    = trace playing_State
      ++ update_entry_from_scan_call 1000 1 0 update_flags :: rest
    ∧ (update_flags = DelayedUpdate
       ↔ scan_enabled playing_State = true ∧ scan_status playing_data ≠ NotScanning)
    ∧ (update_flags = 0
       ↔ ¬ (scan_enabled playing_State = true ∧ scan_status playing_data ≠ NotScanning)).
Proof.
  apply (scan_finish_update_flags finished_request playing_State playing_item playing_data).
  - vm_compute. reflexivity.
  - vm_compute. reflexivity.
Defined.

(** C5 as stated fails: with background scanning disabled, the scan of
    the entry that playback opens finishes with the flags 0 although the
    playlist is marked [ScanActive]. *)
Lemma scan_finish_flags_ignore_disabled_scan : ¬ flags_follow_scan_status.
Proof.
  intros Hclaim.
  destruct (Hclaim finished_request playing_State playing_item playing_data 0
              [playback_set_info 0 (req_tuple finished_request); pthread_cond_broadcast])
    as [Hdelayed _].
  - vm_compute. reflexivity.
  - vm_compute. reflexivity.
  - vm_compute. reflexivity.
  - assert (scan_status playing_data ≠ NotScanning) as Hactive by (vm_compute; discriminate).
    apply Hdelayed in Hactive. vm_compute in Hactive. discriminate.
Qed.

(** ** C4: the update bus *)

(** *** What the scheduler does to the update bus *)

Lemma flushed_refl s : flushed_or_same s s.
Proof. split; [done|by left]. Qed.

Lemma flushed_trans s s1 s2 :
  flushed_or_same s s1 → flushed_or_same s1 s2 → flushed_or_same s s2.
Proof.
  intros [Hl1 H1] [Hl2 H2]. split; [congruence|].
  destruct H1 as [[Hd1 Hq1]|(Hd & Hd1 & Hq1)], H2 as [[Hd2 Hq2]|(Hd' & Hd2 & Hq2)].
  - left. split; congruence.
  - right. repeat split; congruence.
  - right. repeat split; congruence.
  - congruence.
Qed.

Lemma flushed_with_id_table v s : flushed_or_same s (with_id_table v s).
Proof. split; [done|by left]. Qed.
Lemma flushed_with_next_stamp v s : flushed_or_same s (with_next_stamp v s).
Proof. split; [done|by left]. Qed.
Lemma flushed_with_playlists v s : flushed_or_same s (with_playlists v s).
Proof. split; [done|by left]. Qed.
Lemma flushed_with_active_id v s : flushed_or_same s (with_active_id v s).
Proof. split; [done|by left]. Qed.
Lemma flushed_with_playing_id v s : flushed_or_same s (with_playing_id v s).
Proof. split; [done|by left]. Qed.
Lemma flushed_with_resume_playlist v s : flushed_or_same s (with_resume_playlist v s).
Proof. split; [done|by left]. Qed.
Lemma flushed_with_resume_paused v s : flushed_or_same s (with_resume_paused v s).
Proof. split; [done|by left]. Qed.
Lemma flushed_with_scan_enabled_nominal v s : flushed_or_same s (with_scan_enabled_nominal v s).
Proof. split; [done|by left]. Qed.
Lemma flushed_with_scan_enabled v s : flushed_or_same s (with_scan_enabled v s).
Proof. split; [done|by left]. Qed.
Lemma flushed_with_scan_playlist v s : flushed_or_same s (with_scan_playlist v s).
Proof. split; [done|by left]. Qed.
Lemma flushed_with_scan_row v s : flushed_or_same s (with_scan_row v s).
Proof. split; [done|by left]. Qed.
Lemma flushed_with_scan_list v s : flushed_or_same s (with_scan_list v s).
Proof. split; [done|by left]. Qed.
Lemma flushed_with_next_request v s : flushed_or_same s (with_next_request v s).
Proof. split; [done|by left]. Qed.
Lemma flushed_with_world v s : flushed_or_same s (with_world v s).
Proof. split; [done|by left]. Qed.
Lemma flushed_with_trace v s : flushed_or_same s (with_trace v s).
Proof. split; [done|by left]. Qed.

Lemma flushed_emit e s : flushed_or_same s (emit e s).
Proof. split; [done|by left]. Qed.

Lemma flushed_update_data id f s : flushed_or_same s (update_data id f s).
Proof. split; [done|by left]. Qed.

Create HintDb flushed.
#[local] Hint Resolve flushed_with_id_table flushed_with_next_stamp flushed_with_playlists flushed_with_active_id flushed_with_playing_id flushed_with_resume_playlist flushed_with_resume_paused flushed_with_scan_enabled_nominal flushed_with_scan_enabled flushed_with_scan_playlist flushed_with_scan_row flushed_with_scan_list flushed_with_next_request flushed_with_world flushed_with_trace
  flushed_emit flushed_update_data : flushed.

Ltac flushed_step :=
  lazymatch goal with
  | |- flushed_or_same ?s ?s => apply flushed_refl
  | |- flushed_or_same ?s (?f ?x) =>
      apply (flushed_trans s x (f x)); [|solve [auto with flushed]]
  end.

Ltac flushed := repeat frame_step; repeat flushed_step.

Lemma flushed_scan_queue_entry playlist entry for_pb s :
  flushed_or_same s (scan_queue_entry playlist entry for_pb s).
Proof. unfold scan_queue_entry. flushed. Qed.
#[local] Hint Resolve flushed_scan_queue_entry : flushed.

Lemma flushed_scan_check_complete playlist s :
  flushed_or_same s (scan_check_complete playlist s).
Proof.
  unfold scan_check_complete.
  destruct (get_data s playlist) as [d|]; [|apply flushed_refl].
  destruct (_ || _); [apply flushed_refl|].
  set (s1 := update_data playlist (with_scan_status NotScanning) s).
  assert (flushed_or_same s
            (if update_delayed s1
             then with_update_delayed false (with_queued_update (Some 0) s1)
             else s1)) as Hflush.
  { destruct (update_delayed s1) eqn:Hd; [|apply flushed_update_data].
    split; [done|]. right. done. }
  eapply flushed_trans; [exact Hflush|]. repeat flushed_step.
Qed.
#[local] Hint Resolve flushed_scan_check_complete : flushed.

Lemma flushed_scan_queue_next_row fuel playlist s :
  flushed_or_same s (scan_queue_next_row fuel playlist s).1.
Proof.
  revert s. induction fuel as [|fuel IH]; intros s; simpl.
  - repeat frame_step; cbn [fst]; try (split; [done|by left]); by flushed.
  - repeat frame_step; cbn [fst]; try (split; [done|by left]); try (by flushed).
    eapply flushed_trans; [|apply IH]. split; [done|by left].
Qed.

Lemma flushed_scan_queue_next_playlist fuel s :
  flushed_or_same s (scan_queue_next_playlist fuel s).1.
Proof.
  revert s. induction fuel as [|fuel IH]; intros s; simpl.
  all: repeat match goal with
       | |- context [scan_queue_next_row ?f ?p ?s] =>
           let E := fresh "E" in
           pose proof (flushed_scan_queue_next_row f p s) as E;
           destruct (scan_queue_next_row f p s); simpl in E
       | _ => frame_step
       end; cbn [fst]; try (split; [done|by left]); try done.
  all: try (match goal with
            | E : flushed_or_same ?a ?x |- flushed_or_same ?a _ =>
                apply (flushed_trans a x); [exact E|]
            end; by flushed).
  all: eapply flushed_trans; [|apply IH]; cbn [fst]; try done.
  all: first
         [ by flushed
         | match goal with
           | E : flushed_or_same ?a ?x |- flushed_or_same ?a _ =>
               apply (flushed_trans a x); [exact E|]
           end; by flushed ].
Qed.

Lemma flushed_scan_queue_next_entry s :
  flushed_or_same s (scan_queue_next_entry s).1.
Proof.
  unfold scan_queue_next_entry. destruct (scan_enabled s); simpl; [|apply flushed_refl].
  apply flushed_scan_queue_next_playlist.
Qed.

Lemma flushed_scan_schedule_more fuel scheduled s :
  flushed_or_same s (scan_schedule_more fuel scheduled s).
Proof.
  revert scheduled s. induction fuel as [|fuel IH]; intros scheduled s; simpl;
    pose proof (flushed_scan_queue_next_entry s) as E;
    destruct (scan_queue_next_entry s) as [s' queued]; simpl in E;
    repeat frame_step; try done; try (split; [done|by left]).
  eapply flushed_trans; [exact E|apply IH].
Qed.

Lemma flushed_scan_schedule s : flushed_or_same s (scan_schedule s).
Proof.
  unfold scan_schedule. destruct (scan_count_scheduled _ _); [|apply flushed_refl].
  apply flushed_scan_schedule_more.
Qed.
#[local] Hint Resolve flushed_scan_schedule : flushed.

Lemma flushed_scan_restart s : flushed_or_same s (scan_restart s).
Proof. unfold scan_restart. flushed. Qed.

Lemma queue_global_update_level level flags s :
  update_level (queue_global_update level flags s) = level_max (update_level s) level.
Proof.
  unfold queue_global_update.
  assert (update_level (if level_eqb level Structure then scan_restart s else s)
          = update_level s) as Hlevel.
  { destruct (level_eqb level Structure); [apply flushed_scan_restart|done]. }
  revert Hlevel. generalize (if level_eqb level Structure then scan_restart s else s).
  intros s1 Hlevel.
  destruct (has_flag flags DelayedUpdate), (level_eqb (update_level s1) NoUpdate),
    (update_delayed s1); simpl; by rewrite ?Hlevel.
Qed.

(** C4, as the code has it.  [queue_global_update] first restarts the
    scanner if the level is [Structure]; the restart leaves the update bus
    alone, or, when it completes the scan of a playlist, flushes a pending
    delayed update to an immediate one.  Then: with the [DelayedUpdate]
    flag, if no update is pending the fire callback is scheduled after
    250 ms and [delayed] set, otherwise the pending update stays as the
    restart left it; without the flag, if no update is pending or the
    pending one is delayed the fire callback is scheduled at once and
    [delayed] cleared, otherwise the pending one stays.  In all cases the
    level becomes the maximum of the old and the new level. *)
Theorem queue_global_update_spec (level : UpdateLevel) (flags : Z) (s : State) :
  let s1 := if level_eqb level Structure then scan_restart s else s in
  let s' := queue_global_update level flags s in
  update_level s' = level_max (update_level s) level
  ∧ flushed_or_same s s1
  ∧ (level ≠ Structure → s1 = s)
  ∧ (has_flag flags DelayedUpdate = true →
     if level_eqb (update_level s) NoUpdate
     then queued_update s' = Some 250 ∧ update_delayed s' = true
     else queued_update s' = queued_update s1 ∧ update_delayed s' = update_delayed s1)
  ∧ (has_flag flags DelayedUpdate = false →
     if level_eqb (update_level s) NoUpdate || update_delayed s
     then queued_update s' = Some 0 ∧ update_delayed s' = false
     else queued_update s' = queued_update s ∧ update_delayed s' = update_delayed s).
Proof.
  intros s1 s'.
  assert (flushed_or_same s s1) as Hflush.
  { unfold s1. destruct (level_eqb level Structure);
      [apply flushed_scan_restart|apply flushed_refl]. }
  destruct Hflush as [Hlevel Hbus].
  unfold s', queue_global_update. fold s1. rewrite Hlevel.
  split; [|split; [|split; [|split]]].
  - destruct (has_flag flags DelayedUpdate), (level_eqb (update_level s) NoUpdate),
      (update_delayed s1); simpl; by rewrite ?Hlevel.
  - by split.
  - intros Hne. unfold s1. by destruct level.
  - intros ->. destruct (level_eqb (update_level s) NoUpdate); done.
  - intros ->.
    destruct (level_eqb (update_level s) NoUpdate); simpl; [done|].
    destruct Hbus as [[Hd Hq]|(Hd & Hd1 & Hq)].
    + rewrite Hd. destruct (update_delayed s); simpl; [done|]. by rewrite Hq.
    + rewrite Hd, Hd1. simpl. by rewrite Hq.
Qed.

(** C4 read against the state of the call fails: a [Structure] update with
    the [DelayedUpdate] flag restarts the scanner, which finds the scan of
    the playlist complete and flushes the pending delayed update. *)
Lemma queue_global_update_flushes_pending : ¬ queue_global_update_as_stated.
Proof.
  intros Hclaim.
  destruct (Hclaim Structure DelayedUpdate delayed_pending_State) as (_ & Hdelayed & _).
  specialize (Hdelayed eq_refl). vm_compute in Hdelayed.
  destruct Hdelayed as [Hq _]. discriminate.
Qed.

(** ** C7: stream metadata for the playing entry *)

Lemma get_data_update_data id f s k :
  get_data (update_data id f s) k
  = if decide (id = k) then f <$> get_data s k else get_data s k.
Proof.
  unfold get_data, update_data. cbn [id_table with_id_table].
  rewrite lookup_alter. case_decide; [|done]. subst.
  by destruct (id_table s !! k).
Qed.

Lemma list_alter_first_lookup (f : PlaylistEntry → PlaylistEntry)
    (l : list PlaylistEntry) (i : nat) (x : PlaylistEntry) :
  NoDup (e_addr <$> l) → l !! i = Some x →
  list_alter_first (λ e, e_addr e =? e_addr x) f l !! i = Some (f x).
Proof.
  revert i. induction l as [|y l IH]; intros i Hnodup Hi; [done|].
  simpl in Hnodup. apply NoDup_cons in Hnodup as [Hy Hnodup].
  destruct i as [|i]; simpl in *.
  - injection Hi as ->. by rewrite Z.eqb_refl.
  - destruct (e_addr y =? e_addr x) eqn:Heq.
    + apply Z.eqb_eq in Heq. exfalso. apply Hy. rewrite Heq.
      apply list_elem_of_fmap. exists x. split; [done|]. by eapply list_elem_of_lookup_2.
    + simpl. by apply IH.
Qed.

Lemma id_table_queue_global_update level flags s :
  level ≠ Structure → id_table (queue_global_update level flags s) = id_table s.
Proof.
  intros Hlevel. unfold queue_global_update.
  assert (level_eqb level Structure = false) as -> by (by destruct level).
  by repeat match goal with
            | |- context [if ?b then _ else _] => destruct b
            end.
Qed.

Lemma get_data_ext s1 s2 k : id_table s1 = id_table s2 → get_data s1 k = get_data s2 k.
Proof. unfold get_data. by intros ->. Qed.

(** A [Metadata] update queued for a live playlist: the request is added
    to its pending update, the playlist is marked modified, and the global
    level is raised. *)
Lemma queue_update_Metadata id at_ number flags s d :
  get_data s id = Some d →
  get_data (queue_update id Metadata at_ number flags s) id
  = Some (with_modified true
            (with_m_next_update (merge_update (m_next_update d) Metadata at_ number) d))
  ∧ update_level (queue_update id Metadata at_ number flags s)
    = level_max (update_level s) Metadata.
Proof.
  intros Hd. unfold queue_update, pl_signal_update_queued.
  rewrite get_data_update_data, Hd, decide_True by done. cbn [fmap option_fmap option_map].
  change (level_eqb Metadata Structure) with false. cbv iota.
  change (level_num Metadata <=? level_num Metadata) with true. cbv iota.
  split.
  - rewrite (get_data_ext _ _ id (id_table_queue_global_update Metadata flags _ ltac:(done))).
    rewrite get_data_update_data, decide_True by done.
    assert (∀ x e, get_data (emit e x) id = get_data x id) as Hemit by done.
    repeat match goal with
           | |- context [if ?b then _ else _] => destruct b
           | |- context [match ?x with _ => _ end] => destruct x
           end; rewrite ?Hemit; by rewrite get_data_update_data, Hd, decide_True.
  - rewrite queue_global_update_level.
    repeat match goal with
           | |- context [if ?b then _ else _] => destruct b
           | |- context [match ?x with _ => _ end] => destruct x
           end; reflexivity.
Qed.

(** C7, as the code has it.  With a valid serial and a current playing
    entry, [playback_entry_set_tuple] leaves everything as it is when the
    start-time field of the tuple of that entry is set, whatever its value;
    otherwise the entry receives the new tuple, a [Metadata] update for the
    entry is added to the pending update of the playlist, the playlist is
    marked modified and the global update level is raised to [Metadata]. *)
Theorem playback_entry_set_tuple_spec (serial : Z) (tuple : Tuple) (s : State)
    (playing : Z) (d : PlaylistData) (entry : PlaylistEntry) :
  playback_check_serial serial s = true →
  playing_id s = Some playing →
  get_data s playing = Some d →
  entry_at d (position d) = Some entry →
  NoDup (e_addr <$> m_entries d) →
  let s' := playback_entry_set_tuple serial tuple s in
  if tuple_is_set (e_tuple entry) StartTime
  then s' = s
  else
    ∃ d',
      get_data s' playing = Some d'
      ∧ entry_at d' (position d') = Some (with_e_tuple tuple entry)
      ∧ m_next_update d' = merge_update (m_next_update d) Metadata (e_number entry) 1
      ∧ modified d' = true
      ∧ update_level s' = level_max (update_level s) Metadata.
Proof.
  intros Hserial Hplaying Hdata Hentry Hnodup s'.
  unfold s', playback_entry_set_tuple, get_playback_entry.
  rewrite Hserial, Hplaying, Hdata, Hentry. cbn [negb].
  destruct (tuple_is_set (e_tuple entry) StartTime); cbn [negb]; [done|].
  set (d1 := update_entry (e_addr entry) (with_e_tuple tuple) d).
  set (d2 := with_m_next_update
               (merge_update (m_next_update d1) Metadata (e_number entry) 1) d1).
  exists (with_modified true d2).
  assert (entry_at d1 (position d1) = Some (with_e_tuple tuple entry)) as Hentry1.
  { unfold entry_at, index_get, position, d1 in *.
    cbn [update_entry with_m_entries m_entries m_position] in *.
    destruct (m_position d <? 0); [done|].
    by apply list_alter_first_lookup. }
  assert (get_data (set_entry_tuple playing (e_addr entry) tuple s) playing = Some d1) as Hd1.
  { unfold set_entry_tuple. by rewrite get_data_update_data, Hdata, decide_True. }
  destruct (queue_update_Metadata playing (e_number entry) 1 0
              (set_entry_tuple playing (e_addr entry) tuple s) d1 Hd1) as (Hd' & Hlevel).
  rewrite Hd', Hlevel. repeat split; done.
Qed.

(** The entry that is playing has no start time: it receives the
    metadata of the stream. *)
Lemma playback_entry_set_tuple_spec_witness :
  ∃ d',
    get_data (playback_entry_set_tuple 7 stream_Tuple playing_State) 1000 = Some d'
    ∧ entry_at d' (position d') = Some (with_e_tuple stream_Tuple (song 1 "file:///A.mp3" 0))
    ∧ m_next_update d'
      = merge_update (m_next_update playing_data) Metadata 0 1
    ∧ modified d' = true
    ∧ update_level (playback_entry_set_tuple 7 stream_Tuple playing_State)
      = level_max (update_level playing_State) Metadata.
Proof.
  apply (playback_entry_set_tuple_spec 7 stream_Tuple playing_State 1000 playing_data
           (song 1 "file:///A.mp3" 0)).
  - vm_compute. reflexivity.
  - vm_compute. reflexivity.
  - vm_compute. reflexivity.
  - vm_compute. reflexivity.
  - vm_compute. apply NoDup_cons. split; [|apply NoDup_singleton].
    intros Hin%list_elem_of_singleton. discriminate.
Defined.

(** C7 as stated fails: the first track of a cue sheet starts at 0; its
    start time is set, so the tuple of the stream is not taken. *)
Lemma first_track_keeps_its_tuple : ¬ set_tuple_unless_nonzero_start_time.
Proof.
  intros Hclaim.
  destruct (Hclaim 7 stream_Tuple cuesheet_State 1000
              (default (new_PlaylistData default_title) (get_data cuesheet_State 1000))
              (with_e_tuple first_track_Tuple (song 1 "file:///A.mp3" 0)))
    as (d' & entry' & Hd' & Hentry' & Htuple).
  - vm_compute. reflexivity.
  - vm_compute. reflexivity.
  - vm_compute. reflexivity.
  - vm_compute. reflexivity.
  - vm_compute. reflexivity.
  - vm_compute. reflexivity.
  - vm_compute in Hd'. injection Hd' as <-.
    vm_compute in Hentry'. injection Hentry' as <-.
    vm_compute in Htuple. discriminate.
Qed.

Lemma queue_global_update_spec_witness :
  queued_update (queue_global_update Metadata DelayedUpdate init_State) = Some 250
  ∧ update_delayed (queue_global_update Metadata DelayedUpdate init_State) = true.
Proof.
  destruct (queue_global_update_spec Metadata DelayedUpdate init_State)
    as (_ & _ & _ & Hdelayed & _).
  exact (Hdelayed eq_refl).
Defined.

(** ** C9: the wait in [get_entry] *)

Lemma get_entry_loop_started wakeups id entry_num need_decoder need_tuple s :
  (get_entry_loop wakeups id entry_num need_decoder need_tuple true s).2 = 0.
Proof.
  revert s. induction wakeups as [|woken rest IH]; intros s; simpl.
  - unfold get_entry_turn. repeat frame_step; reflexivity.
  - specialize (IH woken).
    destruct (get_entry_loop rest id entry_num need_decoder need_tuple true woken) as [r m].
    simpl in IH. subst m.
    unfold get_entry_turn. repeat frame_step; reflexivity.
Qed.

Lemma get_entry_turn_settled id entry_num need_decoder need_tuple s :
  get_entry_settled id entry_num need_decoder need_tuple s = true →
  get_entry_turn id entry_num need_decoder need_tuple true s
  = TurnReturn (current_entry id entry_num s).
Proof.
  unfold get_entry_settled, get_entry_turn, current_entry.
  destruct id as [i|]; [|done].
  destruct (get_data s i) as [d|]; [|done].
  destruct (entry_at d entry_num) as [entry|]; [|done].
  destruct (String.prefix "stdin://" (e_filename entry)); [done|].
  destruct ((negb need_decoder || bool_decide (is_Some (e_decoder entry)))
            && (negb need_tuple || tuple_valid (e_tuple entry))); [done|].
  simpl. destruct (scan_list_find_entry (e_addr entry) s) eqn:Hfind; [|done].
  intros Hsettled. apply negb_true_iff, bool_decide_eq_false in Hsettled.
  exfalso. apply Hsettled. by eexists.
Qed.

Lemma scan_list_find_entry_queued playlist entry for_pb s :
  is_Some (scan_list_find_entry (e_addr entry) (scan_queue_entry playlist entry for_pb s)).
Proof.
  unfold scan_queue_entry, scan_list_find_entry.
  assert (∀ (items : list ScanItem) (item : ScanItem),
            item_entry item = e_addr entry →
            is_Some (list_find_first (λ item, item_entry item =? e_addr entry)
                       (items ++ [item]))) as Hfind.
  { intros items item Hitem. induction items as [|x items IH]; simpl.
    - rewrite Hitem, Z.eqb_refl. by eexists.
    - destruct (item_entry x =? e_addr entry); [by eexists|done]. }
  destruct (negb for_pb); cbn [scan_list emit with_trace with_scan_list with_next_request];
    by apply Hfind.
Qed.

(** C9.  Whatever the other threads do while [get_entry] waits (the
    wake-up states are arbitrary), one call of [get_entry] calls
    [scan_queue_entry] at most once.  A turn of its loop returns at once
    when the playlist or the entry is gone or the data asked for has been
    read, and, from the second turn on, when no scan of the entry is in
    flight; so the thread only ever waits while a scan item of the entry is
    in the scan list, and it returns at the first wake-up at which that
    scan has finished or was cancelled. *)
Theorem get_entry_bounded_wait (wakeups : list State) (id : option Z) (entry_num : Z)
    (need_decoder need_tuple : bool) (s : State) :
  (get_entry_loop wakeups id entry_num need_decoder need_tuple false s).2 ≤ 1
  ∧ (∀ started s1,
       current_entry id entry_num s1 = None →
       get_entry_turn id entry_num need_decoder need_tuple started s1 = TurnReturn None)
  ∧ (∀ started s1 entry,
       current_entry id entry_num s1 = Some entry →
       (need_decoder = true → is_Some (e_decoder entry)) →
       (need_tuple = true → tuple_valid (e_tuple entry) = true) →
       get_entry_turn id entry_num need_decoder need_tuple started s1
       = TurnReturn (Some entry))
  ∧ (∀ s1 entry,
       current_entry id entry_num s1 = Some entry →
       scan_list_find_entry (e_addr entry) s1 = None →
       get_entry_turn id entry_num need_decoder need_tuple true s1
       = TurnReturn (Some entry))
  ∧ (∀ started s1 queued s2,
       get_entry_turn id entry_num need_decoder need_tuple started s1 = TurnWait queued s2 →
       (queued = true → started = false)
       ∧ ∃ entry, current_entry id entry_num s1 = Some entry
                  ∧ is_Some (scan_list_find_entry (e_addr entry) s2))
  ∧ (Exists (λ woken, get_entry_settled id entry_num need_decoder need_tuple woken = true)
       wakeups →
     ∃ entry s', get_entry wakeups id entry_num need_decoder need_tuple s = Returned entry s').
Proof.
  split; [|split; [|split; [|split; [|split]]]].
  - destruct wakeups as [|woken rest]; simpl.
    + unfold get_entry_turn. repeat frame_step; simpl; lia.
    + pose proof (get_entry_loop_started rest id entry_num need_decoder need_tuple woken) as Hm.
      destruct (get_entry_loop rest id entry_num need_decoder need_tuple true woken) as [r m].
      simpl in Hm. subst m.
      unfold get_entry_turn. repeat frame_step; simpl; lia.
  - intros started s1. unfold current_entry, get_entry_turn.
    destruct id as [i|]; [|done]. destruct (get_data s1 i); [|done].
    by intros ->.
  - intros started s1 entry. unfold current_entry, get_entry_turn.
    destruct id as [i|]; [|done]. destruct (get_data s1 i); [|done].
    intros -> Hdecoder Htuple.
    destruct (String.prefix "stdin://" (e_filename entry)); [done|].
    assert ((negb need_decoder || bool_decide (is_Some (e_decoder entry)))
            && (negb need_tuple || tuple_valid (e_tuple entry)) = true) as ->; [|done].
    apply andb_true_iff. split.
    + destruct need_decoder; [|done]. simpl. by apply bool_decide_eq_true, Hdecoder.
    + destruct need_tuple; [|done]. simpl. by apply Htuple.
  - intros s1 entry. unfold current_entry, get_entry_turn.
    destruct id as [i|]; [|done]. destruct (get_data s1 i); [|done].
    intros -> ->. by repeat frame_step.
  - intros started s1 queued s2. unfold current_entry, get_entry_turn.
    destruct id as [i|]; [|done]. destruct (get_data s1 i); [|done].
    destruct (entry_at p entry_num) as [entry|]; [|done].
    destruct (String.prefix "stdin://" (e_filename entry)); [done|].
    destruct (_ && _); [done|].
    destruct (scan_list_find_entry (e_addr entry) s1) eqn:Hfind.
    + intros [= <- <-]. split; [done|]. exists entry. split; [done|].
      rewrite Hfind. by eexists.
    + destruct started; [done|]. intros [= <- <-]. split; [done|].
      exists entry. split; [done|]. apply scan_list_find_entry_queued.
  - unfold get_entry.
    generalize false. revert s.
    induction wakeups as [|woken rest IH]; intros s started Hsettled.
    + by apply Exists_nil in Hsettled.
    + simpl. destruct (get_entry_turn id entry_num need_decoder need_tuple started s)
        as [entry|queued s2]; simpl; [by eauto|].
      apply Exists_cons in Hsettled as [Hnow|Hlater].
      * destruct rest as [|woken' rest]; simpl;
          rewrite (get_entry_turn_settled _ _ _ _ _ Hnow); simpl; eauto.
      * specialize (IH woken true Hlater).
        destruct (get_entry_loop rest id entry_num need_decoder need_tuple true woken)
          as [r m]. simpl in *. exact IH.
Qed.

(** The scanner finished the request the waiting thread had queued: the
    thread returns with the entry at its first wake-up. *)
Lemma get_entry_bounded_wait_witness :
  ∃ entry s', get_entry [woken_State] (Some 1000) 0 false true two_songs_State
              = Returned entry s'.
Proof.
  destruct (get_entry_bounded_wait [woken_State] (Some 1000) 0 false true two_songs_State)
    as (_ & _ & _ & _ & _ & Hprogress).
  apply Hprogress. apply Exists_cons_hd. vm_compute. reflexivity.
Defined.

(** ** C10: the resume state that is saved *)

Lemma playlist_save_lines_resume_states paused time s playlist d :
  get_data s playlist = Some d →
  resume_states (playlist_save_lines paused time s playlist)
  = [if ptr_eqb (Some playlist) (playing_id s) && paused then ResumePause else ResumePlay].
Proof.
  intros Hd. unfold playlist_save_lines. rewrite Hd.
  unfold resume_states. by destruct (filename d).
Qed.

Lemma playlist_save_lines_never_Stop paused time s playlist :
  Forall (λ val, val = ResumePlay ∨ val = ResumePause)
    (resume_states (playlist_save_lines paused time s playlist)).
Proof.
  destruct (get_data s playlist) as [d|] eqn:Hd.
  - rewrite (playlist_save_lines_resume_states _ _ _ _ d Hd).
    constructor; [|constructor]. destruct (_ && _); [by right|by left].
  - unfold playlist_save_lines. rewrite Hd. constructor.
Qed.

(** C10.  For every playlist, [playlist_save_state] writes one
    "resume-state" line: [ResumePause] (2) if the playlist is the playing
    one and playback is paused, [ResumePlay] (1) in every other case,
    playlists that are not playing included.  No "resume-state" line of the
    file carries [ResumeStop] (0). *)
Theorem save_state_never_writes_Stop (s : State) :
  let paused := drct_paused (world s) in
  let time := drct_time (world s) in
  (state_file_writable (world s) = true →
   state_file (world (playlist_save_state s))
   = Some (print_lines (save_state_lines paused time s)))
  ∧ (∀ playlist d,
       get_data s playlist = Some d →
       resume_states (playlist_save_lines paused time s playlist)
       = [if ptr_eqb (Some playlist) (playing_id s) && paused
          then ResumePause else ResumePlay])
  ∧ Forall (λ val, (val = ResumePlay ∨ val = ResumePause) ∧ val ≠ ResumeStop)
      (resume_states (save_state_lines paused time s)).
Proof.
  intros paused time. split; [|split].
  - intros Hwritable. unfold playlist_save_state. by rewrite Hwritable.
  - intros playlist d. apply playlist_save_lines_resume_states.
  - unfold save_state_lines, resume_states. simpl.
    induction (playlists s) as [|p ps IH]; simpl; [constructor|].
    rewrite omap_app. apply Forall_app. split; [|exact IH].
    eapply Forall_impl; [apply playlist_save_lines_never_Stop|].
    intros val Hval. split; [done|]. by destruct Hval as [-> | ->].
Qed.

(** Playback is paused on the playlist 1000: its row says Pause. *)
Lemma save_state_never_writes_Stop_witness :
  resume_states (playlist_save_lines true 45000 playing_State 1000) = [ResumePause].
Proof.
  destruct (save_state_never_writes_Stop playing_State) as (_ & Hrow & _).
  apply (Hrow 1000 playing_data). vm_compute. reflexivity.
Defined.

(** * More of playlist.cc *)

(** ** Looking playlists up *)

Lemma registry_inv_three_playlists_State : registry_inv three_playlists_State.
Proof. do 2 apply insert_playlist_inv. apply registry_inv_playing_State. Qed.

Lemma registry_inv_index_of (s : State) (p : Z) :
  registry_inv s → is_Some (get_data s p) →
  ∃ i : nat, playlists s !! i = Some p ∧ id_index s p = Z.of_nat i.
Proof.
  intros Hinv Hlive. apply (inv_live _ Hinv) in Hlive.
  apply list_elem_of_lookup in Hlive as [i Hi]. exists i. split; [done|].
  destruct (inv_index _ Hinv _ _ Hi) as (r & Hr & Hidx). unfold id_index. by rewrite Hr.
Qed.

Lemma by_index_index_of (s : State) :
  registry_inv s →
  ∀ at_ p, by_index at_ s = Some p → Playlist_index (Some p) s = (s, at_).
Proof.
  intros Hinv at_ p. unfold by_index.
  destruct ((0 <=? at_) && (at_ <? len (playlists s))) eqn:Hrange; [|done].
  intros [Hat Hp]%index_get_Some.
  assert (is_Some (get_data s p)) as [d Hd]
    by (apply (inv_live _ Hinv); by eapply list_elem_of_lookup_2).
  destruct (inv_index _ Hinv _ _ Hp) as (r & Hr & Hidx).
  unfold Playlist_index, ENTER_GET_PLAYLIST, id_index. rewrite Hd, Hr. f_equal. lia.
Qed.

(** X1.  [by_index] and [index] are inverse to each other on the
    Registry: the handle that [by_index] gives for [at] is live and has
    the index [at], a live handle is the one [by_index] gives for its
    index, and outside of [0, n_playlists) [by_index] gives the null
    handle. *)
Theorem by_index_index (s : State) :
  registry_inv s →
  (∀ at_ p, by_index at_ s = Some p → Playlist_index (Some p) s = (s, at_))
  ∧ (∀ p at_, is_Some (get_data s p) → Playlist_index (Some p) s = (s, at_) →
       by_index at_ s = Some p)
  ∧ (∀ at_, at_ < 0 ∨ n_playlists s ≤ at_ → by_index at_ s = None).
Proof.
  intros Hinv. split; [|split].
  - by apply by_index_index_of.
  - intros p at_ Hlive. destruct (registry_inv_index_of s p Hinv Hlive) as (i & Hi & Hidx).
    destruct Hlive as [d Hd].
    unfold Playlist_index, ENTER_GET_PLAYLIST. rewrite Hd, Hidx. intros [= <-].
    unfold by_index. apply lookup_lt_Some in Hi as Hlt.
    assert ((0 <=? Z.of_nat i) && (Z.of_nat i <? len (playlists s)) = true) as ->.
    { unfold len. apply andb_true_iff. split; [apply Z.leb_le|apply Z.ltb_lt]; lia. }
    by rewrite index_get_of_nat.
  - intros at_ Hout. unfold by_index, n_playlists in *.
    destruct ((0 <=? at_) && (at_ <? len (playlists s))) eqn:Hrange; [|done].
    apply andb_true_iff in Hrange as [?%Z.leb_le ?%Z.ltb_lt]. lia.
Qed.

(** The second playlist of three is 1002, and 1002 has the index 1. *)
Lemma by_index_index_witness :
  Playlist_index (Some 1002) three_playlists_State = (three_playlists_State, 1).
Proof.
  apply (by_index_index three_playlists_State registry_inv_three_playlists_State).
  vm_compute. reflexivity.
Defined.

(** ** Inserting playlists *)

Lemma insert_position_range (at_ : Z) (s : State) :
  0 ≤ insert_position at_ s ≤ len (playlists s).
Proof.
  unfold insert_position, len.
  destruct (at_ <? 0) eqn:H1; cbn [orb]; [lia|].
  destruct (Z.of_nat (length (playlists s)) <? at_) eqn:H2; lia.
Qed.

(** What [insert_playlist_locked] does to the Registry *)
Lemma insert_playlist_locked_result (at_ stamp_ : Z) (s : State) :
  let id := (insert_playlist_locked at_ stamp_ s).1 in
  let s' := (insert_playlist_locked at_ stamp_ s).2 in
  id = (create_playlist stamp_ s).1
  ∧ id_table s !! id = None
  ∧ playlists s'
    = take (Z.to_nat (insert_position at_ s)) (playlists s)
      ++ id :: drop (Z.to_nat (insert_position at_ s)) (playlists s)
  ∧ active_id s' = match active_id s with Some a => Some a | None => Some id end
  ∧ playing_id s' = playing_id s.
Proof.
  unfold insert_playlist_locked. fold (insert_position at_ s).
  pose proof (create_playlist_spec stamp_ s) as Hcreate.
  destruct (create_playlist stamp_ s) as [id s1]. cbn [fst snd] in Hcreate.
  destruct Hcreate as (Hfree & _ & Hpl & Hact & Hplay & _).
  set (s2 := with_playlists _ s1).
  set (s3 := number_playlists _ _ s2).
  set (s4 := match active_id s3 with Some _ => s3 | None => with_active_id (Some id) s3 end).
  cbn [fst snd].
  destruct (reg_view_fields s4 (queue_update id Structure 0 0 0 s4)) as (-> & -> & ->);
    [by autorewrite with frame|].
  assert (playlists s3 = playlists s2 ∧ active_id s3 = active_id s2
          ∧ playing_id s3 = playing_id s2) as (Hpl3 & Hact3 & Hplay3)
    by (unfold s3; by rewrite number_playlists_frame).
  split; [done|]. split; [done|].
  assert (active_id s3 = active_id s ∧ playing_id s3 = playing_id s
          ∧ playlists s3 = take (Z.to_nat (insert_position at_ s)) (playlists s)
                           ++ id :: drop (Z.to_nat (insert_position at_ s)) (playlists s))
    as (Hact' & Hplay' & Hpl').
  { rewrite Hact3, Hplay3, Hpl3, <- Hact, <- Hplay, <- Hpl. done. }
  unfold s4. rewrite <- Hact', <- Hplay', <- Hpl'.
  by destruct (active_id s3) eqn:Hactive.
Qed.

(** X2.  [insert_playlist] puts a new playlist at the index [at], or at
    the end of the Registry when [at] is negative or greater than the
    number of playlists; the playlists before and after it keep their
    order, the handle returned is new (no ID record, not even that of a
    removed playlist, is reused), it is live, and it has the index the
    playlist was inserted at. *)
Theorem insert_playlist_at (at_ : Z) (s : State) :
  registry_inv s →
  ∃ id,
    (insert_playlist at_ s).1 = Some id
    ∧ id_table s !! id = None
    ∧ playlists (insert_playlist at_ s).2
      = take (Z.to_nat (insert_position at_ s)) (playlists s)
        ++ id :: drop (Z.to_nat (insert_position at_ s)) (playlists s)
    ∧ n_playlists (insert_playlist at_ s).2 = n_playlists s + 1
    ∧ by_index (insert_position at_ s) (insert_playlist at_ s).2 = Some id
    ∧ Playlist_index (Some id) (insert_playlist at_ s).2
      = ((insert_playlist at_ s).2, insert_position at_ s).
Proof.
  intros Hinv. unfold insert_playlist.
  destruct (insert_playlist_locked_result at_ (-1) s) as (_ & Hfree & Hpl & _).
  destruct (insert_playlist_locked_inv at_ (-1) s Hinv) as [Hinv' _].
  destruct (insert_playlist_locked at_ (-1) s) as [id s']. cbn [fst snd] in *.
  exists id. split; [done|]. split; [done|]. split; [done|].
  pose proof (insert_position_range at_ s) as Hrange. unfold len in Hrange.
  assert (n_playlists s' = n_playlists s + 1) as Hlen.
  { unfold n_playlists, len. rewrite Hpl, length_app, length_take. cbn [length].
    rewrite length_drop. lia. }
  assert (by_index (insert_position at_ s) s' = Some id) as Hby.
  { unfold by_index. fold (n_playlists s'). rewrite Hlen. unfold n_playlists, len.
    assert ((0 <=? insert_position at_ s)
            && (insert_position at_ s <? Z.of_nat (length (playlists s)) + 1) = true) as ->.
    { apply andb_true_iff. split; [apply Z.leb_le|apply Z.ltb_lt]; lia. }
    apply index_get_Some. split; [lia|]. rewrite Hpl.
    rewrite lookup_app_r by (rewrite length_take; lia).
    rewrite length_take. by replace (_ - _)%nat with 0%nat by lia. }
  split; [done|]. split; [done|].
  by apply (by_index_index_of s' Hinv').
Qed.

(** The playlist is inserted at the end when [at] is out of range. *)
Lemma insert_playlist_at_witness :
  playlists (insert_playlist 7 playing_State).2 = [1000; 1001].
Proof.
  destruct (insert_playlist_at 7 playing_State registry_inv_playing_State)
    as (id & Hid & _ & Hpl & _).
  assert ((insert_playlist 7 playing_State).1 = Some 1001) as Hfirst by (vm_compute; reflexivity).
  rewrite Hpl. rewrite Hfirst in Hid. injection Hid as <-. vm_compute. reflexivity.
Defined.

Lemma advance_next_stamp_used (table : gmap Z ID) (fuel : nat) (n : Z) :
  n ≤ advance_next_stamp fuel table n
  ∧ ∀ k, n ≤ k < advance_next_stamp fuel table n → is_Some (table !! k).
Proof.
  revert n. induction fuel as [|fuel IH]; intros n; cbn [advance_next_stamp].
  - destruct (table !! n); split; (lia || (intros; lia)).
  - destruct (table !! n) as [r|] eqn:Hn; [|split; [lia|intros; lia]].
    destruct (IH (n + 1)) as [Hge Hused]. split; [lia|].
    intros k Hk. destruct (decide (k = n)) as [->|Hne]; [by rewrite Hn|].
    apply Hused. lia.
Qed.

Lemma create_playlist_stamp (stamp_ : Z) (s : State) :
  (0 ≤ stamp_ → id_table s !! stamp_ = None → (create_playlist stamp_ s).1 = stamp_)
  ∧ (stamp_ < 0 ∨ is_Some (id_table s !! stamp_) →
     (create_playlist stamp_ s).1
     = advance_next_stamp (size (id_table s)) (id_table s) (next_stamp s)).
Proof.
  unfold create_playlist.
  destruct ((0 <=? stamp_) && negb (bool_decide (is_Some (id_table s !! stamp_)))) eqn:Hreq;
    cbn [fst].
  - apply andb_true_iff in Hreq as [Hpos%Z.leb_le Hfree].
    apply negb_true_iff, bool_decide_eq_false in Hfree.
    split; [done|]. intros [?|?]; [lia|done].
  - split; [|done]. intros Hpos Hfree.
    apply andb_false_iff in Hreq as [Hneg%Z.leb_gt|Hused]; [lia|].
    apply negb_false_iff, bool_decide_eq_true in Hused. rewrite Hfree in Hused.
    by destruct Hused.
Qed.

(** X3.  [insert_with_stamp] gives the new playlist the stamp asked for
    when that stamp is not negative and no ID record carries it;
    otherwise the playlist gets the first stamp from [next_stamp] on that
    no ID record carries.  Either way no ID record, live or dead, carried
    the stamp before, and it is the stamp [stamp] returns for the new
    handle. *)
Theorem insert_with_stamp_stamp (at_ stamp_ : Z) (s : State) :
  registry_inv s →
  ∃ id,
    (insert_with_stamp at_ stamp_ s).1 = Some id
    ∧ PlaylistEx_stamp (Some id) (insert_with_stamp at_ stamp_ s).2
      = ((insert_with_stamp at_ stamp_ s).2, id)
    ∧ id_table s !! id = None
    ∧ (0 ≤ stamp_ → id_table s !! stamp_ = None → id = stamp_)
    ∧ (stamp_ < 0 ∨ is_Some (id_table s !! stamp_) →
       next_stamp s ≤ id ∧ ∀ k, next_stamp s ≤ k < id → is_Some (id_table s !! k)).
Proof.
  intros Hinv. unfold insert_with_stamp.
  destruct (insert_playlist_locked_result at_ stamp_ s) as (Hid & Hfree & _).
  destruct (insert_playlist_locked_inv at_ stamp_ s Hinv) as [Hinv' Hin].
  destruct (insert_playlist_locked at_ stamp_ s) as [id s']. cbn [fst snd] in *.
  exists id. split; [done|]. split; [|split; [done|]].
  - apply (inv_live _ Hinv') in Hin as [d Hd].
    unfold PlaylistEx_stamp, ENTER_GET_PLAYLIST. rewrite Hd. f_equal.
    unfold get_data in Hd. destruct (id_table s' !! id) as [r|] eqn:Hr; [|done].
    apply (inv_stamp _ Hinv' _ _ Hr).
  - destruct (create_playlist_stamp stamp_ s) as [Hasked Hnext]. rewrite Hid. split; [done|].
    intros Hother. rewrite (Hnext Hother). apply advance_next_stamp_used.
Qed.

(** The stamp 1000 is in use, so the new playlist gets 1001; the stamp 7
    is not, so the new playlist gets it. *)
Lemma insert_with_stamp_stamp_witness :
  (insert_with_stamp 0 1000 playing_State).1 = Some 1001
  ∧ (insert_with_stamp 0 7 playing_State).1 = Some 7.
Proof.
  destruct (insert_with_stamp_stamp 0 1000 playing_State registry_inv_playing_State)
    as (id & Hid & _ & Hfree & _ & Hnext).
  destruct (insert_with_stamp_stamp 0 7 playing_State registry_inv_playing_State)
    as (id' & Hid' & _ & _ & Hasked & _).
  split.
  - rewrite Hid. f_equal.
    assert (next_stamp playing_State = 1000) as Hstamp by (vm_compute; reflexivity).
    assert (is_Some (id_table playing_State !! 1000)) as Hused by (vm_compute; eauto).
    destruct (Hnext (or_intror Hused)) as [Hge Hbelow]. rewrite Hstamp in Hge, Hbelow.
    destruct (decide (id = 1001)) as [->|Hne]; [done|].
    destruct (decide (id = 1000)) as [->|Hne'].
    { rewrite Hfree in Hused. by destruct Hused. }
    assert (is_Some (id_table playing_State !! 1001)) as [r Hr] by (apply Hbelow; lia).
    vm_compute in Hr. discriminate.
  - rewrite Hid'. f_equal. apply Hasked; [lia|]. vm_compute. reflexivity.
Defined.

(** ** Reordering playlists *)

(** Where the two blocks are after they were exchanged *)
Lemma swap_blocks_slices {A : Type} (l : list A) (a b c : nat) :
  (a + b + c ≤ length l)%nat →
  let l' := take a l ++ take c (drop (a + b) l) ++ take b (drop a l) ++ drop (a + b + c) l in
  take c (drop a l') = take c (drop (a + b) l)
  ∧ take b (drop (a + c) l') = take b (drop a l).
Proof.
  intros Hlen l'.
  assert (length (take a l) = a) as Ha by (rewrite length_take; lia).
  assert (length (take b (drop a l)) = b) as Hb by (rewrite length_take, length_drop; lia).
  assert (length (take c (drop (a + b) l)) = c) as Hc
    by (rewrite length_take, length_drop; lia).
  unfold l'. split.
  - rewrite drop_app_length' by done. by rewrite take_app_length'.
  - rewrite (app_assoc (take a l)).
    rewrite drop_app_length' by (rewrite length_app; lia). by rewrite take_app_length'.
Qed.

(** X4.  [reorder_playlists] moves the [count] playlists that stand at
    [from] to the index [to].  Its guard adds [int]s: the call is
    undefined exactly when [from] is not negative and [from + count]
    leaves the range of [int], or when the checks on [from] pass, [to] is
    not negative and [to + count] leaves it; so it has a result whenever
    both sums are at most [INT_MAX].  When it has one: the Registry holds
    the playlists it held (none is added, dropped or duplicated); when a
    block of [count] playlists at [from] or at [to] would not lie within
    the Registry, or [from], [to] or [count] is negative, nothing changes
    at all; otherwise the playlists stand at [to] in the order they had,
    and every playlist outside the range between the old and the new
    place keeps its index. *)
Theorem reorder_playlists_moves (from to count : Z) (s : State) :
  (reorder_playlists from to count s = None
   ↔ 0 ≤ from
     ∧ (INT_MAX < from + count
        ∨ from + count ≤ len (playlists s) ∧ 0 ≤ to ∧ INT_MAX < to + count))
  ∧ (from + count ≤ INT_MAX → to + count ≤ INT_MAX →
     is_Some (reorder_playlists from to count s))
  ∧ ∀ s', reorder_playlists from to count s = Some s' →
      playlists s' ≡ₚ playlists s
      ∧ (from < 0 ∨ len (playlists s) < from + count ∨ to < 0
         ∨ len (playlists s) < to + count ∨ count < 0 →
         s' = s)
      ∧ (0 ≤ from → from + count ≤ len (playlists s) → 0 ≤ to →
         to + count ≤ len (playlists s) → 0 ≤ count →
         index_slice (playlists s') to count = index_slice (playlists s) from count
         ∧ ∀ i : nat,
             Z.of_nat i < Z.min from to ∨ Z.max from to + count ≤ Z.of_nat i →
             playlists s' !! i = playlists s !! i).
Proof.
  assert (reorder_overflows from to count s = true
          ↔ 0 ≤ from
            ∧ (INT_MAX < from + count
               ∨ from + count ≤ len (playlists s) ∧ 0 ≤ to ∧ INT_MAX < to + count))
    as Hover.
  { unfold reorder_overflows.
    rewrite andb_true_iff, orb_true_iff, !andb_true_iff, !Z.leb_le, !Z.ltb_lt. tauto. }
  assert (reorder_playlists from to count s = None
          ↔ reorder_overflows from to count s = true) as Hnone.
  { unfold reorder_playlists. destruct (reorder_overflows from to count s); [done|].
    by destruct (_ || _). }
  split; [by rewrite Hnone|]. split.
  { intros Hfrom Hto. destruct (decide (reorder_playlists from to count s = None)) as [Hrun|Hrun].
    - apply Hnone, Hover in Hrun. lia.
    - by destruct (reorder_playlists from to count s); [eexists|]. }
  intros s' Hrun. split; [by apply (reorder_playlists_perm from to count s)|].
  revert Hrun. unfold reorder_playlists.
  destruct (reorder_overflows from to count s); [done|].
  destruct ((from <? 0) || (len (playlists s) <? from + count) || (to <? 0)
            || (len (playlists s) <? to + count) || (count <? 0)) eqn:Hguard;
    intros Hrun; apply (inj Some) in Hrun; subst s'.
  - split; [done|]. intros G1 G2 G3 G4 G5.
    repeat (apply orb_true_iff in Hguard as [Hguard|Hguard]);
      (apply Z.ltb_lt in Hguard; lia).
  - repeat (apply orb_false_iff in Hguard as [Hguard ?]).
    split; [lia|]. intros G1 G2 G3 G4 G5. unfold len in *.
    erewrite playlists_of_view; [|apply reg_view_queue_global_update].
    unfold index_slice.
    destruct (to <? from) eqn:Hdir; rewrite number_playlists_frame; cbn [playlists with_id_table with_playlists].
    + apply Z.ltb_lt in Hdir.
      destruct (swap_blocks (playlists s) (Z.to_nat to) (Z.to_nat (from - to))
                  (Z.to_nat count)) as [_ Hout]; [lia|].
      destruct (swap_blocks_slices (playlists s) (Z.to_nat to) (Z.to_nat (from - to))
                  (Z.to_nat count)) as [Hmoved _]; [lia|].
      replace (Z.to_nat to + Z.to_nat (from - to))%nat with (Z.to_nat from) in * by lia.
      replace (Z.to_nat from + Z.to_nat count)%nat with (Z.to_nat (from + count)) in * by lia.
      split; [exact Hmoved|]. intros i Hi. apply Hout. lia.
    + apply Z.ltb_ge in Hdir.
      destruct (swap_blocks (playlists s) (Z.to_nat from) (Z.to_nat count)
                  (Z.to_nat (to - from))) as [_ Hout]; [lia|].
      destruct (swap_blocks_slices (playlists s) (Z.to_nat from) (Z.to_nat count)
                  (Z.to_nat (to - from))) as [_ Hmoved]; [lia|].
      replace (Z.to_nat from + Z.to_nat (to - from))%nat with (Z.to_nat to) in * by lia.
      replace (Z.to_nat from + Z.to_nat count)%nat with (Z.to_nat (from + count)) in * by lia.
      replace (Z.to_nat (from + count) + Z.to_nat (to - from))%nat
        with (Z.to_nat (to + count)) in * by lia.
      split; [exact Hmoved|]. intros i Hi. apply Hout. lia.
Qed.

(** The first playlist of three is moved behind the two others; a block
    of two playlists cannot be moved to the last index; and a count that
    makes the guard overflow has no defined effect. *)
Lemma reorder_playlists_moves_witness :
  (∃ s', reorder_playlists 0 2 1 three_playlists_State = Some s'
         ∧ index_slice (playlists s') 2 1 = [1000])
  ∧ reorder_playlists 0 2 2 three_playlists_State = Some three_playlists_State
  ∧ reorder_playlists 1 1 INT_MAX three_playlists_State = None.
Proof.
  destruct (reorder_playlists_moves 0 2 1 three_playlists_State)
    as (_ & Hdefined & Hmoved).
  destruct (reorder_playlists_moves 0 2 2 three_playlists_State)
    as (_ & Hdefined' & Hsame).
  destruct (reorder_playlists_moves 1 1 INT_MAX three_playlists_State) as (Hnone & _).
  assert (len (playlists three_playlists_State) = 3) as Hlen by (vm_compute; reflexivity).
  split; [|split].
  - destruct Hdefined as [s' Hs']; [by cbv..|]. exists s'. split; [done|].
    destruct (Hmoved s' Hs') as (_ & _ & Hslice).
    destruct Hslice as [-> _]; [lia..|]. vm_compute. reflexivity.
  - destruct Hdefined' as [s' Hs']; [by cbv..|].
    destruct (Hsame s' Hs') as (_ & Hunchanged & _).
    rewrite Hs'. f_equal. apply Hunchanged. lia.
  - apply Hnone. split; [lia|]. left. by cbv.
Defined.

(** ** Removing a playlist *)

(** X5.  [remove_playlist] through a live handle kills the handle: the
    playlist leaves the Registry, the ID record loses its data, so [index]
    through the handle gives -1, and every other playlist stays.  The
    Registry gets one playlist shorter, but never empty: when the last
    playlist is removed a new one takes its place. *)
Theorem remove_playlist_handle_dead (id : Z) (s : State) :
  registry_inv s → is_Some (get_data s id) →
  get_data (remove_playlist (Some id) s) id = None
  ∧ (id ∉ playlists (remove_playlist (Some id) s))
  ∧ Playlist_index (Some id) (remove_playlist (Some id) s)
    = (remove_playlist (Some id) s, -1)
  ∧ (∀ p, p ∈ playlists s → p ≠ id → p ∈ playlists (remove_playlist (Some id) s))
  ∧ n_playlists (remove_playlist (Some id) s) = Z.max 1 (n_playlists s - 1).
Proof.
  intros Hinv Hlive.
  pose proof (remove_playlist_view id s Hlive) as Hview. cbv zeta in Hview.
  destruct (removed_registry_spec id s Hinv Hlive)
    as (_ & Hlive3 & _ & _ & _ & _ & _ & _ & Hkeep & Hgone).
  pose proof (removed_registry_playlists id s Hinv Hlive) as Hrest. cbv zeta in Hrest.
  set (s3 := removed_registry id s) in *.
  set (s' := remove_playlist (Some id) s) in *.
  assert (playlists s' = playlists s3) as Hpl
    by (by destruct (reg_view_fields _ _ Hview) as (-> & _)).
  assert (get_data s' id = None) as Hdead.
  { apply eq_None_not_Some. intros Hsome.
    apply (reg_view_get_data _ _ id Hview) in Hsome. by apply Hlive3 in Hsome. }
  split; [done|]. split; [by rewrite Hpl|]. split.
  { unfold Playlist_index, ENTER_GET_PLAYLIST. by rewrite Hdead. }
  split; [intros p Hp Hne; rewrite Hpl; by apply Hkeep|].
  destruct (registry_inv_index_of s id Hinv Hlive) as (i & Hi & Hidx).
  unfold n_playlists, len. rewrite Hpl, Hidx, Nat2Z.id in *.
  assert (length (delete i (playlists s)) = (length (playlists s) - 1)%nat) as Hlen
    by (rewrite length_delete; [done|by eexists]).
  apply lookup_lt_Some in Hi.
  destruct Hrest as [[Hne ->]|[Hnil (fresh & -> & _)]].
  - rewrite Hlen. destruct (delete i (playlists s)) eqn:Hdel; [done|]. cbn [length] in Hlen. lia.
  - rewrite Hnil in Hlen. cbn [length] in *. lia.
Qed.

(** The only playlist is removed: its handle is dead and a new playlist
    is in the Registry. *)
Lemma remove_playlist_handle_dead_witness :
  get_data removed_State 1000 = None ∧ n_playlists removed_State = 1.
Proof.
  assert (is_Some (get_data one_playlist_State 1000)) as Hlive by (vm_compute; eauto).
  destruct (remove_playlist_handle_dead 1000 one_playlist_State
              registry_inv_one_playlist_State Hlive) as (Hdead & _ & _ & _ & Hlen).
  split; [exact Hdead|]. unfold removed_State. rewrite Hlen. vm_compute. reflexivity.
Defined.

(** ** The active playlist *)

(** X6.  [activate] through a live handle makes the playlist the active
    one.  The hook "playlist activate" is called when the active playlist
    changed and only then: activating the active playlist changes
    nothing, and so does activating a playlist a second time. *)
Theorem activate_spec (id : Z) (s : State) :
  is_Some (get_data s id) →
  active_playlist (activate (Some id) s) = Some id
  ∧ (active_id s = Some id → activate (Some id) s = s)
  ∧ (active_id s ≠ Some id →
     trace (activate (Some id) s) = trace s ++ [hook_call "playlist activate" None])
  ∧ activate (Some id) (activate (Some id) s) = activate (Some id) s.
Proof.
  intros [d Hd]. unfold activate, active_playlist. rewrite Hd.
  destruct (ptr_eqb (Some id) (active_id s)) eqn:Hactive; cbn [negb].
  - apply ptr_eqb_eq in Hactive. rewrite Hd. rewrite <- Hactive at 3.
    assert (ptr_eqb (Some id) (active_id s) = true) as -> by (by apply ptr_eqb_eq).
    done.
  - apply ptr_eqb_neq in Hactive.
    assert (get_data (emit (hook_call "playlist activate" None) (with_active_id (Some id) s)) id
            = Some d) as -> by exact Hd.
    cbn [active_id emit with_trace with_active_id ptr_eqb]. rewrite Z.eqb_refl. cbn [negb].
    repeat split. intros Heq. by rewrite Heq in Hactive.
Qed.

(** The playlist 1001 of three becomes the active one in place of
    1000. *)
Lemma activate_spec_witness :
  active_playlist (activate (Some 1001) three_playlists_State) = Some 1001.
Proof.
  apply activate_spec. vm_compute. eauto.
Defined.

Lemma lookup_by_index (s : State) (i : nat) (p : Z) :
  playlists s !! i = Some p → by_index (Z.of_nat i) s = Some p.
Proof.
  intros Hi. unfold by_index. apply lookup_lt_Some in Hi as Hlt.
  assert (((0 <=? Z.of_nat i) && (Z.of_nat i <? len (playlists s))) = true) as ->.
  { unfold len. apply andb_true_iff. split; [apply Z.leb_le|apply Z.ltb_lt]; lia. }
  by rewrite index_get_of_nat.
Qed.

(** X7.  [new_playlist] inserts a new playlist right after the active
    one and makes it the active playlist: the handle returned is new, it
    is what [active_playlist] returns afterwards, its index is the index
    of the playlist that was active plus one, that playlist keeps its
    index, and the last thing the call does is to call the hook
    "playlist activate". *)
Theorem new_playlist_after_active (s : State) (active : Z) :
  registry_inv s → active_id s = Some active →
  ∃ r id,
    new_playlist s = Some r
    ∧ r.1 = Some id
    ∧ id_table s !! id = None
    ∧ active_playlist r.2 = Some id
    ∧ Playlist_index (Some id) r.2 = (r.2, id_index s active + 1)
    ∧ Playlist_index (Some active) r.2 = (r.2, id_index s active)
    ∧ n_playlists r.2 = n_playlists s + 1
    ∧ last (trace r.2) = Some (hook_call "playlist activate" None).
Proof.
  intros Hinv Hactive.
  assert (∀ r, new_playlist s = Some r → registry_inv r.2) as Hinv'
    by (intros r Hr; by apply (new_playlist_inv s)).
  pose proof (inv_active _ Hinv) as Hin. rewrite Hactive in Hin.
  destruct (registry_inv_index_of s active Hinv) as (i & Hi & Hidx);
    [by apply (inv_live _ Hinv)|].
  apply lookup_lt_Some in Hi as Hlt.
  revert Hinv'. unfold new_playlist. rewrite Hactive, Hidx.
  destruct (insert_playlist_locked_result (Z.of_nat i + 1) (-1) s) as (_ & Hfree & Hpl & _).
  assert (insert_position (Z.of_nat i + 1) s = Z.of_nat (S i)) as Hpos.
  { unfold insert_position, len.
    destruct (Z.of_nat i + 1 <? 0) eqn:H1; [apply Z.ltb_lt in H1; lia|]. cbn [orb].
    destruct (Z.of_nat (length (playlists s)) <? Z.of_nat i + 1) eqn:H2;
      [apply Z.ltb_lt in H2|]; lia. }
  rewrite Hpos, Nat2Z.id in Hpl.
  destruct (insert_playlist_locked (Z.of_nat i + 1) (-1) s) as [id s1]. cbn [fst snd] in *.
  set (s' := emit (hook_call "playlist activate" None) (with_active_id (Some id) s1)).
  intros Hinv'. specialize (Hinv' _ eq_refl). cbn [snd] in Hinv'.
  exists (Some id, s'), id. cbn [fst snd].
  assert (playlists s' = take (S i) (playlists s) ++ id :: drop (S i) (playlists s)) as Hpl'
    by exact Hpl.
  split; [done|]. split; [done|]. split; [done|]. split; [done|].
  split; [|split; [|split]].
  - replace (Z.of_nat i + 1) with (Z.of_nat (S i)) by lia.
    apply (by_index_index_of s' Hinv'), lookup_by_index. rewrite Hpl'.
    rewrite lookup_app_r by (rewrite length_take; lia).
    rewrite length_take. by replace (_ - _)%nat with 0%nat by lia.
  - apply (by_index_index_of s' Hinv'), lookup_by_index. rewrite Hpl'.
    rewrite lookup_app_l by (rewrite length_take; lia).
    by rewrite lookup_take_lt by lia.
  - unfold n_playlists, len. rewrite Hpl', length_app, length_take. cbn [length].
    rewrite length_drop. lia.
  - unfold s', emit. cbn [trace with_trace]. apply last_snoc.
Qed.

(** The new playlist 1001 comes right after the active playlist 1000 of
    [playing_State] and is active. *)
Lemma new_playlist_after_active_witness :
  ∃ r id, new_playlist playing_State = Some r
          ∧ r.1 = Some id
          ∧ active_playlist r.2 = Some id
          ∧ Playlist_index (Some id) r.2 = (r.2, 1).
Proof.
  assert (active_id playing_State = Some 1000) as Hactive by (vm_compute; reflexivity).
  destruct (new_playlist_after_active playing_State 1000 registry_inv_playing_State Hactive)
    as (r & id & Hr & Hid & _ & Hact & Hindex & _).
  exists r, id. split; [exact Hr|]. split; [exact Hid|]. split; [exact Hact|].
  rewrite Hindex.
  assert (id_index playing_State 1000 + 1 = 1) as -> by (vm_compute; reflexivity).
  reflexivity.
Defined.

(** ** What the scan scheduler leaves alone: the data of the playlists *)

Lemma data_view_with_next_stamp v s : data_view (with_next_stamp v s) = data_view s.
Proof. reflexivity. Qed.
Lemma data_view_with_playlists v s : data_view (with_playlists v s) = data_view s.
Proof. reflexivity. Qed.
Lemma data_view_with_active_id v s : data_view (with_active_id v s) = data_view s.
Proof. reflexivity. Qed.
Lemma data_view_with_playing_id v s : data_view (with_playing_id v s) = data_view s.
Proof. reflexivity. Qed.
Lemma data_view_with_resume_playlist v s : data_view (with_resume_playlist v s) = data_view s.
Proof. reflexivity. Qed.
Lemma data_view_with_resume_paused v s : data_view (with_resume_paused v s) = data_view s.
Proof. reflexivity. Qed.
Lemma data_view_with_queued_update v s : data_view (with_queued_update v s) = data_view s.
Proof. reflexivity. Qed.
Lemma data_view_with_update_level v s : data_view (with_update_level v s) = data_view s.
Proof. reflexivity. Qed.
Lemma data_view_with_update_delayed v s : data_view (with_update_delayed v s) = data_view s.
Proof. reflexivity. Qed.
Lemma data_view_with_scan_enabled_nominal v s :
  data_view (with_scan_enabled_nominal v s) = data_view s.
Proof. reflexivity. Qed.
Lemma data_view_with_scan_enabled v s : data_view (with_scan_enabled v s) = data_view s.
Proof. reflexivity. Qed.
Lemma data_view_with_scan_playlist v s : data_view (with_scan_playlist v s) = data_view s.
Proof. reflexivity. Qed.
Lemma data_view_with_scan_row v s : data_view (with_scan_row v s) = data_view s.
Proof. reflexivity. Qed.
Lemma data_view_with_scan_list v s : data_view (with_scan_list v s) = data_view s.
Proof. reflexivity. Qed.
Lemma data_view_with_next_request v s : data_view (with_next_request v s) = data_view s.
Proof. reflexivity. Qed.
Lemma data_view_with_world v s : data_view (with_world v s) = data_view s.
Proof. reflexivity. Qed.
Lemma data_view_with_trace v s : data_view (with_trace v s) = data_view s.
Proof. reflexivity. Qed.
Lemma data_view_emit e s : data_view (emit e s) = data_view s.
Proof. reflexivity. Qed.

Lemma data_view_scan_status id v s :
  data_view (update_data id (with_scan_status v) s) = data_view s.
Proof.
  unfold data_view, update_data. cbn [id_table with_id_table].
  apply map_eq; intros k. rewrite !lookup_fmap, lookup_alter.
  case_decide; [subst|done].
  destruct (id_table s !! k) as [r|]; [|done]. cbn. f_equal.
  by destruct (data r).
Qed.

Create Rewrite HintDb dataframe.
#[local] Hint Rewrite data_view_with_next_stamp data_view_with_playlists data_view_with_active_id data_view_with_playing_id data_view_with_resume_playlist data_view_with_resume_paused data_view_with_queued_update data_view_with_update_level data_view_with_update_delayed data_view_with_scan_enabled_nominal data_view_with_scan_enabled data_view_with_scan_playlist data_view_with_scan_row data_view_with_scan_list data_view_with_next_request data_view_with_world data_view_with_trace
  data_view_emit data_view_scan_status : dataframe.

Ltac dataframe := repeat frame_step; simpl; autorewrite with dataframe; try done.

Lemma data_view_scan_queue_entry playlist entry for_pb s :
  data_view (scan_queue_entry playlist entry for_pb s) = data_view s.
Proof. unfold scan_queue_entry. dataframe. Qed.
#[local] Hint Rewrite data_view_scan_queue_entry : dataframe.

Lemma data_view_scan_reset_playback s : data_view (scan_reset_playback s) = data_view s.
Proof. unfold scan_reset_playback. dataframe. Qed.
#[local] Hint Rewrite data_view_scan_reset_playback : dataframe.

Lemma data_view_scan_check_complete playlist s :
  data_view (scan_check_complete playlist s) = data_view s.
Proof. unfold scan_check_complete. dataframe. Qed.
#[local] Hint Rewrite data_view_scan_check_complete : dataframe.

Lemma data_view_scan_queue_next_row fuel playlist s :
  data_view (scan_queue_next_row fuel playlist s).1 = data_view s.
Proof.
  revert s. induction fuel as [|fuel IH]; intros s; simpl; dataframe.
  rewrite IH. dataframe.
Qed.

Lemma data_view_scan_queue_next_playlist fuel s :
  data_view (scan_queue_next_playlist fuel s).1 = data_view s.
Proof.
  revert s. induction fuel as [|fuel IH]; intros s; simpl.
  all: repeat match goal with
       | |- context [scan_queue_next_row ?f ?p ?s] =>
           let E := fresh "E" in
           pose proof (data_view_scan_queue_next_row f p s) as E;
           destruct (scan_queue_next_row f p s); simpl in E
       | _ => frame_step
       end; simpl; rewrite ?IH; autorewrite with dataframe; try congruence.
Qed.

Lemma data_view_scan_queue_next_entry s :
  data_view (scan_queue_next_entry s).1 = data_view s.
Proof.
  unfold scan_queue_next_entry. destruct (scan_enabled s); simpl; [|done].
  apply data_view_scan_queue_next_playlist.
Qed.

Lemma data_view_scan_schedule_more fuel scheduled s :
  data_view (scan_schedule_more fuel scheduled s) = data_view s.
Proof.
  revert scheduled s. induction fuel as [|fuel IH]; intros scheduled s; simpl;
    pose proof (data_view_scan_queue_next_entry s) as E;
    destruct (scan_queue_next_entry s) as [s' queued]; simpl in E;
    repeat frame_step; rewrite ?IH; done.
Qed.

Lemma data_view_scan_schedule s : data_view (scan_schedule s) = data_view s.
Proof.
  unfold scan_schedule. destruct (scan_count_scheduled _ _); [|done].
  apply data_view_scan_schedule_more.
Qed.
#[local] Hint Rewrite data_view_scan_schedule : dataframe.

Lemma data_view_scan_cancel entry s : data_view (scan_cancel entry s) = data_view s.
Proof. unfold scan_cancel. dataframe. Qed.
#[local] Hint Rewrite data_view_scan_cancel : dataframe.

Lemma data_view_scan_restart s : data_view (scan_restart s) = data_view s.
Proof. unfold scan_restart. dataframe. Qed.
#[local] Hint Rewrite data_view_scan_restart : dataframe.

Lemma data_view_queue_global_update level flags s :
  data_view (queue_global_update level flags s) = data_view s.
Proof. unfold queue_global_update. dataframe. Qed.
#[local] Hint Rewrite data_view_queue_global_update : dataframe.

(** Reading a playlist through the view *)
Lemma data_view_get_data (s s' : State) (k : Z) :
  data_view s' = data_view s →
  with_scan_status NotScanning <$> get_data s' k
  = with_scan_status NotScanning <$> get_data s k.
Proof.
  intros Hview. apply (f_equal (λ m, m !! k)) in Hview.
  unfold data_view in Hview. rewrite !lookup_fmap in Hview.
  unfold get_data. destruct (id_table s' !! k), (id_table s !! k); cbn in *; congruence.
Qed.

Lemma data_view_fields (s s' : State) (k : Z) (d : PlaylistData) :
  data_view s' = data_view s → get_data s k = Some d →
  ∃ d', get_data s' k = Some d'
        ∧ title d' = title d ∧ filename d' = filename d ∧ modified d' = modified d
        ∧ resume_time d' = resume_time d ∧ m_entries d' = m_entries d
        ∧ m_position d' = m_position d ∧ m_focus d' = m_focus d
        ∧ m_next_update d' = m_next_update d ∧ m_last_update d' = m_last_update d.
Proof.
  intros Hview Hd. pose proof (data_view_get_data s s' k Hview) as Heq. rewrite Hd in Heq.
  destruct (get_data s' k) as [d'|]; [|done]. injection Heq as Heq.
  exists d'. by repeat split.
Qed.

Lemma same_content_refl (s : State) : same_content s s.
Proof. intros k d Hd. exists d. by repeat split. Qed.

Lemma same_content_trans (s1 s2 s3 : State) :
  same_content s1 s2 → same_content s2 s3 → same_content s1 s3.
Proof.
  intros H12 H23 k d Hd.
  destruct (H12 k d Hd) as (d2 & Hd2 & ? & ? & ? & ? & ? & ?).
  destruct (H23 k d2 Hd2) as (d3 & Hd3 & ? & ? & ? & ? & ? & ?).
  exists d3. repeat split; congruence.
Qed.

Lemma same_content_data_view (s s' : State) :
  data_view s' = data_view s → same_content s s'.
Proof.
  intros Hview k d Hd.
  destruct (data_view_fields s s' k d Hview Hd)
    as (d' & Hd' & ? & ? & ? & ? & ? & ? & ? & ? & ?).
  exists d'. by repeat split.
Qed.

Lemma same_content_get_data (s s' : State) :
  (∀ k, get_data s' k = get_data s k) → same_content s s'.
Proof. intros Heq k d Hd. exists d. rewrite Heq. by repeat split. Qed.

Lemma same_content_update_data (id : Z) (f : PlaylistData → PlaylistData) (s : State) :
  (∀ d, title (f d) = title d ∧ filename (f d) = filename d
        ∧ resume_time (f d) = resume_time d ∧ m_entries (f d) = m_entries d
        ∧ m_position (f d) = m_position d ∧ m_focus (f d) = m_focus d) →
  same_content s (update_data id f s).
Proof.
  intros Hf k d Hd. rewrite get_data_update_data, Hd.
  case_decide; [|exists d; by repeat split]. exists (f d). split; [done|]. apply Hf.
Qed.

Lemma same_content_queue_update (id : Z) (level : UpdateLevel) (at_ number flags : Z)
    (s : State) :
  same_content s (queue_update id level at_ number flags s).
Proof.
  unfold queue_update.
  set (f := λ d, with_m_next_update (merge_update (m_next_update d) level at_ number) d).
  apply (same_content_trans _ (update_data id f s)); [by apply same_content_update_data|].
  generalize (update_data id f s). intros s1. unfold pl_signal_update_queued.
  destruct (get_data s1 id) as [d1|]; [|apply same_content_refl].
  set (s2 := if level_eqb level Structure
             then update_data id (with_scan_status ScanActive) s1 else s1).
  apply (same_content_trans _ s2).
  { unfold s2. destruct (level_eqb level Structure);
      [by apply same_content_update_data|apply same_content_refl]. }
  clearbody s2.
  eapply same_content_trans; [|apply same_content_data_view, data_view_queue_global_update].
  destruct (level_num Metadata <=? level_num level); [|apply same_content_refl].
  set (s3 := if ptr_eqb (Some id) (playing_id s2) && (0 <=? position d1)
             then match entry_at d1 (position d1) with
                  | Some entry => emit (playback_set_info (position d1) (e_tuple entry)) s2
                  | None => s2
                  end
             else s2).
  apply (same_content_trans _ s3); [|by apply same_content_update_data].
  apply same_content_get_data. intros k. unfold s3. by repeat frame_step.
Qed.

(** The playlist that [insert_playlist_locked] adds is empty and has the
    default title; the playlists that were there are as they were. *)
Lemma insert_playlist_locked_content (at_ stamp_ : Z) (s : State) :
  same_content s (insert_playlist_locked at_ stamp_ s).2
  ∧ ∃ d, get_data (insert_playlist_locked at_ stamp_ s).2 (insert_playlist_locked at_ stamp_ s).1
         = Some d
         ∧ title d = Some default_title ∧ filename d = None ∧ m_entries d = []
         ∧ m_position d = -1.
Proof.
  unfold insert_playlist_locked. fold (insert_position at_ s).
  pose proof (create_playlist_spec stamp_ s) as Hcreate.
  destruct (create_playlist stamp_ s) as [id s1]. cbn [fst snd] in Hcreate.
  destruct Hcreate as (Hfree & Htable & _).
  set (s2 := with_playlists _ s1).
  set (s3 := number_playlists _ _ s2).
  set (s4 := match active_id s3 with Some _ => s3 | None => with_active_id (Some id) s3 end).
  cbn [fst snd].
  assert (∀ k, get_data s4 k
               = if decide (id = k) then Some (new_PlaylistData default_title)
                 else get_data s k) as Hdata.
  { intros k. transitivity (get_data s3 k); [unfold s4; by destruct (active_id s3)|].
    unfold s3. rewrite number_playlists_get_data.
    by rewrite (get_data_insert_table s s2 id _ k Htable). }
  pose proof (same_content_queue_update id Structure 0 0 0 s4) as Hqueue.
  split.
  - eapply same_content_trans; [|exact Hqueue].
    intros k d Hd. exists d. rewrite Hdata. split; [|by repeat split].
    case_decide; [|done]. subst. unfold get_data in Hd. by rewrite Hfree in Hd.
  - destruct (Hqueue id (new_PlaylistData default_title))
      as (d & Hd & Htitle & Hname & _ & Hentries & Hpos & _).
    { rewrite Hdata. by rewrite decide_True. }
    exists d. by repeat split.
Qed.

(** ** Blank and temporary playlists *)

Lemma insert_position_after (s : State) (i : nat) :
  (i < length (playlists s))%nat → insert_position (Z.of_nat i + 1) s = Z.of_nat (S i).
Proof.
  intros Hlt. unfold insert_position, len.
  destruct (Z.of_nat i + 1 <? 0) eqn:H1; [apply Z.ltb_lt in H1; lia|]. cbn [orb].
  destruct (Z.of_nat (length (playlists s)) <? Z.of_nat i + 1) eqn:H2;
    [apply Z.ltb_lt in H2|]; lia.
Qed.

(** What [get_blank_locked] returns and what it does to the Registry *)
Lemma get_blank_locked_spec (s : State) (active : Z) :
  registry_inv s → active_id s = Some active →
  ∃ r id d,
    get_blank_locked s = Some r
    ∧ r.1 = Some id
    ∧ get_data r.2 id = Some d
    ∧ title d = Some default_title ∧ n_entries d = 0
    ∧ active_id r.2 = Some active
    ∧ same_content s r.2
    ∧ (∀ p, p ∈ playlists r.2 ↔ p = id ∨ p ∈ playlists s)
    ∧ (∀ d0, get_data s active = Some d0 → title d0 = Some default_title →
         n_entries d0 = 0 → r = (Some active, s))
    ∧ (id = active ∧ r.2 = s
       ∨ id_table s !! id = None
         ∧ n_playlists r.2 = n_playlists s + 1
         ∧ Playlist_index (Some id) r.2 = (r.2, id_index s active + 1)).
Proof.
  intros Hinv Hactive.
  assert (∀ r, get_blank_locked s = Some r → registry_inv r.2) as Hinv'
    by (intros r Hr; by apply (get_blank_locked_inv s)).
  pose proof (inv_active _ Hinv) as Hin. rewrite Hactive in Hin.
  assert (is_Some (get_data s active)) as Hlive by (by apply (inv_live _ Hinv)).
  destruct (registry_inv_index_of s active Hinv Hlive) as (i & Hi & Hidx).
  destruct Hlive as [d0 Hd0]. apply lookup_lt_Some in Hi as Hlt.
  revert Hinv'. unfold get_blank_locked. rewrite Hactive, Hd0, Hidx.
  destruct (bool_decide (title d0 = Some default_title) && (n_entries d0 =? 0)) eqn:Hblank.
  - intros _. apply andb_true_iff in Hblank as [Htitle%bool_decide_eq_true Hempty%Z.eqb_eq].
    exists (Some active, s), active, d0. cbn [fst snd].
    split; [done|].
    split; [done|]. split; [done|]. split; [done|]. split; [done|]. split; [done|].
    split; [apply same_content_refl|]. split.
    { intros p. split; [by right|]. by intros [->|?]. }
    split; [done|]. by left.
  - destruct (insert_playlist_locked_result (Z.of_nat i + 1) (-1) s)
      as (_ & Hfree & Hpl & Hact & _).
    destruct (insert_playlist_locked_content (Z.of_nat i + 1) (-1) s)
      as (Hcontent & d & Hd & Htitle & _ & Hentries & _).
    rewrite (insert_position_after s i Hlt), Nat2Z.id in Hpl. rewrite Hactive in Hact.
    destruct (insert_playlist_locked (Z.of_nat i + 1) (-1) s) as [id s']. cbn [fst snd] in *.
    intros Hinv'. specialize (Hinv' _ eq_refl). cbn [snd] in Hinv'.
    exists (Some id, s'), id, d. cbn [fst snd].
    split; [done|]. split; [done|]. split; [done|]. split; [done|].
    split; [unfold n_entries; by rewrite Hentries|].
    split; [done|]. split; [done|]. split.
    { intros p. rewrite Hpl. apply elem_of_insert_middle. }
    split.
    { intros d1 [= <-] Htitle1 Hempty1.
      rewrite (bool_decide_eq_true_2 _ Htitle1), Hempty1 in Hblank. done. }
    right. split; [done|]. split.
    + unfold n_playlists, len. rewrite Hpl, length_app, length_take. cbn [length].
      rewrite length_drop. lia.
    + replace (Z.of_nat i + 1) with (Z.of_nat (S i)) by lia.
      apply (by_index_index_of s' Hinv'), lookup_by_index. rewrite Hpl.
      rewrite lookup_app_r by (rewrite length_take; lia).
      rewrite length_take. by replace (_ - _)%nat with 0%nat by lia.
Qed.



Lemma list_find_first_Some {A : Type} (P : A → bool) (l : list A) (x : A) :
  list_find_first P l = Some x → x ∈ l ∧ P x = true.
Proof.
  induction l as [|y l IH]; cbn [list_find_first]; [done|].
  destruct (P y) eqn:Hy.
  - intros [= <-]. split; [left|done].
  - intros [Hin Hx]%IH. split; [by right|done].
Qed.

Lemma list_find_first_only `{EqDecision A} (P : A → bool) (l : list A) (x : A) :
  x ∈ l → P x = true → (∀ y, y ∈ l → y ≠ x → P y = false) →
  list_find_first P l = Some x.
Proof.
  induction l as [|y l IH]; intros Hin Hx Hothers; [by apply elem_of_nil in Hin|].
  cbn [list_find_first]. destruct (P y) eqn:Hy.
  - f_equal. destruct (decide (y = x)) as [|Hne]; [done|].
    rewrite Hothers in Hy; [done|left|done].
  - apply elem_of_cons in Hin as [->|Hin]; [congruence|].
    apply IH; [done..|]. intros z Hz. apply Hothers. by right.
Qed.



(** ** The scan scheduler *)

Lemma scan_schedule_disabled (s : State) : scan_enabled s = false → scan_schedule s = s.
Proof.
  intros Hoff. unfold scan_schedule. destruct (scan_count_scheduled _ _) as [n|]; [|done].
  destruct (Z.to_nat _); cbn [scan_schedule_more]; unfold scan_queue_next_entry;
    by rewrite Hoff.
Qed.

Lemma scan_enabled_scan_queue_next_row fuel playlist s :
  scan_enabled (scan_queue_next_row fuel playlist s).1 = scan_enabled s.
Proof.
  revert s. induction fuel as [|fuel IH]; intros s; cbn [scan_queue_next_row];
    repeat frame_step; cbn [fst]; rewrite ?IH; done.
Qed.

Lemma scan_enabled_scan_check_complete playlist s :
  scan_enabled (scan_check_complete playlist s) = scan_enabled s.
Proof. unfold scan_check_complete. by repeat frame_step. Qed.

Lemma scan_enabled_scan_queue_next_playlist fuel s :
  scan_enabled (scan_queue_next_playlist fuel s).1 = scan_enabled s.
Proof.
  revert s. induction fuel as [|fuel IH]; intros s; cbn [scan_queue_next_playlist].
  all: repeat match goal with
       | |- context [scan_queue_next_row ?f ?p ?y] =>
           let E := fresh "E" in
           pose proof (scan_enabled_scan_queue_next_row f p y) as E;
           destruct (scan_queue_next_row f p y); cbn [fst] in E
       | _ => frame_step
       end; cbn [fst]; rewrite ?IH; cbn [scan_enabled with_scan_row with_scan_playlist];
    rewrite ?scan_enabled_scan_check_complete; first [done|congruence].
Qed.

Lemma scan_enabled_scan_queue_next_entry s :
  scan_enabled (scan_queue_next_entry s).1 = scan_enabled s.
Proof.
  unfold scan_queue_next_entry. destruct (scan_enabled s) eqn:Hs; [|done].
  cbn [negb]. by rewrite scan_enabled_scan_queue_next_playlist.
Qed.

Lemma scan_enabled_scan_schedule s : scan_enabled (scan_schedule s) = scan_enabled s.
Proof.
  unfold scan_schedule. destruct (scan_count_scheduled _ _) as [n|]; [|done].
  generalize (Z.to_nat (SCAN_THREADS - n)). intros fuel. revert n s.
  induction fuel as [|fuel IH]; intros n s; cbn [scan_schedule_more];
    pose proof (scan_enabled_scan_queue_next_entry s) as E;
    destruct (scan_queue_next_entry s) as [s' queued];
    cbn [fst] in E; repeat frame_step; rewrite ?IH; done.
Qed.

(** X10.  [playlist_enable_scan] turns the scanning of playlists on only
    when it is asked to and the option "metadata_on_play" is off.  When
    scanning stays off the call is inert: no request goes to the scanner,
    no scan item is made, no playlist changes, and a playlist that was in
    the middle of a scan still counts as being scanned. *)
Theorem playlist_enable_scan_off (enable : bool) (s : State) :
  scan_enabled (playlist_enable_scan enable s)
  = enable && negb (metadata_on_play (world s))
  ∧ (enable = false ∨ metadata_on_play (world s) = true →
     trace (playlist_enable_scan enable s) = trace s
     ∧ scan_list (playlist_enable_scan enable s) = scan_list s
     ∧ id_table (playlist_enable_scan enable s) = id_table s
     ∧ playlists (playlist_enable_scan enable s) = playlists s
     ∧ scan_in_progress_any (playlist_enable_scan enable s) = scan_in_progress_any s).
Proof.
  unfold playlist_enable_scan.
  set (s1 := with_scan_enabled _ (with_scan_enabled_nominal enable s)).
  assert (scan_enabled s1 = enable && negb (metadata_on_play (world s))) as Henabled by done.
  split.
  - rewrite <- Henabled. unfold scan_restart. by rewrite scan_enabled_scan_schedule.
  - intros Hoff. assert (scan_enabled s1 = false) as Hoff1.
    { rewrite Henabled. destruct Hoff as [-> | ->]; [done|]. by rewrite andb_false_r. }
    unfold scan_restart. rewrite scan_schedule_disabled by done. done.
Qed.

(** The option "metadata_on_play" is off in [playing_State]: scanning is
    turned on when asked for, and turning it off sends nothing to the
    scanner. *)
Lemma playlist_enable_scan_off_witness :
  scan_enabled (playlist_enable_scan true playing_State) = true
  ∧ trace (playlist_enable_scan false playing_State) = trace playing_State.
Proof.
  destruct (playlist_enable_scan_off true playing_State) as [-> _].
  destruct (playlist_enable_scan_off false playing_State) as [_ Hoff].
  split; [vm_compute; reflexivity|]. by destruct Hoff as [-> _]; [left|].
Defined.

(** *** The search for the next entry to scan *)

Lemma first_unscanned_Initial (es : list PlaylistEntry) (row r : Z) :
  first_unscanned es row = r → 0 ≤ row → 0 ≤ r →
  row ≤ r ∧ ∃ e, es !! Z.to_nat (r - row) = Some e ∧ tuple_state (e_tuple e) = Initial.
Proof.
  revert row. induction es as [|e es IH]; intros row; cbn [first_unscanned]; [lia|].
  destruct (tuple_state (e_tuple e)) eqn:He.
  - intros <- Hrow _. split; [lia|]. exists e. by rewrite Z.sub_diag.
  - intros Hr Hrow Hpos. destruct (IH (row + 1) Hr) as (Hle & e' & He' & Hinit); [lia..|].
    split; [lia|]. exists e'. split; [|done].
    replace (Z.to_nat (r - row)) with (S (Z.to_nat (r - (row + 1)))) by lia. done.
  - intros Hr Hrow Hpos. destruct (IH (row + 1) Hr) as (Hle & e' & He' & Hinit); [lia..|].
    split; [lia|]. exists e'. split; [|done].
    replace (Z.to_nat (r - row)) with (S (Z.to_nat (r - (row + 1)))) by lia. done.
Qed.

Lemma next_unscanned_entry_Initial (d : PlaylistData) (row : Z) (e : PlaylistEntry) :
  0 ≤ next_unscanned_entry d row →
  entry_at d (next_unscanned_entry d row) = Some e →
  tuple_state (e_tuple e) = Initial ∧ row ≤ next_unscanned_entry d row.
Proof.
  unfold next_unscanned_entry, entry_at, index_get.
  destruct (row <? 0) eqn:Hrow; [lia|]. apply Z.ltb_ge in Hrow.
  set (r := first_unscanned _ row). intros Hr.
  destruct (first_unscanned_Initial (drop (Z.to_nat row) (m_entries d)) row r eq_refl Hrow Hr)
    as (Hle & e' & He' & Hinit).
  destruct (r <? 0) eqn:Hneg; [apply Z.ltb_lt in Hneg; lia|].
  rewrite lookup_drop in He'. replace (Z.to_nat row + Z.to_nat (r - row))%nat with (Z.to_nat r)
    in He' by lia.
  intros He. split; [congruence|done].
Qed.

Lemma index_get_elem {A : Type} (l : list A) (i : Z) (x : A) : index_get l i = Some x → x ∈ l.
Proof. intros [_ Hx]%index_get_Some. by eapply list_elem_of_lookup_2. Qed.

(** The loop over the rows of a playlist: it stops at a candidate, which
    it queues, or it only moves the cursor. *)
Lemma scan_queue_next_row_spec (fuel : nat) (p : Z) (s : State) :
  if (scan_queue_next_row fuel p s).2
  then ∃ entry row,
         scan_candidate s p entry
         ∧ (scan_queue_next_row fuel p s).1
           = scan_queue_entry p entry false (with_scan_row row s)
  else (scan_queue_next_row fuel p s).1 = s
       ∨ ∃ row, (scan_queue_next_row fuel p s).1 = with_scan_row row s.
Proof.
  revert s. induction fuel as [|fuel IH]; intros s; cbn [scan_queue_next_row].
  all: destruct (get_data s p) as [d|] eqn:Hd; [|by left].
  all: cbn [scan_row with_scan_row].
  all: destruct (next_unscanned_entry d (scan_row s) <? 0) eqn:Hrow; [right; by eexists|].
  all: apply Z.ltb_ge in Hrow.
  all: destruct (entry_at d (next_unscanned_entry d (scan_row s))) as [entry|] eqn:Hentry;
    [|right; by eexists].
  all: destruct (next_unscanned_entry_Initial d (scan_row s) entry Hrow Hentry) as [Hinit _].
  all: destruct (negb (bool_decide (is_Some (scan_list_find_entry (e_addr entry)
                                             (with_scan_row _ s))))
                 && negb (String.prefix "stdin://" (e_filename entry))) eqn:Hcand;
    cbn [fst snd].
  1,3: apply andb_true_iff in Hcand as [Hfree%negb_true_iff%bool_decide_eq_false
                                         Hfile%negb_true_iff];
    exists entry, (next_unscanned_entry d (scan_row s)); split; [|done];
    split; [exists d; split; [done|by eapply index_get_elem]|];
    split; [done|]; split; [done|]; by apply eq_None_not_Some.
  - right. by eexists.
  - specialize (IH (with_scan_row (next_unscanned_entry d (scan_row s) + 1)
                      (with_scan_row (next_unscanned_entry d (scan_row s)) s))).
    destruct (scan_queue_next_row fuel p _) as [s' found]. cbn [fst snd] in *.
    destruct found.
    + destruct IH as (entry' & row & Hcand' & ->). exists entry', row. split; [exact Hcand'|done].
    + right. destruct IH as [->|[row ->]]; by eexists.
Qed.

Lemma scan_walked_refl (s : State) : scan_walked s s.
Proof. repeat split. exists []. by rewrite app_nil_r. Qed.

Lemma scan_walked_trans (s1 s2 s3 : State) :
  scan_walked s1 s2 → scan_walked s2 s3 → scan_walked s1 s3.
Proof.
  intros (Hl & Hn & He & Hd & Hr & evs & Ht & Hevs)
         (Hl' & Hn' & He' & Hd' & Hr' & evs' & Ht' & Hevs').
  repeat split; [congruence..|].
  exists (evs ++ evs'). split; [by rewrite Ht', Ht, app_assoc|by apply Forall_app].
Qed.

Lemma scan_walked_scan_row (row : Z) (s : State) : scan_walked s (with_scan_row row s).
Proof. repeat split. exists []. by rewrite app_nil_r. Qed.

Lemma scan_walked_scan_playlist (n : Z) (s : State) : scan_walked s (with_scan_playlist n s).
Proof. repeat split. exists []. by rewrite app_nil_r. Qed.

Lemma scan_walked_scan_status (p : Z) (v : ScanStatus) (s : State) :
  scan_walked s (update_data p (with_scan_status v) s).
Proof.
  repeat split; [apply data_view_scan_status|apply reg_view_update_data|].
  exists []. by rewrite app_nil_r.
Qed.

Lemma scan_walked_scan_check_complete (p : Z) (s : State) :
  scan_walked s (scan_check_complete p s).
Proof.
  split; [|split; [|split; [|split; [|split]]]].
  1-3: unfold scan_check_complete; by repeat frame_step.
  - apply data_view_scan_check_complete.
  - apply reg_view_scan_check_complete.
  - unfold scan_check_complete. repeat frame_step;
      try (exists []; by rewrite app_nil_r);
      (exists [event_queue_cancel "playlist scan complete";
               event_queue "playlist scan complete"]);
      (split; [unfold emit; cbn; by rewrite <- app_assoc|]);
      repeat constructor; first [by left|by right].
Qed.

Lemma scan_candidate_walked (s s1 : State) (p : Z) (entry : PlaylistEntry) :
  scan_walked s s1 → scan_candidate s1 p entry → scan_candidate s p entry.
Proof.
  intros (Hlist & _ & _ & Hdata & _) ((d1 & Hd1 & Hin) & Hinit & Hfile & Hfree).
  split; [|split; [done|split; [done|]]].
  - destruct (data_view_fields s1 s p d1 (eq_sym Hdata) Hd1)
      as (d & Hd & _ & _ & _ & _ & Hentries & _).
    exists d. split; [done|]. by rewrite Hentries.
  - unfold scan_list_find_entry in *. by rewrite <- Hlist.
Qed.

(** The loop over the playlists: it stops at a candidate, which it queues
    in the state its walk led to, or it only walks. *)
Lemma scan_queue_next_playlist_spec (fuel : nat) (s : State) :
  if (scan_queue_next_playlist fuel s).2
  then ∃ s1 p entry,
         scan_walked s s1 ∧ p ∈ playlists s ∧ scan_candidate s1 p entry
         ∧ (scan_queue_next_playlist fuel s).1 = scan_queue_entry p entry false s1
  else scan_walked s (scan_queue_next_playlist fuel s).1.
Proof.
  revert s. induction fuel as [|fuel IH]; intros s; cbn [scan_queue_next_playlist].
  all: destruct (scan_playlist s <? len (playlists s)); [|apply scan_walked_refl].
  all: destruct (index_get (playlists s) (scan_playlist s)) as [p|] eqn:Hp;
    [|apply scan_walked_refl].
  all: apply index_get_elem in Hp.
  all: set (turn := match get_data s p with
                    | Some d =>
                        if status_eqb (scan_status d) ScanActive
                        then let '(s0, found) := scan_queue_next_row (length (m_entries d)) p s in
                             if found then (s0, true)
                             else (scan_check_complete p
                                     (update_data p (with_scan_status ScanEnding) s0), false)
                        else (s, false)
                    | None => (s, false)
                    end).
  all: assert (if turn.2
               then ∃ entry row, scan_candidate s p entry
                                 ∧ turn.1 = scan_queue_entry p entry false (with_scan_row row s)
               else scan_walked s turn.1) as Hturn.
  1,3: unfold turn; destruct (get_data s p) as [d|]; [|apply scan_walked_refl];
    destruct (status_eqb (scan_status d) ScanActive); [|apply scan_walked_refl];
    pose proof (scan_queue_next_row_spec (length (m_entries d)) p s) as Hrow;
    destruct (scan_queue_next_row (length (m_entries d)) p s) as [s0 found];
    cbn [fst snd] in *; destruct found; [exact Hrow|];
    eapply scan_walked_trans; [|apply scan_walked_scan_check_complete];
    eapply scan_walked_trans; [|apply scan_walked_scan_status];
    destruct Hrow as [->|[row ->]]; [apply scan_walked_refl|apply scan_walked_scan_row].
  all: destruct turn as [s' found]; cbn [fst snd] in Hturn; destruct found; cbn [fst snd].
  1,3: destruct Hturn as (entry & row & Hcand & ->);
    exists (with_scan_row row s), p, entry;
    split; [apply scan_walked_scan_row|]; split; [done|]; split; [exact Hcand|done].
  - eapply scan_walked_trans; [exact Hturn|].
    eapply scan_walked_trans; [apply scan_walked_scan_playlist|apply scan_walked_scan_row].
  - assert (scan_walked s (with_scan_row 0 (with_scan_playlist (scan_playlist s' + 1) s')))
      as Hwalk.
    { eapply scan_walked_trans; [exact Hturn|].
      eapply scan_walked_trans; [apply scan_walked_scan_playlist|apply scan_walked_scan_row]. }
    specialize (IH (with_scan_row 0 (with_scan_playlist (scan_playlist s' + 1) s'))).
    destruct (scan_queue_next_playlist fuel _) as [s2 found]. cbn [fst snd] in *.
    destruct found.
    + destruct IH as (s1 & p' & entry & Hwalk' & Hp' & Hcand & ->).
      exists s1, p', entry. split; [by eapply scan_walked_trans|].
      split; [|done]. destruct Hwalk as (_ & _ & _ & _ & Hview & _).
      by rewrite <- (playlists_of_view _ _ Hview).
    + by eapply scan_walked_trans.
Qed.

(** What [scan_queue_next_entry] does, whether it finds an entry or not *)
Lemma scan_queue_next_entry_spec (s : State) :
  if (scan_queue_next_entry s).2
  then ∃ p entry request evs,
         scan_enabled s = true
         ∧ p ∈ playlists s
         ∧ scan_candidate s p entry
         ∧ scan_list (scan_queue_next_entry s).1
           = scan_list s ++ [ {| item_playlist := p; item_entry := e_addr entry;
                                 item_request := request; for_playback := false;
                                 handled_by_playback := false |} ]
         ∧ req_addr request = next_request s
         ∧ req_filename request = e_filename entry
         ∧ req_flags request = SCAN_TUPLE
         ∧ req_decoder request = e_decoder entry
         ∧ trace (scan_queue_next_entry s).1 = trace s ++ evs ++ [scanner_request request]
         ∧ Forall scan_complete_event evs
  else scan_walked s (scan_queue_next_entry s).1.
Proof.
  unfold scan_queue_next_entry. destruct (scan_enabled s) eqn:Henabled; cbn [negb];
    [|apply scan_walked_refl].
  pose proof (scan_queue_next_playlist_spec (length (playlists s)) s) as Hspec.
  destruct (scan_queue_next_playlist (length (playlists s)) s) as [s' found].
  cbn [fst snd] in *. destruct found; [|done].
  destruct Hspec as (s1 & p & entry & Hwalk & Hp & Hcand & ->).
  pose proof (scan_candidate_walked s s1 p entry Hwalk Hcand) as Hcand'.
  destruct Hwalk as (Hlist & Hnext & _ & _ & _ & evs & Htrace & Hevs).
  destruct Hcand as (_ & Hinit & _).
  unfold scan_queue_entry, tuple_valid. rewrite Hinit. cbn [negb].
  eexists p, entry, _, evs. split; [done|]. split; [done|]. split; [done|].
  cbn [scan_list with_scan_list with_next_request emit with_trace trace]. rewrite Hlist.
  split; [reflexivity|]. cbn [req_addr req_filename req_flags req_decoder].
  repeat split; [done..| |done]. by rewrite Htrace, <- app_assoc.
Qed.

(** X11.  When [scan_queue_next_entry] queues an entry, the entry is one
    of a playlist of the Registry that was never scanned, is not a
    "stdin://" entry and has no scan in flight; exactly one scan item is
    added, last in the scan list, not marked for playback, and its request
    (for the file of the entry, asking for the tuple) is sent to the
    scanner as the last external call.  When it queues nothing (scanning
    is disabled, or there is no such entry from the cursor on), the scan
    list and the data of the playlists but for their scan status stay as
    they are and nothing is sent to the scanner. *)
Theorem scan_queue_next_entry_candidate (s : State) :
  if (scan_queue_next_entry s).2
  then ∃ p entry request evs,
         scan_enabled s = true
         ∧ p ∈ playlists s
         ∧ scan_candidate s p entry
         ∧ scan_list (scan_queue_next_entry s).1
           = scan_list s ++ [ {| item_playlist := p; item_entry := e_addr entry;
                                 item_request := request; for_playback := false;
                                 handled_by_playback := false |} ]
         ∧ req_addr request = next_request s
         ∧ req_filename request = e_filename entry
         ∧ req_flags request = SCAN_TUPLE
         ∧ req_decoder request = e_decoder entry
         ∧ trace (scan_queue_next_entry s).1 = trace s ++ evs ++ [scanner_request request]
         ∧ Forall scan_complete_event evs
  else scan_walked s (scan_queue_next_entry s).1.
Proof. apply scan_queue_next_entry_spec. Qed.

(** *** The bound on the scans in flight *)

Lemma scan_count_scheduled_spec (items : list ScanItem) (n : Z) :
  n < SCAN_THREADS →
  match scan_count_scheduled items n with
  | Some m => m = n + len items ∧ m < SCAN_THREADS
  | None => SCAN_THREADS ≤ n + len items
  end.
Proof.
  revert n. induction items as [|item items IH]; intros n Hn; cbn [scan_count_scheduled].
  - unfold len. cbn [length]. lia.
  - destruct (SCAN_THREADS <=? n + 1) eqn:Hfull.
    + apply Z.leb_le in Hfull. unfold len. cbn [length]. lia.
    + apply Z.leb_gt in Hfull. specialize (IH (n + 1) Hfull).
      destruct (scan_count_scheduled items (n + 1)); unfold len in *; cbn [length]; lia.
Qed.

Lemma scan_queue_next_entry_list (s : State) :
  ∃ new, scan_list (scan_queue_next_entry s).1 = scan_list s ++ new
         ∧ len new = (if (scan_queue_next_entry s).2 then 1 else 0)
         ∧ Forall (λ item, for_playback item = false) new.
Proof.
  pose proof (scan_queue_next_entry_spec s) as Hspec.
  destruct (scan_queue_next_entry s) as [s' found]. cbn [fst snd] in *. destruct found.
  - destruct Hspec as (p & entry & request & evs & _ & _ & _ & -> & _).
    eexists. split; [done|]. split; [done|]. by repeat constructor.
  - destruct Hspec as (-> & _). exists []. by rewrite app_nil_r.
Qed.

Lemma scan_schedule_more_list (fuel : nat) (scheduled : Z) (s : State) :
  scheduled < SCAN_THREADS →
  ∃ new, scan_list (scan_schedule_more fuel scheduled s) = scan_list s ++ new
         ∧ len new ≤ SCAN_THREADS - scheduled
         ∧ Forall (λ item, for_playback item = false) new.
Proof.
  revert scheduled s. induction fuel as [|fuel IH]; intros scheduled s Hn;
    cbn [scan_schedule_more].
  all: destruct (scan_queue_next_entry_list s) as (new & Hnew & Hlen & Hfor).
  all: destruct (scan_queue_next_entry s) as [s' queued]; cbn [fst snd] in *.
  all: destruct queued; [|exists new; split; [done|]; split; [lia|done]].
  all: destruct (SCAN_THREADS <=? scheduled + 1) eqn:Hfull;
    [exists new; split; [done|]; split; [lia|done]|].
  - exists new. split; [done|]. split; [lia|done].
  - apply Z.leb_gt in Hfull. destruct (IH (scheduled + 1) s' Hfull) as (new' & -> & Hlen' & Hfor').
    exists (new ++ new'). rewrite Hnew, <- app_assoc. split; [done|].
    split; [|by apply Forall_app]. unfold len in *. rewrite length_app. lia.
Qed.

(** X12.  [scan_schedule] only adds scan items, at the end of the scan
    list and none of them marked for playback, and it never brings the
    number of scans in flight over [SCAN_THREADS]: with [SCAN_THREADS]
    scans or more in flight already it does nothing at all. *)
Theorem scan_schedule_bounded (s : State) :
  (∃ new, scan_list (scan_schedule s) = scan_list s ++ new
          ∧ Forall (λ item, for_playback item = false) new)
  ∧ len (scan_list (scan_schedule s)) ≤ Z.max (len (scan_list s)) SCAN_THREADS
  ∧ (SCAN_THREADS ≤ len (scan_list s) → scan_schedule s = s).
Proof.
  unfold scan_schedule.
  pose proof (scan_count_scheduled_spec (scan_list s) 0 ltac:(done)) as Hcount.
  destruct (scan_count_scheduled (scan_list s) 0) as [n|].
  - destruct Hcount as [-> Hlt].
    destruct (scan_schedule_more_list (Z.to_nat (SCAN_THREADS - (0 + len (scan_list s))))
                (0 + len (scan_list s)) s Hlt) as (new & -> & Hlen & Hfor).
    split; [by exists new|]. split; [|lia].
    unfold len in *. rewrite length_app. lia.
  - split; [exists []; by rewrite app_nil_r|]. split; [lia|done].
Qed.

(** The first song of the playlist 1000 is a candidate. *)
Lemma scan_queue_next_entry_candidate_witness :
  ∃ p entry, scan_candidate unscanned_State p entry.
Proof.
  pose proof (scan_queue_next_entry_candidate unscanned_State) as Hspec.
  assert ((scan_queue_next_entry unscanned_State).2 = true) as Hfound
    by (vm_compute; reflexivity).
  rewrite Hfound in Hspec. destruct Hspec as (p & entry & _ & _ & _ & _ & Hcand & _).
  exists p, entry. exact Hcand.
Defined.

(** The two songs of the playlist 1000 are sent to the scanner, no
    more. *)
Lemma scan_schedule_bounded_witness :
  len (scan_list (scan_schedule unscanned_State)) ≤ SCAN_THREADS.
Proof.
  destruct (scan_schedule_bounded unscanned_State) as (_ & Hbound & _).
  assert (len (scan_list unscanned_State) = 0) as Hnone by (vm_compute; reflexivity).
  rewrite Hnone in Hbound. exact Hbound.
Defined.

(** *** The scheduler comes to rest *)

Lemma calmer_refl (s : State) : calmer s s.
Proof. split; [done|]. intros p d Hd Hactive. by exists d. Qed.

Lemma calmer_trans (s1 s2 s3 : State) : calmer s1 s2 → calmer s2 s3 → calmer s1 s3.
Proof.
  intros [Hpl Hcalm] [Hpl' Hcalm']. split; [congruence|].
  intros p d3 Hd3 Hactive. destruct (Hcalm' p d3 Hd3 Hactive) as (d2 & Hd2 & Hactive2).
  by apply (Hcalm p d2).
Qed.

Lemma calmer_get_data (s s' : State) :
  playlists s' = playlists s → (∀ k, get_data s' k = get_data s k) → calmer s s'.
Proof. intros Hpl Hdata. split; [done|]. intros p d Hd Hactive. exists d. by rewrite <- Hdata. Qed.

Lemma calmer_scan_status (p : Z) (v : ScanStatus) (s : State) :
  v ≠ ScanActive → calmer s (update_data p (with_scan_status v) s).
Proof.
  intros Hv. split; [done|]. intros k d'. rewrite get_data_update_data.
  case_decide; [|by exists d'].
  destruct (get_data s k); [|done]. intros [= <-]. done.
Qed.

Lemma calmer_scan_check_complete (p : Z) (s : State) : calmer s (scan_check_complete p s).
Proof.
  unfold scan_check_complete. destruct (get_data s p); [|apply calmer_refl].
  destruct (_ || _); [apply calmer_refl|].
  eapply calmer_trans; [by apply (calmer_scan_status p NotScanning)|].
  apply calmer_get_data; by repeat frame_step.
Qed.

Lemma calmer_scan_queue_entry (p : Z) (entry : PlaylistEntry) (for_pb : bool) (s : State) :
  calmer s (scan_queue_entry p entry for_pb s).
Proof. apply calmer_get_data; unfold scan_queue_entry; by repeat frame_step. Qed.

(** One turn of the loop over the playlists leaves the playlist under
    the cursor without a scan to wait for, unless it queued one of its
    entries. *)
Lemma scan_queue_next_playlist_settles (fuel : nat) (s : State) :
  0 ≤ scan_playlist s → settled_below s →
  len (playlists s) - scan_playlist s ≤ Z.of_nat fuel →
  calmer s (scan_queue_next_playlist fuel s).1
  ∧ 0 ≤ scan_playlist (scan_queue_next_playlist fuel s).1
  ∧ settled_below (scan_queue_next_playlist fuel s).1
  ∧ ((scan_queue_next_playlist fuel s).2 = false →
     len (playlists s) ≤ scan_playlist (scan_queue_next_playlist fuel s).1).
Proof.
  revert s. induction fuel as [|fuel IH]; intros s Hpos Hsettled Hfuel;
    cbn [scan_queue_next_playlist].
  all: destruct (scan_playlist s <? len (playlists s)) eqn:Hin;
    [apply Z.ltb_lt in Hin
    |apply Z.ltb_ge in Hin; cbn [fst snd]; split; [apply calmer_refl|]; by repeat split].
  1: lia.
  destruct (index_get (playlists s) (scan_playlist s)) as [p|] eqn:Hp.
  2:{ destruct (index_get_elem_of (playlists s) (scan_playlist s)) as (x & Hx & _);
        [lia|congruence]. }
  apply index_get_Some in Hp as [_ Hp].
  set (turn := match get_data s p with
               | Some d =>
                   if status_eqb (scan_status d) ScanActive
                   then let '(s0, found) := scan_queue_next_row (length (m_entries d)) p s in
                        if found then (s0, true)
                        else (scan_check_complete p
                                (update_data p (with_scan_status ScanEnding) s0), false)
                   else (s, false)
               | None => (s, false)
               end).
  assert (calmer s turn.1 ∧ scan_playlist turn.1 = scan_playlist s
          ∧ (turn.2 = false →
             ∀ d', get_data turn.1 p = Some d' → scan_status d' ≠ ScanActive)) as Hturn.
  { unfold turn. destruct (get_data s p) as [d|] eqn:Hd.
    2:{ split; [apply calmer_refl|]. split; [done|]. cbn [fst]. intros _ d'. by rewrite Hd. }
    destruct (status_eqb (scan_status d) ScanActive) eqn:Hstatus.
    2:{ split; [apply calmer_refl|]. split; [done|]. cbn [fst]. intros _ d'. rewrite Hd.
        intros [= <-]. by destruct (scan_status d). }
    pose proof (scan_queue_next_row_spec (length (m_entries d)) p s) as Hrow.
    destruct (scan_queue_next_row (length (m_entries d)) p s) as [s0 found].
    cbn [fst snd] in *. destruct found; cbn [fst snd].
    - destruct Hrow as (entry & row & _ & ->).
      split; [|split; [by unfold scan_queue_entry; repeat frame_step|done]].
      eapply calmer_trans; [|apply calmer_scan_queue_entry]. by apply calmer_get_data.
    - assert (calmer s s0 ∧ scan_playlist s0 = scan_playlist s
              ∧ get_data s0 p = get_data s p) as (Hcalm0 & Hcur0 & Hd0).
      { destruct Hrow as [->|[row ->]]; (split; [by apply calmer_get_data|done]). }
      split; [|split].
      + eapply calmer_trans; [exact Hcalm0|].
        eapply calmer_trans; [by apply (calmer_scan_status p ScanEnding)|].
        apply calmer_scan_check_complete.
      + rewrite <- Hcur0. unfold scan_check_complete. by repeat frame_step.
      + intros _ d' Hd' Hactive.
        destruct (calmer_scan_check_complete p
                    (update_data p (with_scan_status ScanEnding) s0)) as [_ Hcalm].
        destruct (Hcalm p d' Hd' Hactive) as (d1 & Hd1 & Hactive1).
        rewrite get_data_update_data, decide_True, Hd0, Hd in Hd1 by done.
        injection Hd1 as <-. done. }
  destruct turn as [s' found]. cbn [fst snd] in Hturn.
  destruct Hturn as (Hcalm & Hcursor & Hdone). destruct found; cbn [fst snd].
  - split; [done|]. split; [lia|]. split; [|done].
    intros i q d Hi Hlt Hd Hactive. destruct Hcalm as [Hpl Hcalm].
    destruct (Hcalm q d Hd Hactive) as (d0 & Hd0 & Hactive0).
    rewrite Hpl in Hi. rewrite Hcursor in Hlt. by apply (Hsettled i q d0).
  - set (s3 := with_scan_row 0 (with_scan_playlist (scan_playlist s' + 1) s')).
    assert (calmer s s3) as Hcalm3.
    { eapply calmer_trans; [exact Hcalm|]. by apply calmer_get_data. }
    assert (settled_below s3) as Hsettled3.
    { intros i q d Hi Hlt Hd Hactive. destruct Hcalm as [Hpl Hcalm].
      change (playlists s3) with (playlists s') in Hi. rewrite Hpl in Hi.
      change (scan_playlist s3) with (scan_playlist s' + 1) in Hlt. rewrite Hcursor in Hlt.
      change (get_data s3 q) with (get_data s' q) in Hd.
      destruct (decide (Z.of_nat i = scan_playlist s)) as [Heq|Hne].
      - rewrite <- Heq, Nat2Z.id in Hp. rewrite Hp in Hi. injection Hi as <-.
        by apply (Hdone eq_refl d).
      - destruct (Hcalm q d Hd Hactive) as (d0 & Hd0 & Hactive0).
        apply (Hsettled i q d0); [done|lia|done..]. }
    destruct (IH s3) as (Hcalm' & Hpos' & Hsettled' & Hend');
      [cbn; lia|done| |].
    { destruct Hcalm3 as [-> _]. change (scan_playlist s3) with (scan_playlist s' + 1). lia. }
    split; [by eapply calmer_trans|]. split; [done|]. split; [done|].
    intros Hnone. destruct Hcalm3 as [Hpl3 _]. rewrite <- Hpl3. by apply Hend'.
Qed.

Lemma scan_queue_next_entry_settles (s : State) :
  scan_enabled s = true → 0 ≤ scan_playlist s → settled_below s →
  calmer s (scan_queue_next_entry s).1
  ∧ 0 ≤ scan_playlist (scan_queue_next_entry s).1
  ∧ settled_below (scan_queue_next_entry s).1
  ∧ ((scan_queue_next_entry s).2 = false →
     len (playlists s) ≤ scan_playlist (scan_queue_next_entry s).1).
Proof.
  intros Henabled Hpos Hsettled. unfold scan_queue_next_entry. rewrite Henabled. cbn [negb].
  apply scan_queue_next_playlist_settles; [done..|]. unfold len. lia.
Qed.

Lemma scan_schedule_more_settles (fuel : nat) (scheduled : Z) (s : State) :
  scan_enabled s = true → 0 ≤ scan_playlist s → settled_below s →
  scheduled = len (scan_list s) → scheduled < SCAN_THREADS →
  SCAN_THREADS - scheduled ≤ Z.of_nat fuel →
  SCAN_THREADS ≤ len (scan_list (scan_schedule_more fuel scheduled s))
  ∨ (settled_below (scan_schedule_more fuel scheduled s)
     ∧ len (playlists (scan_schedule_more fuel scheduled s))
       ≤ scan_playlist (scan_schedule_more fuel scheduled s)).
Proof.
  revert scheduled s.
  induction fuel as [|fuel IH]; intros scheduled s Henabled Hpos Hsettled Hcount Hlt Hfuel;
    cbn [scan_schedule_more].
  all: destruct (scan_queue_next_entry_settles s Henabled Hpos Hsettled)
    as ([Hpl _] & Hpos' & Hsettled' & Hend).
  all: destruct (scan_queue_next_entry_list s) as (new & Hnew & Hlen & _).
  all: pose proof (scan_enabled_scan_queue_next_entry s) as Henabled'.
  all: destruct (scan_queue_next_entry s) as [s1 queued]; cbn [fst snd] in *.
  all: destruct queued; [|right; split; [done|]; rewrite Hpl; by apply Hend].
  all: assert (len (scan_list s1) = scheduled + 1) as Hcount'
    by (rewrite Hnew; unfold len in *; rewrite length_app; lia).
  all: destruct (SCAN_THREADS <=? scheduled + 1) eqn:Hfull;
    [apply Z.leb_le in Hfull; left; lia|apply Z.leb_gt in Hfull].
  - lia.
  - apply IH; [congruence|done..|lia].
Qed.

Lemma scan_schedule_settles (s0 : State) :
  scan_enabled s0 = true → scan_playlist s0 = 0 →
  SCAN_THREADS ≤ len (scan_list (scan_schedule s0))
  ∨ ∀ p d, p ∈ playlists s0 → get_data (scan_schedule s0) p = Some d →
      scan_status d ≠ ScanActive.
Proof.
  intros Henabled Hcursor.
  assert (playlists (scan_schedule s0) = playlists s0) as Hpl
    by apply playlists_of_view, reg_view_scan_schedule.
  revert Hpl. unfold scan_schedule.
  pose proof (scan_count_scheduled_spec (scan_list s0) 0 ltac:(done)) as Hcount.
  destruct (scan_count_scheduled (scan_list s0) 0) as [n|]; [|intros _; left; lia].
  destruct Hcount as [-> Hlt].
  assert (settled_below s0) as Hsettled0.
  { intros i p d _ Hi. rewrite Hcursor in Hi. lia. }
  assert (0 ≤ scan_playlist s0) as Hpos by (rewrite Hcursor; lia).
  assert (0 + len (scan_list s0) = len (scan_list s0)) as Hzero by lia.
  assert (SCAN_THREADS - (0 + len (scan_list s0))
          ≤ Z.of_nat (Z.to_nat (SCAN_THREADS - (0 + len (scan_list s0))))) as Hfuel by lia.
  destruct (scan_schedule_more_settles _ (0 + len (scan_list s0)) s0 Henabled
              Hpos Hsettled0 Hzero Hlt Hfuel) as [Hfull|[Hsettled Hend]];
    [intros _; by left|].
  revert Hsettled Hend.
  generalize (scan_schedule_more (Z.to_nat (SCAN_THREADS - (0 + len (scan_list s0))))
              (0 + len (scan_list s0)) s0).
  intros s' Hsettled Hend Hpl. right. intros p d Hp Hd. rewrite <- Hpl in Hp.
  apply list_elem_of_lookup in Hp as [i Hi]. apply (Hsettled i p d Hi); [|done].
  apply lookup_lt_Some in Hi. unfold len in Hend. lia.
Qed.

(** *** The walk over the entries *)

Lemma scan_settled_grows (s s' : State) (new : list ScanItem) (e : PlaylistEntry) :
  scan_list s' = scan_list s ++ new → scan_settled s e → scan_settled s' e.
Proof.
  intros Hnew Hsettled Hinit Hstdin. destruct (Hsettled Hinit Hstdin) as [item Hitem].
  unfold scan_list_find_entry in *. rewrite Hnew. clear Hnew.
  induction (scan_list s) as [|x l IH]; cbn [list_find_first app] in *; [done|].
  destruct (item_entry x =? e_addr e); [by eexists|by apply IH].
Qed.

Lemma scan_settled_queued (p : Z) (e : PlaylistEntry) (for_pb : bool) (s : State) :
  scan_settled (scan_queue_entry p e for_pb s) e.
Proof.
  intros _ _. unfold scan_list_find_entry.
  assert (∃ item, scan_list (scan_queue_entry p e for_pb s) = scan_list s ++ [item]
                  ∧ item_entry item = e_addr e) as (item & -> & Hitem)
    by (unfold scan_queue_entry; destruct for_pb; cbn; eauto).
  induction (scan_list s) as [|x l IH]; cbn [list_find_first app].
  - rewrite Hitem, Z.eqb_refl. by eexists.
  - destruct (item_entry x =? e_addr e); [by eexists|done].
Qed.

Lemma first_unscanned_skips (es : list PlaylistEntry) (row r : Z) :
  first_unscanned es row = r → 0 ≤ row →
  ∀ (j : nat) e, es !! j = Some e → r < 0 ∨ row + Z.of_nat j < r →
    tuple_state (e_tuple e) ≠ Initial.
Proof.
  revert row. induction es as [|e0 es IH]; intros row; cbn [first_unscanned]; [done|].
  destruct (tuple_state (e_tuple e0)) eqn:He0.
  - intros <- Hrow j e _ Hj. lia.
  - intros Hr Hrow [|j] e; cbn [lookup list_lookup].
    + intros [= <-] _. by rewrite He0.
    + intros He Hj. apply (IH (row + 1) Hr ltac:(lia) j e He). lia.
  - intros Hr Hrow [|j] e; cbn [lookup list_lookup].
    + intros [= <-] _. by rewrite He0.
    + intros He Hj. apply (IH (row + 1) Hr ltac:(lia) j e He). lia.
Qed.

(** [next_unscanned_entry] skips only entries whose tuple was read, and
    stops at an entry whose tuple was not. *)
Lemma next_unscanned_entry_skips (d : PlaylistData) (row : Z) :
  0 ≤ row →
  (next_unscanned_entry d row < 0
   ∨ row ≤ next_unscanned_entry d row
     ∧ ∃ e, entry_at d (next_unscanned_entry d row) = Some e
            ∧ tuple_state (e_tuple e) = Initial)
  ∧ ∀ i e, row ≤ i → next_unscanned_entry d row < 0 ∨ i < next_unscanned_entry d row →
      entry_at d i = Some e → tuple_state (e_tuple e) ≠ Initial.
Proof.
  intros Hrow. unfold next_unscanned_entry.
  assert ((row <? 0) = false) as -> by (apply Z.ltb_ge; lia).
  set (r := first_unscanned (drop (Z.to_nat row) (m_entries d)) row). split.
  - assert (r < 0 ∨ 0 ≤ r) as [?|Hr] by lia; [by left|right].
    destruct (first_unscanned_Initial (drop (Z.to_nat row) (m_entries d)) row r eq_refl Hrow Hr)
      as (Hle & e & He & Hinit).
    split; [done|]. exists e. split; [|done].
    unfold entry_at. apply index_get_Some. split; [lia|].
    rewrite lookup_drop in He.
    by replace (Z.to_nat row + Z.to_nat (r - row))%nat with (Z.to_nat r) in He by lia.
  - intros i e Hi Hbefore [_ He]%index_get_Some.
    apply (first_unscanned_skips (drop (Z.to_nat row) (m_entries d)) row r eq_refl Hrow
             (Z.to_nat (i - row)) e).
    + rewrite lookup_drop. by replace (Z.to_nat row + Z.to_nat (i - row))%nat
        with (Z.to_nat i) by lia.
    + lia.
Qed.

(** The loop over the rows of a playlist leaves no row behind: it stops
    at the first entry that is not settled, which it queues, or it finds
    all of them settled. *)
Lemma scan_queue_next_row_walk (fuel : nat) (p : Z) (d : PlaylistData) :
  ∀ s : State,
    get_data s p = Some d → 0 ≤ scan_row s →
    len (m_entries d) - scan_row s ≤ Z.of_nat fuel →
    (∀ i e, 0 ≤ i < scan_row s → entry_at d i = Some e → scan_settled s e) →
    if (scan_queue_next_row fuel p s).2
    then ∃ entry row,
           (scan_queue_next_row fuel p s).1
           = scan_queue_entry p entry false (with_scan_row row s)
           ∧ 0 ≤ row ∧ entry_at d row = Some entry
           ∧ ∀ i e, 0 ≤ i < row → entry_at d i = Some e → scan_settled s e
    else (∀ i e, 0 ≤ i → entry_at d i = Some e → scan_settled s e)
         ∧ ((scan_queue_next_row fuel p s).1 = s
            ∨ ∃ row, (scan_queue_next_row fuel p s).1 = with_scan_row row s).
Proof.
  induction fuel as [|fuel IH]; intros s Hd Hrow Hfuel Hdone; cbn [scan_queue_next_row].
  all: rewrite Hd; cbn [scan_row with_scan_row].
  all: destruct (next_unscanned_entry_skips d (scan_row s) Hrow) as [Hstop Hskip].
  all: set (r := next_unscanned_entry d (scan_row s)) in *.
  all: assert (∀ i e, 0 ≤ i → r < 0 ∨ i < r → entry_at d i = Some e → scan_settled s e)
         as Hbefore
         by (intros i e Hi Hr He;
             destruct (decide (i < scan_row s)) as [Hlt|Hge];
             [by apply (Hdone i e)|intros Hinit; by destruct (Hskip i e ltac:(lia) Hr He)]).
  all: destruct (r <? 0) eqn:Hneg;
    [apply Z.ltb_lt in Hneg; cbn [fst snd];
     split; [intros i e Hi He; apply (Hbefore i e); [done|by left|done]|right; by eexists]
    |apply Z.ltb_ge in Hneg].
  all: destruct Hstop as [?|(Hle & e0 & He0 & Hinit0)]; [lia|].
  all: rewrite He0.
  all: change (scan_list_find_entry (e_addr e0) (with_scan_row r s))
         with (scan_list_find_entry (e_addr e0) s).
  all: destruct (negb (bool_decide (is_Some (scan_list_find_entry (e_addr e0) s)))
                 && negb (String.prefix "stdin://" (e_filename e0))) eqn:Hcand;
    [cbn [fst snd]; exists e0, r; split; [done|]; split; [done|]; split; [done|];
     intros i e Hi He; apply (Hbefore i e); [lia|right; lia|done]|].
  all: assert (scan_settled s e0) as Hsettled0
         by (intros _ Hstdin; rewrite Hstdin, andb_true_r in Hcand;
             apply negb_false_iff, bool_decide_eq_true in Hcand; exact Hcand).
  - (* the rows are exhausted: there is no entry at [r] *)
    apply index_get_Some in He0 as [_ He0]. apply lookup_lt_Some in He0.
    unfold len in Hfuel. lia.
  - assert (∀ i e, 0 ≤ i < r + 1 → entry_at d i = Some e → scan_settled s e) as Hdone'.
    { intros i e Hi He. destruct (decide (i = r)) as [->|Hne].
      - rewrite He0 in He. by injection He as <-.
      - apply (Hbefore i e); [lia|right; lia|done]. }
    specialize (IH (with_scan_row (r + 1) (with_scan_row r s)) Hd).
    cbn [scan_row with_scan_row] in IH.
    specialize (IH ltac:(lia) ltac:(lia) Hdone').
    destruct (scan_queue_next_row fuel p (with_scan_row (r + 1) (with_scan_row r s)))
      as [s1 found]. cbn [fst snd] in *. destruct found.
    + destruct IH as (entry & row & -> & Hrow' & Hentry & Hrows).
      exists entry, row. by repeat split.
    + destruct IH as [Hall [->|[row ->]]]; (split; [exact Hall|right; by eexists]).
Qed.

Lemma get_data_scan_check_complete_ne (p q : Z) (s : State) :
  q ≠ p → get_data (scan_check_complete p s) q = get_data s q.
Proof.
  intros Hne. unfold scan_check_complete.
  destruct (get_data s p) as [d|]; [|done]. destruct (_ || _); [done|].
  transitivity (get_data (update_data p (with_scan_status NotScanning) s) q);
    [by destruct (update_delayed _)|].
  by rewrite get_data_update_data, decide_False.
Qed.

Lemma scan_list_scan_check_complete (p : Z) (s : State) :
  scan_list (scan_check_complete p s) = scan_list s.
Proof. unfold scan_check_complete. by repeat frame_step. Qed.

Lemma scan_playlist_scan_check_complete (p : Z) (s : State) :
  scan_playlist (scan_check_complete p s) = scan_playlist s.
Proof. unfold scan_check_complete. by repeat frame_step. Qed.

(** The entries of a playlist are the same in two states with the same
    data. *)
Lemma data_view_entries (s s' : State) (p : Z) (d : PlaylistData) :
  data_view s' = data_view s → get_data s p = Some d →
  ∃ d', get_data s' p = Some d' ∧ m_entries d' = m_entries d.
Proof.
  intros Hview Hd.
  destruct (data_view_fields s s' p d Hview Hd) as (d' & Hd' & _ & _ & _ & _ & He & _).
  by exists d'.
Qed.

(** The scheduler starts its walk at the first row of the first
    playlist. *)
Lemma walk_inv_start (s : State) : scan_playlist s = 0 → scan_row s = 0 → walk_inv s s.
Proof.
  intros Hcursor Hrow. split; try done.
  - exists []. by rewrite app_nil_r.
  - lia.
  - intros i p d _ Hlt. lia.
  - intros p d _ _ i e Hi. lia.
Qed.

(** An entry of the playlist under the cursor was queued. *)
Lemma walk_inv_queued (s0 s : State) (p : Z) (d : PlaylistData) (entry : PlaylistEntry)
    (row : Z) :
  walk_inv s0 s → index_get (playlists s0) (scan_playlist s) = Some p →
  get_data s p = Some d → 0 ≤ row →
  (∀ i e, 0 ≤ i < row → entry_at d i = Some e → scan_settled s e) →
  walk_inv s0 (scan_queue_entry p entry false (with_scan_row row s)).
Proof.
  intros [Hpl Hdata [new Hnew] [Hcursor Hrow] Hbelow Hrows Hstatus] Hp Hd Hrow' Hdone.
  set (s1 := scan_queue_entry p entry false (with_scan_row row s)).
  assert (∃ item, scan_list s1 = scan_list s ++ [item]) as [item Hitem]
    by (unfold s1, scan_queue_entry; cbn; eauto).
  assert (∀ k, get_data s1 k = get_data s k) as Hsame by done.
  split.
  - exact Hpl.
  - unfold s1. by rewrite data_view_scan_queue_entry.
  - exists (new ++ [item]). by rewrite Hitem, Hnew, app_assoc.
  - split; [exact Hcursor|exact Hrow'].
  - intros i q dq Hi Hlt Hdq Hactive e He.
    apply (scan_settled_grows s s1 [item] e Hitem). by apply (Hbelow i q dq).
  - intros q dq Hq Hdq i e Hi He.
    change (scan_playlist s1) with (scan_playlist s) in Hq.
    assert (q = p) as -> by congruence.
    destruct (data_view_entries s0 s p dq Hdata Hdq) as (d' & Hd' & Hentries).
    rewrite Hd in Hd'. injection Hd' as <-.
    apply (scan_settled_grows s s1 [item] e Hitem), (Hdone i e); [exact Hi|].
    unfold entry_at in *. by rewrite Hentries.
  - intros q Hq. rewrite Hsame. by apply Hstatus.
Qed.

(** The cursor moves on from a playlist that had nothing to walk: it
    does not live, or it does not wait for a scan. *)
Lemma walk_inv_skipped (s0 s : State) (p : Z) :
  walk_inv s0 s → index_get (playlists s0) (scan_playlist s) = Some p →
  (∀ d, get_data s p = Some d → scan_status d ≠ ScanActive) →
  walk_inv s0 (with_scan_row 0 (with_scan_playlist (scan_playlist s + 1) s)).
Proof.
  intros [Hpl Hdata [new Hnew] [Hcursor Hrow] Hbelow Hrows Hstatus] Hp Hidle.
  apply index_get_Some in Hp as [_ Hp].
  split; cbn [scan_playlist scan_row with_scan_row with_scan_playlist].
  - exact Hpl.
  - exact Hdata.
  - by exists new.
  - lia.
  - intros i q dq Hi Hlt Hdq Hactive e He.
    destruct (decide (Z.of_nat i < scan_playlist s)) as [Hlow|Hhere];
      [by apply (Hbelow i q dq)|].
    assert (i = Z.to_nat (scan_playlist s)) as -> by lia.
    assert (q = p) as -> by congruence.
    destruct (decide (p ∈ take (Z.to_nat (scan_playlist s)) (playlists s0))) as [Hin|Hout].
    + apply list_elem_of_lookup in Hin as [j Hj].
      apply lookup_take_Some in Hj as [Hj Hlt'].
      apply (Hbelow j p dq); [done|lia|done..].
    + exfalso.
      assert (scan_status <$> get_data s p = scan_status <$> get_data s0 p) as Heq.
      { apply Hstatus. intros j Hj.
        destruct (decide (scan_playlist s ≤ Z.of_nat j)) as [|Hlt']; [done|].
        destruct Hout. apply list_elem_of_lookup. exists j.
        apply lookup_take_Some. split; [done|lia]. }
      rewrite Hdq in Heq. destruct (get_data s p) as [d|] eqn:Hd; [|done].
      injection Heq as Heq. apply (Hidle d eq_refl). congruence.
  - intros q dq _ _ i e Hi. lia.
  - intros q Hq. apply Hstatus. intros j Hj. specialize (Hq j Hj). lia.
Qed.

(** The cursor moves on from a playlist whose entries are all settled:
    the scan of the playlist ends. *)
Lemma walk_inv_walked (s0 s sx : State) (p : Z) (d : PlaylistData) :
  walk_inv s0 s → index_get (playlists s0) (scan_playlist s) = Some p →
  get_data s p = Some d →
  (∀ i e, 0 ≤ i → entry_at d i = Some e → scan_settled s e) →
  sx = s ∨ (∃ row, sx = with_scan_row row s) →
  walk_inv s0
    (with_scan_row 0
       (with_scan_playlist
          (scan_playlist (scan_check_complete p
                            (update_data p (with_scan_status ScanEnding) sx)) + 1)
          (scan_check_complete p (update_data p (with_scan_status ScanEnding) sx)))).
Proof.
  intros [Hpl Hdata [new Hnew] [Hcursor Hrow] Hbelow Hrows Hstatus] Hp Hd Hdone Hsx.
  set (s2 := scan_check_complete p (update_data p (with_scan_status ScanEnding) sx)).
  assert (playlists sx = playlists s ∧ data_view sx = data_view s
          ∧ scan_list sx = scan_list s ∧ scan_playlist sx = scan_playlist s
          ∧ ∀ k, get_data sx k = get_data s k) as (Hpl' & Hdata' & Hlist' & Hcur' & Hget').
  { by destruct Hsx as [->|[row ->]]. }
  assert (playlists s2 = playlists s) as Hpl2.
  { unfold s2. by rewrite (playlists_of_view _ _ (reg_view_scan_check_complete _ _)). }
  assert (data_view s2 = data_view s) as Hdata2.
  { unfold s2. by rewrite data_view_scan_check_complete, data_view_scan_status. }
  assert (scan_list s2 = scan_list s) as Hlist2.
  { unfold s2. by rewrite scan_list_scan_check_complete. }
  assert (scan_playlist s2 = scan_playlist s) as Hcur2.
  { unfold s2. by rewrite scan_playlist_scan_check_complete. }
  assert (∀ e, scan_settled s e → scan_settled s2 e) as Hkeep.
  { intros e. apply (scan_settled_grows s s2 []). by rewrite app_nil_r. }
  apply index_get_Some in Hp as [_ Hp].
  split; cbn [scan_playlist scan_row with_scan_row with_scan_playlist playlists scan_list].
  - by rewrite Hpl2.
  - by rewrite <- Hdata, <- Hdata2.
  - exists new. by rewrite <- Hnew, <- Hlist2.
  - lia.
  - intros i q dq Hi Hlt Hdq Hactive e He. apply Hkeep.
    destruct (decide (Z.of_nat i < scan_playlist s)) as [Hlow|Hhere];
      [by apply (Hbelow i q dq)|].
    assert (i = Z.to_nat (scan_playlist s)) as -> by lia.
    assert (q = p) as -> by congruence.
    destruct (data_view_entries s0 s p dq Hdata Hdq) as (d' & Hd' & Hentries).
    rewrite Hd in Hd'. injection Hd' as <-.
    rewrite <- Hentries in He. apply list_elem_of_lookup in He as [j Hj].
    apply (Hdone (Z.of_nat j) e); [lia|].
    unfold entry_at. by rewrite index_get_of_nat.
  - intros q dq _ _ i e Hi. lia.
  - intros q Hq.
    assert (q ≠ p) as Hne.
    { intros ->. specialize (Hq _ Hp). lia. }
    transitivity (scan_status <$> get_data s q).
    + f_equal. change (get_data s2 q = get_data s q).
      unfold s2. rewrite get_data_scan_check_complete_ne by done.
      by rewrite get_data_update_data, decide_False, Hget'.
    + apply Hstatus. intros j Hj. specialize (Hq j Hj). lia.
Qed.

(** The loop over the playlists keeps the account of the walk; when it
    finds nothing to queue, the cursor is past the last playlist. *)
Lemma scan_queue_next_playlist_walk (s0 : State) (fuel : nat) (s : State) :
  walk_inv s0 s → len (playlists s0) - scan_playlist s ≤ Z.of_nat fuel →
  walk_inv s0 (scan_queue_next_playlist fuel s).1
  ∧ ((scan_queue_next_playlist fuel s).2 = false →
     len (playlists s0) ≤ scan_playlist (scan_queue_next_playlist fuel s).1).
Proof.
  revert s. induction fuel as [|fuel IH]; intros s Hwalk Hfuel;
    cbn [scan_queue_next_playlist].
  all: pose proof (walk_playlists _ _ Hwalk) as Hpl.
  all: pose proof (walk_cursor _ _ Hwalk) as [Hpos Hrow].
  all: destruct (scan_playlist s <? len (playlists s)) eqn:Hin;
    [apply Z.ltb_lt in Hin
    |apply Z.ltb_ge in Hin; cbn [fst snd]; split; [done|intros _; by rewrite <- Hpl]].
  1: rewrite Hpl in Hin; lia.
  destruct (index_get (playlists s) (scan_playlist s)) as [p|] eqn:Hp.
  2:{ destruct (index_get_elem_of (playlists s) (scan_playlist s)) as (x & Hx & _);
        [lia|congruence]. }
  assert (index_get (playlists s0) (scan_playlist s) = Some p) as Hp0 by by rewrite <- Hpl.
  destruct (get_data s p) as [d|] eqn:Hd.
  2:{ apply IH; [|cbn; lia]. apply (walk_inv_skipped s0 s p); [done..|].
      intros d. by rewrite Hd. }
  destruct (status_eqb (scan_status d) ScanActive) eqn:Hstatus.
  2:{ apply IH; [|cbn; lia]. apply (walk_inv_skipped s0 s p); [done..|].
      intros d'. rewrite Hd. intros [= <-]. by destruct (scan_status d). }
  assert (∀ i e, 0 ≤ i < scan_row s → entry_at d i = Some e → scan_settled s e) as Hrows.
  { intros i e Hi He.
    destruct (data_view_entries s s0 p d) as (d0 & Hd0 & Hentries);
      [symmetry; apply (walk_data _ _ Hwalk)|done|].
    apply (walk_rows _ _ Hwalk p d0 Hp0 Hd0 i e Hi).
    unfold entry_at in *. by rewrite Hentries. }
  assert (len (m_entries d) - scan_row s ≤ Z.of_nat (length (m_entries d))) as Hlen
    by (unfold len; lia).
  pose proof (scan_queue_next_row_walk (length (m_entries d)) p d s Hd Hrow Hlen Hrows)
    as Hwalked.
  destruct (scan_queue_next_row (length (m_entries d)) p s) as [sx found].
  cbn [fst snd] in Hwalked. destruct found.
  - destruct Hwalked as (entry & row & -> & Hrow' & He & Hdone). cbn [fst snd].
    split; [|done]. by apply (walk_inv_queued s0 s p d).
  - destruct Hwalked as [Hdone Hsx]. apply IH.
    + by apply (walk_inv_walked s0 s sx p d).
    + cbn [scan_playlist with_scan_row with_scan_playlist].
      rewrite scan_playlist_scan_check_complete.
      assert (scan_playlist (update_data p (with_scan_status ScanEnding) sx)
              = scan_playlist s) as -> by by destruct Hsx as [->|[row ->]].
      lia.
Qed.

Lemma scan_queue_next_entry_walk (s0 s : State) :
  scan_enabled s = true → walk_inv s0 s →
  walk_inv s0 (scan_queue_next_entry s).1
  ∧ ((scan_queue_next_entry s).2 = false →
     len (playlists s0) ≤ scan_playlist (scan_queue_next_entry s).1).
Proof.
  intros Henabled Hwalk. unfold scan_queue_next_entry. rewrite Henabled. cbn [negb].
  apply scan_queue_next_playlist_walk; [done|].
  rewrite (walk_playlists _ _ Hwalk). destruct (walk_cursor _ _ Hwalk). unfold len. lia.
Qed.

Lemma scan_schedule_more_walk (s0 : State) (fuel : nat) (scheduled : Z) (s : State) :
  scan_enabled s = true → walk_inv s0 s →
  scheduled = len (scan_list s) → scheduled < SCAN_THREADS →
  SCAN_THREADS - scheduled ≤ Z.of_nat fuel →
  SCAN_THREADS ≤ len (scan_list (scan_schedule_more fuel scheduled s))
  ∨ (walk_inv s0 (scan_schedule_more fuel scheduled s)
     ∧ len (playlists s0) ≤ scan_playlist (scan_schedule_more fuel scheduled s)).
Proof.
  revert scheduled s.
  induction fuel as [|fuel IH]; intros scheduled s Henabled Hwalk Hcount Hlt Hfuel;
    cbn [scan_schedule_more].
  all: destruct (scan_queue_next_entry_walk s0 s Henabled Hwalk) as [Hwalk' Hend].
  all: destruct (scan_queue_next_entry_list s) as (new & Hnew & Hlen & _).
  all: pose proof (scan_enabled_scan_queue_next_entry s) as Henabled'.
  all: destruct (scan_queue_next_entry s) as [s1 queued]; cbn [fst snd] in *.
  all: destruct queued; [|right; split; [done|]; by apply Hend].
  all: assert (len (scan_list s1) = scheduled + 1) as Hcount'
    by (rewrite Hnew; unfold len in *; rewrite length_app; lia).
  all: destruct (SCAN_THREADS <=? scheduled + 1) eqn:Hfull;
    [apply Z.leb_le in Hfull; left; lia|apply Z.leb_gt in Hfull].
  - lia.
  - apply IH; [congruence|done..|lia].
Qed.

(** Unless [SCAN_THREADS] scans are in flight afterwards, the scheduler
    has walked every playlist: each entry of a playlist that waited for
    a scan has its tuple, is a stream from the standard input, or has a
    scan in flight. *)
Lemma scan_schedule_walks (s0 : State) :
  scan_enabled s0 = true → scan_playlist s0 = 0 → scan_row s0 = 0 →
  SCAN_THREADS ≤ len (scan_list (scan_schedule s0))
  ∨ ∀ p d entry, p ∈ playlists s0 → get_data s0 p = Some d → scan_status d = ScanActive →
      entry ∈ m_entries d → scan_settled (scan_schedule s0) entry.
Proof.
  intros Henabled Hcursor Hrow. unfold scan_schedule.
  pose proof (scan_count_scheduled_spec (scan_list s0) 0 ltac:(done)) as Hcount.
  destruct (scan_count_scheduled (scan_list s0) 0) as [n|]; [|left; lia].
  destruct Hcount as [-> Hlt].
  assert (0 + len (scan_list s0) = len (scan_list s0)) as Hzero by lia.
  assert (SCAN_THREADS - (0 + len (scan_list s0))
          ≤ Z.of_nat (Z.to_nat (SCAN_THREADS - (0 + len (scan_list s0))))) as Hfuel by lia.
  destruct (scan_schedule_more_walk s0 _ (0 + len (scan_list s0)) s0 Henabled
              (walk_inv_start s0 Hcursor Hrow) Hzero Hlt Hfuel) as [Hfull|[Hwalk Hend]];
    [by left|].
  right. intros p d entry Hp Hd Hactive He.
  apply list_elem_of_lookup in Hp as [i Hi].
  apply (walk_below _ _ Hwalk i p d Hi); [|done..].
  apply lookup_lt_Some in Hi.
  assert (Z.of_nat i < len (playlists s0)) by (unfold len; lia). lia.
Qed.

(** X13.  The scheduler never idles while a playlist waits for its
    entries to be scanned: after [scan_restart] with scanning enabled,
    either [SCAN_THREADS] scans are in flight, or the scheduler has been
    through every playlist of the Registry: no playlist is left with the
    scan status [ScanActive], and every entry of a playlist that had this
    status, whose tuple is not read yet and whose file is not a stream
    from the standard input, has a scan in flight. *)
Theorem scan_restart_settles (s : State) :
  scan_enabled s = true →
  SCAN_THREADS ≤ len (scan_list (scan_restart s))
  ∨ ((∀ p d, p ∈ playlists s → get_data (scan_restart s) p = Some d →
        scan_status d ≠ ScanActive)
     ∧ ∀ p d entry, p ∈ playlists s → get_data s p = Some d →
         scan_status d = ScanActive → entry ∈ m_entries d →
         tuple_state (e_tuple entry) = Initial →
         String.prefix "stdin://" (e_filename entry) = false →
         is_Some (scan_list_find_entry (e_addr entry) (scan_restart s))).
Proof.
  intros Henabled. unfold scan_restart.
  set (s0 := with_scan_row 0 (with_scan_playlist 0 s)).
  destruct (scan_schedule_settles s0 Henabled eq_refl) as [Hfull|Hidle]; [by left|].
  destruct (scan_schedule_walks s0 Henabled eq_refl eq_refl) as [Hfull|Hwalk]; [by left|].
  right. split; [exact Hidle|].
  intros p d entry Hp Hd Hactive He Htuple Hstdin.
  by apply (Hwalk p d entry Hp Hd Hactive He).
Qed.

(** Both songs of [unscanned_State] go to the scanner: the scheduler is
    saturated. *)
Lemma scan_restart_settles_witness :
  SCAN_THREADS ≤ len (scan_list (scan_restart unscanned_State))
  ∨ ((∀ p d, p ∈ playlists unscanned_State →
        get_data (scan_restart unscanned_State) p = Some d → scan_status d ≠ ScanActive)
     ∧ ∀ p d entry, p ∈ playlists unscanned_State → get_data unscanned_State p = Some d →
         scan_status d = ScanActive → entry ∈ m_entries d →
         tuple_state (e_tuple entry) = Initial →
         String.prefix "stdin://" (e_filename entry) = false →
         is_Some (scan_list_find_entry (e_addr entry) (scan_restart unscanned_State))).
Proof.
  apply scan_restart_settles. vm_compute. reflexivity.
Defined.

(** ** The update callback *)

Lemma foldl_update_data_frame (f : PlaylistData → PlaylistData) (l : list Z) (s : State) :
  foldl (λ s p, update_data p f s) s l
  = with_id_table (id_table (foldl (λ s p, update_data p f s) s l)) s.
Proof.
  revert s. induction l as [|p l IH]; intros s; cbn [foldl]; [by destruct s|].
  rewrite IH at 1. done.
Qed.

Lemma foldl_update_data_get (f : PlaylistData → PlaylistData) (l : list Z) (s : State) (k : Z) :
  NoDup l →
  get_data (foldl (λ s p, update_data p f s) s l) k
  = if decide (k ∈ l) then f <$> get_data s k else get_data s k.
Proof.
  revert s. induction l as [|p l IH]; intros s Hnodup; cbn [foldl].
  - rewrite decide_False; [done|]. apply not_elem_of_nil.
  - apply NoDup_cons in Hnodup as [Hp Hnodup]. rewrite IH by done.
    rewrite get_data_update_data.
    destruct (decide (p = k)) as [->|Hne].
    + rewrite decide_False by done. rewrite decide_True by left. done.
    + destruct (decide (k ∈ l)) as [Hin|Hout].
      * rewrite decide_True by (by right). done.
      * rewrite decide_False; [done|]. intros [?|?]%elem_of_cons; congruence.
Qed.

(** X14.  The [update] callback of the update timer delivers what is
    pending and leaves nothing pending: it calls the hook "playlist
    update" once, with the level that was pending, as its only external
    call; afterwards no global update is pending or delayed, the timer is
    not queued, and for every playlist of the Registry the update that was
    pending is what [update_detail] returns while [update_pending] is
    false. *)
Theorem update_delivers (s : State) :
  NoDup (playlists s) →
  update_pending_any (update s) = false
  ∧ update_delayed (update s) = false
  ∧ queued_update (update s) = None
  ∧ trace (update s)
    = trace s ++ [hook_call "playlist update" (Some (level_num (update_level s)))]
  ∧ playlists (update s) = playlists s
  ∧ (∀ p d, p ∈ playlists s → get_data s p = Some d →
       Playlist_update_pending (Some p) (update s) = (update s, false)
       ∧ Playlist_update_detail (Some p) (update s) = (update s, m_next_update d))
  ∧ (∀ p, p ∉ playlists s → get_data (update s) p = get_data s p).
Proof.
  intros Hnodup. unfold update.
  set (s1 := with_queued_update None s).
  pose proof (foldl_update_data_frame swap_updates (playlists s1) s1) as Hframe.
  pose proof (λ k, foldl_update_data_get swap_updates (playlists s1) s1 k Hnodup) as Hget.
  set (s2 := foldl (λ s p, update_data p swap_updates s) s1 (playlists s1)) in *.
  set (s' := emit _ _).
  assert (∀ k, get_data s' k
               = if decide (k ∈ playlists s) then swap_updates <$> get_data s k
                 else get_data s k) as Hget' by exact Hget.
  assert (update_level s2 = update_level s ∧ trace s2 = trace s ∧ playlists s2 = playlists s
          ∧ queued_update s2 = None)
    as (Hlevel & Htrace & Hpl & Hqueued) by (by rewrite Hframe).
  split; [done|]. split; [done|]. split; [exact Hqueued|].
  split.
  { change (trace s') with
      (trace s2 ++ [hook_call "playlist update" (Some (level_num (update_level s2)))]).
    by rewrite Hlevel, Htrace. }
  split; [exact Hpl|]. split.
  - intros p d Hp Hd.
    unfold Playlist_update_pending, Playlist_update_detail, SIMPLE_WRAPPER, ENTER_GET_PLAYLIST.
    rewrite Hget', decide_True, Hd by done. cbn [fmap option_fmap option_map]. done.
  - intros p Hp. by rewrite Hget', decide_False.
Qed.

(** The [Structure] update that the insertion of the playlist 1000 queued
    is pending in [two_songs_State]; [update] delivers it. *)
Lemma update_delivers_witness :
  update_pending_any (update two_songs_State) = false
  ∧ trace (update two_songs_State)
    = trace two_songs_State ++ [hook_call "playlist update" (Some 2)].
Proof.
  assert (NoDup (playlists two_songs_State)) as Hnodup
    by apply (inv_nodup _ registry_inv_two_songs_State).
  destruct (update_delivers _ Hnodup) as (Hpending & _ & _ & Htrace & _).
  split; [exact Hpending|]. rewrite Htrace.
  assert (level_num (update_level two_songs_State) = 2) as -> by (vm_compute; reflexivity).
  reflexivity.
Defined.

(** ** Starting and stopping playback *)

Lemma scan_reset_playback_frame (s : State) :
  id_table (scan_reset_playback s) = id_table s
  ∧ playlists (scan_reset_playback s) = playlists s
  ∧ playing_id (scan_reset_playback s) = playing_id s
  ∧ active_id (scan_reset_playback s) = active_id s
  ∧ world (scan_reset_playback s) = world s
  ∧ ∃ evs, trace (scan_reset_playback s) = trace s ++ evs
           ∧ Forall (λ e, ∃ request, e = scanner_request request) evs.
Proof.
  unfold scan_reset_playback. repeat frame_step; repeat split.
  all: try (exists []; by rewrite app_nil_r).
  eexists [_]. split; [done|]. repeat constructor. by eexists.
Qed.

Lemma stop_playback_locked_frame (s : State) :
  id_table (stop_playback_locked s) = id_table s
  ∧ playlists (stop_playback_locked s) = playlists s
  ∧ playing_id (stop_playback_locked s) = playing_id s
  ∧ active_id (stop_playback_locked s) = active_id s
  ∧ ∃ evs, trace (stop_playback_locked s)
           = trace s ++ art_clear_current :: evs ++ [playback_stop]
           ∧ Forall (λ e, ∃ request, e = scanner_request request) evs.
Proof.
  unfold stop_playback_locked.
  destruct (scan_reset_playback_frame (emit art_clear_current s))
    as (Htable & Hpl & Hplay & Hact & _ & evs & Htrace & Hevs).
  repeat split; [done..|].
  exists evs. split; [|done]. unfold emit at 1. cbn [trace with_trace]. rewrite Htrace.
  unfold emit. cbn [trace with_trace]. by rewrite <- !app_assoc.
Qed.

(** X15.  [aud_drct_stop] leaves no playlist playing.  When a playlist
    was playing, it gets the time of the playback as its resume time,
    [playback_stop] is called, and then the hooks "playlist set playing"
    and "playback stop", in this order.  When no playlist was playing, no
    playlist changes and neither [playback_stop] nor a hook is called; the
    only call there can be is [aud_drct_pause], made when the playback
    says that it is paused. *)
Theorem aud_drct_stop_stops `{PlaylistDataMethods} (s : State) :
  playing_playlist (aud_drct_stop s) = None
  ∧ (∀ p d, playing_id s = Some p → get_data s p = Some d →
       get_data (aud_drct_stop s) p = Some (with_resume_time (drct_time (world s)) d)
       ∧ ∃ evs, trace (aud_drct_stop s)
                = trace s ++ art_clear_current :: evs
                  ++ [playback_stop; hook_call "playlist set playing" None;
                      hook_call "playback stop" None]
                ∧ Forall (λ e, ∃ request, e = scanner_request request) evs)
  ∧ (playing_id s = None →
     id_table (aud_drct_stop s) = id_table s
     ∧ trace (aud_drct_stop s)
       = trace s ++ (if drct_paused (world s) then [aud_drct_pause] else [])).
Proof.
  unfold aud_drct_stop, set_playing_locked, playing_playlist.
  destruct (playing_id s) as [p|] eqn:Hplaying; cbn [ptr_eqb].
  - set (s1 := update_data p (with_resume_time (drct_time (world s))) s).
    destruct (stop_playback_locked_frame (with_playing_id None s1))
      as (Htable & _ & Hplay & _ & evs & Htrace & Hevs).
    change (Z.lor SetPlaylist PlaybackStop) with 9.
    unfold call_playback_hooks.
    change (has_flag 9 SetPlaylist) with true. change (has_flag 9 SetPosition) with false.
    change (has_flag 9 PlaybackBegin) with false. change (has_flag 9 PlaybackStop) with true.
    cbv iota. split; [exact Hplay|]. split; [|intros [=]].
    intros q d [= <-] Hd. split.
    + rewrite (get_data_ext _ (stop_playback_locked (with_playing_id None s1)) p) by done.
      rewrite (get_data_ext _ s1 p) by done.
      unfold s1. by rewrite get_data_update_data, decide_True, Hd.
    + exists evs. split; [|done]. unfold emit. cbn [trace with_trace]. rewrite Htrace.
      change (trace (with_playing_id None s1)) with (trace s).
      rewrite <- !app_assoc. cbn [app]. by rewrite <- !app_assoc.
  - unfold call_playback_hooks.
    change (has_flag 0 SetPlaylist) with false. change (has_flag 0 SetPosition) with false.
    change (has_flag 0 PlaybackBegin) with false. change (has_flag 0 PlaybackStop) with false.
    cbv iota. rewrite ?Hplaying.
    destruct (drct_paused (world s)); cbn [eqb negb];
      (split; [by rewrite ?Hplaying|]); (split; [done|]); intros _;
      (split; [done|]); [done|by rewrite app_nil_r].
Qed.

(** Playback of the playlist 1000 is stopped 45 seconds into the song:
    the playlist will resume there. *)
Lemma aud_drct_stop_stops_witness :
  playing_playlist (aud_drct_stop (methods := plain_methods) playing_State) = None
  ∧ ∃ d, get_data (aud_drct_stop (methods := plain_methods) playing_State) 1000 = Some d
         ∧ resume_time d = 45000.
Proof.
  destruct (aud_drct_stop_stops (H := plain_methods) playing_State) as (Hnone & Hplaying & _).
  split; [exact Hnone|].
  assert (playing_id playing_State = Some 1000) as Hid by (vm_compute; reflexivity).
  assert (∃ d, get_data playing_State 1000 = Some d) as [d Hd] by (vm_compute; eauto).
  destruct (Hplaying 1000 d Hid Hd) as [Hd' _].
  eexists. split; [exact Hd'|]. vm_compute. reflexivity.
Defined.

Lemma start_playback_locked_frame (seek_time : Z) (pause : bool) (s : State) :
  id_table (start_playback_locked seek_time pause s) = id_table s
  ∧ playlists (start_playback_locked seek_time pause s) = playlists s
  ∧ playing_id (start_playback_locked seek_time pause s) = playing_id s
  ∧ active_id (start_playback_locked seek_time pause s) = active_id s
  ∧ ∃ evs, trace (start_playback_locked seek_time pause s)
           = trace s ++ art_clear_current :: evs ++ [playback_play seek_time pause]
           ∧ Forall (λ e, ∃ request, e = scanner_request request) evs.
Proof.
  unfold start_playback_locked.
  destruct (scan_reset_playback_frame (emit art_clear_current s))
    as (Htable & Hpl & Hplay & Hact & _ & evs & Htrace & Hevs).
  set (s1 := emit (playback_play seek_time pause) (scan_reset_playback _)).
  assert (id_table s1 = id_table s ∧ playlists s1 = playlists s ∧ playing_id s1 = playing_id s
          ∧ active_id s1 = active_id s
          ∧ trace s1 = trace s ++ art_clear_current :: evs ++ [playback_play seek_time pause])
    as (Htable1 & Hpl1 & Hplay1 & Hact1 & Htrace1).
  { repeat split; [done..|]. unfold s1, emit at 1. cbn [trace with_trace]. rewrite Htrace.
    unfold emit. cbn [trace with_trace]. rewrite <- !app_assoc. done. }
  assert (∀ x, id_table x = id_table s ∧ playlists x = playlists s
               ∧ playing_id x = playing_id s ∧ active_id x = active_id s
               ∧ trace x = trace s ++ art_clear_current :: evs ++ [playback_play seek_time pause]
               → id_table x = id_table s ∧ playlists x = playlists s
                 ∧ playing_id x = playing_id s ∧ active_id x = active_id s
                 ∧ ∃ evs, trace x = trace s ++ art_clear_current :: evs
                                    ++ [playback_play seek_time pause]
                          ∧ Forall (λ e, ∃ request, e = scanner_request request) evs) as Hwrap.
  { intros x (? & ? & ? & ? & ?). repeat split; [done..|]. by exists evs. }
  destruct (playing_id s1) as [p|]; [|by apply Hwrap].
  destruct (get_data s1 p) as [d|]; [|by apply Hwrap].
  destruct (entry_at d (position d)) as [entry|]; [|by apply Hwrap].
  apply Hwrap. unfold scan_queue_entry, scan_cancel. by repeat frame_step.
Qed.

Lemma Playlist_start_playback_moves `{PlaylistDataMethods} (paused : bool) (p : Z)
    (d : PlaylistData) (s : State) :
  get_data s p = Some d → playing_id s ≠ Some p → 0 ≤ position d →
  playing_playlist (Playlist_start_playback paused (Some p) s) = Some p
  ∧ (∀ q dq, playing_id s = Some q → get_data s q = Some dq →
       get_data (Playlist_start_playback paused (Some p) s) q
       = Some (with_resume_time (drct_time (world s)) dq))
  ∧ get_data (Playlist_start_playback paused (Some p) s) p = Some d
  ∧ ∃ evs, trace (Playlist_start_playback paused (Some p) s)
           = trace s ++ art_clear_current :: evs
             ++ [playback_play (resume_time d) paused;
                 hook_call "playlist set playing" None;
                 hook_call "playback begin" None]
           ∧ Forall (λ e, ∃ request, e = scanner_request request) evs.
Proof.
  intros Hd Hother Hpos. unfold Playlist_start_playback, ENTER_GET_PLAYLIST. rewrite Hd.
  unfold set_playing_locked.
  assert (ptr_eqb (Some p) (playing_id s) = false) as -> by (by apply ptr_eqb_neq).
  set (s1 := match playing_id s with
             | Some playing => update_data playing (with_resume_time (drct_time (world s))) s
             | None => s
             end).
  assert (get_data s1 p = Some d) as Hd1.
  { unfold s1. destruct (playing_id s) as [q|] eqn:Hq; [|done].
    rewrite get_data_update_data, decide_False; [done|]. intros ->. done. }
  rewrite Hd1. assert ((position d <? 0) = false) as -> by (apply Z.ltb_ge; lia).
  cbn [fst snd]. change (get_data (with_playing_id (Some p) s1) p) with (get_data s1 p).
  rewrite Hd1.
  destruct (start_playback_locked_frame (resume_time d) paused (with_playing_id (Some p) s1))
    as (Htable & _ & Hplay & _ & evs & Htrace & Hevs).
  change (Z.lor SetPlaylist PlaybackBegin) with 5.
  unfold call_playback_hooks.
  change (has_flag 5 SetPlaylist) with true. change (has_flag 5 SetPosition) with false.
  change (has_flag 5 PlaybackBegin) with true. change (has_flag 5 PlaybackStop) with false.
  cbv iota. unfold playing_playlist.
  split; [exact Hplay|]. split; [|split].
  + intros q dq Hq Hdq.
    rewrite (get_data_ext _ (start_playback_locked (resume_time d) paused
                               (with_playing_id (Some p) s1)) q) by done.
    rewrite (get_data_ext _ s1 q) by done.
    unfold s1. rewrite Hq. by rewrite get_data_update_data, decide_True, Hdq.
  + rewrite (get_data_ext _ (start_playback_locked (resume_time d) paused
                               (with_playing_id (Some p) s1)) p) by done.
    by rewrite (get_data_ext _ s1 p).
  + exists evs. split; [|done]. unfold emit. cbn [trace with_trace]. rewrite Htrace.
    assert (trace (with_playing_id (Some p) s1) = trace s) as ->
      by (unfold s1; by destruct (playing_id s)).
    rewrite <- !app_assoc. cbn [app]. by rewrite <- !app_assoc.
Qed.

(** X16.  [start_playback] through the handle of the playlist that is
    playing only pauses or unpauses: [aud_drct_pause] is called when the
    playback is not in the state asked for, and nothing else happens.
    Through the handle of another live playlist that has a current entry
    it moves the playback there: the playlist that was playing gets the
    time of the playback as its resume time, [playback_play] is called
    with the resume time of the new playlist and the pause flag, the
    playlist is the playing one, and the hooks "playlist set playing" and
    "playback begin" are called last, in this order. *)
Theorem start_playback_spec `{PlaylistDataMethods} (paused : bool) (p : Z) (d : PlaylistData)
    (s : State) :
  get_data s p = Some d →
  (playing_id s = Some p →
   Playlist_start_playback paused (Some p) s
   = if eqb (drct_paused (world s)) paused then s else emit aud_drct_pause s)
  ∧ (playing_id s ≠ Some p → 0 ≤ position d →
     playing_playlist (Playlist_start_playback paused (Some p) s) = Some p
     ∧ (∀ q dq, playing_id s = Some q → get_data s q = Some dq →
          get_data (Playlist_start_playback paused (Some p) s) q
          = Some (with_resume_time (drct_time (world s)) dq))
     ∧ get_data (Playlist_start_playback paused (Some p) s) p = Some d
     ∧ ∃ evs, trace (Playlist_start_playback paused (Some p) s)
              = trace s ++ art_clear_current :: evs
                ++ [playback_play (resume_time d) paused;
                    hook_call "playlist set playing" None;
                    hook_call "playback begin" None]
              ∧ Forall (λ e, ∃ request, e = scanner_request request) evs).
Proof.
  intros Hd. split; [|by apply Playlist_start_playback_moves].
  unfold Playlist_start_playback, ENTER_GET_PLAYLIST. rewrite Hd.
  unfold set_playing_locked.
  intros Hplaying. rewrite Hplaying. cbn [ptr_eqb]. rewrite Z.eqb_refl.
  unfold call_playback_hooks.
  change (has_flag 0 SetPlaylist) with false. change (has_flag 0 SetPosition) with false.
  change (has_flag 0 PlaybackBegin) with false. change (has_flag 0 PlaybackStop) with false.
  by destruct (eqb (drct_paused (world s)) paused).
Qed.

(** The playlist 1000 is playing and the playback is paused:
    [start_playback] through its handle unpauses, that is all. *)
Lemma start_playback_spec_witness :
  Playlist_start_playback (methods := plain_methods) false (Some 1000) playing_State
  = emit aud_drct_pause playing_State.
Proof.
  assert (∃ d, get_data playing_State 1000 = Some d) as [d Hd] by (vm_compute; eauto).
  destruct (start_playback_spec (H := plain_methods) false 1000 d playing_State Hd)
    as [Hsame _].
  rewrite Hsame by (vm_compute; reflexivity).
  assert (drct_paused (world playing_State) = true) as -> by (vm_compute; reflexivity).
  reflexivity.
Defined.

(** X17.  [set_position] through a live handle makes the entry with the
    number given the current one, or none when there is no such entry,
    and calls the hook "playlist position".  On a playlist that is not
    playing that is all.  On the playing playlist the playback follows:
    with a current entry [playback_play] is called for it from the start,
    paused as the playback was, and the hook "playback begin" is called;
    without one the playback is stopped, no playlist is playing any more
    and the hooks "playlist set playing" and "playback stop" are called
    before and after "playlist position". *)
Theorem set_position_playback (entry_num : Z) (p : Z) (d : PlaylistData) (s : State) :
  get_data s p = Some d →
  (playing_id s ≠ Some p →
   Playlist_set_position entry_num (Some p) s
   = emit (hook_call "playlist position" (Some p))
       (update_data p (PlaylistData_set_position (entry_at d entry_num)) s))
  ∧ (playing_id s = Some p → entry_at d entry_num = None →
     playing_playlist (Playlist_set_position entry_num (Some p) s) = None
     ∧ Playlist_get_position (Some p) (Playlist_set_position entry_num (Some p) s)
       = (Playlist_set_position entry_num (Some p) s, -1)
     ∧ ∃ evs, trace (Playlist_set_position entry_num (Some p) s)
              = trace s ++ art_clear_current :: evs
                ++ [playback_stop; hook_call "playlist set playing" None;
                    hook_call "playlist position" (Some p);
                    hook_call "playback stop" None]
              ∧ Forall (λ e, ∃ request, e = scanner_request request) evs)
  ∧ (playing_id s = Some p → ∀ e, entry_at d entry_num = Some e → 0 ≤ e_number e →
     playing_playlist (Playlist_set_position entry_num (Some p) s) = Some p
     ∧ Playlist_get_position (Some p) (Playlist_set_position entry_num (Some p) s)
       = (Playlist_set_position entry_num (Some p) s, e_number e)
     ∧ ∃ evs, trace (Playlist_set_position entry_num (Some p) s)
              = trace s ++ art_clear_current :: evs
                ++ [playback_play 0 (drct_paused (world s));
                    hook_call "playlist position" (Some p);
                    hook_call "playback begin" None]
              ∧ Forall (λ e, ∃ request, e = scanner_request request) evs).
Proof.
  intros Hd. unfold Playlist_set_position, ENTER_GET_PLAYLIST. rewrite Hd.
  set (s1 := update_data p (PlaylistData_set_position (entry_at d entry_num)) s).
  assert (get_data s1 p = Some (PlaylistData_set_position (entry_at d entry_num) d)) as Hd1
    by (unfold s1; by rewrite get_data_update_data, decide_True, Hd).
  unfold change_playback. change (playing_id s1) with (playing_id s). rewrite Hd1.
  split; [|split].
  - intros Hother. assert (ptr_eqb (Some p) (playing_id s) = false) as ->
      by (by apply ptr_eqb_neq).
    cbn [fst]. unfold call_playback_hooks.
    change (has_flag SetPosition SetPlaylist) with false.
    change (has_flag SetPosition SetPosition) with true.
    change (has_flag SetPosition PlaybackBegin) with false.
    change (has_flag SetPosition PlaybackStop) with false. done.
  - intros Hplaying Hnone. rewrite Hplaying, Hnone. cbn [ptr_eqb]. rewrite Z.eqb_refl.
    change (0 <=? position (PlaylistData_set_position None d)) with false. cbv iota.
    destruct (stop_playback_locked_frame (with_playing_id None s1))
      as (Htable & _ & Hplay & _ & evs & Htrace & Hevs).
    change (Z.lor SetPosition (Z.lor SetPlaylist PlaybackStop)) with 11.
    cbn [fst]. unfold call_playback_hooks.
    change (has_flag 11 SetPlaylist) with true. change (has_flag 11 SetPosition) with true.
    change (has_flag 11 PlaybackBegin) with false. change (has_flag 11 PlaybackStop) with true.
    cbv iota. set (s' := emit _ (emit _ (emit _ _))).
    assert (get_data s' p = Some (PlaylistData_set_position None d)) as Hd'.
    { rewrite (get_data_ext s' (stop_playback_locked (with_playing_id None s1)) p) by done.
      rewrite (get_data_ext _ s1 p) by done. by rewrite Hd1, Hnone. }
    split; [exact Hplay|]. split.
    + unfold Playlist_get_position, SIMPLE_WRAPPER, ENTER_GET_PLAYLIST. by rewrite Hd'.
    + exists evs. split; [|done]. unfold s', emit. cbn [trace with_trace]. rewrite Htrace.
      change (trace (with_playing_id None s1)) with (trace s).
      rewrite <- !app_assoc. cbn [app]. by rewrite <- !app_assoc.
  - intros Hplaying e He Hnumber. rewrite Hplaying, He. cbn [ptr_eqb]. rewrite Z.eqb_refl.
    assert ((0 <=? position (PlaylistData_set_position (Some e) d)) = true) as ->
      by (by apply Z.leb_le).
    destruct (start_playback_locked_frame 0 (drct_paused (world s1)) s1)
      as (Htable & _ & Hplay & _ & evs & Htrace & Hevs).
    change (Z.lor SetPosition PlaybackBegin) with 6.
    cbn [fst]. unfold call_playback_hooks.
    change (has_flag 6 SetPlaylist) with false. change (has_flag 6 SetPosition) with true.
    change (has_flag 6 PlaybackBegin) with true. change (has_flag 6 PlaybackStop) with false.
    cbv iota. set (s' := emit _ (emit _ _)).
    assert (get_data s' p = Some (PlaylistData_set_position (Some e) d)) as Hd'.
    { rewrite (get_data_ext s' (start_playback_locked 0 (drct_paused (world s1)) s1) p)
        by done.
      rewrite (get_data_ext _ s1 p) by done. by rewrite Hd1, He. }
    split; [unfold playing_playlist; by rewrite <- Hplaying|]. split.
    + unfold Playlist_get_position, SIMPLE_WRAPPER, ENTER_GET_PLAYLIST. by rewrite Hd'.
    + exists evs. split; [|done]. unfold s', emit. cbn [trace with_trace]. rewrite Htrace.
      change (trace s1) with (trace s). change (world s1) with (world s).
      rewrite <- !app_assoc. cbn [app]. by rewrite <- !app_assoc.
Qed.

(** The position of the playing playlist 1000 is set to an entry that
    does not exist: nothing plays any more. *)
Lemma set_position_playback_witness :
  playing_playlist (Playlist_set_position 5 (Some 1000) playing_State) = None.
Proof.
  assert (∃ d, get_data playing_State 1000 = Some d ∧ entry_at d 5 = None)
    as (d & Hd & Hnone) by (vm_compute; eauto).
  destruct (set_position_playback 5 1000 d playing_State Hd) as (_ & Hstop & _).
  apply Hstop; [vm_compute; reflexivity|exact Hnone].
Defined.

(** ** The scan of the entry that is played *)

Lemma filter_none {A : Type} (P : A → bool) (l : list A) :
  length (List.filter P l) = 0%nat → Forall (λ x, P x = false) l.
Proof.
  induction l as [|x l IH]; cbn [List.filter]; [by constructor|].
  destruct (P x) eqn:Hx; [done|]. intros Hlen. constructor; [done|by apply IH].
Qed.

Lemma filter_all_false {A : Type} (P : A → bool) (l : list A) :
  Forall (λ x, P x = false) l → List.filter P l = [].
Proof.
  induction 1 as [|x l Hx _ IH]; cbn [List.filter]; [done|]. by rewrite Hx.
Qed.

Lemma list_alter_first_clears {A : Type} (P : A → bool) (f : A → A) (l : list A) :
  (∀ x, P (f x) = false) → (length (List.filter P l) ≤ 1)%nat →
  Forall (λ x, P x = false) (list_alter_first P f l).
Proof.
  intros Hf. induction l as [|x l IH]; cbn [List.filter list_alter_first]; [by constructor|].
  destruct (P x) eqn:Hx; cbn [length]; intros Hlen.
  - constructor; [done|]. apply filter_none. lia.
  - constructor; [done|by apply IH].
Qed.

Lemma list_remove_first_Forall {A : Type} (P : A → bool) (Q : A → Prop) (l : list A) :
  Forall Q l → Forall Q (list_remove_first P l).
Proof.
  induction 1 as [|x l Hx Hl IH]; cbn [list_remove_first]; [by constructor|].
  destruct (P x); [done|by constructor].
Qed.

Lemma list_remove_first_elem_of {A : Type} (P : A → bool) (l : list A) (x : A) :
  x ∈ list_remove_first P l → x ∈ l.
Proof.
  induction l as [|y l IH]; cbn [list_remove_first]; [done|].
  destruct (P y); [by right|]. intros [->|Hx]%elem_of_cons; [left|right; by apply IH].
Qed.

Lemma list_remove_first_NoDup {A B : Type} (g : A → B) (P : A → bool) (l : list A) :
  NoDup (g <$> l) → NoDup (g <$> list_remove_first P l).
Proof.
  induction l as [|y l IH]; cbn [list_remove_first]; [done|].
  rewrite fmap_cons. intros [Hy Hl]%NoDup_cons.
  destruct (P y); [done|]. rewrite fmap_cons. apply NoDup_cons. split; [|by apply IH].
  intros (x & Heq & Hx)%list_elem_of_fmap. apply Hy, list_elem_of_fmap. exists x.
  split; [done|]. by eapply list_remove_first_elem_of.
Qed.

Lemma list_alter_first_entries (P : ScanItem → bool) (v : bool) (l : list ScanItem) :
  item_entry <$> list_alter_first P (with_for_playback v) l = item_entry <$> l.
Proof.
  induction l as [|x l IH]; cbn [list_alter_first]; [done|].
  destruct (P x); [done|]. cbn [fmap list_fmap] in *. by rewrite IH.
Qed.

(** What [scan_reset_playback] does to the scan list *)
Lemma scan_reset_playback_list (s : State) :
  (n_for_playback s ≤ 1)%nat →
  Forall (λ item, for_playback item = false) (scan_list (scan_reset_playback s))
  ∧ item_entry <$> scan_list (scan_reset_playback s) = item_entry <$> scan_list s
  ∧ trace (scan_reset_playback s) = trace s ++ requeued s
  ∧ id_table (scan_reset_playback s) = id_table s
  ∧ playing_id (scan_reset_playback s) = playing_id s
  ∧ next_request (scan_reset_playback s) = next_request s.
Proof.
  intros Hone. unfold scan_reset_playback, requeued.
  destruct (list_find_first for_playback (scan_list s)) as [item|] eqn:Hfind.
  - assert (Forall (λ item, for_playback item = false)
              (list_alter_first for_playback (with_for_playback false) (scan_list s))
            ∧ item_entry <$> list_alter_first for_playback (with_for_playback false)
                               (scan_list s)
              = item_entry <$> scan_list s) as [Hclear Hentries].
    { split; [by apply list_alter_first_clears|apply list_alter_first_entries]. }
    destruct (handled_by_playback item); cbn [negb]; repeat split; try done.
    by rewrite app_nil_r.
  - apply list_find_first_None in Hfind. repeat split; [done..|]. by rewrite app_nil_r.
Qed.

(** X18.  Playback always begins with a new scan of the entry that is
    played, left to the playback thread.  When at most one scan item is
    marked for playback and no entry has two scan items,
    [start_playback_locked] leaves exactly one item marked for playback:
    the last of the scan list, made for the current entry of the playing
    playlist, asking for the image and the file (and for the tuple when
    the entry has no valid one), and not sent to the scanner.  No other
    item is left for that entry.  The item that was marked for playback
    before loses the mark, and its request goes to the scanner when the
    playback thread had not taken it. *)
Theorem start_playback_locked_rescans (seek_time : Z) (pause : bool) (s : State) (p : Z)
    (d : PlaylistData) (entry : PlaylistEntry) :
  playing_id s = Some p → get_data s p = Some d →
  entry_at d (position d) = Some entry →
  (n_for_playback s ≤ 1)%nat →
  NoDup (item_entry <$> scan_list s) →
  ∃ rest request,
    scan_list (start_playback_locked seek_time pause s)
    = rest ++ [ {| item_playlist := p; item_entry := e_addr entry; item_request := request;
                   for_playback := true; handled_by_playback := false |} ]
    ∧ Forall (λ item, for_playback item = false ∧ item_entry item ≠ e_addr entry) rest
    ∧ n_for_playback (start_playback_locked seek_time pause s) = 1%nat
    ∧ NoDup (item_entry <$> scan_list (start_playback_locked seek_time pause s))
    ∧ req_filename request = e_filename entry
    ∧ has_flag (req_flags request) SCAN_IMAGE = true
    ∧ has_flag (req_flags request) SCAN_FILE = true
    ∧ has_flag (req_flags request) SCAN_TUPLE = negb (tuple_valid (e_tuple entry))
    ∧ trace (start_playback_locked seek_time pause s)
      = trace s ++ art_clear_current :: requeued s ++ [playback_play seek_time pause].
Proof.
  intros Hplaying Hd Hentry Hone Hnodup. unfold start_playback_locked.
  destruct (scan_reset_playback_list (emit art_clear_current s) Hone)
    as (Hclear & Hentries & Htrace & Htable & Hplay & Hnext).
  set (s2 := scan_reset_playback (emit art_clear_current s)) in *.
  set (s3 := emit (playback_play seek_time pause) s2).
  assert (playing_id s3 = Some p) as -> by (by rewrite <- Hplaying).
  assert (get_data s3 p = Some d) as -> by (by rewrite (get_data_ext s3 s p)).
  rewrite Hentry.
  assert (NoDup (item_entry <$> scan_list s3)) as Hnodup3.
  { change (scan_list s3) with (scan_list s2). rewrite Hentries. exact Hnodup. }
  pose proof (scan_cancel_removes (e_addr entry) s3 Hnodup3) as Hgone.
  assert (Forall (λ item, for_playback item = false) (scan_list (scan_cancel (e_addr entry) s3)))
    as Hclear4.
  { unfold scan_cancel. destruct (scan_list_find_entry _ _); [|done].
    by apply list_remove_first_Forall. }
  assert (NoDup (item_entry <$> scan_list (scan_cancel (e_addr entry) s3))) as Hnodup4.
  { unfold scan_cancel. destruct (scan_list_find_entry _ _); [|done].
    cbn [scan_list with_scan_list]. by apply list_remove_first_NoDup. }
  assert (trace (scan_cancel (e_addr entry) s3)
          = trace s ++ art_clear_current :: requeued s ++ [playback_play seek_time pause])
    as Htrace4.
  { transitivity (trace s3); [unfold scan_cancel; by repeat frame_step|].
    unfold s3, emit at 1. cbn [trace with_trace]. rewrite Htrace.
    unfold emit. cbn [trace with_trace]. change (requeued (with_trace _ s)) with (requeued s).
    rewrite <- !app_assoc. done. }
  set (s4 := scan_cancel (e_addr entry) s3) in *.
  unfold scan_queue_entry. cbn [negb scan_list with_scan_list with_next_request].
  eexists (scan_list s4), _. split; [reflexivity|].
  cbn [req_filename req_flags].
  split; [|split; [|split; [|split; [done|]]]].
  - apply Forall_forall. intros item Hitem. split.
    + by apply (proj1 (Forall_forall _ _) Hclear4).
    + by apply (proj1 (Forall_forall _ _) Hgone).
  - unfold n_for_playback. cbn [scan_list with_scan_list].
    rewrite List.filter_app, (filter_all_false _ _ Hclear4). done.
  - cbn [scan_list with_scan_list]. rewrite fmap_app. apply NoDup_app. split; [done|].
    split; [|apply NoDup_singleton]. intros x Hx [= ->]%list_elem_of_singleton.
    apply list_elem_of_fmap in Hx as (item & Heq & Hitem).
    by apply (proj1 (Forall_forall _ _) Hgone item).
  - destruct (tuple_valid (e_tuple entry)); cbn [negb]; repeat split; done.
Qed.

(** Playback is started again on the first song of the playlist 1000,
    whose scan for playback is still in flight: the old item goes, one
    item for playback is left. *)
Lemma start_playback_locked_rescans_witness :
  n_for_playback (start_playback_locked 0 false playing_State) = 1%nat.
Proof.
  assert (∃ d entry, get_data playing_State 1000 = Some d
                     ∧ entry_at d (position d) = Some entry)
    as (d & entry & Hd & Hentry) by (vm_compute; eauto).
  destruct (start_playback_locked_rescans 0 false playing_State 1000 d entry)
    as (_ & _ & _ & _ & Hone & _); [vm_compute; reflexivity|exact Hd|exact Hentry| | |exact Hone].
  - vm_compute. lia.
  - assert (item_entry <$> scan_list playing_State = [1]) as -> by (vm_compute; reflexivity).
    apply NoDup_singleton.
Defined.

(** ** Reading an entry without waiting *)

Lemma get_entry_nowait (wakeups : list State) (m_id : option Z) (entry_num : Z) (s : State) :
  get_entry wakeups m_id entry_num false false s
  = Returned (current_entry m_id entry_num s) s.
Proof.
  unfold get_entry. destruct wakeups; cbn [get_entry_loop];
    unfold get_entry_turn, current_entry;
    destruct m_id as [id|]; [|done| |done];
    (destruct (get_data s id) as [d|]; [|done]);
    (destruct (entry_at d entry_num) as [entry|]; [|done]);
    by destruct (String.prefix "stdin://" (e_filename entry)).
Qed.

(** X19.  In the mode [Nowait], [entry_decoder] and [entry_tuple] never
    wait and never start a scan: whatever the other threads would do, the
    call returns at once, with the state as it was, the decoder and the
    tuple that the entry has at that moment (none, and an empty tuple,
    when the handle is dead or the entry does not exist) and, when asked
    for, its error. *)
Theorem entry_nowait (wakeups : list State) (entry_num : Z) (want_error : bool)
    (m_id : option Z) (s : State) :
  Playlist_entry_decoder wakeups entry_num Nowait want_error m_id s
  = Some (s, (match current_entry m_id entry_num s with
              | Some e => e_decoder e
              | None => None
              end,
              if want_error
              then Some (match current_entry m_id entry_num s with
                         | Some e => e_error e
                         | None => None
                         end)
              else None))
  ∧ Playlist_entry_tuple wakeups entry_num Nowait want_error m_id s
    = Some (s, (match current_entry m_id entry_num s with
                | Some e => e_tuple e
                | None => empty_Tuple
                end,
                if want_error
                then Some (match current_entry m_id entry_num s with
                           | Some e => e_error e
                           | None => None
                           end)
                else None)).
Proof.
  unfold Playlist_entry_decoder, Playlist_entry_tuple. cbn [is_Wait].
  by rewrite !get_entry_nowait.
Qed.

(** ** The title and the file name of a playlist *)

(** X20.  [set_title] and [set_filename] through a live handle are read
    back by [get_title] and [get_filename]; either call marks the playlist
    as modified, leaves its other name, its entries and its position as
    they are, leaves every other playlist as it is, and leaves a global
    update of the level [Metadata] at least pending. *)
Theorem set_title_filename_read_back (text : string) (p : Z) (d : PlaylistData) (s : State) :
  get_data s p = Some d →
  (Playlist_get_title (Some p) (Playlist_set_title text (Some p) s)
   = (Playlist_set_title text (Some p) s, Some text)
   ∧ get_data (Playlist_set_title text (Some p) s) p
     = Some (with_modified true (with_title (Some text) d))
   ∧ (∀ q, q ≠ p → get_data (Playlist_set_title text (Some p) s) q = get_data s q)
   ∧ update_pending_any (Playlist_set_title text (Some p) s) = true)
  ∧ (Playlist_get_filename (Some p) (Playlist_set_filename text (Some p) s)
     = (Playlist_set_filename text (Some p) s, Some text)
     ∧ get_data (Playlist_set_filename text (Some p) s) p
       = Some (with_modified true (with_filename (Some text) d))
     ∧ (∀ q, q ≠ p → get_data (Playlist_set_filename text (Some p) s) q = get_data s q)
     ∧ update_pending_any (Playlist_set_filename text (Some p) s) = true).
Proof.
  intros Hd.
  assert (∀ f : PlaylistData → PlaylistData,
            let s' := queue_global_update Metadata 0
                        (update_data p (with_modified true) (update_data p f s)) in
            get_data s' p = Some (with_modified true (f d))
            ∧ (∀ q, q ≠ p → get_data s' q = get_data s q)
            ∧ update_pending_any s' = true) as Hset.
  { intros f s'.
    assert (∀ q, get_data s' q
                 = get_data (update_data p (with_modified true) (update_data p f s)) q) as Hq.
    { intros q. apply get_data_ext. by apply id_table_queue_global_update. }
    split; [|split].
    - by rewrite Hq, !get_data_update_data, !decide_True, Hd.
    - intros q Hne. by rewrite Hq, !get_data_update_data, !decide_False.
    - unfold update_pending_any, s'. rewrite queue_global_update_level.
      by destruct (update_level _). }
  unfold Playlist_set_title, Playlist_set_filename, Playlist_get_title, Playlist_get_filename,
    ENTER_GET_PLAYLIST. rewrite Hd. cbn [fst].
  split.
  - destruct (Hset (with_title (Some text))) as (Hp & Hq & Hpending). rewrite Hp. done.
  - destruct (Hset (with_filename (Some text))) as (Hp & Hq & Hpending). rewrite Hp. done.
Qed.

(** The playlist 1000 gets a title, which is read back. *)
Lemma set_title_filename_read_back_witness :
  Playlist_get_title (Some 1000) (Playlist_set_title "Favourites" (Some 1000) two_songs_State)
  = (Playlist_set_title "Favourites" (Some 1000) two_songs_State, Some "Favourites").
Proof.
  assert (∃ d, get_data two_songs_State 1000 = Some d) as [d Hd] by (vm_compute; eauto).
  by destruct (set_title_filename_read_back "Favourites" 1000 d two_songs_State Hd)
    as [[Htitle _] _].
Defined.

(** ** The state file read back *)

(** *** What [fprintf] writes, [sscanf] reads *)

Lemma scan_digits_string_of_uint (d : Decimal.uint) (acc : Z) :
  scan_digits (NilEmpty.string_of_uint d) acc = uint_value d acc.
Proof.
  revert acc. induction d; intros acc; cbn [NilEmpty.string_of_uint scan_digits uint_value];
    [done|..];
    match goal with
    | |- context [digit_of ?c] =>
        let v := eval vm_compute in (digit_of c) in change (digit_of c) with v
    end; cbv iota beta; rewrite IHd; f_equal; lia.
Qed.

Lemma uint_value_pos (d : Decimal.uint) (acc : positive) :
  uint_value d (Z.pos acc) = Z.pos (Pos.of_uint_acc d acc).
Proof.
  revert acc. induction d; intros acc; cbn [uint_value Pos.of_uint_acc]; [done|..];
    rewrite <- IHd; f_equal; lia.
Qed.

Lemma uint_value_of_uint (d : Decimal.uint) : uint_value d 0 = Z.of_uint d.
Proof.
  unfold Z.of_uint.
  induction d; cbn [uint_value Pos.of_uint]; [done| |..];
    [by rewrite <- IHd|..];
    change (10 * 0 + ?k) with k; apply uint_value_pos.
Qed.

Lemma string_of_uint_head (d : Decimal.uint) :
  d ≠ Decimal.Nil →
  ∃ c rest, NilEmpty.string_of_uint d = String c rest
            ∧ is_Some (digit_of c) ∧ is_space c = false
            ∧ c ≠ "-"%char ∧ c ≠ "+"%char.
Proof.
  destruct d; [done|..]; intros _; cbn [NilEmpty.string_of_uint];
    eexists _, _; (split; [reflexivity|]); (split; [by vm_compute; eexists|]);
    (split; [by vm_compute|]); split; discriminate.
Qed.

Lemma sscanf_d_unsigned (d : Decimal.uint) :
  d ≠ Decimal.Nil → sscanf_d (NilEmpty.string_of_uint d) = Some (Z.of_uint d).
Proof.
  intros Hd. destruct (string_of_uint_head d Hd) as (c & rest & Heq & [v Hv] & Hsp & Hm & Hp).
  unfold sscanf_d. rewrite <- uint_value_of_uint, <- scan_digits_string_of_uint.
  rewrite Heq. cbn [skip_spaces]. rewrite Hsp.
  destruct c as [[] [] [] [] [] [] [] []]; try done; by rewrite ?Hv.
Qed.

Lemma NilZero_string_of_uint_nonnil (d : Decimal.uint) :
  d ≠ Decimal.Nil → NilZero.string_of_uint d = NilEmpty.string_of_uint d.
Proof. by destruct d. Qed.

Lemma sscanf_d_print_d (n : Z) : sscanf_d (print_d n) = Some n.
Proof.
  unfold print_d. rewrite <- (DecimalZ.of_to n) at 2.
  destruct n as [|p|p]; cbn [Z.to_int NilZero.string_of_int Z.of_int].
  - done.
  - rewrite NilZero_string_of_uint_nonnil by apply Unsigned.to_uint_nonnil.
    apply sscanf_d_unsigned, Unsigned.to_uint_nonnil.
  - rewrite NilZero_string_of_uint_nonnil by apply Unsigned.to_uint_nonnil.
    pose proof (sscanf_d_unsigned (Pos.to_uint p) (Unsigned.to_uint_nonnil p)) as H.
    destruct (string_of_uint_head _ (Unsigned.to_uint_nonnil p))
      as (c & rest & Heq & [v Hv] & Hsp & Hm & Hp).
    revert H. unfold sscanf_d. rewrite Heq. cbn [skip_spaces]. rewrite Hsp.
    change (is_space "-") with false. cbv iota.
    destruct c as [[] [] [] [] [] [] [] []]; try done; rewrite ?Hv; congruence.
Qed.

Lemma has_char_string_of_uint (d : Decimal.uint) :
  has_char newline (NilEmpty.string_of_uint d) = false.
Proof. induction d; cbn [NilEmpty.string_of_uint has_char]; [done|..]; by rewrite IHd. Qed.

Lemma has_char_print_d (n : Z) : has_char newline (print_d n) = false.
Proof.
  unfold print_d.
  destruct n as [|p|p]; cbn [Z.to_int NilZero.string_of_int]; [done|..];
    rewrite NilZero_string_of_uint_nonnil by apply Unsigned.to_uint_nonnil;
    cbn [has_char String.append]; by rewrite ?has_char_string_of_uint.
Qed.

(** *** The lines of the file, one by one *)

Lemma string_app_nil (b : string) : (EmptyString ++ b)%string = b.
Proof. reflexivity. Qed.

Lemma string_app_cons (x : ascii) (a b : string) :
  (String x a ++ b)%string = String x (a ++ b)%string.
Proof. reflexivity. Qed.

Lemma string_app_assoc (a b c : string) : ((a ++ b) ++ c = a ++ (b ++ c))%string.
Proof.
  induction a as [|x a IH]; rewrite ?string_app_nil, ?string_app_cons; [done|by rewrite IH].
Qed.

Lemma has_char_app (c : ascii) (a b : string) :
  has_char c (a ++ b)%string = has_char c a || has_char c b.
Proof.
  induction a as [|x a IH]; rewrite ?string_app_nil, ?string_app_cons; cbn [has_char]; [done|].
  by rewrite IH, orb_assoc.
Qed.

Lemma fgets_line (line rest : string) :
  has_char newline line = false →
  fgets (line ++ String newline rest)%string = ((line ++ String newline "")%string, rest).
Proof.
  induction line as [|a line IH]; rewrite ?string_app_nil, ?string_app_cons;
    cbn [has_char fgets].
  - by rewrite Ascii.eqb_refl.
  - intros [Ha Hline]%orb_false_iff. by rewrite Ha, IH.
Qed.

Lemma cut_at_first (c : ascii) (a b : string) :
  has_char c a = false → cut_at c (a ++ String c b)%string = Some (a, b).
Proof.
  induction a as [|x a IH]; rewrite ?string_app_nil, ?string_app_cons;
    cbn [has_char cut_at].
  - by rewrite Ascii.eqb_refl.
  - intros [Hx Ha]%orb_false_iff. by rewrite Hx, IH.
Qed.

Lemma print_line_text (l : StateLine) :
  print_line l = (line_key l ++ String " " (line_text l ++ String newline ""))%string.
Proof. by destruct l. Qed.

Lemma TextParser_next_line (l : StateLine) (rest : string) (p : TextParser) :
  line_ok l →
  tp_file p = (print_line l ++ rest)%string →
  TextParser_next p = {| tp_file := rest; tp_key := line_key l; tp_val := Some (line_text l) |}.
Proof.
  intros (Hsp & Hnl & Htext) Hfile. unfold TextParser_next. rewrite Hfile, print_line_text.
  assert (((line_key l ++ String " " (line_text l ++ String newline "")) ++ rest)%string
          = ((line_key l ++ String " " (line_text l)) ++ String newline rest)%string) as ->.
  { by rewrite !string_app_assoc, !string_app_cons, string_app_assoc, string_app_cons,
      string_app_nil. }
  pose proof (fgets_line (line_key l ++ String " " (line_text l)) rest) as Hgets.
  rewrite has_char_app in Hgets. cbn [has_char] in Hgets.
  rewrite Hnl, Htext in Hgets. specialize (Hgets eq_refl).
  destruct ((line_key l ++ String " " (line_text l)) ++ String newline rest)%string eqn:Hfull.
  { by destruct (line_key l). }
  rewrite Hgets.
  rewrite string_app_assoc, string_app_cons.
  rewrite (cut_at_first " " _ _ Hsp), (cut_at_first newline _ _ Htext). done.
Qed.

Lemma parser_on_next (l : StateLine) (ls : list StateLine) (p : TextParser) :
  Forall line_ok ls → parser_on (l :: ls) p → parser_on ls (TextParser_next p).
Proof.
  intros Hok (_ & _ & Hfile). destruct ls as [|l' ls].
  - unfold TextParser_next. by rewrite Hfile.
  - apply Forall_cons in Hok as [Hl' _].
    by rewrite (TextParser_next_line l' (print_lines ls) p Hl' Hfile).
Qed.

Lemma parser_on_new (ls : list StateLine) :
  Forall line_ok ls → parser_on ls (TextParser_new (print_lines ls)).
Proof.
  intros Hok. unfold TextParser_new. destruct ls as [|l ls].
  - done.
  - apply Forall_cons in Hok as [Hl _].
    by rewrite (TextParser_next_line l (print_lines ls)
                  {| tp_file := print_lines (l :: ls); tp_key := EmptyString; tp_val := None |}
                  Hl eq_refl).
Qed.

Lemma get_int_on (key : string) (l : StateLine) (ls : list StateLine) (p : TextParser) :
  parser_on (l :: ls) p →
  TextParser_get_int key p
  = if String.eqb (line_key l) key then sscanf_d (line_text l) else None.
Proof. intros (Hkey & Hval & _). unfold TextParser_get_int. by rewrite Hval, Hkey. Qed.

Lemma get_int_on_IntLine (key : string) (val : Z) (ls : list StateLine) (p : TextParser) :
  parser_on (IntLine key val :: ls) p → TextParser_get_int key p = Some val.
Proof.
  intros Hon. rewrite (get_int_on _ _ _ _ Hon). cbn [line_key line_text].
  by rewrite String.eqb_refl, sscanf_d_print_d.
Qed.

Lemma get_str_on (key : string) (l : StateLine) (ls : list StateLine) (p : TextParser) :
  parser_on (l :: ls) p →
  TextParser_get_str key p
  = if String.eqb (line_key l) key then Some (line_text l) else None.
Proof. intros (Hkey & Hval & _). unfold TextParser_get_str. by rewrite Hval, Hkey. Qed.

Lemma get_int_on_end (key : string) (p : TextParser) :
  parser_on [] p → TextParser_get_int key p = None.
Proof. intros [Hval _]. unfold TextParser_get_int. by rewrite Hval. Qed.

(** *** The lines of one playlist *)

Lemma line_ok_IntLine (key : string) (val : Z) :
  has_char " "%char key = false → has_char newline key = false → line_ok (IntLine key val).
Proof. intros Hsp Hnl. repeat split; [done..|]. apply has_char_print_d. Qed.

Lemma playlist_save_lines_ok (paused : bool) (time : Z) (s : State) (p : Z) :
  filenames_one_line s → Forall line_ok (playlist_save_lines paused time s p).
Proof.
  intros Hnames. unfold playlist_save_lines.
  destruct (get_data s p) as [d|] eqn:Hd; [|constructor].
  repeat first [apply Forall_app; split | apply Forall_cons; split | apply Forall_nil_2
               | by apply line_ok_IntLine].
  destruct (filename d) as [name|] eqn:Hname; [|constructor].
  apply Forall_cons; split; [|constructor].
  repeat split; [done..|]. by apply (Hnames p d).
Qed.

Lemma save_state_lines_ok (paused : bool) (time : Z) (s : State) :
  filenames_one_line s → Forall line_ok (save_state_lines paused time s).
Proof.
  intros Hnames. unfold save_state_lines.
  apply Forall_app; split.
  - repeat (apply Forall_cons; split; [by apply line_ok_IntLine|]). constructor.
  - apply Forall_flat_map, Forall_forall. intros p _. by apply playlist_save_lines_ok.
Qed.


Lemma load_playlist_state_lines (paused : bool) (time : Z) (s0 s : State) (p j : Z)
    (d dl : PlaylistData) (rest : list StateLine) (parser : TextParser) :
  get_data s0 p = Some d → get_data s p = Some dl →
  m_entries dl = m_entries d →
  position_numbered d →
  Forall line_ok (playlist_save_lines paused time s0 p ++ rest) →
  parser_on (playlist_save_lines paused time s0 p ++ rest) parser →
  ∃ s' parser',
    load_playlist_state j p parser s = (s', parser')
    ∧ parser_on rest parser'
    ∧ playlists s' = playlists s
    ∧ active_id s' = active_id s
    ∧ resume_playlist s' = resume_playlist s
    ∧ resume_paused s'
      = resume_paused s
        || ((j =? resume_playlist s) && (ptr_eqb (Some p) (playing_id s0) && paused))
    ∧ (∃ d', get_data s' p = Some d'
             ∧ restored (ptr_eqb (Some p) (playing_id s0)) time d dl d')
    ∧ (∀ q, q ≠ p → get_data s' q = get_data s q).
Proof.
  intros Hd0 Hd Hentries Hentry Hok Hon.
  unfold playlist_save_lines in Hok, Hon. rewrite Hd0 in Hok, Hon.
  set (is_playing := ptr_eqb (Some p) (playing_id s0)) in *.
  set (state := if is_playing && paused then ResumePause else ResumePlay) in *.
  set (time' := if is_playing then time else resume_time d) in *.
  unfold load_playlist_state.
  cbn [app] in Hok, Hon.
  apply Forall_cons in Hok as [_ Hok].
  pose proof (parser_on_next _ _ _ Hok Hon) as Hon1.
  rewrite <- app_assoc in Hok, Hon1.
  apply Forall_app in Hok as [Hname Hok]. cbn [app] in Hok, Hon1.
  assert (TextParser_get_str "filename" (TextParser_next parser) = filename d
          ∧ parser_on (IntLine "position" (position d) :: IntLine "resume-state" state
                       :: IntLine "resume-time" time' :: rest)
              (match filename d with
               | Some _ => TextParser_next (TextParser_next parser)
               | None => TextParser_next parser
               end)) as [Hstr Hon2].
  { destruct (filename d) as [name|]; cbn [app] in Hon1.
    - rewrite (get_str_on _ _ _ _ Hon1). split; [done|]. exact (parser_on_next _ _ _ Hok Hon1).
    - by rewrite (get_str_on _ _ _ _ Hon1). }
  rewrite Hstr.
  set (parser2 := match filename d with
                  | Some _ => TextParser_next (TextParser_next parser)
                  | None => TextParser_next parser
                  end) in *.
  clearbody parser2. clear Hon Hon1 Hname Hstr.
  rewrite (get_int_on_IntLine _ _ _ _ Hon2). cbv beta iota zeta.
  apply Forall_cons in Hok as [_ Hok].
  pose proof (parser_on_next _ _ _ Hok Hon2) as Hon3.
  rewrite (get_int_on_IntLine _ _ _ _ Hon3). cbv beta iota zeta.
  apply Forall_cons in Hok as [_ Hok].
  pose proof (parser_on_next _ _ _ Hok Hon3) as Hon4.
  rewrite (get_int_on_IntLine _ _ _ _ Hon4).
  apply Forall_cons in Hok as [_ Hok].
  pose proof (parser_on_next _ _ _ Hok Hon4) as Hon5.
  rewrite get_data_update_data, Hd, decide_True by done. cbn [fmap option_fmap option_map].
  assert (entry_at (with_filename (filename d) dl) (position d) = entry_at d (position d))
    as -> by (unfold entry_at; cbn; by rewrite Hentries).
  eexists _, _. split; [reflexivity|]. split; [exact Hon5|].
  assert ((state =? ResumeStop) = false) as ->
    by (subst state; by destruct (is_playing && paused)).
  assert ((state =? ResumePause) = (is_playing && paused)) as ->
    by (subst state; by destruct (is_playing && paused)).
  pose proof (Hentry) as Hnum. unfold position_numbered in Hnum.
  unfold restored.
  destruct (entry_at d (position d)) as [e|] eqn:He;
    [specialize (Hnum e eq_refl)|clear Hnum].
  all: assert (∀ a f x, resume_playlist (update_data a f x) = resume_playlist x) as Hrp by done.
  all: rewrite !Hrp.
  all: destruct (j =? resume_playlist s), (is_playing && paused);
    cbn [andb]; rewrite ?orb_false_r, ?orb_true_r.
  all: assert (∀ b x k, get_data (with_resume_paused b x) k = get_data x k) as Hgp by done.
  all: repeat split; try done.
  all: try (intros q Hq; repeat rewrite ?Hgp, ?get_data_update_data;
            by rewrite ?decide_False by done).
  all: repeat rewrite ?Hgp, ?get_data_update_data.
  all: rewrite !decide_True, Hd by done.
  all: eexists; (split; [reflexivity|]).
  all: by cbn.
Qed.

(** *** The loop over the playlists *)

Lemma has_index_id_index (s : State) (p i : Z) : has_index s p i → id_index s p = i.
Proof. intros (r & Hr & Hi). unfold id_index. by rewrite Hr. Qed.

(** [s0] wrote the file, [sl] is the program that started to read it, and
    [s] the program when the playlists [done] have been read. *)
Lemma load_playlist_states_lines (paused : bool) (time : Z) (s0 sl : State) (ps : list Z) :
  ∀ (done : list Z) (s : State) (parser : TextParser) (fuel : nat),
    registry_inv s0 →
    (∀ p d, get_data s0 p = Some d → position_numbered d) →
    (∀ p d, get_data s0 p = Some d →
       ∃ dl, get_data sl p = Some dl ∧ m_entries dl = m_entries d) →
    playlists s0 = done ++ ps →
    Forall line_ok (flat_map (playlist_save_lines paused time s0) ps) →
    parser_on (flat_map (playlist_save_lines paused time s0) ps) parser →
    (length ps ≤ fuel)%nat →
    playlists s = playlists s0 →
    resume_playlist s = playing_index s0 →
    (∀ p, p ∈ ps → get_data s p = get_data sl p) →
    playlists (load_playlist_states fuel parser s) = playlists s
    ∧ active_id (load_playlist_states fuel parser s) = active_id s
    ∧ resume_playlist (load_playlist_states fuel parser s) = resume_playlist s
    ∧ resume_paused (load_playlist_states fuel parser s)
      = resume_paused s || (playing_among s0 ps && paused)
    ∧ (∀ p d dl, p ∈ ps → get_data s0 p = Some d → get_data sl p = Some dl →
         ∃ d', get_data (load_playlist_states fuel parser s) p = Some d'
               ∧ restored (ptr_eqb (Some p) (playing_id s0)) time d dl d')
    ∧ (∀ q, q ∉ ps → get_data (load_playlist_states fuel parser s) q = get_data s q).
Proof.
  induction ps as [|p ps IH];
    intros done s parser fuel Hinv Hnum Hentries Hsplit Hok Hon Hfuel Hpl Hres Hsame.
  - assert (load_playlist_states fuel parser s = s) as ->.
    { destruct fuel; cbn [load_playlist_states]; by rewrite (get_int_on_end _ _ Hon). }
    cbn [playing_among existsb andb]. rewrite orb_false_r.
    repeat split; try done. intros p d dl Hp. by apply elem_of_nil in Hp.
  - destruct fuel as [|fuel]; [cbn [length] in Hfuel; lia|].
    cbn [length] in Hfuel.
    assert (playlists s0 !! length done = Some p) as Hat.
    { rewrite Hsplit. by rewrite list_lookup_middle. }
    pose proof (has_index_id_index _ _ _ (inv_index _ Hinv _ _ Hat)) as Hidx.
    assert (p ∈ playlists s0) as Hin by (by eapply list_elem_of_lookup_2).
    destruct (proj2 (inv_live _ Hinv p) Hin) as [d Hd0].
    destruct (Hentries p d Hd0) as (dl & Hdl & Hes).
    pose proof (inv_nodup _ Hinv) as Hnodup. rewrite Hsplit in Hnodup.
    apply NoDup_app in Hnodup as (_ & _ & Hnodup). apply NoDup_cons in Hnodup as [Hnotin _].
    cbn [flat_map] in Hok, Hon.
    assert (TextParser_get_int "playlist" parser = Some (Z.of_nat (length done))) as Hget.
    { revert Hon. unfold playlist_save_lines at 1. rewrite Hd0, Hidx. cbn [app].
      apply get_int_on_IntLine. }
    assert (get_data s p = Some dl) as Hd by (rewrite Hsame; [done|left]).
    destruct (load_playlist_state_lines paused time s0 s p (Z.of_nat (length done)) d dl _ parser
                Hd0 Hd Hes (Hnum _ _ Hd0) Hok Hon)
      as (s1 & parser1 & Hstep & Hon1 & Hpl1 & Hact1 & Hres1 & Hpaused1
          & (d1 & Hd1 & Hrestored) & Hother).
    assert (load_playlist_states (S fuel) parser s = load_playlist_states fuel parser1 s1) as ->.
    { cbn [load_playlist_states]. rewrite Hget, Hpl.
      assert ((0 <=? Z.of_nat (length done)) && (Z.of_nat (length done) <? len (playlists s0))
              = true) as ->.
      { apply andb_true_iff. split; [apply Z.leb_le; lia|apply Z.ltb_lt].
        unfold len. rewrite Hsplit, length_app. cbn [length]. lia. }
      rewrite index_get_of_nat, Hat, Hstep. by destruct fuel. }
    apply Forall_app in Hok as [_ Hok].
    destruct (IH (done ++ [p]) s1 parser1 fuel Hinv Hnum Hentries)
      as (Hpl' & Hact' & Hres' & Hpaused' & Hdone' & Hother').
    + by rewrite <- app_assoc.
    + done.
    + done.
    + lia.
    + congruence.
    + congruence.
    + intros q Hq. rewrite Hother; [apply Hsame; by right|]. intros ->. done.
    + split; [congruence|]. split; [congruence|]. split; [congruence|]. split.
      * rewrite Hpaused', Hpaused1. cbn [playing_among existsb].
        fold (playing_among s0 ps).
        destruct (ptr_eqb (Some p) (playing_id s0)) eqn:Hplaying.
        -- assert ((Z.of_nat (length done) =? resume_playlist s) = true) as ->.
           { apply Z.eqb_eq. rewrite Hres. unfold playing_index.
             destruct (playing_id s0) as [q|]; [|done]. cbn [ptr_eqb] in Hplaying.
             apply Z.eqb_eq in Hplaying. by subst. }
           by destruct paused, (resume_paused s), (playing_among s0 ps).
        -- by rewrite andb_false_r, orb_false_r.
      * split.
        -- intros q dq dlq [->|Hq]%elem_of_cons Hdq Hdlq.
           ++ rewrite Hother' by done. exists d1. split; [done|]. congruence.
           ++ by apply Hdone'.
        -- intros q Hq. apply not_elem_of_cons in Hq as [Hqp Hq].
           rewrite Hother' by done. by apply Hother.
Qed.

(** *** The end of [playlist_load_state] *)

Lemma keeps_saved_refl (s : State) : keeps_saved s s.
Proof. repeat split. intros p d Hd. by exists d. Qed.

Lemma keeps_saved_trans (s1 s2 s3 : State) :
  keeps_saved s1 s2 → keeps_saved s2 s3 → keeps_saved s1 s3.
Proof.
  intros (Hpl & Hact & Hres & Hpaused & Hdata) (Hpl' & Hact' & Hres' & Hpaused' & Hdata').
  repeat split; [congruence..|].
  intros p d Hd. destruct (Hdata p d Hd) as (d' & Hd' & Hpos & Hname & Htime).
  destruct (Hdata' p d' Hd') as (d'' & Hd'' & Hpos' & Hname' & Htime').
  exists d''. repeat split; congruence.
Qed.

Lemma keeps_saved_update_data (id : Z) (f : PlaylistData → PlaylistData) (s : State) :
  (∀ d, position (f d) = position d ∧ filename (f d) = filename d
        ∧ resume_time (f d) = resume_time d) →
  keeps_saved s (update_data id f s).
Proof.
  intros Hf. repeat split. intros p d Hd. rewrite get_data_update_data, Hd.
  case_decide; [|by exists d]. exists (f d). split; [done|]. apply Hf.
Qed.

Lemma PlaylistData_select_entry_saved (entry_num : Z) (selected : bool) (d : PlaylistData) :
  position (PlaylistData_select_entry entry_num selected d) = position d
  ∧ filename (PlaylistData_select_entry entry_num selected d) = filename d
  ∧ resume_time (PlaylistData_select_entry entry_num selected d) = resume_time d.
Proof. unfold PlaylistData_select_entry. by destruct (entry_at d entry_num). Qed.

Lemma set_initial_focus_keeps (s : State) (playlist : Z) :
  keeps_saved s (set_initial_focus s playlist).
Proof.
  unfold set_initial_focus. destruct (get_data s playlist) as [d|]; [|apply keeps_saved_refl].
  cbv zeta. eapply keeps_saved_trans; [|by apply keeps_saved_update_data].
  destruct (0 <=? _); [|apply keeps_saved_refl].
  apply keeps_saved_update_data. intros d'.
  destruct (PlaylistData_select_entry_saved
              (if (position d <? 0) && negb (n_entries d =? 0) then 0 else position d) true
              (PlaylistData_set_focus
                 (if (position d <? 0) && negb (n_entries d =? 0) then 0 else position d) d'))
    as (-> & -> & ->).
  done.
Qed.

Lemma foldl_set_initial_focus_keeps (ps : list Z) (s : State) :
  keeps_saved s (foldl set_initial_focus s ps).
Proof.
  revert s. induction ps as [|p ps IH]; intros s; cbn [foldl]; [apply keeps_saved_refl|].
  eapply keeps_saved_trans; [apply set_initial_focus_keeps|apply IH].
Qed.

Lemma string_length_app (a b : string) :
  String.length (a ++ b)%string = (String.length a + String.length b)%nat.
Proof.
  induction a as [|x a IH]; rewrite ?string_app_nil, ?string_app_cons; cbn [String.length];
    [done|by rewrite IH].
Qed.

Lemma print_lines_length (ls : list StateLine) :
  (length ls ≤ String.length (print_lines ls))%nat.
Proof.
  induction ls as [|l ls IH]; cbn [print_lines foldr length]; [lia|].
  fold (print_lines ls). rewrite string_length_app, print_line_text, string_length_app.
  cbn [String.length]. lia.
Qed.

Lemma save_lines_length (paused : bool) (time : Z) (s : State) (ps : list Z) :
  (∀ p, p ∈ ps → is_Some (get_data s p)) →
  (length ps ≤ length (flat_map (playlist_save_lines paused time s) ps))%nat.
Proof.
  induction ps as [|p ps IH]; intros Hlive; cbn [flat_map length]; [lia|].
  rewrite length_app. specialize (IH (λ q Hq, Hlive q (list_elem_of_further _ _ _ Hq))).
  destruct (Hlive p (list_elem_of_here _ _)) as [d Hd].
  unfold playlist_save_lines at 1. rewrite Hd. cbn [app length]. lia.
Qed.

Lemma playing_among_registry (s : State) :
  registry_inv s →
  playing_among s (playlists s) = bool_decide (is_Some (playing_id s)).
Proof.
  intros Hinv. unfold playing_among.
  destruct (playing_id s) as [p|] eqn:Hplaying.
  - rewrite bool_decide_eq_true_2 by eauto. apply existsb_exists. exists p.
    split; [|apply Z.eqb_refl]. apply list_elem_of_In, (inv_playing _ Hinv p Hplaying).
  - rewrite bool_decide_eq_false_2 by (by intros [? ?]).
    induction (playlists s) as [|q ps IH]; [done|]. by cbn [existsb ptr_eqb orb].
Qed.


(** *** What reading the state file leaves alone *)

Lemma session_kept_refl (s : State) : session_kept s s.
Proof. by repeat split. Qed.

Lemma session_kept_trans (s1 s2 s3 : State) :
  session_kept s1 s2 → session_kept s2 s3 → session_kept s1 s3.
Proof.
  intros (? & ? & ? & ? & ?) (? & ? & ? & ? & ?). repeat split; congruence.
Qed.

Lemma load_playlist_state_session (j p : Z) (parser : TextParser) (s : State) :
  session_kept s (load_playlist_state j p parser s).1.
Proof.
  unfold load_playlist_state.
  repeat match goal with
         | |- context [match ?x with _ => _ end] => destruct x
         end; by repeat split.
Qed.

Lemma load_playlist_states_session (fuel : nat) :
  ∀ (parser : TextParser) (s : State),
    session_kept s (load_playlist_states fuel parser s).
Proof.
  induction fuel as [|fuel IH]; intros parser s; cbn [load_playlist_states];
    (destruct (TextParser_get_int "playlist" parser) as [n|]; [|apply session_kept_refl]);
    (destruct ((0 <=? n) && (n <? len (playlists s))); [|apply session_kept_refl]);
    (destruct (index_get (playlists s) n) as [p|]; [|apply session_kept_refl]);
    pose proof (load_playlist_state_session n p parser s) as Hone;
    destruct (load_playlist_state n p parser s) as [s1 parser1]; cbn [fst] in Hone.
  - exact Hone.
  - eapply session_kept_trans; [exact Hone|apply IH].
Qed.

Lemma foldl_set_initial_focus_session (ps : list Z) (s : State) :
  session_kept s (foldl set_initial_focus s ps).
Proof.
  revert s. induction ps as [|p ps IH]; intros s; cbn [foldl]; [apply session_kept_refl|].
  eapply session_kept_trans; [|apply IH].
  unfold set_initial_focus. destruct (get_data s p) as [d|]; [|apply session_kept_refl].
  cbv zeta. by destruct (0 <=? _).
Qed.

Lemma playlist_load_state_session (s : State) : session_kept s (playlist_load_state s).
Proof.
  unfold playlist_load_state. destruct (state_file (world s)) as [file|];
    [|apply session_kept_refl].
  cbv zeta.
  destruct (TextParser_get_int "active" (TextParser_new file)) as [n|];
    [destruct ((0 <=? n) && (n <? len (playlists s)))|];
    match goal with
    | |- context [TextParser_get_int "playing" ?p] =>
        destruct (TextParser_get_int "playing" p)
    end;
    match goal with
    | |- context [load_playlist_states ?fuel ?p ?x] =>
        pose proof (load_playlist_states_session fuel p x) as Hloop;
        pose proof (foldl_set_initial_focus_session
                      (playlists (load_playlist_states fuel p x))
                      (load_playlist_states fuel p x)) as Hfocus;
        destruct (session_kept_trans _ _ _ Hloop Hfocus) as (? & ? & ? & ? & ?)
    end; by repeat split.
Qed.

(** *** The round trip *)

Lemma playlist_load_state_reads (s0 s : State) :
  registry_inv s0 →
  state_file_writable (world s0) = true →
  filenames_one_line s0 →
  (∀ p d, get_data s0 p = Some d → position_numbered d) →
  reads_file_of s0 s →
  active_id (playlist_load_state s)
  = match active_id s0 with Some a => Some a | None => active_id s end
  ∧ resume_playlist (playlist_load_state s) = playing_index s0
  ∧ resume_paused (playlist_load_state s)
    = resume_paused s || (bool_decide (is_Some (playing_id s0)) && drct_paused (world s0))
  ∧ update_pending_any (playlist_load_state s) = false
  ∧ ∀ p d dl, get_data s0 p = Some d → get_data s p = Some dl →
      ∃ d', get_data (playlist_load_state s) p = Some d'
            ∧ restored (ptr_eqb (Some p) (playing_id s0)) (drct_time (world s0)) d dl d'.
Proof.
  intros Hinv Hwritable Hnames Hnum (Hfile & Hpls & Hentries).
  set (paused := drct_paused (world s0)). set (time := drct_time (world s0)).
  pose proof (save_state_lines_ok paused time s0 Hnames) as Hok.
  pose proof (parser_on_new _ Hok) as Hon.
  assert (state_file (world s) = Some (print_lines (save_state_lines paused time s0)))
    as Hfile'.
  { rewrite Hfile. unfold playlist_save_state. by rewrite Hwritable. }
  clear Hfile.
  set (file := print_lines (save_state_lines paused time s0)) in *.
  unfold playlist_load_state. rewrite Hfile'.
  cbv beta iota zeta.
  set (parser := TextParser_new file) in *.
  unfold save_state_lines in Hok, Hon. cbn [app] in Hok, Hon.
  rewrite (get_int_on_IntLine _ _ _ _ Hon).
  apply Forall_cons in Hok as [_ Hok].
  pose proof (parser_on_next _ _ _ Hok Hon) as Hon1.
  rewrite (get_int_on_IntLine _ _ _ _ Hon1).
  apply Forall_cons in Hok as [_ Hok].
  pose proof (parser_on_next _ _ _ Hok Hon1) as Hon2.
  change (match playing_id s0 with Some p => id_index s0 p | None => -1 end)
    with (playing_index s0).
  set (index_ := match active_id s0 with Some a => id_index s0 a | None => -1 end).
  set (activated := if (0 <=? index_) && (index_ <? len (playlists s))
                    then with_active_id (index_get (playlists s) index_) s
                    else s).
  assert (playlists activated = playlists s0
          ∧ active_id activated
            = match active_id s0 with Some a => Some a | None => active_id s end
          ∧ resume_paused activated = resume_paused s
          ∧ ∀ p, get_data activated p = get_data s p) as (Hpl & Hactive & Hpaused & Hdata).
  { subst activated index_. pose proof (inv_active _ Hinv) as Ha.
    destruct (active_id s0) as [a|] eqn:Hact; [|done].
    apply list_elem_of_lookup in Ha as [i Hi].
    rewrite (has_index_id_index _ _ _ (inv_index _ Hinv _ _ Hi)).
    rewrite Hpls.
    assert ((0 <=? Z.of_nat i) && (Z.of_nat i <? len (playlists s0)) = true) as ->.
    { apply lookup_lt_Some in Hi. unfold len.
      apply andb_true_iff. split; [apply Z.leb_le|apply Z.ltb_lt]; lia. }
    by rewrite index_get_of_nat, Hi. }
  set (resumed := with_resume_playlist (playing_index s0) activated).
  assert (length (playlists s0) ≤ String.length file)%nat as Hfuel.
  { subst file. etransitivity; [|apply print_lines_length].
    unfold save_state_lines. rewrite length_app.
    etransitivity; [apply (save_lines_length paused time s0)|lia].
    intros p Hp. by apply (inv_live _ Hinv). }
  destruct (load_playlist_states_lines paused time s0 s (playlists s0) [] resumed
              (TextParser_next (TextParser_next parser)) (String.length file)
              Hinv Hnum Hentries eq_refl Hok Hon2 Hfuel Hpl eq_refl)
    as (Hpl' & Hactive' & Hres' & Hpaused' & Hdata' & _).
  { intros p _. apply Hdata. }
  set (loaded := load_playlist_states (String.length file)
                   (TextParser_next (TextParser_next parser)) resumed) in *.
  destruct (foldl_set_initial_focus_keeps (playlists loaded) loaded)
    as (_ & Hactive'' & Hres'' & Hpaused'' & Hdata'').
  set (focused := foldl set_initial_focus loaded (playlists loaded)) in *.
  change (active_id focused
          = match active_id s0 with Some a => Some a | None => active_id s end
          ∧ resume_playlist focused = playing_index s0
          ∧ resume_paused focused
            = resume_paused s || (bool_decide (is_Some (playing_id s0)) && paused)
          ∧ false = false
          ∧ ∀ p d dl, get_data s0 p = Some d → get_data s p = Some dl →
              ∃ d', get_data focused p = Some d'
                    ∧ restored (ptr_eqb (Some p) (playing_id s0)) time d dl d').
  split; [by rewrite Hactive'', Hactive'|]. split; [by rewrite Hres'', Hres'|]. split.
  { rewrite Hpaused'', Hpaused', (playing_among_registry _ Hinv). by f_equal. }
  split; [done|].
  intros p d dl Hd Hdl.
  destruct (Hdata' p d dl) as (d' & Hd' & Hname & Htime & Hpos); [|done..|].
  { apply (inv_live _ Hinv). by exists d. }
  destruct (Hdata'' p d' Hd') as (d'' & Hd'' & Hpos' & Hname' & Htime').
  exists d''. split; [done|]. unfold restored. repeat split; congruence.
Qed.

(** X21.  What [playlist_save_state] writes, [playlist_load_state] reads
    back.  Let [s0] write its state file (the Registry invariant holds, no
    file name of a playlist has a newline, current entries carry their
    number), and let [s] read that file with the playlists of [s0] in its
    Registry and the entries they had.  Then the active playlist of [s0]
    is active, [resume_playlist] is the index of the playlist that was
    playing (-1 when none was), [resume_paused] is turned on when a
    playlist was playing and the playback was paused, no update is left
    pending, and every playlist has the file name it had in [s0], the
    position it had in [s0] (its own when the playlist had no current
    entry in [s0]) and as resume time the one it had in [s0], or the time
    of the playback when it was the playing playlist.  Reading the file
    starts no playback, calls nothing and leaves the Registry as it is. *)
Theorem save_load_round_trip (s0 s : State) :
  registry_inv s0 →
  state_file_writable (world s0) = true →
  filenames_one_line s0 →
  (∀ p d, get_data s0 p = Some d → position_numbered d) →
  reads_file_of s0 s →
  active_id (playlist_load_state s)
  = match active_id s0 with Some a => Some a | None => active_id s end
  ∧ resume_playlist (playlist_load_state s) = playing_index s0
  ∧ resume_paused (playlist_load_state s)
    = resume_paused s || (bool_decide (is_Some (playing_id s0)) && drct_paused (world s0))
  ∧ update_pending_any (playlist_load_state s) = false
  ∧ (∀ p d dl, get_data s0 p = Some d → get_data s p = Some dl →
       ∃ d', get_data (playlist_load_state s) p = Some d'
             ∧ restored (ptr_eqb (Some p) (playing_id s0)) (drct_time (world s0)) d dl d')
  ∧ playlists (playlist_load_state s) = playlists s
  ∧ playing_id (playlist_load_state s) = playing_id s
  ∧ trace (playlist_load_state s) = trace s.
Proof.
  intros Hinv Hwritable Hnames Hnum Hreads.
  destruct (playlist_load_state_reads s0 s Hinv Hwritable Hnames Hnum Hreads)
    as (Hactive & Hresume & Hpaused & Hpending & Hdata).
  destruct (playlist_load_state_session s) as (Hpl & Hplaying & _ & _ & Htrace).
  by repeat split.
Qed.

Lemma registry_inv_two_playlists_State : registry_inv two_playlists_State.
Proof.
  unfold two_playlists_State.
  eapply registry_inv_reg_view; [apply reg_view_update_data|].
  apply insert_playlist_inv, registry_inv_playing_State.
Qed.

Lemma two_playlists_State_live (p : Z) (d : PlaylistData) :
  get_data two_playlists_State p = Some d → p = 1000 ∨ p = 1001.
Proof.
  intros Hd.
  assert (p ∈ playlists two_playlists_State) as Hp
    by (apply (inv_live _ registry_inv_two_playlists_State); by exists d).
  assert (playlists two_playlists_State = [1000; 1001]) as Hps by (vm_compute; reflexivity).
  rewrite Hps in Hp. apply elem_of_cons in Hp as [->|Hp]; [by left|].
  apply list_elem_of_singleton in Hp. by right.
Qed.

Lemma two_playlists_State_one_line : filenames_one_line two_playlists_State.
Proof.
  intros p d name Hd Hname.
  destruct (two_playlists_State_live p d Hd) as [-> | ->];
    vm_compute in Hd; injection Hd as <-; vm_compute in Hname; [discriminate|].
  injection Hname as <-. vm_compute. reflexivity.
Qed.

Lemma two_playlists_State_numbered (p : Z) (d : PlaylistData) :
  get_data two_playlists_State p = Some d → position_numbered d.
Proof.
  intros Hd e He.
  destruct (two_playlists_State_live p d Hd) as [-> | ->];
    vm_compute in Hd; injection Hd as <-; vm_compute in He; [|discriminate].
  injection He as <-. vm_compute. reflexivity.
Qed.

Lemma restarted_State_reads : reads_file_of two_playlists_State restarted_State.
Proof.
  split; [vm_compute; reflexivity|]. split; [vm_compute; reflexivity|].
  intros p d Hd.
  destruct (two_playlists_State_live p d Hd) as [-> | ->];
    vm_compute in Hd; injection Hd as <-; eexists; (split; [vm_compute; reflexivity|]);
    vm_compute; reflexivity.
Qed.

(** The program started again reads the state file of
    [two_playlists_State]: the playing playlist 1000 is active and is the
    one to resume, paused, at its first song and 45 seconds into it; the
    playlist 1001 has its file name and its resume time again. *)
Lemma save_load_round_trip_witness :
  active_id (playlist_load_state restarted_State) = Some 1000
  ∧ resume_playlist (playlist_load_state restarted_State) = 0
  ∧ resume_paused (playlist_load_state restarted_State) = true
  ∧ (∃ d', get_data (playlist_load_state restarted_State) 1000 = Some d'
           ∧ position d' = 0 ∧ filename d' = None ∧ resume_time d' = 45000)
  ∧ (∃ d', get_data (playlist_load_state restarted_State) 1001 = Some d'
           ∧ position d' = -1 ∧ filename d' = Some "/home/user/My List.audpl"
           ∧ resume_time d' = 3000).
Proof.
  assert (state_file_writable (world two_playlists_State) = true) as Hwritable
    by (vm_compute; reflexivity).
  destruct (save_load_round_trip two_playlists_State restarted_State
              registry_inv_two_playlists_State Hwritable two_playlists_State_one_line
              two_playlists_State_numbered restarted_State_reads)
    as (Hactive & Hresume & Hpaused & _ & Hdata & _).
  assert (∃ d dl, get_data two_playlists_State 1000 = Some d
                  ∧ get_data restarted_State 1000 = Some dl
                  ∧ position d = 0 ∧ filename d = None
                  ∧ is_Some (entry_at d (position d)))
    as (d0 & dl0 & Hd0 & Hdl0 & Hpos0 & Hname0 & [e0 He0]) by (vm_compute; eauto 10).
  assert (∃ d dl, get_data two_playlists_State 1001 = Some d
                  ∧ get_data restarted_State 1001 = Some dl
                  ∧ position dl = -1 ∧ filename d = Some "/home/user/My List.audpl"
                  ∧ resume_time d = 3000 ∧ entry_at d (position d) = None)
    as (d1 & dl1 & Hd1 & Hdl1 & Hpos1 & Hname1 & Htime1 & He1) by (vm_compute; eauto 10).
  destruct (Hdata 1000 d0 dl0 Hd0 Hdl0) as (d0' & Hd0' & Hname0' & Htime0' & Hpos0').
  destruct (Hdata 1001 d1 dl1 Hd1 Hdl1) as (d1' & Hd1' & Hname1' & Htime1' & Hpos1').
  rewrite He0 in Hpos0'. rewrite He1 in Hpos1'.
  split; [rewrite Hactive; vm_compute; reflexivity|].
  split; [rewrite Hresume; vm_compute; reflexivity|].
  split; [rewrite Hpaused; vm_compute; reflexivity|].
  split.
  - exists d0'. split; [exact Hd0'|]. split; [congruence|]. split; [congruence|].
    rewrite Htime0'. vm_compute. reflexivity.
  - exists d1'. split; [exact Hd1'|]. split; [congruence|]. split; [congruence|].
    rewrite Htime1', <- Htime1.
    assert (ptr_eqb (Some 1001) (playing_id two_playlists_State) = false) as ->
      by (vm_compute; reflexivity).
    reflexivity.
Defined.

(** ** Resuming the session *)

Lemma aud_resume_plays `{PlaylistDataMethods} (s : State) (p : Z) (d : PlaylistData) :
  by_index (resume_playlist s) s = Some p →
  get_data s p = Some d → playing_id s ≠ Some p → 0 ≤ position d →
  playing_playlist (aud_resume s) = Some p
  ∧ get_data (aud_resume s) p = Some d
  ∧ ∃ evs, trace (aud_resume s)
           = trace s ++ art_clear_current :: evs
             ++ [playback_play (resume_time d)
                   (always_resume_paused (world s) || resume_paused s);
                 hook_call "playlist set playing" None;
                 hook_call "playback begin" None]
           ∧ Forall (λ e, ∃ request, e = scanner_request request) evs.
Proof.
  intros Hat Hd Hother Hpos. unfold aud_resume.
  set (s1 := if always_resume_paused (world s) then with_resume_paused true s else s).
  assert (by_index (resume_playlist s1) s1 = Some p ∧ get_data s1 p = Some d
          ∧ playing_id s1 = playing_id s ∧ trace s1 = trace s
          ∧ resume_paused s1 = always_resume_paused (world s) || resume_paused s)
    as (-> & Hd1 & Hplaying1 & Htrace1 & ->).
  { unfold s1. by destruct (always_resume_paused (world s)). }
  rewrite <- Hplaying1 in Hother.
  destruct (Playlist_start_playback_moves
              (always_resume_paused (world s) || resume_paused s) p d s1 Hd1 Hother Hpos)
    as (Hplay & _ & Hdata & evs & Htrace & Hevs).
  split; [done|]. split; [done|]. exists evs. by rewrite Htrace, Htrace1.
Qed.

(** X22.  [aud_resume] resumes the playlist with the index
    [resume_playlist], and nothing when there is none.  With
    [resume_playlist] outside the Registry (-1 says that nothing was
    playing) no playback starts and nothing is called: at most
    [resume_paused] is turned on, by the option "always_resume_paused".
    With the index of a live playlist that has a current entry, while
    another playlist or none is playing, that playlist becomes the playing
    one and [playback_play] is called with its resume time, paused when
    [resume_paused] or the option "always_resume_paused" says so; the
    hooks "playlist set playing" and "playback begin" come last. *)
Theorem aud_resume_spec `{PlaylistDataMethods} (s : State) :
  (resume_playlist s < 0 ∨ len (playlists s) ≤ resume_playlist s →
   aud_resume s
   = if always_resume_paused (world s) then with_resume_paused true s else s)
  ∧ (∀ p d, by_index (resume_playlist s) s = Some p →
       get_data s p = Some d → playing_id s ≠ Some p → 0 ≤ position d →
       playing_playlist (aud_resume s) = Some p
       ∧ Playlist_get_position (Some p) (aud_resume s) = (aud_resume s, position d)
       ∧ ∃ evs, trace (aud_resume s)
                = trace s ++ art_clear_current :: evs
                  ++ [playback_play (resume_time d)
                        (always_resume_paused (world s) || resume_paused s);
                      hook_call "playlist set playing" None;
                      hook_call "playback begin" None]
                ∧ Forall (λ e, ∃ request, e = scanner_request request) evs).
Proof.
  split.
  - intros Hout. unfold aud_resume.
    set (s1 := if always_resume_paused (world s) then with_resume_paused true s else s).
    assert (by_index (resume_playlist s1) s1 = None) as ->.
    { assert (by_index (resume_playlist s1) s1 = by_index (resume_playlist s) s) as ->
        by (unfold s1; by destruct (always_resume_paused (world s))).
      unfold by_index.
      destruct ((0 <=? resume_playlist s) && (resume_playlist s <? len (playlists s)))
        eqn:Hin; [|done].
      apply andb_true_iff in Hin as [?%Z.leb_le ?%Z.ltb_lt]. lia. }
    done.
  - intros p d Hat Hd Hother Hpos.
    destruct (aud_resume_plays s p d Hat Hd Hother Hpos) as (Hplay & Hdata & Htrace).
    split; [done|]. split; [|done].
    unfold Playlist_get_position, SIMPLE_WRAPPER, ENTER_GET_PLAYLIST. by rewrite Hdata.
Qed.

(** The program that read the state file of [two_playlists_State]
    resumes the playlist 1000. *)
Lemma aud_resume_spec_witness :
  playing_playlist
    (aud_resume (H := plain_methods) (playlist_load_state restarted_State)) = Some 1000.
Proof.
  destruct (playlist_load_state_reads two_playlists_State restarted_State
              registry_inv_two_playlists_State eq_refl two_playlists_State_one_line
              two_playlists_State_numbered restarted_State_reads)
    as (_ & Hresume & _ & _ & Hdata).
  destruct (playlist_load_state_session restarted_State) as (Hpl & Hplaying & _).
  assert (∃ d dl, get_data two_playlists_State 1000 = Some d
                  ∧ get_data restarted_State 1000 = Some dl
                  ∧ position d = 0 ∧ is_Some (entry_at d (position d)))
    as (d & dl & Hd & Hdl & Hpos & [e He]) by (vm_compute; eauto 10).
  destruct (Hdata 1000 d dl Hd Hdl) as (d' & Hd' & _ & _ & Hpos').
  rewrite He, Hpos in Hpos'.
  destruct (aud_resume_spec (H := plain_methods) (playlist_load_state restarted_State))
    as [_ Hplays].
  apply (Hplays 1000 d').
  - rewrite Hresume. unfold by_index. rewrite Hpl. vm_compute. reflexivity.
  - exact Hd'.
  - rewrite Hplaying. vm_compute. discriminate.
  - rewrite Hpos'. lia.
Defined.

(** X23.  The session resumes where it stopped.  Let [s0] write its state
    file while the playlist [p] is playing an entry, and let the program
    started again, [s], with the playlists of [s0] and their entries and
    nothing playing, read the file.  Then [aud_resume] makes [p] the
    playing playlist, at the position it had, and calls [playback_play]
    with the time the playback had reached when the file was written;
    the playback starts paused when it was paused then or
    [resume_paused] or the option "always_resume_paused" is on. *)
Theorem resume_after_restart `{PlaylistDataMethods} (s0 s : State) (p : Z) (d : PlaylistData) :
  registry_inv s0 →
  state_file_writable (world s0) = true →
  filenames_one_line s0 →
  (∀ p d, get_data s0 p = Some d → position_numbered d) →
  reads_file_of s0 s →
  playing_id s0 = Some p → get_data s0 p = Some d → is_Some (entry_at d (position d)) →
  playing_id s = None →
  playing_playlist (aud_resume (playlist_load_state s)) = Some p
  ∧ Playlist_get_position (Some p) (aud_resume (playlist_load_state s))
    = (aud_resume (playlist_load_state s), position d)
  ∧ ∃ evs, trace (aud_resume (playlist_load_state s))
           = trace s ++ art_clear_current :: evs
             ++ [playback_play (drct_time (world s0))
                   (always_resume_paused (world s) || resume_paused s
                    || drct_paused (world s0));
                 hook_call "playlist set playing" None;
                 hook_call "playback begin" None]
           ∧ Forall (λ e, ∃ request, e = scanner_request request) evs.
Proof.
  intros Hinv Hwritable Hnames Hnum Hreads Hplaying Hd [e He] Hidle.
  destruct (playlist_load_state_reads s0 s Hinv Hwritable Hnames Hnum Hreads)
    as (_ & Hresume & Hpaused & _ & Hdata).
  destruct (playlist_load_state_session s) as (Hpl & Hplaying' & Hworld & _ & Htrace).
  destruct Hreads as (_ & Hpls & Hentries).
  destruct (Hentries p d Hd) as (dl & Hdl & _).
  destruct (Hdata p d dl Hd Hdl) as (d' & Hd' & _ & Htime & Hpos).
  rewrite He in Hpos. rewrite Hplaying in Htime. cbn [ptr_eqb] in Htime.
  rewrite Z.eqb_refl in Htime.
  destruct (registry_inv_index_of s0 p Hinv) as (i & Hi & Hidx); [by exists d|].
  assert (0 ≤ position d) as Hnonneg.
  { unfold entry_at in He. by apply index_get_Some in He as [? _]. }
  destruct (aud_resume_plays (playlist_load_state s) p d') as (Hplay & Hdata' & evs & Hevs & Hreq).
  - rewrite Hresume. unfold playing_index. rewrite Hplaying, Hidx.
    apply lookup_by_index. by rewrite Hpl, Hpls.
  - exact Hd'.
  - rewrite Hplaying', Hidle. done.
  - by rewrite Hpos.
  - split; [done|]. split.
    + unfold Playlist_get_position, SIMPLE_WRAPPER, ENTER_GET_PLAYLIST.
      by rewrite Hdata', Hpos.
    + exists evs. split; [|done].
      rewrite Hevs, Htrace, Htime, Hworld, Hpaused, Hplaying.
      rewrite bool_decide_eq_true_2 by eauto. cbn [andb]. by rewrite orb_assoc.
Qed.

(** The program that read the state file of [two_playlists_State]
    resumes the playlist 1000 at its first song. *)
Lemma resume_after_restart_witness :
  playing_playlist
    (aud_resume (H := plain_methods) (playlist_load_state restarted_State)) = Some 1000
  ∧ Playlist_get_position (Some 1000)
      (aud_resume (H := plain_methods) (playlist_load_state restarted_State))
    = (aud_resume (H := plain_methods) (playlist_load_state restarted_State), 0).
Proof.
  assert (∃ d, get_data two_playlists_State 1000 = Some d
               ∧ position d = 0 ∧ is_Some (entry_at d (position d)))
    as (d & Hd & Hpos & He) by (vm_compute; eauto 10).
  destruct (resume_after_restart (H := plain_methods) two_playlists_State restarted_State
              1000 d registry_inv_two_playlists_State eq_refl two_playlists_State_one_line
              two_playlists_State_numbered restarted_State_reads eq_refl Hd He eq_refl)
    as (Hplay & Hposition & _).
  split; [exact Hplay|]. by rewrite Hposition, Hpos.
Defined.

(** ** The next and the previous song *)

(** What [change_playback] and the hooks it asks for do after the
    position of the playlist [p] changed. *)
Lemma change_playback_hooks (p : Z) (d1 : PlaylistData) (s1 : State) :
  get_data s1 p = Some d1 →
  get_data (call_playback_hooks (Some p) (change_playback p s1).2 (change_playback p s1).1) p
  = Some d1
  ∧ (playing_id s1 ≠ Some p →
     call_playback_hooks (Some p) (change_playback p s1).2 (change_playback p s1).1
     = emit (hook_call "playlist position" (Some p)) s1)
  ∧ (playing_id s1 = Some p → 0 ≤ position d1 →
     playing_id (call_playback_hooks (Some p) (change_playback p s1).2 (change_playback p s1).1)
     = Some p
     ∧ ∃ evs, trace (call_playback_hooks (Some p) (change_playback p s1).2
                       (change_playback p s1).1)
              = trace s1 ++ art_clear_current :: evs
                ++ [playback_play 0 (drct_paused (world s1));
                    hook_call "playlist position" (Some p);
                    hook_call "playback begin" None]
              ∧ Forall (λ e, ∃ request, e = scanner_request request) evs)
  ∧ (playing_id s1 = Some p → position d1 < 0 →
     playing_id (call_playback_hooks (Some p) (change_playback p s1).2 (change_playback p s1).1)
     = None
     ∧ ∃ evs, trace (call_playback_hooks (Some p) (change_playback p s1).2
                       (change_playback p s1).1)
              = trace s1 ++ art_clear_current :: evs
                ++ [playback_stop; hook_call "playlist set playing" None;
                    hook_call "playlist position" (Some p);
                    hook_call "playback stop" None]
              ∧ Forall (λ e, ∃ request, e = scanner_request request) evs).
Proof.
  intros Hd1. unfold change_playback. rewrite Hd1.
  destruct (ptr_eqb (Some p) (playing_id s1)) eqn:Hplaying.
  - apply ptr_eqb_eq in Hplaying.
    destruct (0 <=? position d1) eqn:Hpos; [apply Z.leb_le in Hpos|apply Z.leb_gt in Hpos].
    + destruct (start_playback_locked_frame 0 (drct_paused (world s1)) s1)
        as (Htable & _ & Hplay & _ & evs & Htrace & Hevs).
      change (Z.lor SetPosition PlaybackBegin) with 6.
      cbn [fst snd]. unfold call_playback_hooks.
      change (has_flag 6 SetPlaylist) with false. change (has_flag 6 SetPosition) with true.
      change (has_flag 6 PlaybackBegin) with true. change (has_flag 6 PlaybackStop) with false.
      cbv iota. set (s' := emit _ (emit _ _)).
      split.
      { rewrite (get_data_ext s' (start_playback_locked 0 (drct_paused (world s1)) s1) p)
          by done.
        by rewrite (get_data_ext _ s1 p). }
      split; [intros Hne; by destruct Hne|]. split; [|intros _ ?; lia].
      intros _ _. split; [rewrite Hplaying; exact Hplay|].
      exists evs. split; [|done]. unfold s', emit. cbn [trace with_trace]. rewrite Htrace.
      rewrite <- !app_assoc. cbn [app]. by rewrite <- !app_assoc.
    + destruct (stop_playback_locked_frame (with_playing_id None s1))
        as (Htable & _ & Hplay & _ & evs & Htrace & Hevs).
      change (Z.lor SetPosition (Z.lor SetPlaylist PlaybackStop)) with 11.
      cbn [fst snd]. unfold call_playback_hooks.
      change (has_flag 11 SetPlaylist) with true. change (has_flag 11 SetPosition) with true.
      change (has_flag 11 PlaybackBegin) with false. change (has_flag 11 PlaybackStop) with true.
      cbv iota. set (s' := emit _ (emit _ (emit _ _))).
      split.
      { rewrite (get_data_ext s' (stop_playback_locked (with_playing_id None s1)) p) by done.
        by rewrite (get_data_ext _ s1 p). }
      split; [intros Hne; by destruct Hne|]. split; [intros _ ?; lia|].
      intros _ _. split; [exact Hplay|].
      exists evs. split; [|done]. unfold s', emit. cbn [trace with_trace]. rewrite Htrace.
      change (trace (with_playing_id None s1)) with (trace s1).
      rewrite <- !app_assoc. cbn [app]. by rewrite <- !app_assoc.
  - apply ptr_eqb_neq in Hplaying.
    cbn [fst snd]. unfold call_playback_hooks.
    change (has_flag SetPosition SetPlaylist) with false.
    change (has_flag SetPosition SetPosition) with true.
    change (has_flag SetPosition PlaybackBegin) with false.
    change (has_flag SetPosition PlaybackStop) with false. cbv iota.
    split; [done|]. split; [done|]. split; intros Heq; by destruct Hplaying.
Qed.

Lemma position_moved_intro (p : Z) (d d' : PlaylistData) (moved : bool) (s : State) :
  get_data s p = Some d →
  position_moved p d' moved s
    (let s1 := update_data p (λ _, d') s in
     if negb moved then (s1, false)
     else
       let '(s2, hooks) := change_playback p s1 in
       (call_playback_hooks (Some p) hooks s2, true)).
Proof.
  intros Hd. set (s1 := update_data p (λ _, d') s). cbv zeta.
  assert (get_data s1 p = Some d') as Hd1
    by (unfold s1; by rewrite get_data_update_data, decide_True, Hd).
  destruct moved; cbn [negb].
  - pose proof (change_playback_hooks p d' s1 Hd1) as (Hdata & Hother & Hplay & Hstop).
    destruct (change_playback p s1) as [s2 hooks]. cbn [fst snd] in *.
    split; [done|]. split; [done|]. split; [done|].
    split; [intros _; exact Hother|]. split; intros _; [exact Hplay|exact Hstop].
  - cbn [fst snd]. split; [done|]. split; [done|]. split; [done|].
    split; [intros [=]|]. split; intros [=].
Qed.

(** X24.  [next_song] and [prev_song] through a live handle leave it to
    the [PlaylistData] method to move the position ([next_song] hands it
    the position plus one as a hint).  When the method says that it did
    not move, the call returns false, calls nothing and leaves the
    playback alone.  When it moved, the call returns true and the hook
    "playlist position" is called; on a playlist that is not playing that
    is all, on the playing playlist the playback is started again at the
    new song, paused as it was, with the hook "playback begin" (or it is
    stopped, with the hooks "playlist set playing" and "playback stop",
    when the playlist has no position any more). *)
Theorem song_step_playback `{PlaylistDataMethods} (repeat : bool) (p : Z) (d : PlaylistData)
    (s : State) :
  get_data s p = Some d →
  position_moved p (pd_next_song repeat (position d + 1) d).1
    (pd_next_song repeat (position d + 1) d).2 s (PlaylistEx_next_song repeat (Some p) s)
  ∧ position_moved p (pd_prev_song d).1 (pd_prev_song d).2 s (PlaylistEx_prev_song (Some p) s).
Proof.
  intros Hd. unfold PlaylistEx_next_song, PlaylistEx_prev_song, ENTER_GET_PLAYLIST.
  rewrite Hd. split.
  - destruct (pd_next_song repeat (position d + 1) d) as [d' moved]. cbn [fst snd].
    exact (position_moved_intro p d d' moved s Hd).
  - destruct (pd_prev_song d) as [d' moved]. cbn [fst snd].
    exact (position_moved_intro p d d' moved s Hd).
Qed.

(** The playlist 1000 plays its first song: [next_song] moves it to the
    second one, and there is no song to go back to. *)
Lemma song_step_playback_witness :
  (PlaylistEx_next_song (methods := plain_methods) false (Some 1000) playing_State).2 = true
  ∧ Playlist_get_position (Some 1000)
      (PlaylistEx_next_song (methods := plain_methods) false (Some 1000) playing_State).1
    = ((PlaylistEx_next_song (methods := plain_methods) false (Some 1000) playing_State).1, 1)
  ∧ playing_playlist
      (PlaylistEx_next_song (methods := plain_methods) false (Some 1000) playing_State).1
    = Some 1000
  ∧ PlaylistEx_prev_song (methods := plain_methods) (Some 1000) playing_State
    = (playing_State, false).
Proof.
  assert (∃ d, get_data playing_State 1000 = Some d) as [d Hd] by (vm_compute; eauto).
  destruct (song_step_playback (H := plain_methods) false 1000 d playing_State Hd)
    as ((Hmoved & Hdata & _ & _ & Hplay & _) & (Hmoved' & _ & Hsame & _)).
  assert (get_data playing_State 1000 = Some d) as Hd' by exact Hd.
  vm_compute in Hd'. injection Hd' as <-.
  split; [rewrite Hmoved; vm_compute; reflexivity|]. split; [|split].
  - unfold Playlist_get_position, SIMPLE_WRAPPER, ENTER_GET_PLAYLIST. rewrite Hdata.
    f_equal.
  - apply Hplay; [vm_compute; reflexivity..|]. vm_compute. discriminate.
  - rewrite (surjective_pairing (PlaylistEx_prev_song _ _)), Hmoved', Hsame
      by (vm_compute; reflexivity).
    vm_compute. reflexivity.
Defined.

(** ** Is a scan in progress? *)

(** X25.  [scan_in_progress_any] tells whether [scan_in_progress] is true
    of some playlist of the Registry: it is false exactly when every
    playlist has the scan status [NotScanning]; a dead handle never counts
    as being scanned. *)
Theorem scan_in_progress_any_iff (s : State) :
  (scan_in_progress_any s = true
   ↔ ∃ p, p ∈ playlists s ∧ (Playlist_scan_in_progress (Some p) s).2 = true)
  ∧ (scan_in_progress_any s = false
     ↔ ∀ p d, p ∈ playlists s → get_data s p = Some d → scan_status d = NotScanning)
  ∧ (∀ p, get_data s p = None → Playlist_scan_in_progress (Some p) s = (s, false)).
Proof.
  assert (∀ p, (Playlist_scan_in_progress (Some p) s).2
               = match get_data s p with
                 | Some d => negb (status_eqb (scan_status d) NotScanning)
                 | None => false
                 end) as Hone.
  { intros p. unfold Playlist_scan_in_progress, ENTER_GET_PLAYLIST.
    by destruct (get_data s p). }
  assert (∀ ps acc,
            foldl (λ scanning p,
                     match get_data s p with
                     | Some d =>
                         if negb (status_eqb (scan_status d) NotScanning) then true
                         else scanning
                     | None => scanning
                     end) acc ps = true
            ↔ acc = true
              ∨ ∃ p, p ∈ ps ∧ (Playlist_scan_in_progress (Some p) s).2 = true) as Hfold.
  { induction ps as [|q ps IH]; intros acc; cbn [foldl].
    - split; [by left|]. intros [?|(p & Hp & _)]; [done|by apply elem_of_nil in Hp].
    - rewrite IH. specialize (Hone q). split.
      + intros [Hacc|(p & Hp & Hscan)].
        * destruct (get_data s q) as [d|]; [|by left].
          destruct (negb (status_eqb (scan_status d) NotScanning)) eqn:Hq; [|by left].
          right. exists q. split; [left|]. by rewrite Hone.
        * right. exists p. split; [by right|done].
      + intros [->|(p & [->|Hp]%elem_of_cons & Hscan)].
        * left. destruct (get_data s q) as [d|]; [|done]. by destruct (negb _).
        * left. rewrite Hone in Hscan. destruct (get_data s q) as [d|]; [|done].
          by rewrite Hscan.
        * right. by exists p. }
  assert (scan_in_progress_any s = true
          ↔ ∃ p, p ∈ playlists s ∧ (Playlist_scan_in_progress (Some p) s).2 = true) as Hany.
  { unfold scan_in_progress_any. rewrite Hfold. split; [by intros [?|?]|by right]. }
  split; [exact Hany|]. split.
  - split.
    + intros Hnone p d Hp Hd.
      destruct (scan_status d) eqn:Hstatus; [done|exfalso..];
        (assert (scan_in_progress_any s = true) as Htrue; [|congruence]);
        apply Hany; exists p; (split; [done|]); by rewrite Hone, Hd, Hstatus.
    + intros Hall. apply not_true_is_false. intros Hscan.
      apply Hany in Hscan as (p & Hp & Hscan). rewrite Hone in Hscan.
      destruct (get_data s p) as [d|] eqn:Hd; [|done].
      by rewrite (Hall p d Hp Hd) in Hscan.
  - intros p Hd. unfold Playlist_scan_in_progress, ENTER_GET_PLAYLIST. by rewrite Hd.
Qed.

(** ** Playback of a playlist without a position *)

(** X26.  [start_playback] through the handle of a live playlist that is
    not playing and has no position asks the playlist for its first song
    ([next_song (true, 0)]).  When there is none, nothing is left playing:
    [playback_stop] is called, then the hooks "playlist set playing" and
    "playback stop".  When there is one, the playlist becomes the playing
    one, [playback_play] is called with its resume time and the pause
    flag, and the hooks "playlist set playing", "playlist position" and
    "playback begin" are called, in this order. *)
Theorem start_playback_no_position `{PlaylistDataMethods} (paused : bool) (p : Z)
    (d : PlaylistData) (s : State) :
  get_data s p = Some d → playing_id s ≠ Some p → position d < 0 →
  get_data (Playlist_start_playback paused (Some p) s) p = Some (pd_next_song true 0 d).1
  ∧ ((pd_next_song true 0 d).2 = false →
     playing_playlist (Playlist_start_playback paused (Some p) s) = None
     ∧ ∃ evs, trace (Playlist_start_playback paused (Some p) s)
              = trace s ++ art_clear_current :: evs
                ++ [playback_stop; hook_call "playlist set playing" None;
                    hook_call "playback stop" None]
              ∧ Forall (λ e, ∃ request, e = scanner_request request) evs)
  ∧ ((pd_next_song true 0 d).2 = true →
     playing_playlist (Playlist_start_playback paused (Some p) s) = Some p
     ∧ ∃ evs, trace (Playlist_start_playback paused (Some p) s)
              = trace s ++ art_clear_current :: evs
                ++ [playback_play (resume_time (pd_next_song true 0 d).1) paused;
                    hook_call "playlist set playing" None;
                    hook_call "playlist position" (Some p);
                    hook_call "playback begin" None]
              ∧ Forall (λ e, ∃ request, e = scanner_request request) evs).
Proof.
  intros Hd Hother Hpos. unfold Playlist_start_playback, ENTER_GET_PLAYLIST. rewrite Hd.
  unfold set_playing_locked.
  assert (ptr_eqb (Some p) (playing_id s) = false) as -> by (by apply ptr_eqb_neq).
  set (s1 := match playing_id s with
             | Some playing => update_data playing (with_resume_time (drct_time (world s))) s
             | None => s
             end).
  assert (get_data s1 p = Some d) as Hd1.
  { unfold s1. destruct (playing_id s) as [q|] eqn:Hq; [|done].
    rewrite get_data_update_data, decide_False; [done|]. intros ->. done. }
  assert (trace s1 = trace s) as Htrace1 by (unfold s1; by destruct (playing_id s)).
  rewrite Hd1. assert ((position d <? 0) = true) as -> by (by apply Z.ltb_lt).
  destruct (pd_next_song true 0 d) as [d' moved]. cbn [fst snd].
  set (s2 := update_data p (λ _, d') s1).
  assert (get_data s2 p = Some d') as Hd2
    by (unfold s2; by rewrite get_data_update_data, decide_True, Hd1).
  assert (trace s2 = trace s) as Htrace2 by exact Htrace1.
  destruct moved; cbn [fst snd].
  - change (get_data (with_playing_id (Some p) s2) p) with (get_data s2 p). rewrite Hd2.
    destruct (start_playback_locked_frame (resume_time d') paused (with_playing_id (Some p) s2))
      as (Htable & _ & Hplay & _ & evs & Htrace & Hevs).
    change (Z.lor (Z.lor SetPlaylist SetPosition) PlaybackBegin) with 7.
    unfold call_playback_hooks.
    change (has_flag 7 SetPlaylist) with true. change (has_flag 7 SetPosition) with true.
    change (has_flag 7 PlaybackBegin) with true. change (has_flag 7 PlaybackStop) with false.
    cbv iota. split; [|split; [intros [=]|intros _; split; [exact Hplay|]]].
    + rewrite (get_data_ext _ (start_playback_locked (resume_time d') paused
                                 (with_playing_id (Some p) s2)) p) by done.
      by rewrite (get_data_ext _ s2 p).
    + exists evs. split; [|done]. unfold emit. cbn [trace with_trace]. rewrite Htrace.
      change (trace (with_playing_id (Some p) s2)) with (trace s2). rewrite Htrace2.
      rewrite <- !app_assoc. cbn [app]. by rewrite <- !app_assoc.
  - destruct (stop_playback_locked_frame (with_playing_id None s2))
      as (Htable & _ & Hplay & _ & evs & Htrace & Hevs).
    change (Z.lor SetPlaylist PlaybackStop) with 9.
    unfold call_playback_hooks.
    change (has_flag 9 SetPlaylist) with true. change (has_flag 9 SetPosition) with false.
    change (has_flag 9 PlaybackBegin) with false. change (has_flag 9 PlaybackStop) with true.
    cbv iota. split; [|split; [intros _; split; [exact Hplay|]|intros [=]]].
    + rewrite (get_data_ext _ (stop_playback_locked (with_playing_id None s2)) p) by done.
      by rewrite (get_data_ext _ s2 p).
    + exists evs. split; [|done]. unfold emit. cbn [trace with_trace]. rewrite Htrace.
      change (trace (with_playing_id None s2)) with (trace s2). rewrite Htrace2.
      rewrite <- !app_assoc. cbn [app]. by rewrite <- !app_assoc.
Qed.

(** The playlist 1001 of [two_playlists_State] is empty: [start_playback]
    through its handle stops the playlist 1000. *)
Lemma start_playback_no_position_witness :
  playing_playlist
    (Playlist_start_playback (methods := plain_methods) false (Some 1001) two_playlists_State)
  = None.
Proof.
  assert (∃ d, get_data two_playlists_State 1001 = Some d ∧ position d < 0
               ∧ (pd_next_song (PlaylistDataMethods := plain_methods) true 0 d).2 = false)
    as (d & Hd & Hpos & Hnone) by (vm_compute; eauto).
  destruct (start_playback_no_position (H := plain_methods) false 1001 d two_playlists_State
              Hd) as (_ & Hstop & _); [vm_compute; discriminate|exact Hpos|].
  by apply Hstop.
Defined.

(** ** The end of a scan *)

Lemma covers_refl (s : State) : covers s s.
Proof.
  split; [exists []; by rewrite app_nil_r|]. intros p d Hd Hending. left. by exists d.
Qed.

Lemma covers_trans (s1 s2 s3 : State) : covers s1 s2 → covers s2 s3 → covers s1 s3.
Proof.
  intros [[new Hnew] Hcov] [[new' Hnew'] Hcov']. split.
  - exists (new ++ new'). by rewrite Hnew', Hnew, app_assoc.
  - intros p d3 Hd3 Hending. destruct (Hcov' p d3 Hd3 Hending) as [(d2 & Hd2 & Hending2)|?];
      [|by right].
    destruct (Hcov p d2 Hd2 Hending2) as [?|(item & Hitem & Hp)]; [by left|].
    right. exists item. split; [|done]. rewrite Hnew'. apply elem_of_app. by left.
Qed.

Lemma covers_get_data (s s' : State) (new : list ScanItem) :
  scan_list s' = scan_list s ++ new → (∀ k, get_data s' k = get_data s k) → covers s s'.
Proof.
  intros Hnew Hdata. split; [by exists new|]. intros p d Hd Hending. left. exists d.
  by rewrite <- Hdata.
Qed.

Lemma covers_ending (s : State) (s' : State) :
  ending_covered s → covers s s' → ending_covered s'.
Proof.
  intros Hinv [[new Hnew] Hcov] p d' Hd' Hending.
  destruct (Hcov p d' Hd' Hending) as [(d & Hd & Hending0)|?]; [|done].
  destruct (Hinv p d Hd Hending0) as (item & Hitem & Hp).
  exists item. split; [|done]. rewrite Hnew. apply elem_of_app. by left.
Qed.

(** A playlist whose scan ends is checked at once: if no scan of it is in
    flight, its scan is complete. *)
Lemma covers_scan_check_complete (p : Z) (s : State) :
  covers s (scan_check_complete p (update_data p (with_scan_status ScanEnding) s)).
Proof.
  set (s1 := update_data p (with_scan_status ScanEnding) s).
  assert (scan_list (scan_check_complete p s1) = scan_list s) as Hlist
    by (unfold scan_check_complete; by repeat frame_step).
  split; [exists []; by rewrite app_nil_r|].
  intros q d' Hd' Hending.
  destruct (decide (q = p)) as [->|Hne].
  - right. destruct (get_data s1 p) as [d1|] eqn:Hd1.
    2:{ assert (scan_check_complete p s1 = s1) as Hsame
          by (unfold scan_check_complete; by rewrite Hd1).
        rewrite Hsame in Hd'. congruence. }
    assert (scan_status d1 = ScanEnding) as Hstatus.
    { unfold s1 in Hd1. rewrite get_data_update_data, decide_True in Hd1 by done.
      destruct (get_data s p); [|done]. by injection Hd1 as <-. }
    destruct (list_find_first (λ item, item_playlist item =? p) (scan_list s1))
      as [item|] eqn:Hfind.
    + apply list_find_first_Some in Hfind as [Hin Hp]. exists item.
      split; [by rewrite Hlist|by apply Z.eqb_eq].
    + exfalso.
      assert (get_data (scan_check_complete p s1) p
              = Some (with_scan_status NotScanning d1)) as Hdone.
      { unfold scan_check_complete. rewrite Hd1, Hstatus, Hfind.
        rewrite bool_decide_eq_false_2 by (by intros [? ?]). cbn [status_eqb negb orb].
        transitivity (get_data (update_data p (with_scan_status NotScanning) s1) p);
          [by destruct (update_delayed _)|].
        by rewrite get_data_update_data, decide_True, Hd1. }
      rewrite Hdone in Hd'. injection Hd' as <-. done.
  - left. exists d'. split; [|done]. rewrite <- Hd'.
    transitivity (get_data s1 q).
    + unfold s1. by rewrite get_data_update_data, decide_False.
    + symmetry. unfold scan_check_complete.
      destruct (get_data s1 p) as [d1|]; [|done]. destruct (_ || _); [done|].
      destruct (update_delayed _); cbn; unfold get_data; cbn;
        by rewrite lookup_alter_ne.
Qed.

Lemma covers_scan_queue_next_row (fuel : nat) (p : Z) (s : State) :
  covers s (scan_queue_next_row fuel p s).1
  ∧ ∀ k, get_data (scan_queue_next_row fuel p s).1 k = get_data s k.
Proof.
  pose proof (scan_queue_next_row_spec fuel p s) as Hrow.
  destruct (scan_queue_next_row fuel p s) as [s0 found]. cbn [fst snd] in *.
  destruct found.
  - destruct Hrow as (entry & row & _ & ->).
    assert (∀ k, get_data (scan_queue_entry p entry false (with_scan_row row s)) k
                 = get_data s k) as Hdata
      by (intros k; unfold scan_queue_entry; by repeat frame_step).
    split; [|done]. eapply covers_get_data; [|done].
    unfold scan_queue_entry. cbn. reflexivity.
  - destruct Hrow as [->|[row ->]]; (split; [|done]).
    + apply covers_refl.
    + apply (covers_get_data _ _ []); [by rewrite app_nil_r|done].
Qed.

Lemma covers_scan_queue_next_playlist (fuel : nat) (s : State) :
  covers s (scan_queue_next_playlist fuel s).1.
Proof.
  revert s. induction fuel as [|fuel IH]; intros s; cbn [scan_queue_next_playlist].
  all: destruct (scan_playlist s <? len (playlists s)); [|apply covers_refl].
  all: destruct (index_get (playlists s) (scan_playlist s)) as [p|]; [|apply covers_refl].
  all: set (turn := match get_data s p with
                    | Some d =>
                        if status_eqb (scan_status d) ScanActive
                        then let '(s0, found) :=
                               scan_queue_next_row (length (m_entries d)) p s in
                             if found then (s0, true)
                             else (scan_check_complete p
                                     (update_data p (with_scan_status ScanEnding) s0), false)
                        else (s, false)
                    | None => (s, false)
                    end).
  all: assert (covers s turn.1) as Hturn.
  1,3: unfold turn; destruct (get_data s p) as [d|]; [|apply covers_refl];
       destruct (status_eqb (scan_status d) ScanActive); [|apply covers_refl];
       destruct (covers_scan_queue_next_row (length (m_entries d)) p s) as [Hrow _];
       destruct (scan_queue_next_row (length (m_entries d)) p s) as [s0 found];
       cbn [fst] in Hrow; destruct found; cbn [fst]; [exact Hrow|];
       (eapply covers_trans; [exact Hrow|apply covers_scan_check_complete]).
  all: destruct turn as [s' found]; cbn [fst] in Hturn; destruct found; cbn [fst];
    [exact Hturn|].
  all: eapply covers_trans; [exact Hturn|].
  - apply (covers_get_data _ _ []); [by rewrite app_nil_r|done].
  - eapply covers_trans; [|apply IH].
    apply (covers_get_data _ _ []); [by rewrite app_nil_r|done].
Qed.

Lemma covers_scan_schedule (s : State) : covers s (scan_schedule s).
Proof.
  unfold scan_schedule. destruct (scan_count_scheduled (scan_list s) 0) as [n|];
    [|apply covers_refl].
  generalize (Z.to_nat (SCAN_THREADS - n)). intros fuel. revert n s.
  assert (∀ s, covers s (scan_queue_next_entry s).1) as Hentry.
  { intros s. unfold scan_queue_next_entry. destruct (negb (scan_enabled s));
      [apply covers_refl|apply covers_scan_queue_next_playlist]. }
  induction fuel as [|fuel IH]; intros n s; cbn [scan_schedule_more];
    specialize (Hentry s); destruct (scan_queue_next_entry s) as [s' queued];
    cbn [fst] in Hentry; destruct queued; try done;
    destruct (SCAN_THREADS <=? n + 1); try done.
  eapply covers_trans; [exact Hentry|apply IH].
Qed.

Lemma scan_in_progress_any_idle (s : State) :
  (∀ p d, p ∈ playlists s → get_data s p = Some d → scan_status d = NotScanning) →
  scan_in_progress_any s = false.
Proof.
  unfold scan_in_progress_any. induction (playlists s) as [|p ps IH]; intros Hidle; [done|].
  cbn [foldl]. destruct (get_data s p) as [d|] eqn:Hd.
  - rewrite (Hidle p d) by (done || left). cbn [status_eqb negb].
    apply IH. intros q dq Hq. apply Hidle. by right.
  - apply IH. intros q dq Hq. apply Hidle. by right.
Qed.

(** X27.  A scan with nothing left to do is over.  Say that the playlists
    whose scan is ending all have a scan in flight.  Then this is so
    after [scan_restart] too, with scanning enabled: a playlist that has
    no entry left to scan and no scan in flight is [NotScanning] at once.
    Hence when [scan_restart] leaves no scan in flight,
    [scan_in_progress_any] is false. *)
Theorem scan_restart_completes (s : State) :
  scan_enabled s = true → ending_covered s →
  ending_covered (scan_restart s)
  ∧ (scan_list (scan_restart s) = [] → scan_in_progress_any (scan_restart s) = false).
Proof.
  intros Henabled Hinv.
  assert (ending_covered (scan_restart s)) as Hinv'.
  { apply (covers_ending s); [done|]. unfold scan_restart.
    eapply covers_trans; [|apply covers_scan_schedule].
    apply (covers_get_data _ _ []); [by rewrite app_nil_r|done]. }
  split; [done|]. intros Hempty.
  assert (playlists (scan_restart s) = playlists s) as Hpl
    by apply playlists_of_view, reg_view_scan_restart.
  apply scan_in_progress_any_idle. intros p d Hp Hd. rewrite Hpl in Hp.
  destruct (scan_status d) eqn:Hstatus; [done|exfalso..].
  - assert (SCAN_THREADS ≤ len (scan_list (scan_restart s))
            ∨ ∀ p d, p ∈ playlists s → get_data (scan_restart s) p = Some d →
                scan_status d ≠ ScanActive) as [Hfull|Hnone].
    { unfold scan_restart.
      by apply (scan_schedule_settles (with_scan_row 0 (with_scan_playlist 0 s))). }
    + rewrite Hempty in Hfull. by cbv in Hfull.
    + by apply (Hnone p d).
  - destruct (Hinv' p d Hd Hstatus) as (item & Hitem & _).
    rewrite Hempty in Hitem. by apply elem_of_nil in Hitem.
Qed.

Lemma registry_inv_scanned_State : registry_inv scanned_State.
Proof.
  unfold scanned_State.
  eapply registry_inv_reg_view; [|apply registry_inv_two_songs_State].
  by rewrite reg_view_with_scan_enabled, reg_view_update_data.
Qed.

(** The one song of [scanned_State] has its tuple: the scan that the
    playlist waits for is over as soon as the scheduler runs. *)
Lemma scan_restart_completes_witness :
  scan_in_progress_any scanned_State = true
  ∧ scan_in_progress_any (scan_restart scanned_State) = false.
Proof.
  split; [vm_compute; reflexivity|].
  apply (scan_restart_completes scanned_State); [vm_compute; reflexivity| |].
  - intros p d Hd Hending.
    assert (p ∈ playlists scanned_State) as Hp
      by (apply (inv_live _ registry_inv_scanned_State); by exists d).
    assert (playlists scanned_State = [1000]) as Hps by (vm_compute; reflexivity).
    rewrite Hps in Hp. apply list_elem_of_singleton in Hp as ->.
    vm_compute in Hd. injection Hd as <-. discriminate.
  - vm_compute. reflexivity.
Defined.
